(** * A shallow embedding of the evaluator of the lambda-calculus interpreter

    The development follows the C++ sources:
    - [ast.h] and the tail of [eval.cpp]: the term type and [clone];
    - [eval.cpp] (the self-contained reducer with the single-pass context
      inliner): module [Eval];
    - [util.cpp] (the fixed-point inliner, the depth-aware variable search
      and the alpha-equivalence check): module [Util];
    - the second [eval.cpp] (the reducer that also looks at the argument of
      a stuck application, built on [util.cpp]): module [Eval2];
    - [parser.cpp]: module [Parser], and [lexer.cpp] with the string views
      of [zbuf.h] (module [zbuf]), over the two functions of utf8proc that
      the lexer calls (class [Utf8proc]);
    - [highlight.cpp]: module [Printer];
    - [split_string] of [file.cpp], and [trim] of [repl.cpp] (module
      [View]).

    Conventions.
    - A pointer into a tree ([Expr*], [Lambda*], [const Var*], and a slot
      [Expr**]) is the path from the root of that tree to the node.
    - A call that reaches [abort()] yields [Abort].
    - The two unbounded loops take fuel; running out of fuel is [None].
    - Source locations ([loc], [argloc]) are copied around unchanged by every
      function and are read by the printer only; they are left out. *)

From Stdlib Require Import ZArith List String Ascii Lia Permutation.
From stdpp Require Import gmap strings list sorting.

Open Scope string_scope.
Open Scope Z_scope.
Open Scope list_scope.

(** ** Calls that may abort *)

Inductive result (A : Type) : Type :=
| Ret (a : A)
| Abort.
Arguments Ret {A} a.
Arguments Abort {A}.

#[global] Instance result_ret : MRet result := @Ret.
#[global] Instance result_bind : MBind result :=
  fun A B f m => match m with Ret a => f a | Abort => Abort end.

(** ** ast.h: the term type *)

Inductive Expr : Type :=
| Var (name : string)
| Apply (fn arg : Expr)
| Lambda (arg : string) (body : Expr)
| Let (name : string) (value : Expr).

#[global] Instance Expr_eq_dec : EqDecision Expr.
Proof. solve_decision. Defined.

(** [Var::clone], [Apply::clone], [Lambda::clone], [Let::clone]. *)
Fixpoint clone (e : Expr) : Expr :=
  match e with
  | Var name => Var name
  | Apply fn arg => Apply (clone fn) (clone arg)
  | Lambda arg body => Lambda arg (clone body)
  | Let name value => Let name (clone value)
  end.

(** ** Pointers as paths *)

Inductive dir : Type := DFn | DArg | DBody | DValue.

#[global] Instance dir_eq_dec : EqDecision dir.
Proof. solve_decision. Defined.

Abbreviation ptr := (list dir) (only parsing).

(** A [const Var*]: where the node is, and the name it holds. *)
Abbreviation VarPtr := (list dir * string)%type (only parsing).

(** [*p], for [p] a path below [root]. *)
Fixpoint load (root : Expr) (p : ptr) : option Expr :=
  match p with
  | [] => Some root
  | d :: p' =>
      match d, root with
      | DFn, Apply fn _ => load fn p'
      | DArg, Apply _ arg => load arg p'
      | DBody, Lambda _ body => load body p'
      | DValue, Let _ value => load value p'
      | _, _ => None
      end
  end.

(** [*p = v]. A path that leaves the tree names no slot; the tree is
    returned as it is. *)
Fixpoint store (root : Expr) (p : ptr) (v : Expr) : Expr :=
  match p with
  | [] => v
  | d :: p' =>
      match d, root with
      | DFn, Apply fn arg => Apply (store fn p' v) arg
      | DArg, Apply fn arg => Apply fn (store arg p' v)
      | DBody, Lambda x body => Lambda x (store body p' v)
      | DValue, Let n value => Let n (store value p' v)
      | _, _ => root
      end
  end.

(** Run [f] on the node at [p], in place. *)
Definition modify (root : Expr) (p : ptr) (f : Expr -> result Expr) : result Expr :=
  match load root p with
  | Some e => e' ← f e; Ret (store root p e')
  | None => Ret root
  end.

(** ** defs.h: flags and the context *)

Definition FLAG_ABBREV_LAMBDA : Z := 0x1.
Definition FLAG_ABBREV_PARENS : Z := 0x2.
Definition FLAG_HASKELL_STYLE : Z := 0x4.
Definition FLAG_NO_PRINT : Z := 0x8.
Definition FLAG_TRACE : Z := 0x10.
Definition FLAG_FULL_TRACE : Z := 0x20.
Definition FLAG_VAR_REPLACEMENT : Z := 0x40.

Record Context : Type := mkContext {
  flags : Z;
  vars : gmap string Expr
}.

(** ** The trace

    [print_trace] writes one line when [FLAG_TRACE] is set.  A line is kept
    as the data it is formatted from.  The before/after pictures that
    [do_transform] adds under [FLAG_FULL_TRACE] come from the highlighter
    and are not part of the model. *)

Inductive event : Type :=
| EvDefined (name : string) (redefined : bool)
| EvStart (e : Expr)
| EvAlpha (step : Z) (old fresh : string)
| EvBeta (step : Z) (param : string) (arg : Expr)
| EvDone.

#[global] Instance event_eq_dec : EqDecision event.
Proof. solve_decision. Defined.

(** The step counter ([int& step]) and what has been printed so far. *)
Record tracer : Type := mkTracer {
  step : Z;
  out : list event
}.

Definition print_trace (print_flags : Z) (ev : event) (o : list event) : list event :=
  if decide (Z.land print_flags FLAG_TRACE = 0) then o else o ++ [ev].

(** ** Functions with the same text in [eval.cpp] and [util.cpp] *)

Definition fresh_name (name : string) : string := name +:+ "'".

(** [alpha_conversion(e, name, fresh)].  It rewrites [e] in place and
    returns it; a [Var] that is renamed is replaced by a new node. *)
Fixpoint alpha_conversion (e : Expr) (name fresh : string) : result Expr :=
  match e with
  | Var n => if decide (n = name) then Ret (Var fresh) else Ret (Var n)
  | Apply fn arg =>
      fn' ← alpha_conversion fn name fresh;
      arg' ← alpha_conversion arg name fresh;
      Ret (Apply fn' arg')
  | Lambda x body =>
      if decide (x = fresh) then
        let fresher := fresh_name fresh in
        body' ← alpha_conversion body fresh fresher;
        Ret (Lambda fresher body')
      else
        let x' := if decide (x = name) then fresh else x in
        body' ← alpha_conversion body name fresh;
        Ret (Lambda x' body')
  | Let _ _ => Abort
  end.

(** [find_substitutions(expr, var)]: [p] is the slot [expr], [e] is [*expr]. *)
Fixpoint find_substitutions (p : ptr) (e : Expr) (var : string) : result (list ptr) :=
  match e with
  | Var n => if decide (n = var) then Ret [p] else Ret []
  | Apply fn arg =>
      ret ← find_substitutions (p ++ [DFn]) fn var;
      tmp ← find_substitutions (p ++ [DArg]) arg var;
      Ret (ret ++ tmp)
  | Lambda x body =>
      if decide (x ≠ var) then find_substitutions (p ++ [DBody]) body var
      else Ret []
  | Let _ _ => Abort
  end.

(** [substitute(expr, vars, value)]: every slot gets its own clone. *)
Definition substitute (expr : Expr) (vars : list ptr) (value : Expr) : Expr :=
  fold_left (fun e v => store e v (clone value)) vars expr.

(** [std::map::insert]: an existing key keeps its value. *)
Definition map_insert {V : Type} (k : string) (v : V) (m : gmap string V) : gmap string V :=
  match m !! k with
  | Some _ => m
  | None => <[k := v]> m
  end.

(** [func->arg] and [func->body], for a node that is a [Lambda]. *)
Definition lambda_arg (func : Expr) : string :=
  match func with Lambda x _ => x | _ => "" end.

Definition lambda_body (func : Expr) : Expr :=
  match func with Lambda _ body => body | _ => func end.

(** [eval.cpp] and the second [eval.cpp] have the same loop
    [for(auto v : free)] in [beta_reduction]: each free variable of the
    argument whose name is a key of [bound] renames, in place, the lambda
    that [bound] holds for it, and counts as one step. *)
Fixpoint rename_conflicts (print_flags : Z) (bound : gmap string ptr)
    (free : list VarPtr) (func : Expr) (t : tracer) : result (Expr * tracer) :=
  match free with
  | [] => Ret (func, t)
  | v :: free' =>
      let f := v.2 in
      match bound !! f with
      | Some l =>
          let o := print_trace print_flags (EvAlpha (step t) f (fresh_name f)) (out t) in
          func' ← modify func l (fun e => alpha_conversion e f (fresh_name f));
          rename_conflicts print_flags bound free' func' (mkTracer (step t + 1) o)
      | None => rename_conflicts print_flags bound free' func t
      end
  end.

(** The rest of the [Lambda] branch of [beta_reduction]: substitute and
    hand back the body. *)
Definition contract (print_flags : Z) (func arg : Expr) (t : tracer)
    : result (option Expr * tracer) :=
  substs ← find_substitutions [DBody] (lambda_body func) (lambda_arg func);
  let o := print_trace print_flags (EvBeta (step t) (lambda_arg func) arg) (out t) in
  let ret := substitute func substs arg in
  Ret (Some (lambda_body ret), mkTracer (step t + 1) o).

(** * eval.cpp *)

Module Eval.

(** [replace_vars(ctx, free_vars, expr)]; [p] is where [expr] sits in the
    tree that [free_vars] points into. *)
Fixpoint replace_vars (ctx : Context) (free_vars : list VarPtr) (p : ptr)
    (expr : Expr) : result Expr :=
  match expr with
  | Var name =>
      if decide ((p, name) ∈ free_vars) then
        match vars ctx !! name with
        | Some e => Ret (clone e)
        | None => Ret (clone (Var name))
        end
      else Ret (clone (Var name))
  | Apply fn arg =>
      fn' ← replace_vars ctx free_vars (p ++ [DFn]) fn;
      arg' ← replace_vars ctx free_vars (p ++ [DArg]) arg;
      Ret (Apply fn' arg')
  | Lambda x body =>
      body' ← replace_vars ctx free_vars (p ++ [DBody]) body;
      Ret (Lambda x body')
  | Let _ _ => Abort
  end.

(** [_find_variables<true>]: [p] is [expr] as a pointer.  The range
    [insert]s of the [Apply] case keep the first value of a key, which is
    what the left-biased union does. *)
Fixpoint _find_variables_bound (seen : gmap string ptr) (p : ptr) (expr : Expr)
    : result (gmap string ptr) :=
  match expr with
  | Var name =>
      match seen !! name with
      | Some l => Ret {[ name := l ]}
      | None => Ret ∅
      end
  | Apply fn arg =>
      x ← _find_variables_bound seen (p ++ [DFn]) fn;
      y ← _find_variables_bound seen (p ++ [DArg]) arg;
      Ret ((∅ ∪ x) ∪ y)
  | Lambda x body =>
      _find_variables_bound (map_insert x p seen) (p ++ [DBody]) body
  | Let _ _ => Abort
  end.

(** [_find_variables<false>]: the set of pointers, listed in the order of
    the walk. *)
Fixpoint _find_variables_free (seen : gmap string ptr) (p : ptr) (expr : Expr)
    : result (list VarPtr) :=
  match expr with
  | Var name =>
      match seen !! name with
      | None => Ret [(p, name)]
      | Some _ => Ret []
      end
  | Apply fn arg =>
      x ← _find_variables_free seen (p ++ [DFn]) fn;
      y ← _find_variables_free seen (p ++ [DArg]) arg;
      Ret (x ++ y)
  | Lambda x body =>
      _find_variables_free (map_insert x p seen) (p ++ [DBody]) body
  | Let _ _ => Abort
  end.

Definition find_free_variables (expr : Expr) : result (list VarPtr) :=
  _find_variables_free ∅ [] expr.

Definition find_bound_variables (expr : Expr) : result (gmap string ptr) :=
  _find_variables_bound ∅ [] expr.

Section Reducer.

(** A [std::set<const Var*>] is walked in the order of the addresses of its
    elements, which the allocator decides: [addr_order s] is that order at
    the time when the step counter stands at [s]. *)
Variable addr_order : Z -> list VarPtr -> list VarPtr.

Fixpoint beta_reduction (print_flags : Z) (t : tracer) (app : Expr)
    : result (option Expr * tracer) :=
  match app with
  | Apply (Lambda _ _ as func) arg =>
      free ← find_free_variables arg;
      bound ← find_bound_variables func;
      '(func', t') ← rename_conflicts print_flags bound (addr_order (step t) free) func t;
      contract print_flags func' arg t'
  | Apply (Apply _ _ as a) arg =>
      '(red, t') ← beta_reduction print_flags t a;
      match red with
      | Some red => Ret (Some (Apply red arg), t')
      | None => Ret (None, t')
      end
  | _ => Ret (None, t)
  end.

Fixpoint eval (print_flags : Z) (t : tracer) (expr : Expr)
    : result (option Expr * tracer) :=
  match expr with
  | Apply _ _ => beta_reduction print_flags t expr
  | Lambda x body =>
      '(body', t') ← eval print_flags t body;
      match body' with
      | Some body' => Ret (Some (Lambda x body'), t')
      | None => Ret (None, t')
      end
  | _ => Ret (None, t)
  end.

(** The loop of [evaluate]. *)
Fixpoint evaluate_loop (fuel : nat) (print_flags : Z) (t : tracer) (copy : Expr)
    : option (result (Expr * tracer)) :=
  match fuel with
  | O => None
  | S fuel' =>
      match eval print_flags t copy with
      | Abort => Some Abort
      | Ret (None, t') => Some (Ret (copy, t'))
      | Ret (Some next, t') => evaluate_loop fuel' print_flags t' next
      end
  end.

(** [evaluate(ctx, expr, print_flags)]: the context after the call, the
    term returned and the lines printed. *)
Definition evaluate (fuel : nat) (ctx : Context) (expr : Expr) (print_flags : Z)
    : option (result (Context * Expr * list event)) :=
  match expr with
  | Let name value =>
      let redefined := bool_decide (is_Some (vars ctx !! name)) in
      let ctx' := mkContext (flags ctx) (<[ name := clone value ]> (vars ctx)) in
      Some (Ret (ctx', value, print_trace print_flags (EvDefined name redefined) []))
  | _ =>
      match free ← find_free_variables expr; replace_vars ctx free [] expr with
      | Abort => Some Abort
      | Ret copy =>
          let o := print_trace print_flags (EvStart copy) [] in
          match evaluate_loop fuel print_flags (mkTracer 1 o) copy with
          | None => None
          | Some Abort => Some Abort
          | Some (Ret (copy', t)) =>
              Some (Ret (ctx, copy', print_trace print_flags EvDone (out t)))
          end
      end
  end.

End Reducer.

End Eval.

(** * util.cpp *)

Module Util.

Definition INT_MAX : Z := 2147483647.

(** [replace_vars_once(ctx, free_vars, expr)]: the new tree, and whether a
    variable was replaced. *)
Fixpoint replace_vars_once (ctx : Context) (free_vars : list VarPtr) (p : ptr)
    (expr : Expr) : result (Expr * bool) :=
  match expr with
  | Var name =>
      if decide ((p, name) ∈ free_vars) then
        match vars ctx !! name with
        | Some e => Ret (clone e, true)
        | None => Ret (clone (Var name), false)
        end
      else Ret (clone (Var name), false)
  | Apply fn arg =>
      x ← replace_vars_once ctx free_vars (p ++ [DFn]) fn;
      y ← replace_vars_once ctx free_vars (p ++ [DArg]) arg;
      Ret (Apply x.1 y.1, x.2 || y.2)
  | Lambda x body =>
      body' ← replace_vars_once ctx free_vars (p ++ [DBody]) body;
      Ret (Lambda x body'.1, body'.2)
  | Let _ _ => Abort
  end.

(** [_find_variables<true, MaxDepth>(seen, expr, depth)].  The recursive
    calls name [Bound] only, so they run with the defaults of the other
    parameters: [INT_MAX] for [MaxDepth] and, under [Apply], 0 for
    [depth]. *)
Fixpoint _find_variables_bound (MaxDepth : Z) (seen : gmap string ptr) (p : ptr)
    (expr : Expr) (depth : Z) : result (gmap string ptr) :=
  match expr with
  | Var name =>
      match seen !! name with
      | Some l => Ret {[ name := l ]}
      | None => Ret ∅
      end
  | Apply fn arg =>
      x ← _find_variables_bound INT_MAX seen (p ++ [DFn]) fn 0;
      y ← _find_variables_bound INT_MAX seen (p ++ [DArg]) arg 0;
      Ret ((∅ ∪ x) ∪ y)
  | Lambda x body =>
      if decide (depth < MaxDepth) then
        _find_variables_bound INT_MAX (map_insert x p seen) (p ++ [DBody]) body (1 + depth)
      else Ret ∅
  | Let _ _ => Abort
  end.

(** [_find_variables<false, MaxDepth>(seen, expr, depth)]. *)
Fixpoint _find_variables_free (MaxDepth : Z) (seen : gmap string ptr) (p : ptr)
    (expr : Expr) (depth : Z) : result (list VarPtr) :=
  match expr with
  | Var name =>
      match seen !! name with
      | None => Ret [(p, name)]
      | Some _ => Ret []
      end
  | Apply fn arg =>
      x ← _find_variables_free INT_MAX seen (p ++ [DFn]) fn 0;
      y ← _find_variables_free INT_MAX seen (p ++ [DArg]) arg 0;
      Ret (x ++ y)
  | Lambda x body =>
      if decide (depth < MaxDepth) then
        _find_variables_free INT_MAX (map_insert x p seen) (p ++ [DBody]) body (1 + depth)
      else Ret []
  | Let _ _ => Abort
  end.

Definition find_free_variables (expr : Expr) : result (list VarPtr) :=
  _find_variables_free INT_MAX ∅ [] expr 0.

Definition find_bound_variables (expr : Expr) : result (gmap string ptr) :=
  _find_variables_bound INT_MAX ∅ [] expr 0.

(** [replace_vars(ctx, expr)]: inline until a pass replaces nothing. *)
Fixpoint replace_vars (fuel : nat) (ctx : Context) (ret : Expr) : option (result Expr) :=
  match fuel with
  | O => None
  | S fuel' =>
      match free ← find_free_variables ret; replace_vars_once ctx free [] ret with
      | Abort => Some Abort
      | Ret (next, changed) =>
          if changed : bool then replace_vars fuel' ctx next else Some (Ret next)
      end
  end.

(** The [type] tag of a node. *)
Definition EXPR_VAR : Z := 1.
Definition EXPR_APPLY : Z := 2.
Definition EXPR_LAMBDA : Z := 3.
Definition EXPR_LET : Z := 4.

Definition type (e : Expr) : Z :=
  match e with
  | Var _ => EXPR_VAR
  | Apply _ _ => EXPR_APPLY
  | Lambda _ _ => EXPR_LAMBDA
  | Let _ _ => EXPR_LET
  end.

Record CheckState : Type := mkCheckState {
  var_depths : gmap string Z;
  bindings : gmap string ptr
}.

(** The set of names of a set of variables ([map(free_a, foo)]). *)
Definition names (vs : list VarPtr) : gset string := list_to_set (snd <$> vs).

(** [alpha_equivalent(a, b, cur_depth, sta, stb)]; [pa] and [pb] are [a]
    and [b] as pointers. *)
Fixpoint alpha_equivalent (a b : Expr) (pa pb : ptr) (cur_depth : Z)
    (sta stb : CheckState) : result bool :=
  if decide (type a ≠ type b) then Ret false
  else
    free_a ← _find_variables_free 1 (bindings sta) pa a 0;
    free_b ← _find_variables_free 1 (bindings stb) pb b 0;
    if decide (names free_a ≠ names free_b) then Ret false
    else
      match a, b with
      | Var n1, Var n2 =>
          match var_depths sta !! n1, var_depths stb !! n2 with
          | Some da, Some db => Ret (bool_decide (da = db))
          | _, _ => Ret false
          end
      | Apply fn1 arg1, Apply fn2 arg2 =>
          r ← alpha_equivalent fn1 fn2 (pa ++ [DFn]) (pb ++ [DFn]) cur_depth sta stb;
          if r : bool then
            alpha_equivalent arg1 arg2 (pa ++ [DArg]) (pb ++ [DArg]) cur_depth sta stb
          else Ret false
      | Lambda x1 body1, Lambda x2 body2 =>
          let sta1 := mkCheckState (<[ x1 := cur_depth ]> (var_depths sta))
                                   (<[ x1 := pa ]> (bindings sta)) in
          let stb1 := mkCheckState (<[ x2 := cur_depth ]> (var_depths stb))
                                   (<[ x2 := pb ]> (bindings stb)) in
          alpha_equivalent body1 body2 (pa ++ [DBody]) (pb ++ [DBody])
            (cur_depth + 1) sta1 stb1
      | _, _ => Abort
      end.

Definition empty_state : CheckState := mkCheckState ∅ ∅.

End Util.

(** * The second eval.cpp *)

Module Eval2.

Section Reducer.

Variable addr_order : Z -> list VarPtr -> list VarPtr.

Fixpoint beta_reduction (print_flags : Z) (t : tracer) (app : Expr)
    : result (option Expr * tracer) :=
  match app with
  | Apply (Lambda _ _ as func) arg =>
      free ← Util.find_free_variables arg;
      bound ← Util.find_bound_variables func;
      '(func', t') ← rename_conflicts print_flags bound (addr_order (step t) free) func t;
      contract print_flags func' arg t'
  | Apply (Apply _ _ as a) arg =>
      '(red, t') ← beta_reduction print_flags t a;
      match red with
      | Some red => Ret (Some (Apply red arg), t')
      | None => Ret (None, t')
      end
  | Apply fn (Apply _ _ as a) =>
      '(red, t') ← beta_reduction print_flags t a;
      match red with
      | Some red => Ret (Some (Apply fn red), t')
      | None => Ret (None, t')
      end
  | _ => Ret (None, t)
  end.

Fixpoint eval (print_flags : Z) (t : tracer) (expr : Expr)
    : result (option Expr * tracer) :=
  match expr with
  | Apply _ _ => beta_reduction print_flags t expr
  | Lambda x body =>
      '(body', t') ← eval print_flags t body;
      match body' with
      | Some body' => Ret (Some (Lambda x body'), t')
      | None => Ret (None, t')
      end
  | _ => Ret (None, t)
  end.

Fixpoint evaluate_loop (fuel : nat) (print_flags : Z) (t : tracer) (copy : Expr)
    : option (result (Expr * tracer)) :=
  match fuel with
  | O => None
  | S fuel' =>
      match eval print_flags t copy with
      | Abort => Some Abort
      | Ret (None, t') => Some (Ret (copy, t'))
      | Ret (Some next, t') => evaluate_loop fuel' print_flags t' next
      end
  end.

(** [evaluate(ctx, expr, print_flags)], with one fuel for the inliner and
    one for the reduction loop. *)
Definition evaluate (fuel_inline fuel : nat) (ctx : Context) (expr : Expr)
    (print_flags : Z) : option (result (Context * Expr * list event)) :=
  match expr with
  | Let name value =>
      let redefined := bool_decide (is_Some (vars ctx !! name)) in
      let ctx' := mkContext (flags ctx) (<[ name := clone value ]> (vars ctx)) in
      Some (Ret (ctx', value, print_trace print_flags (EvDefined name redefined) []))
  | _ =>
      match Util.replace_vars fuel_inline ctx expr with
      | None => None
      | Some Abort => Some Abort
      | Some (Ret copy) =>
          let o := print_trace print_flags (EvStart copy) [] in
          match evaluate_loop fuel print_flags (mkTracer 1 o) copy with
          | None => None
          | Some Abort => Some Abort
          | Some (Ret (copy', t)) =>
              Some (Ret (ctx, copy', print_trace print_flags EvDone (out t)))
          end
      end
  end.

(** [alpha_equivalent(ctx, a, b)] of [util.cpp]: [b] is evaluated first. *)
Definition alpha_equivalent (fuel_inline fuel : nat) (ctx : Context) (a b : Expr)
    : option (result bool) :=
  match evaluate fuel_inline fuel ctx b 0 with
  | None => None
  | Some Abort => Some Abort
  | Some (Ret (_, bb, _)) =>
      Some (Util.alpha_equivalent a bb [] [] 0 Util.empty_state Util.empty_state)
  end.

End Reducer.

End Eval2.

(** * eval.cpp on the heap

    The functions of [eval.cpp] once more, this time on a store of nodes
    with the writes through pointers written out, for the statements about
    what a call leaves untouched.  A walk takes fuel, since a store need
    not hold a tree; [None] is a call that does not return: no fuel left,
    [abort()], or a pointer to no node.  A term that is printed is read
    back from the store. *)

Module Heap.

Abbreviation addr := positive (only parsing).

Inductive node : Type :=
| NVar (name : string)
| NApply (fn arg : addr)
| NLambda (arg : string) (body : addr)
| NLet (name : string) (value : addr).

#[global] Instance node_eq_dec : EqDecision node.
Proof. solve_decision. Defined.

(** An [Expr**]: the local [copy] of [evaluate], or a field of a node. *)
Inductive slot : Type :=
| SCopy
| SFn (a : addr)
| SArg (a : addr)
| SBody (l : addr).

(** The nodes, the local [copy] of [evaluate], and the step counter with
    the lines printed. *)
Record machine : Type := mkMachine {
  mem : gmap addr node;
  copy : addr;
  log : tracer
}.

(** [ctx.vars], a map from names to trees in the store. *)
Abbreviation context := (gmap string addr) (only parsing).

Definition set_mem (h : gmap addr node) (m : machine) : machine :=
  mkMachine h (copy m) (log m).

Definition set_copy (v : addr) (m : machine) : machine :=
  mkMachine (mem m) v (log m).

(** [print_trace] of a line that is not a step. *)
Definition trace_line (print_flags : Z) (ev : event) (m : machine) : machine :=
  mkMachine (mem m) (copy m)
    (mkTracer (step (log m)) (print_trace print_flags ev (out (log m)))).

(** [print_trace] of a step, with [step++] among its arguments. *)
Definition trace_step (print_flags : Z) (ev : Z -> event) (m : machine) : machine :=
  mkMachine (mem m) (copy m)
    (mkTracer (step (log m) + 1)
       (print_trace print_flags (ev (step (log m))) (out (log m)))).

(** [*s]. *)
Definition deref (s : slot) (m : machine) : option addr :=
  match s with
  | SCopy => Some (copy m)
  | SFn a => match mem m !! a with Some (NApply fn _) => Some fn | _ => None end
  | SArg a => match mem m !! a with Some (NApply _ arg) => Some arg | _ => None end
  | SBody l => match mem m !! l with Some (NLambda _ body) => Some body | _ => None end
  end.

(** [*s = v]. *)
Definition assign (s : slot) (v : addr) (m : machine) : option machine :=
  match s with
  | SCopy => Some (set_copy v m)
  | SFn a =>
      match mem m !! a with
      | Some (NApply _ arg) => Some (set_mem (<[ a := NApply v arg ]> (mem m)) m)
      | _ => None
      end
  | SArg a =>
      match mem m !! a with
      | Some (NApply fn _) => Some (set_mem (<[ a := NApply fn v ]> (mem m)) m)
      | _ => None
      end
  | SBody l =>
      match mem m !! l with
      | Some (NLambda x _) => Some (set_mem (<[ l := NLambda x v ]> (mem m)) m)
      | _ => None
      end
  end.

(** [l->arg = x]. *)
Definition set_param (l : addr) (x : string) (m : machine) : option machine :=
  match mem m !! l with
  | Some (NLambda _ body) => Some (set_mem (<[ l := NLambda x body ]> (mem m)) m)
  | _ => None
  end.

(** The tree below a pointer, read back. *)
Fixpoint reify (fuel : nat) (h : gmap addr node) (p : addr) : option Expr :=
  match fuel with
  | O => None
  | S fuel =>
      match h !! p with
      | Some (NVar n) => Some (Var n)
      | Some (NApply fn arg) =>
          fn' ← reify fuel h fn; arg' ← reify fuel h arg; Some (Apply fn' arg')
      | Some (NLambda x body) => body' ← reify fuel h body; Some (Lambda x body')
      | Some (NLet n value) => value' ← reify fuel h value; Some (Let n value')
      | None => None
      end
  end.

Section Allocator.

(** [new] takes an address that holds no node. *)
Variable alloc : gmap addr node -> addr.

Definition new (n : node) (m : machine) : addr * machine :=
  let a := alloc (mem m) in (a, set_mem (<[ a := n ]> (mem m)) m).

(** [e->clone()]. *)
Fixpoint clone (fuel : nat) (e : addr) (m : machine) : option (addr * machine) :=
  match fuel with
  | O => None
  | S fuel =>
      match mem m !! e with
      | Some (NVar n) => Some (new (NVar n) m)
      | Some (NApply fn arg) =>
          '(fn', m) ← clone fuel fn m;
          '(arg', m) ← clone fuel arg m;
          Some (new (NApply fn' arg') m)
      | Some (NLambda x body) =>
          '(body', m) ← clone fuel body m;
          Some (new (NLambda x body') m)
      | Some (NLet n value) =>
          '(value', m) ← clone fuel value m;
          Some (new (NLet n value') m)
      | None => None
      end
  end.

(** [replace_vars(ctx, free_vars, expr)]. *)
Fixpoint replace_vars (fuel : nat) (ctx : context) (free_vars : list addr)
    (expr : addr) (m : machine) : option (addr * machine) :=
  match fuel with
  | O => None
  | S fuel =>
      match mem m !! expr with
      | Some (NVar name) =>
          if decide (expr ∈ free_vars) then
            match ctx !! name with
            | Some e => clone fuel e m
            | None => clone fuel expr m
            end
          else clone fuel expr m
      | Some (NApply fn arg) =>
          '(fn', m) ← replace_vars fuel ctx free_vars fn m;
          '(arg', m) ← replace_vars fuel ctx free_vars arg m;
          Some (new (NApply fn' arg') m)
      | Some (NLambda x body) =>
          '(body', m) ← replace_vars fuel ctx free_vars body m;
          Some (new (NLambda x body') m)
      | _ => None
      end
  end.

(** [_find_variables<false>(seen, expr)]. *)
Fixpoint _find_variables_free (fuel : nat) (seen : gmap string addr) (expr : addr)
    (m : machine) : option (list addr) :=
  match fuel with
  | O => None
  | S fuel =>
      match mem m !! expr with
      | Some (NVar name) =>
          match seen !! name with
          | None => Some [expr]
          | Some _ => Some []
          end
      | Some (NApply fn arg) =>
          x ← _find_variables_free fuel seen fn m;
          y ← _find_variables_free fuel seen arg m;
          Some (x ++ y)
      | Some (NLambda x body) =>
          _find_variables_free fuel (map_insert x expr seen) body m
      | _ => None
      end
  end.

(** [_find_variables<true>(seen, expr)]. *)
Fixpoint _find_variables_bound (fuel : nat) (seen : gmap string addr) (expr : addr)
    (m : machine) : option (gmap string addr) :=
  match fuel with
  | O => None
  | S fuel =>
      match mem m !! expr with
      | Some (NVar name) =>
          match seen !! name with
          | Some l => Some {[ name := l ]}
          | None => Some ∅
          end
      | Some (NApply fn arg) =>
          x ← _find_variables_bound fuel seen fn m;
          y ← _find_variables_bound fuel seen arg m;
          Some ((∅ ∪ x) ∪ y)
      | Some (NLambda x body) =>
          _find_variables_bound fuel (map_insert x expr seen) body m
      | _ => None
      end
  end.

(** [alpha_conversion(e, name, fresh)]: the fields are written as the
    source writes them, one after the other. *)
Fixpoint alpha_conversion (fuel : nat) (e : addr) (name fresh : string)
    (m : machine) : option (addr * machine) :=
  match fuel with
  | O => None
  | S fuel =>
      match mem m !! e with
      | Some (NVar n) =>
          if decide (n = name) then Some (new (NVar fresh) m) else Some (e, m)
      | Some (NApply _ _) =>
          fn ← deref (SFn e) m;
          '(fn', m) ← alpha_conversion fuel fn name fresh m;
          m ← assign (SFn e) fn' m;
          arg ← deref (SArg e) m;
          '(arg', m) ← alpha_conversion fuel arg name fresh m;
          m ← assign (SArg e) arg' m;
          Some (e, m)
      | Some (NLambda x _) =>
          if decide (x = fresh) then
            let fresher := fresh_name fresh in
            m ← set_param e fresher m;
            body ← deref (SBody e) m;
            '(body', m) ← alpha_conversion fuel body fresh fresher m;
            m ← assign (SBody e) body' m;
            Some (e, m)
          else
            m ← (if decide (x = name) then set_param e fresh m else Some m);
            body ← deref (SBody e) m;
            '(body', m) ← alpha_conversion fuel body name fresh m;
            m ← assign (SBody e) body' m;
            Some (e, m)
      | _ => None
      end
  end.

(** [find_substitutions(expr, var)]. *)
Fixpoint find_substitutions (fuel : nat) (expr : slot) (var : string)
    (m : machine) : option (list slot) :=
  match fuel with
  | O => None
  | S fuel =>
      e ← deref expr m;
      match mem m !! e with
      | Some (NVar n) => if decide (n = var) then Some [expr] else Some []
      | Some (NApply _ _) =>
          ret ← find_substitutions fuel (SFn e) var m;
          tmp ← find_substitutions fuel (SArg e) var m;
          Some (ret ++ tmp)
      | Some (NLambda x _) =>
          if decide (x ≠ var) then find_substitutions fuel (SBody e) var m
          else Some []
      | _ => None
      end
  end.

(** [substitute(expr, vars, value)]. *)
Fixpoint substitute (fuel : nat) (vars : list slot) (value : addr) (m : machine)
    : option machine :=
  match vars with
  | [] => Some m
  | v :: vars =>
      '(c, m) ← clone fuel value m;
      m ← assign v c m;
      substitute fuel vars value m
  end.

(** The loop [for(auto v : free)] of [beta_reduction]. *)
Fixpoint rename_conflicts (fuel : nat) (print_flags : Z) (bound : gmap string addr)
    (free : list addr) (m : machine) : option machine :=
  match free with
  | [] => Some m
  | v :: free =>
      match mem m !! v with
      | Some (NVar f) =>
          match bound !! f with
          | Some l =>
              let m := trace_step print_flags (fun s => EvAlpha s f (fresh_name f)) m in
              '(_, m) ← alpha_conversion fuel l f (fresh_name f) m;
              rename_conflicts fuel print_flags bound free m
          | None => rename_conflicts fuel print_flags bound free m
          end
      | _ => None
      end
  end.

(** [beta_reduction(app, parent)]; the set [free] is walked by address. *)
Fixpoint beta_reduction (fuel : nat) (print_flags : Z) (app : addr) (parent : slot)
    (m : machine) : option (option addr * machine) :=
  match fuel with
  | O => None
  | S fuel =>
      match mem m !! app with
      | Some (NApply fn arg) =>
          match mem m !! fn with
          | Some (NLambda _ _) =>
              let func := fn in
              free ← _find_variables_free fuel ∅ arg m;
              bound ← _find_variables_bound fuel ∅ func m;
              m ← rename_conflicts fuel print_flags bound (merge_sort Pos.le free) m;
              match mem m !! func with
              | Some (NLambda x _) =>
                  substs ← find_substitutions fuel (SBody func) x m;
                  printed ← reify fuel (mem m) arg;
                  let m := trace_step print_flags (fun s => EvBeta s x printed) m in
                  m ← substitute fuel substs arg m;
                  body ← deref (SBody func) m;
                  m ← assign parent body m;
                  Some (Some body, m)
              | _ => None
              end
          | Some (NApply _ _) =>
              '(red, m) ← beta_reduction fuel print_flags fn (SFn app) m;
              match red with
              | Some red => m ← assign (SFn app) red m; Some (Some app, m)
              | None => Some (None, m)
              end
          | Some _ => Some (None, m)
          | None => None
          end
      | _ => None
      end
  end.

(** [eval(whole, expr)]. *)
Fixpoint eval (fuel : nat) (print_flags : Z) (expr : slot) (m : machine)
    : option (option addr * machine) :=
  match fuel with
  | O => None
  | S fuel =>
      e ← deref expr m;
      match mem m !! e with
      | Some (NApply _ _) => beta_reduction fuel print_flags e expr m
      | Some (NLambda _ _) =>
          '(body, m) ← eval fuel print_flags (SBody e) m;
          match body with
          | Some body => m ← assign (SBody e) body m; Some (Some e, m)
          | None => Some (None, m)
          end
      | Some _ => Some (None, m)
      | None => None
      end
  end.

(** The loop of [evaluate]. *)
Fixpoint evaluate_loop (fuel : nat) (print_flags : Z) (m : machine) : option machine :=
  match fuel with
  | O => None
  | S fuel =>
      '(next, m) ← eval fuel print_flags SCopy m;
      match next with
      | None => Some m
      | Some next => evaluate_loop fuel print_flags (set_copy next m)
      end
  end.

(** [evaluate(ctx, expr, print_flags)]: the context and the store after
    the call, the pointer returned and the lines printed. *)
Definition evaluate (fuel : nat) (ctx : context) (expr : addr) (print_flags : Z)
    (h : gmap addr node) : option (context * addr * gmap addr node * list event) :=
  let m := mkMachine h expr (mkTracer 1 []) in
  match h !! expr with
  | Some (NLet name value) =>
      let redefined := bool_decide (is_Some (ctx !! name)) in
      '(c, m) ← clone fuel value m;
      let m := trace_line print_flags (EvDefined name redefined) m in
      Some (<[ name := c ]> ctx, value, mem m, out (log m))
  | Some _ =>
      free ← _find_variables_free fuel ∅ expr m;
      '(c, m) ← replace_vars fuel ctx free expr m;
      printed ← reify fuel (mem m) c;
      let m := trace_line print_flags (EvStart printed) (set_copy c m) in
      m ← evaluate_loop fuel print_flags m;
      let m := trace_line print_flags EvDone m in
      Some (ctx, copy m, mem m, out (log m))
  | None => None
  end.

End Allocator.

(** An allocator: an address that is not in use. *)
Definition bump (h : gmap addr node) : addr := fresh (dom h : gset positive).

(** Another allocator: the highest unused address up to [n], as of an
    arena that grows downwards, and an unused address above once the arena
    is full. *)
Fixpoint top_down (n : nat) (h : gmap addr node) : addr :=
  match n with
  | O => bump h
  | S n' =>
      match h !! Pos.of_succ_nat n' with
      | None => Pos.of_succ_nat n'
      | Some _ => top_down n' h
      end
  end.

(** Building a tree in the store. *)
Fixpoint build (e : Expr) (m : machine) : addr * machine :=
  match e with
  | Var n => new bump (NVar n) m
  | Apply fn arg =>
      let '(fn', m) := build fn m in
      let '(arg', m) := build arg m in
      new bump (NApply fn' arg') m
  | Lambda x body =>
      let '(body', m) := build body m in
      new bump (NLambda x body') m
  | Let n value =>
      let '(value', m) := build value m in
      new bump (NLet n value') m
  end.

End Heap.

(** * Vocabulary of the statements *)

(** An address order lists the same pointers, in some order. *)
Definition address_order (addr_order : Z -> list VarPtr -> list VarPtr) : Prop :=
  forall s l, addr_order s l ≡ₚ l.

(** Two address orders: the one of the walk, and its reverse. *)
Definition walk_order : Z -> list VarPtr -> list VarPtr := fun _ l => l.
Definition reverse_order : Z -> list VarPtr -> list VarPtr := fun _ l => reverse l.

(** The parser builds a [Let] at the root of a statement only; the walks
    over terms abort on one. *)
Fixpoint no_let (e : Expr) : bool :=
  match e with
  | Var _ => true
  | Apply fn arg => no_let fn && no_let arg
  | Lambda _ body => no_let body
  | Let _ _ => false
  end.

Definition is_let (e : Expr) : bool :=
  match e with Let _ _ => true | _ => false end.

Definition is_lambda (e : Expr) : bool :=
  match e with Lambda _ _ => true | _ => false end.

(** A redex is [(λx.B) A]; a normal form has no redex anywhere. *)
Fixpoint has_redex (e : Expr) : bool :=
  match e with
  | Var _ => false
  | Apply fn arg => is_lambda fn || has_redex fn || has_redex arg
  | Lambda _ body => has_redex body
  | Let _ value => has_redex value
  end.

(** The function at the bottom of a chain of applications. *)
Fixpoint spine_head (e : Expr) : Expr :=
  match e with
  | Apply fn _ => spine_head fn
  | _ => e
  end.

(** Head normal form: below the leading lambdas, the head of the
    application chain is not a lambda. *)
Fixpoint head_normal (e : Expr) : bool :=
  match e with
  | Lambda _ body => head_normal body
  | Apply fn _ => negb (is_lambda (spine_head fn))
  | _ => true
  end.

(** The names that occur free in a term whose enclosing binders are
    [scope]. *)
Fixpoint free_names (scope : gset string) (e : Expr) : gset string :=
  match e with
  | Var n => if decide (n ∈ scope) then ∅ else {[ n ]}
  | Apply fn arg => free_names scope fn ∪ free_names scope arg
  | Lambda x body => free_names ({[ x ]} ∪ scope) body
  | Let _ value => free_names scope value
  end.

(** How many times [x] occurs free. *)
Fixpoint count_free (scope : gset string) (x : string) (e : Expr) : nat :=
  match e with
  | Var n => if decide (n = x ∧ n ∉ scope) then 1%nat else 0%nat
  | Apply fn arg => (count_free scope x fn + count_free scope x arg)%nat
  | Lambda y body => count_free ({[ y ]} ∪ scope) x body
  | Let _ value => count_free scope x value
  end.

(** The parameters of the lambdas of a term. *)
Fixpoint binders (e : Expr) : gset string :=
  match e with
  | Var _ => ∅
  | Apply fn arg => binders fn ∪ binders arg
  | Lambda x body => {[ x ]} ∪ binders body
  | Let _ value => binders value
  end.

(** The names with an occurrence that some lambda of the term binds. *)
Fixpoint bound_names (scope : gset string) (e : Expr) : gset string :=
  match e with
  | Var n => if decide (n ∈ scope) then {[ n ]} else ∅
  | Apply fn arg => bound_names scope fn ∪ bound_names scope arg
  | Lambda x body => bound_names ({[ x ]} ∪ scope) body
  | Let _ value => bound_names scope value
  end.

Definition empty_ctx : Context := mkContext 0 ∅.

Definition is_reduction_event (ev : event) : bool :=
  match ev with
  | EvAlpha _ _ _ | EvBeta _ _ _ => true
  | _ => false
  end.

(** Whether a lambda with parameter [n] lies strictly above the node that
    [p] points to. *)
Fixpoint binder_above (n : string) (e : Expr) (p : ptr) : bool :=
  match p with
  | [] => false
  | d :: p' =>
      match d, e with
      | DFn, Apply fn _ => binder_above n fn p'
      | DArg, Apply _ arg => binder_above n arg p'
      | DBody, Lambda x body => bool_decide (x = n) || binder_above n body p'
      | DValue, Let _ value => binder_above n value p'
      | _, _ => false
      end
  end.

(** The search never reaches its depth limit: fewer than [INT_MAX] lambdas
    directly inside one another. *)
Fixpoint depth_ok (depth : Z) (e : Expr) : bool :=
  match e with
  | Var _ => true
  | Apply fn arg => depth_ok 0 fn && depth_ok 0 arg
  | Lambda _ body => bool_decide (depth < Util.INT_MAX) && depth_ok (1 + depth) body
  | Let _ _ => true
  end.

(** The greatest number of lambdas on a path from the root. *)
Fixpoint lam_depth (e : Expr) : Z :=
  match e with
  | Var _ => 0
  | Apply fn arg => lam_depth fn `max` lam_depth arg
  | Lambda _ body => 1 + lam_depth body
  | Let _ value => lam_depth value
  end.

(** Context substitution by scope: a variable that no enclosing lambda
    binds and that the context defines is replaced by its definition. *)
Fixpoint inline (scope : gset string) (ctx : Context) (e : Expr) : Expr :=
  match e with
  | Var n =>
      if decide (n ∈ scope) then Var n
      else match vars ctx !! n with Some v => v | None => Var n end
  | Apply fn arg => Apply (inline scope ctx fn) (inline scope ctx arg)
  | Lambda x body => Lambda x (inline ({[ x ]} ∪ scope) ctx body)
  | Let n v => Let n v
  end.

(** Whether that substitution replaces a variable. *)
Fixpoint inlines (scope : gset string) (ctx : Context) (e : Expr) : bool :=
  match e with
  | Var n =>
      if decide (n ∈ scope) then false
      else match vars ctx !! n with Some _ => true | None => false end
  | Apply fn arg => inlines scope ctx fn || inlines scope ctx arg
  | Lambda x body => inlines ({[ x ]} ∪ scope) ctx body
  | Let _ _ => false
  end.

(** The single pass of [evaluate] in [eval.cpp]. *)
Definition replace_vars_single (ctx : Context) (e : Expr) : result Expr :=
  free ← Eval.find_free_variables e; Eval.replace_vars ctx free [] e.

(** [k] alpha lines for [x], numbered from [s]. *)
Fixpoint alpha_events (s : Z) (x : string) (k : nat) : list event :=
  match k with
  | O => []
  | S k' => EvAlpha s x (fresh_name x) :: alpha_events (s + 1) x k'
  end.

(** Printing a list of lines. *)
Definition trace_all (print_flags : Z) (evs : list event) (o : list event) : list event :=
  fold_left (fun o ev => print_trace print_flags ev o) evs o.

(** The pointers of a set that hold the name [x]. *)
Definition count_named (x : string) (vs : list VarPtr) : nat :=
  length (filter (fun v => v.2 = x) vs).

(** The leftmost-outermost redex of a term, as a pointer: a redex at the
    root, else the one of the function, else the one of the argument; under
    a lambda, the one of its body. *)
Fixpoint leftmost_outermost (e : Expr) : option ptr :=
  match e with
  | Var _ => None
  | Apply fn arg =>
      if is_lambda fn then Some []
      else match leftmost_outermost fn with
           | Some p => Some (DFn :: p)
           | None => (cons DArg) <$> leftmost_outermost arg
           end
  | Lambda _ body => (cons DBody) <$> leftmost_outermost body
  | Let _ _ => None
  end.

(** One step of the search rewrote [e] into [e']: it contracted the
    leftmost-outermost redex of [e], where it stood. *)
Definition contracts_leftmost_outermost
    (beta_reduction : tracer -> Expr -> result (option Expr * tracer))
    (t : tracer) (e e' : Expr) (t' : tracer) : Prop :=
  exists p fn arg r,
    leftmost_outermost e = Some p
    /\ load e p = Some (Apply fn arg) /\ is_lambda fn = true
    /\ beta_reduction t (Apply fn arg) = Ret (Some r, t')
    /\ e' = store e p r.

Definition is_let_node (n : option Heap.node) : bool :=
  match n with Some (Heap.NLet _ _) => true | _ => false end.

(** The same names in the same sequence, at other addresses. *)
Definition same_names_elsewhere (s : Z) (l : list VarPtr) : list VarPtr :=
  (fun v => (DFn :: v.1, v.2)) <$> l.

Definition ctx_IK : Context :=
  mkContext 0 {[ "I" := Lambda "x" (Var "x");
                 "K" := Lambda "x" (Lambda "y" (Var "x")) ]}.

Definition term_KI : Expr :=
  Apply (Apply (Var "K") (Var "I")) (Lambda "I" (Apply (Var "I") (Var "z"))).

(** A store that holds [(λx.λa.a x) (a a)], and the pointer to it. *)
Definition store_w : positive * Heap.machine :=
  Heap.build
    (Apply (Lambda "x" (Lambda "a" (Apply (Var "a") (Var "x"))))
           (Apply (Var "a") (Var "a")))
    (Heap.mkMachine ∅ 1%positive (mkTracer 1 [])).

(** A store that holds [(λx.λa.λb.a b x) (a b)]. *)
Definition store_ab : positive * Heap.machine :=
  Heap.build
    (Apply (Lambda "x" (Lambda "a" (Lambda "b"
              (Apply (Apply (Var "a") (Var "b")) (Var "x")))))
           (Apply (Var "a") (Var "b")))
    (Heap.mkMachine ∅ 1%positive (mkTracer 1 [])).

(** A store that holds [(λx.λy.λy'.x y y') (y y')]. *)
Definition store_yy : positive * Heap.machine :=
  Heap.build
    (Apply (Lambda "x" (Lambda "y" (Lambda "y'"
              (Apply (Apply (Var "x") (Var "y")) (Var "y'")))))
           (Apply (Var "y") (Var "y'")))
    (Heap.mkMachine ∅ 1%positive (mkTracer 1 [])).

(** What a run on the heap shows: the term returned and the lines printed. *)
Definition heap_run (alloc : gmap positive Heap.node -> positive) (fuel : nat)
    (print_flags : Z) (s : positive * Heap.machine) : option (Expr * list event) :=
  '(_, r, h', o) ← Heap.evaluate alloc fuel ∅ s.1 print_flags (Heap.mem s.2);
  r' ← Heap.reify fuel h' r;
  Some (r', o).

(** * Invariants of the proofs *)

(** The pointers of [L] below [p] are those of [fv]. *)
Definition agree_below (p : ptr) (L fv : list VarPtr) : Prop :=
  forall k n, (p ++ k, n) ∈ L <-> (p ++ k, n) ∈ fv.

Section FrameVocabulary.

(** The store at the time of the call. *)
Variable h0 : gmap positive Heap.node.

(** A node made during the call. *)
Definition made (a : positive) : Prop := h0 !! a = None.

Definition children (n : Heap.node) : list positive :=
  match n with
  | Heap.NVar _ => []
  | Heap.NApply fn arg => [fn; arg]
  | Heap.NLambda _ body => [body]
  | Heap.NLet _ value => [value]
  end.

(** The nodes of the call time are as they were, and the nodes made since
    point to nodes made since. *)
Record kept (m : Heap.machine) : Prop := mkKept {
  kept_old : forall a n, h0 !! a = Some n -> Heap.mem m !! a = Some n;
  kept_closed : forall a n c,
    made a -> Heap.mem m !! a = Some n -> c ∈ children n -> made c
}.

(** A slot that may be written: the local, or a field of a node made
    during the call. *)
Definition writable (s : Heap.slot) : Prop :=
  match s with
  | Heap.SCopy => True
  | Heap.SFn a | Heap.SArg a | Heap.SBody a => made a
  end.

Definition field (s : Heap.slot) : Prop :=
  match s with
  | Heap.SCopy => False
  | Heap.SFn a | Heap.SArg a | Heap.SBody a => made a
  end.

Definition all_made (n : Heap.node) : Prop := forall c, c ∈ children n -> made c.

Definition all_values_made (b : gmap string positive) : Prop :=
  map_Forall (fun _ l => made l) b.

End FrameVocabulary.

(** * parser.cpp *)

Module Parser.

(** [ast.h]: locations, errors and tokens. *)
Record Location : Type := mkLocation {
  begin : Z;
  length : Z
}.

Record Error : Type := mkError {
  msg : string;
  err_loc : Location
}.

Inductive TokenType : Type :=
| Invalid | LParen | RParen | RightArrow | Period | TLambda | Equal | Dollar
| TLet | In | Identifier | EndOfFile.

#[global] Instance TokenType_eq_dec : EqDecision TokenType.
Proof. solve_decision. Defined.

Record Token : Type := mkToken {
  loc : Location;
  text : string;
  type : TokenType
}.

(** [zst::Result<T, Error>]. *)
Inductive Result (T : Type) : Type :=
| Ok (value : T)
| Err (error : Error).
Arguments Ok {T} value.
Arguments Err {T} error.

(** A term or an error; the locations in a term are left out. *)
Abbreviation ResultTy := (Result Expr) (only parsing).

(** [State]: the tokens that are left. *)
Abbreviation State := (list Token) (only parsing).

Definition eof : Token := mkToken (mkLocation 0 0) "" EndOfFile.

Definition peek (st : State) : Token :=
  match st with
  | [] => eof
  | t :: _ => t
  end.

Definition pop (st : State) : Token * State :=
  match st with
  | [] => (eof, [])
  | t :: st' => (t, st')
  end.

Definition empty (st : State) : bool :=
  match st with [] => true | _ => false end.

Definition make_error (l : Location) (m : string) : ResultTy :=
  Err (mkError m l).

(** The parsing functions call one another; a call that runs out of fuel
    is [None].  [parseApply_loop] is the [while(true)] of [parseApply]. *)
Fixpoint parseExpr (fuel : nat) (st : State) : option (ResultTy * State) :=
  match fuel with
  | O => None
  | S fuel =>
      '(left_, st) ← parseUnary fuel st;
      match left_ with
      | Err _ => Some (left_, st)
      | Ok _ => parseApply fuel st left_
      end
  end
with parseUnary (fuel : nat) (st : State) : option (ResultTy * State) :=
  match fuel with
  | O => None
  | S fuel =>
      if decide (type (peek st) = LParen) then parseParenthesised fuel st
      else if decide (type (peek st) = Identifier) then
        let '(t, st) := pop st in Some (Ok (Var (text t)), st)
      else if decide (type (peek st) = TLambda) then parseLambda fuel st
      else
        Some (make_error (mkLocation 0 0)
                (if empty st then "unexpected end of input"
                 else "unexpected token '" +:+ text (peek st) +:+ "'"), st)
  end
with parseParenthesised (fuel : nat) (st : State) : option (ResultTy * State) :=
  match fuel with
  | O => None
  | S fuel =>
      let '(x, st) := pop st in
      if decide (type x ≠ LParen) then Some (make_error (loc x) "expected '('", st)
      else
        let open := loc x in
        '(expr, st) ← parseExpr fuel st;
        match expr with
        | Err _ => Some (expr, st)
        | Ok _ =>
            let '(y, st) := pop st in
            if decide (type y ≠ RParen) then
              Some (make_error open "expected ')' to match this '('", st)
            else Some (expr, st)
        end
  end
with parseLambda (fuel : nat) (st : State) : option (ResultTy * State) :=
  match fuel with
  | O => None
  | S fuel =>
      let st := if decide (type (peek st) = TLambda) then (pop st).2 else st in
      let x := peek st in
      if decide (type x ≠ Identifier) then
        Some (make_error (loc x) ("expected identifier, found '" +:+ text x +:+ "'"), st)
      else
        let '(arg, st) := pop st in
        if decide (type (peek st) = RightArrow \/ type (peek st) = Period) then
          let st := (pop st).2 in
          '(body, st) ← parseExpr fuel st;
          match body with
          | Err _ => Some (body, st)
          | Ok body => Some (Ok (Lambda (text arg) body), st)
          end
        else if decide (type (peek st) = Identifier) then
          '(sub, st) ← parseLambda fuel st;
          match sub with
          | Err _ => Some (sub, st)
          | Ok sub => Some (Ok (Lambda (text arg) sub), st)
          end
        else
          let x := peek st in
          Some (make_error (loc x)
                  ("expected '.' or '->' or identifier; found '" +:+ text x +:+ "'"), st)
  end
with parseApply (fuel : nat) (st : State) (lhs : ResultTy) : option (ResultTy * State) :=
  match fuel with
  | O => None
  | S fuel =>
      match lhs with
      | Err _ => Some (lhs, st)
      | Ok l => if empty st then Some (lhs, st) else parseApply_loop fuel st l
      end
  end
with parseApply_loop (fuel : nat) (st : State) (lhs : Expr) : option (ResultTy * State) :=
  match fuel with
  | O => None
  | S fuel =>
      if decide (type (peek st) = RParen \/ type (peek st) = EndOfFile) then
        Some (Ok lhs, st)
      else
        '(rhs, st) ← parseUnary fuel st;
        match rhs with
        | Err _ => Some (rhs, st)
        | Ok r => parseApply_loop fuel st (Apply lhs r)
        end
  end.

Definition parseLet (fuel : nat) (st : State) : option (ResultTy * State) :=
  let st := (pop st).2 in
  let '(name, st) := pop st in
  if decide (type name ≠ Identifier) then
    Some (make_error (loc name)
            ("expected identifier for 'let', found '" +:+ text name +:+ "'"), st)
  else
    let '(x, st) := pop st in
    if decide (type x ≠ Equal) then
      Some (make_error (loc x) ("expected '=', found '" +:+ text x +:+ "'"), st)
    else
      '(value, st) ← parseExpr fuel st;
      match value with
      | Err _ => Some (value, st)
      | Ok value => Some (Ok (Let (text name) value), st)
      end.

Definition parseStmt (fuel : nat) (st : State) : option (ResultTy * State) :=
  if decide (type (peek st) = TLet) then parseLet fuel st
  else parseExpr fuel st.

(** [parse], from the tokens on. *)
Definition parse_tokens (fuel : nat) (tokens : list Token) : option ResultTy :=
  '(ret, st) ← parseStmt fuel tokens;
  match ret with
  | Err _ => Some ret
  | Ok _ =>
      if negb (empty st) then
        Some (make_error (loc (peek st))
                ("junk at end of expression: '" +:+ text (peek st) +:+ "'"))
      else Some ret
  end.

End Parser.

(** * zbuf.h: views of strings *)

(** A [str_view] is taken for the bytes that it ranges over; [take] and
    [drop] never leave the view they are called on.  Sizes and positions
    are [size_t]: numbers modulo [2^64]. *)
Module zbuf.

Definition size_t (z : Z) : Z := z mod 2 ^ 64.

(** The [-1] that [find] returns. *)
Definition npos : Z := size_t (-1).

Definition size (s : string) : Z := Z.of_nat (String.length s).

Definition empty (s : string) : bool := bool_decide (size s = 0).

Definition substr (pos cnt : Z) (s : string) : string :=
  let cnt := if decide (cnt = npos)
             then (if decide (size s > pos) then size s - pos else 0)
             else cnt in
  substring (Z.to_nat pos) (Z.to_nat cnt) s.

Definition drop (n : Z) (s : string) : string :=
  if decide (size s >= n) then substr n (size s - n) s else "".

Definition take (n : Z) (s : string) : string :=
  if decide (size s >= n) then substr 0 n s else s.

Definition remove_prefix (n : Z) (s : string) : string := drop n s.

(** Whether [strncmp(s1, s2, n)] is [0]: the bytes are compared up to the
    first difference, the first NUL or the [n]-th byte.  [operator==] calls
    it with [n] at most both sizes, so that it stays inside the views. *)
Fixpoint strncmp (s1 s2 : string) (n : nat) : bool :=
  match n with
  | O => true
  | S n =>
      match s1, s2 with
      | String c1 s1, String c2 s2 =>
          if decide (c1 = c2)
          then (if decide (c1 = Ascii.zero) then true else strncmp s1 s2 n)
          else false
      | _, _ => false
      end
  end.

(** [operator==].  Two views of the same pointer and the same size hold the
    same bytes, so that the comparison of the pointers adds nothing. *)
Definition eq (a b : string) : bool :=
  bool_decide (size a = size b) && strncmp a b (Z.to_nat (Z.min (size a) (size b))).

(** The [for] loop of [find], with [count] positions left to try. *)
Fixpoint find_loop (count : nat) (i : Z) (sv s : string) : Z :=
  match count with
  | O => npos
  | S count => if eq (take (size sv) (drop i s)) sv then i else find_loop count (i + 1) sv s
  end.

Definition find (sv s : string) : Z :=
  if decide (size sv > size s) then npos
  else if empty sv then 0
  else find_loop (Z.to_nat (1 + size s - size sv)) 0 sv s.

(** [find(char c)]. *)
Definition find_char (c : ascii) (s : string) : Z := find (String c "") s.

(** [str_view(p, l)] for a pointer [p] to the bytes [data] and a length
    [l] that stays inside them. *)
Definition str_view (data : string) (l : Z) : string := substring 0 (Z.to_nat l) data.

End zbuf.

(** * lexer.cpp *)

(** The general categories of [utf8proc.h]. *)
Inductive utf8proc_category_t : Type :=
| UTF8PROC_CATEGORY_CN | UTF8PROC_CATEGORY_LU | UTF8PROC_CATEGORY_LL | UTF8PROC_CATEGORY_LT
| UTF8PROC_CATEGORY_LM | UTF8PROC_CATEGORY_LO | UTF8PROC_CATEGORY_MN | UTF8PROC_CATEGORY_MC
| UTF8PROC_CATEGORY_ME | UTF8PROC_CATEGORY_ND | UTF8PROC_CATEGORY_NL | UTF8PROC_CATEGORY_NO
| UTF8PROC_CATEGORY_PC | UTF8PROC_CATEGORY_PD | UTF8PROC_CATEGORY_PS | UTF8PROC_CATEGORY_PE
| UTF8PROC_CATEGORY_PI | UTF8PROC_CATEGORY_PF | UTF8PROC_CATEGORY_PO | UTF8PROC_CATEGORY_SM
| UTF8PROC_CATEGORY_SC | UTF8PROC_CATEGORY_SK | UTF8PROC_CATEGORY_SO | UTF8PROC_CATEGORY_ZS
| UTF8PROC_CATEGORY_ZL | UTF8PROC_CATEGORY_ZP | UTF8PROC_CATEGORY_CC | UTF8PROC_CATEGORY_CF
| UTF8PROC_CATEGORY_CS | UTF8PROC_CATEGORY_CO.

#[global] Instance utf8proc_category_t_eq_dec : EqDecision utf8proc_category_t.
Proof. solve_decision. Defined.

(** [strlen] of a literal without NUL. *)
Definition strlen (s : string) : Z := Z.of_nat (String.length s).

(** The two functions of the utf8proc library that the lexer calls.
    [utf8proc_iterate str] is the call on the bytes of the view [str]: the
    number that it returns, and the code point that it leaves in [cp]. *)
Class Utf8proc : Type := {
  utf8proc_iterate : string -> Z * Z;
  utf8proc_category : Z -> utf8proc_category_t
}.

Section Lexer.

Import Parser.

Context `{Utf8proc}.

(** ** namespace [unicode] *)

Definition is_category (str : string) (categories : list utf8proc_category_t) : Z :=
  let '(sz, cp) := utf8proc_iterate str in
  if decide (cp = -1) then 0
  else if decide (utf8proc_category cp ∈ categories) then zbuf.size_t sz
  else 0.

Definition get_codepoint_length (str : string) : Z :=
  let '(sz, cp) := utf8proc_iterate str in
  if decide (cp = -1) then 1 else zbuf.size_t sz.

Definition is_letter (str : string) : Z :=
  is_category str [UTF8PROC_CATEGORY_LU; UTF8PROC_CATEGORY_LL; UTF8PROC_CATEGORY_LT;
                   UTF8PROC_CATEGORY_LM; UTF8PROC_CATEGORY_LO].

Definition is_digit (str : string) : Z :=
  is_category str [UTF8PROC_CATEGORY_ND].

(** ** namespace [parser] *)

Definition is_valid_identifier (str : string) : Z :=
  let k := is_letter str in
  if decide (k > 0) then k
  else
    let k := is_digit str in
    if decide (k > 0) then k
    else
      let k := is_category str [UTF8PROC_CATEGORY_MN; UTF8PROC_CATEGORY_MC;
                                UTF8PROC_CATEGORY_ME; UTF8PROC_CATEGORY_PC] in
      if decide (k > 0) then k else 0.

(** The loop of [lex_one_token] that skips the white space. *)
Fixpoint skip_whitespace (fuel : nat) (src : string) (idx : Z) : option (string * Z) :=
  match fuel with
  | O => None
  | S fuel =>
      if decide (zbuf.size src > 0) then
        let k := is_category src [UTF8PROC_CATEGORY_ZS; UTF8PROC_CATEGORY_ZL;
                                  UTF8PROC_CATEGORY_ZP] in
        if decide (k > 0)
        then skip_whitespace fuel (zbuf.remove_prefix k src) (zbuf.size_t (idx + k))
        else Some (src, idx)
      else Some (src, idx)
  end.

(** The loop of [lex_one_token] that measures an identifier. *)
Fixpoint identifier_length (fuel : nat) (tmp : string) (identLength : Z) : option Z :=
  match fuel with
  | O => None
  | S fuel =>
      let k := is_valid_identifier tmp in
      if decide (k > 0)
      then identifier_length fuel (zbuf.remove_prefix k tmp) (zbuf.size_t (identLength + k))
      else Some identLength
  end.

Definition take_and_return_taken (sv : string) (n : Z) : string * string :=
  (zbuf.take n sv, zbuf.remove_prefix n sv).

(** [lex_one_token(src, idx, prevType)]: the token or the error, and [src]
    and [idx] as the call leaves them. *)
Definition lex_one_token (fuel : nat) (src : string) (idx : Z) (prevType : TokenType)
    : option (Result Token * string * Z) :=
  '(src, idx) ← skip_whitespace fuel src idx;
  if zbuf.empty src then Some (Ok (mkToken (mkLocation idx 0) "" EndOfFile), src, idx)
  else if decide (zbuf.find "->" src = 0) then
    let x := strlen "->" in
    let '(taken, src) := take_and_return_taken src x in
    Some (Ok (mkToken (mkLocation idx x) taken RightArrow), src, idx)
  else if decide (zbuf.find "Î»" src = 0) then
    let x := strlen "Î»" in
    let '(taken, src) := take_and_return_taken src x in
    Some (Ok (mkToken (mkLocation idx x) taken TLambda), src, idx)
  else if decide (is_valid_identifier src > 0) then
    let identLength := is_valid_identifier src in
    let tmp := zbuf.drop identLength src in
    identLength ← identifier_length fuel tmp identLength;
    let text := zbuf.take identLength src in
    let type := if zbuf.eq text "let" then TLet
                else if zbuf.eq text "in" then In
                else Identifier in
    Some (Ok (mkToken (mkLocation idx (zbuf.size text)) text type),
          zbuf.remove_prefix identLength src, idx)
  else
    let loc := mkLocation idx 1 in
    let single (ty : TokenType) :=
      Some (Ok (mkToken loc (zbuf.take 1 src) ty), zbuf.remove_prefix 1 src, idx) in
    match String.get 0 src with
    | Some "("%char => single LParen
    | Some ")"%char => single RParen
    | Some "."%char => single Period
    | Some "$"%char => single Dollar
    | Some "="%char => single Equal
    | Some "\"%char => single TLambda
    | _ =>
        let sz := get_codepoint_length src in
        Some (Err (mkError ("invalid token '" +:+ zbuf.take sz src +:+ "'")
                     (mkLocation idx 1)), src, idx)
    end.

(** The loop of [lex]; [prevType] is the type of [tok]. *)
Fixpoint lex_loop (fuel : nat) (src : string) (idx : Z) (prevType : TokenType)
    (ret : list Token) : option (Result (list Token)) :=
  match fuel with
  | O => None
  | S fuel =>
      r ← lex_one_token fuel src idx prevType;
      match r with
      | (Err e, _, _) => Some (Err e)
      | (Ok tok, src, idx) =>
          if decide (type tok = EndOfFile) then Some (Ok ret)
          else lex_loop fuel src (zbuf.size_t (idx + zbuf.size (text tok))) (type tok)
                 (ret ++ [tok])
      end
  end.

Definition lex (fuel : nat) (src : string) : option (Result (list Token)) :=
  lex_loop fuel src 0 Invalid [].

(** [parse] of [parser.cpp]. *)
Definition parse (fuel : nat) (str : string) : option ResultTy :=
  if zbuf.empty str then Some (make_error (mkLocation 0 0) "empty input")
  else
    tokens ← lex fuel str;
    match tokens with
    | Err e => Some (Err e)
    | Ok tokens => parse_tokens fuel tokens
    end.

End Lexer.

(** * highlight.cpp *)

Module Printer.

(** A function on [const Expr*] gets the pointer and the node it points
    to. *)
Record State : Type := mkState {
  flags : Z;
  pred : list dir -> Expr -> option string;
  arg_pred : list dir -> Expr -> option string;
  replacer : option (list dir -> Expr -> option string);
  combined_args : gset string;
  ulines : list string
}.

Definition set_combined_args (c : gset string) (st : State) : State :=
  mkState (flags st) (pred st) (arg_pred st) (replacer st) c (ulines st).

Definition set_ulines (u : list string) (st : State) : State :=
  mkState (flags st) (pred st) (arg_pred st) (replacer st) (combined_args st) u.

(** [add]: what is appended to [top] and to [bot]. *)
Definition add (t b : string) (o : string * string) : string * string :=
  (o.1 +:+ t, o.2 +:+ b).

Fixpoint repeat (n : nat) (c : string) : string :=
  match n with
  | O => ""
  | S n => c +:+ repeat n c
  end.

Definition has (st : State) (flag : Z) : bool := bool_decide (Z.land (flags st) flag ≠ 0).

Definition is_var (e : Expr) : bool := match e with Var _ => true | _ => false end.

(** [int_highlight(st, expr, top, bot, combine, omit_lambda_parens)], with
    [o] for [top] and [bot]. *)
Fixpoint int_highlight (expr : Expr) (p : list dir) (combine omit_lambda_parens : bool)
    (st : State) (o : string * string) {struct expr} : State * (string * string) :=
  let '(pop, under, st) :=
    match pred st p expr with
    | Some u => (true, u, set_ulines (ulines st ++ [u]) st)
    | None =>
        match last (ulines st) with
        | Some u => (false, u, st)
        | None => (false, " ", st)
        end
    end in
  match match replacer st with Some f => f p expr | None => None end with
  | Some rep => (st, add rep (repeat (String.length rep) under) o)
  | None =>
      let '(st, o) :=
        match expr with
        | Var name => (st, add name (repeat (String.length name) under) o)
        | Apply fn arg =>
            let '(st, o) := int_highlight fn (p ++ [DFn]) false false st o in
            let o := add " " under o in
            let close := negb (has st FLAG_ABBREV_PARENS) || negb (is_var arg) in
            let o := if close then add "(" under o else o in
            let omit_lambda_parens := has st FLAG_ABBREV_PARENS && is_lambda arg in
            let '(st, o) := int_highlight arg (p ++ [DArg]) false omit_lambda_parens st o in
            (st, if close then add ")" under o else o)
        | Lambda arg body =>
            let close := negb combine && negb omit_lambda_parens in
            let o :=
              if combine then o
              else
                let o := if omit_lambda_parens then o else add "(" under o in
                if has st FLAG_HASKELL_STYLE then add "\" under o else add "λ" under o in
            let o :=
              match arg_pred st p expr with
              | Some u => add arg (repeat (String.length arg) u) o
              | None => add arg (repeat (String.length arg) under) o
              end in
            let st :=
              if has st FLAG_ABBREV_LAMBDA
              then set_combined_args ({[ arg ]} ∪ combined_args st) st else st in
            (* [Some omit_next_parens] at the label [normal] *)
            let '(st, normal) :=
              match body with
              | Lambda inner_arg _ =>
                  if has st FLAG_ABBREV_LAMBDA then
                    if decide (inner_arg ∈ combined_args st)
                    then (set_combined_args ∅ st, Some true)
                    else (st, None)
                  else (st, Some false)
              | _ => (st, Some false)
              end in
            let '(st, o) :=
              match normal with
              | None =>
                  let o := add " " under o in
                  int_highlight body (p ++ [DBody]) true false st o
              | Some omit_next_parens =>
                  let o := if has st FLAG_HASKELL_STYLE then add " -> " (repeat 4 under) o
                           else add "." under o in
                  int_highlight body (p ++ [DBody]) false omit_next_parens st o
              end in
            let st := set_combined_args (combined_args st ∖ {[ arg ]}) st in
            (st, if close then add ")" under o else o)
        | Let name value =>
            let o := add "let " (repeat 4 " ") o in
            let o := add name (repeat (String.length name) under) o in
            let o := add " = " (repeat 3 " ") o in
            int_highlight value (p ++ [DValue]) false false st o
        end in
      (if pop : bool then set_ulines (removelast (ulines st)) st else st, o)
  end.

Definition highlight (expr : Expr) (pred arg_pred : list dir -> Expr -> option string)
    (flags : Z) : string * string :=
  (int_highlight expr [] false false (mkState flags pred arg_pred None ∅ []) ("", "")).2.

Definition ESC : string := String (ascii_of_nat 27) "".
Definition COLOUR_RESET : string := ESC +:+ "[0m".
Definition GREEN_BOLD : string := ESC +:+ "[1m" +:+ ESC +:+ "[32m".
Definition YELLOW_BOLD : string := ESC +:+ "[1m" +:+ ESC +:+ "[33m".
Definition BLUE_BOLD : string := ESC +:+ "[1m" +:+ ESC +:+ "[34m".

Definition UNDERLINE : string := "‾".
Definition ALPHA_HIGHLIGHT : string := GREEN_BOLD +:+ UNDERLINE +:+ COLOUR_RESET.
Definition BETA_VAR_HIGHLIGHT : string := YELLOW_BOLD +:+ "^" +:+ COLOUR_RESET.
Definition BETA_SUB_HIGHLIGHT : string := BLUE_BOLD +:+ UNDERLINE +:+ COLOUR_RESET.
Definition BETA_ARG_HIGHLIGHT : string := GREEN_BOLD +:+ UNDERLINE +:+ COLOUR_RESET.

Definition logAlphaConversion (whole : Expr) (sub : list dir) (print_flags : Z)
    : string * string :=
  highlight whole
    (fun x _ => if decide (x = sub) then Some ALPHA_HIGHLIGHT else None)
    (fun _ _ => None) print_flags.

(** [substs] are the slots; a slot and the node that it holds are at the
    same place of the tree. *)
Definition logBetaReduction (whole : Expr) (fn arg : list dir) (_substs : list (list dir))
    (print_flags : Z) : string * string :=
  highlight whole
    (fun e _ => if decide (e = arg) then Some BETA_ARG_HIGHLIGHT
                else if decide (e ∈ _substs) then Some BETA_SUB_HIGHLIGHT
                else None)
    (fun l _ => if decide (l = fn) then Some BETA_VAR_HIGHLIGHT else None) print_flags.

Definition print (expr : Expr) (flags : Z) : string :=
  (highlight expr (fun _ _ => None) (fun _ _ => None) flags).1.

(** The [print] that takes a replacer. *)
Definition print_replace (expr : Expr) (replace : list dir -> Expr -> option string)
    (flags : Z) : string :=
  (int_highlight expr [] false false
     (mkState flags (fun _ _ => None) (fun _ _ => None) (Some replace) ∅ []) ("", "")).2.1.

End Printer.

(** * file.cpp *)

Definition newline : ascii := ascii_of_nat 10.

(** The loop of [split_string]: the view and the lines when it ends. *)
Fixpoint split_string_loop (fuel : nat) (view : string) (ret : list string)
    : option (string * list string) :=
  match fuel with
  | O => None
  | S fuel =>
      if negb (zbuf.empty view) then
        let ln := zbuf.find_char newline view in
        if decide (ln <> zbuf.npos) then
          split_string_loop fuel (zbuf.remove_prefix (zbuf.size_t (ln + 1)) view)
            (ret ++ [zbuf.str_view view ln])
        else Some (view, ret)
      else Some (view, ret)
  end.

Definition split_string (fuel : nat) (view : string) : option (list string) :=
  '(view, ret) ← split_string_loop fuel view [];
  Some (if negb (zbuf.empty view) then ret ++ [zbuf.str_view view (zbuf.size view)] else ret).

(** * repl.cpp: [trim] *)

(** [trim] looks at the first and at the last byte of a view before it asks
    whether the view is empty, so that it reads bytes next to the view.
    Here a [str_view] is the pointer and the length that it is in
    [zbuf.h], and the bytes come from the memory: a function of the
    addresses, which are numbers modulo [2^64]. *)
Module View.

Record str_view : Type := mk {
  ptr : Z;
  len : Z
}.

Section Memory.

(** The bytes at the addresses, and the address of the literal [""] that
    [drop] returns. *)
Variable mem : Z -> ascii.
Variable empty_literal : Z.

Definition size (s : str_view) : Z := len s.

Definition empty (s : str_view) : bool := bool_decide (len s = 0).

Definition front (s : str_view) : ascii := mem (ptr s).

Definition back (s : str_view) : ascii :=
  mem (zbuf.size_t (ptr s + zbuf.size_t (len s - 1))).

Definition substr (pos cnt : Z) (s : str_view) : str_view :=
  mk (zbuf.size_t (ptr s + pos))
     (if decide (cnt = zbuf.npos)
      then (if decide (len s > pos) then len s - pos else 0)
      else cnt).

Definition drop (n : Z) (s : str_view) : str_view :=
  if decide (size s >= n) then substr n (size s - n) s else mk empty_literal 0.

Definition drop_last (n : Z) (s : str_view) : str_view :=
  if decide (size s >= n) then substr 0 (size s - n) s else s.

Definition remove_prefix (n : Z) (s : str_view) : str_view := drop n s.

Definition remove_suffix (n : Z) (s : str_view) : str_view := drop_last n s.

Definition blank (c : ascii) : bool :=
  bool_decide (c = " "%char) || bool_decide (c = ascii_of_nat 9).

(** The two loops of [trim]. *)
Fixpoint trim_front (fuel : nat) (s : str_view) : option str_view :=
  match fuel with
  | O => None
  | S fuel => if blank (front s) then trim_front fuel (remove_prefix 1 s) else Some s
  end.

Fixpoint trim_back (fuel : nat) (s : str_view) : option str_view :=
  match fuel with
  | O => None
  | S fuel => if blank (back s) then trim_back fuel (remove_suffix 1 s) else Some s
  end.

Definition trim (fuel : nat) (s : str_view) : option str_view :=
  s ← trim_front fuel s;
  trim_back fuel s.

End Memory.

End View.

(** * Vocabulary of the statements, continued *)

(** What a call of [evaluate] leaves behind besides the lines it prints. *)
Definition outcome (r : option (result (Context * Expr * list event)))
    : option (result (Context * Expr)) :=
  match r with
  | Some (Ret (c, e, _)) => Some (Ret (c, e))
  | Some Abort => Some Abort
  | None => None
  end.

(** The number that a line of a step carries. *)
Definition event_step (ev : event) : option Z :=
  match ev with
  | EvAlpha s _ _ | EvBeta s _ _ => Some s
  | _ => None
  end.

(** Lines of steps, numbered [s], [s + 1], ... *)
Fixpoint numbered (s : Z) (evs : list event) : bool :=
  match evs with
  | [] => true
  | ev :: evs' => bool_decide (event_step ev = Some s) && numbered (s + 1) evs'
  end.

(** Substitution as the text books have it before they avoid capture:
    every occurrence of [x] that no lambda of [e] binds becomes [a]. *)
Fixpoint subst (x : string) (a : Expr) (e : Expr) : Expr :=
  match e with
  | Var n => if decide (n = x) then a else Var n
  | Apply fn arg => Apply (subst x a fn) (subst x a arg)
  | Lambda y body => if decide (y = x) then Lambda y body else Lambda y (subst x a body)
  | Let n v => Let n v
  end.

(** Terms without names: a variable that a lambda binds is the number of
    lambdas between it and its binder, so that two terms are
    alpha-equivalent exactly when they have the same nameless form. *)
Inductive nameless : Type :=
| NFree (n : string)
| NBound (k : nat)
| NApp (fn arg : nameless)
| NLam (body : nameless)
| NLet (n : string) (value : nameless).

#[global] Instance nameless_eq_dec : EqDecision nameless.
Proof. solve_decision. Defined.

(** Where [n] stands in the list of the enclosing binders, innermost first. *)
Fixpoint index_of (n : string) (Γ : list string) : option nat :=
  match Γ with
  | [] => None
  | x :: Γ' => if decide (x = n) then Some 0%nat else S <$> index_of n Γ'
  end.

Fixpoint nameless_of (Γ : list string) (e : Expr) : nameless :=
  match e with
  | Var n => match index_of n Γ with Some k => NBound k | None => NFree n end
  | Apply fn arg => NApp (nameless_of Γ fn) (nameless_of Γ arg)
  | Lambda x body => NLam (nameless_of (x :: Γ) body)
  | Let n value => NLet n (nameless_of Γ value)
  end.

Fixpoint has_free (t : nameless) : bool :=
  match t with
  | NFree _ => true
  | NBound _ => false
  | NApp fn arg => has_free fn || has_free arg
  | NLam body => has_free body
  | NLet _ value => has_free value
  end.

(** Every name that a term mentions, as a variable or as a parameter. *)
Fixpoint all_names (e : Expr) : gset string :=
  match e with
  | Var n => {[ n ]}
  | Apply fn arg => all_names fn ∪ all_names arg
  | Lambda x body => {[ x ]} ∪ all_names body
  | Let n value => {[ n ]} ∪ all_names value
  end.

(** Whether [n] occurs as a variable outside every lambda. *)
Fixpoint exposed (n : string) (e : Expr) : bool :=
  match e with
  | Var m => bool_decide (m = n)
  | Apply fn arg => exposed n fn || exposed n arg
  | _ => false
  end.


(** The grammar, as relations between a list of tokens and the term that it
    spells.  An expression is a chain of atoms - identifiers and
    parenthesised expressions - applied from the left, which a lambda may
    end; the lambda takes everything up to the closing parenthesis or the
    end as its body. *)
Inductive spells_expr : list Parser.Token -> Expr -> Prop :=
| spells_atoms ts1 ts2 a e :
    spells_atom ts1 a -> spells_chain a ts2 e -> spells_expr (ts1 ++ ts2) e
| spells_lambda_only ts e :
    spells_lambda ts e -> spells_expr ts e
with spells_atom : list Parser.Token -> Expr -> Prop :=
| spells_var t :
    Parser.type t = Parser.Identifier -> spells_atom [t] (Var (Parser.text t))
| spells_paren lp ts rp e :
    Parser.type lp = Parser.LParen -> Parser.type rp = Parser.RParen -> spells_expr ts e ->
    spells_atom (lp :: ts ++ [rp]) e
with spells_lambda : list Parser.Token -> Expr -> Prop :=
| spells_lam t ts e :
    Parser.type t = Parser.TLambda -> spells_params ts e -> spells_lambda (t :: ts) e
with spells_params : list Parser.Token -> Expr -> Prop :=
| spells_param_body x sep ts body :
    Parser.type x = Parser.Identifier -> Parser.type sep = Parser.RightArrow \/ Parser.type sep = Parser.Period ->
    spells_expr ts body ->
    spells_params (x :: sep :: ts) (Lambda (Parser.text x) body)
| spells_param_more x ts sub :
    Parser.type x = Parser.Identifier -> spells_params ts sub ->
    spells_params (x :: ts) (Lambda (Parser.text x) sub)
with spells_chain : Expr -> list Parser.Token -> Expr -> Prop :=
| spells_chain_end l :
    spells_chain l [] l
| spells_chain_atom l ts1 a ts2 e :
    spells_atom ts1 a -> spells_chain (Apply l a) ts2 e ->
    spells_chain l (ts1 ++ ts2) e
| spells_chain_lambda l ts a :
    spells_lambda ts a -> spells_chain l ts (Apply l a).

Scheme spells_expr_ind' := Minimality for spells_expr Sort Prop
  with spells_atom_ind' := Minimality for spells_atom Sort Prop
  with spells_lambda_ind' := Minimality for spells_lambda Sort Prop
  with spells_params_ind' := Minimality for spells_params Sort Prop
  with spells_chain_ind' := Minimality for spells_chain Sort Prop.
Combined Scheme spells_ind from spells_expr_ind', spells_atom_ind', spells_lambda_ind',
  spells_params_ind', spells_chain_ind'.

(** A statement: an expression, or [let name = expression]. *)
Inductive spells_stmt : list Parser.Token -> Expr -> Prop :=
| spells_stmt_expr ts e : spells_expr ts e -> spells_stmt ts e
| spells_stmt_let l name eq ts value :
    Parser.type l = Parser.TLet -> Parser.type name = Parser.Identifier -> Parser.type eq = Parser.Equal ->
    spells_expr ts value ->
    spells_stmt (l :: name :: eq :: ts) (Let (Parser.text name) value).

(** A token of a kind, with a text. *)
Definition token (ty : Parser.TokenType) (s : string) : Parser.Token := Parser.mkToken (Parser.mkLocation 0 0) s ty.

(** The tokens of a term written with every parenthesis:
    [f (a)], [(λx.b)], [let n = v]. *)
Fixpoint tokens_of (e : Expr) : list Parser.Token :=
  match e with
  | Var n => [token Parser.Identifier n]
  | Apply fn arg =>
      tokens_of fn ++ [token Parser.LParen "("] ++ tokens_of arg ++ [token Parser.RParen ")"]
  | Lambda x body =>
      [token Parser.LParen "("; token Parser.TLambda "λ"; token Parser.Identifier x; token Parser.Period "."]
      ++ tokens_of body ++ [token Parser.RParen ")"]
  | Let n value =>
      [token Parser.TLet "let"; token Parser.Identifier n; token Parser.Equal "="] ++ tokens_of value
  end.

(** What the parser builds: a [Let] at the root only. *)
Definition statement (e : Expr) : bool :=
  match e with
  | Let _ value => no_let value
  | _ => no_let e
  end.

(** [λ x1 ... xn . body], from the tokens of the parameters. *)
Definition lambdas (xs : list Parser.Token) (body : Expr) : Expr :=
  foldr (fun x b => Lambda (Parser.text x) b) body xs.

(** [f a1 ... an], from the tokens of the identifiers. *)
Definition applications (f : Parser.Token) (args : list Parser.Token) : Expr :=
  fold_left (fun l a => Apply l (Var (Parser.text a))) args (Var (Parser.text f)).

(** [λ x1 . λ x2 . ... λ xn .], written out. *)
Definition nested (lam sep : Parser.Token) (xs : list Parser.Token) : list Parser.Token :=
  concat ((fun x => [lam; x; sep]) <$> xs).

(** * Invariants of the proofs, continued *)

Definition no_let_opt (r : option Expr) : Prop :=
  match r with Some e => no_let e = true | None => True end.

(** Two runs that differ in what they printed only. *)
Definition same_run {A} (r1 r2 : result (A * tracer)) : Prop :=
  match r1, r2 with
  | Ret (x1, t1), Ret (x2, t2) => x1 = x2 /\ step t1 = step t2
  | Abort, Abort => True
  | _, _ => False
  end.

Definition same_loop {A} (r1 r2 : option (result (A * tracer))) : Prop :=
  match r1, r2 with
  | Some r1, Some r2 => same_run r1 r2
  | None, None => True
  | _, _ => False
  end.

(** From [t] to [t'] the run took the steps [evs], numbered from the
    counter of [t], and printed them. *)
Definition traced (print_flags : Z) (t t' : tracer) : Prop :=
  exists evs, numbered (step t) evs = true
              /\ step t' = step t + Z.of_nat (length evs)
              /\ out t' = trace_all print_flags evs (out t).

(** The state of the check under the binders [Γ], at depth [d]. *)
Definition check_state (d : Z) (Γ : list string) (st : Util.CheckState) : Prop :=
  (forall n, Util.var_depths st !! n = (fun k => d - 1 - Z.of_nat k) <$> index_of n Γ)
  /\ dom (Util.bindings st) = list_to_set Γ.

(** Renaming [name] to [fresh]. *)
Definition ren (name fresh y : string) : string := if decide (y = name) then fresh else y.

(** Where the application loop of the parser stops. *)
Definition stops (st : list Parser.Token) : Prop :=
  Parser.type (Parser.peek st) = Parser.RParen
  \/ Parser.type (Parser.peek st) = Parser.EndOfFile.

Definition consumed (st st' : list Parser.Token) (r : Parser.Result Expr) : Prop :=
  st' `suffix_of` st
  /\ forall e, r = Parser.Ok e -> no_let e = true /\ (length st' < length st)%nat.

(** A call returns [r], given enough fuel. *)
Definition runs {R} (p : nat -> option R) (r : R) : Prop :=
  exists fuel0, forall fuel, (fuel0 <= fuel)%nat -> p fuel = Some r.

Definition reads_expr (ts : list Parser.Token) (e : Expr) : Prop :=
  forall rest, stops rest ->
    runs (fun f => Parser.parseExpr f (ts ++ rest)) (Parser.Ok e, rest).
Definition reads_atom (ts : list Parser.Token) (e : Expr) : Prop :=
  forall rest, runs (fun f => Parser.parseUnary f (ts ++ rest)) (Parser.Ok e, rest).
Definition reads_lambda (ts : list Parser.Token) (e : Expr) : Prop :=
  forall rest, stops rest ->
    runs (fun f => Parser.parseUnary f (ts ++ rest)) (Parser.Ok e, rest).
Definition reads_params (ts : list Parser.Token) (e : Expr) : Prop :=
  forall rest, stops rest ->
    runs (fun f => Parser.parseLambda f (ts ++ rest)) (Parser.Ok e, rest).
Definition reads_chain (l : Expr) (ts : list Parser.Token) (e : Expr) : Prop :=
  forall rest, stops rest ->
    runs (fun f => Parser.parseApply_loop f (ts ++ rest) l) (Parser.Ok e, rest).

(** What holds of the functions of the parser at a given fuel. *)
Section ParserInvariants.
Import Parser.

Definition mono_at (fuel : nat) : Prop :=
  (forall st r, parseExpr fuel st = Some r -> parseExpr (S fuel) st = Some r)
  /\ (forall st r, parseUnary fuel st = Some r -> parseUnary (S fuel) st = Some r)
  /\ (forall st r, parseParenthesised fuel st = Some r ->
        parseParenthesised (S fuel) st = Some r)
  /\ (forall st r, parseLambda fuel st = Some r -> parseLambda (S fuel) st = Some r)
  /\ (forall st l r, parseApply fuel st l = Some r -> parseApply (S fuel) st l = Some r)
  /\ (forall st l r, parseApply_loop fuel st l = Some r ->
        parseApply_loop (S fuel) st l = Some r).

Definition sound_at (fuel : nat) : Prop :=
  (forall st r st', parseExpr fuel st = Some (r, st') ->
     consumed st st' r /\ forall e, r = Ok e -> stops st')
  /\ (forall st r st', parseUnary fuel st = Some (r, st') -> consumed st st' r)
  /\ (forall st r st', parseParenthesised fuel st = Some (r, st') -> consumed st st' r)
  /\ (forall st r st', parseLambda fuel st = Some (r, st') -> consumed st st' r)
  /\ (forall st l r st', parseApply fuel st (Ok l) = Some (r, st') ->
        no_let l = true ->
        st' `suffix_of` st /\ forall e, r = Ok e -> no_let e = true /\ stops st')
  /\ (forall st l r st', parseApply_loop fuel st l = Some (r, st') ->
        no_let l = true ->
        st' `suffix_of` st /\ forall e, r = Ok e -> no_let e = true /\ stops st').

Definition returns_at (fuel : nat) : Prop :=
  (forall st, (3 * List.length st + 3 <= fuel)%nat -> is_Some (parseExpr fuel st))
  /\ (forall st, (3 * List.length st + 2 <= fuel)%nat -> is_Some (parseUnary fuel st))
  /\ (forall st, (3 * List.length st + 1 <= fuel)%nat ->
        is_Some (parseParenthesised fuel st))
  /\ (forall st, (3 * List.length st + 1 <= fuel)%nat -> is_Some (parseLambda fuel st))
  /\ (forall st l, (3 * List.length st + 4 <= fuel)%nat -> is_Some (parseApply fuel st l))
  /\ (forall st l, (3 * List.length st + 3 <= fuel)%nat ->
        is_Some (parseApply_loop fuel st l)).

Definition spelled_at (fuel : nat) : Prop :=
  (forall st e st', parseExpr fuel st = Some (Ok e, st') ->
     exists ts, st = ts ++ st' /\ spells_expr ts e)
  /\ (forall st e st', parseUnary fuel st = Some (Ok e, st') ->
     exists ts, st = ts ++ st' /\ (spells_atom ts e \/ spells_lambda ts e /\ stops st'))
  /\ (forall st e st', parseParenthesised fuel st = Some (Ok e, st') ->
     exists ts, st = ts ++ st' /\ spells_atom ts e)
  /\ (forall st e st', parseLambda fuel st = Some (Ok e, st') ->
     stops st'
     /\ exists ts, st = ts ++ st'
          /\ if decide (type (peek st) = TLambda) then spells_lambda ts e
             else spells_params ts e)
  /\ (forall st l e st', parseApply fuel st (Ok l) = Some (Ok e, st') ->
     exists ts, st = ts ++ st' /\ spells_chain l ts e)
  /\ (forall st l e st', parseApply_loop fuel st l = Some (Ok e, st') ->
     exists ts, st = ts ++ st' /\ spells_chain l ts e).

End ParserInvariants.

(** * Vocabulary of the statements: texts *)

(** The tokens lie in [s] from [from] on, one after the other, each where
    its location says, with the text that stands there. *)
Fixpoint located (s : string) (from : Z) (toks : list Parser.Token) : bool :=
  match toks with
  | [] => true
  | t :: toks =>
      bool_decide (from <= Parser.begin (Parser.loc t))
      && bool_decide (Parser.length (Parser.loc t) = zbuf.size (Parser.text t))
      && bool_decide (substring (Z.to_nat (Parser.begin (Parser.loc t)))
                        (Z.to_nat (Parser.length (Parser.loc t))) s = Parser.text t)
      && located s (Parser.begin (Parser.loc t) + Parser.length (Parser.loc t)) toks
  end.

(** utf8proc never reports more bytes than it was given. *)
Definition within_view `{Utf8proc} : Prop :=
  forall s sz cp, utf8proc_iterate s = (sz, cp) -> cp <> -1 -> 0 <= sz <= zbuf.size s.

(** The code of a byte. *)
Definition code (c : ascii) : Z := Z.of_N (N_of_ascii c).

(** The general categories of the ASCII characters. *)
Definition ascii_category (c : Z) : utf8proc_category_t :=
  if decide (c < 32) then UTF8PROC_CATEGORY_CC
  else if decide (c = 32) then UTF8PROC_CATEGORY_ZS
  else if decide (c = 36) then UTF8PROC_CATEGORY_SC
  else if decide (c = 40 \/ c = 91 \/ c = 123) then UTF8PROC_CATEGORY_PS
  else if decide (c = 41 \/ c = 93 \/ c = 125) then UTF8PROC_CATEGORY_PE
  else if decide (c = 43 \/ 60 <= c <= 62 \/ c = 124 \/ c = 126) then UTF8PROC_CATEGORY_SM
  else if decide (c = 45) then UTF8PROC_CATEGORY_PD
  else if decide (48 <= c <= 57) then UTF8PROC_CATEGORY_ND
  else if decide (65 <= c <= 90) then UTF8PROC_CATEGORY_LU
  else if decide (c = 94 \/ c = 96) then UTF8PROC_CATEGORY_SK
  else if decide (c = 95) then UTF8PROC_CATEGORY_PC
  else if decide (97 <= c <= 122) then UTF8PROC_CATEGORY_LL
  else if decide (c = 127) then UTF8PROC_CATEGORY_CC
  else UTF8PROC_CATEGORY_PO.

(** utf8proc on ASCII: a byte below 128 is one character, its own code
    point, of the category that Unicode gives it. *)
Definition reads_ascii `{Utf8proc} : Prop :=
  (forall c s, code c < 128 -> utf8proc_iterate (String c s) = (1, code c))
  /\ (forall c, 0 <= c < 128 -> utf8proc_category c = ascii_category c).

(** The ASCII letters and digits and the underscore. *)
Definition ident_char (c : ascii) : bool :=
  bool_decide (48 <= code c <= 57 \/ 65 <= code c <= 90 \/ 97 <= code c <= 122
               \/ code c = 95).

Fixpoint ident_chars (s : string) : bool :=
  match s with
  | "" => true
  | String c s => ident_char c && ident_chars s
  end.

(** A name in ASCII that is not a keyword. *)
Definition identifier (n : string) : bool :=
  bool_decide (n <> "") && ident_chars n && bool_decide (n <> "let") && bool_decide (n <> "in").

(** Every name of the term is such a name. *)
Fixpoint names_ok (e : Expr) : bool :=
  match e with
  | Var n => identifier n
  | Apply fn arg => names_ok fn && names_ok arg
  | Lambda x body => identifier x && names_ok body
  | Let n value => identifier n && names_ok value
  end.

(** A line: a text without a newline. *)
Fixpoint is_line (s : string) : bool :=
  match s with
  | "" => true
  | String c s => bool_decide (c <> newline) && is_line s
  end.

(** The bytes of [s] stand in the memory from the address [p] on. *)
Fixpoint stands (mem : Z -> ascii) (p : Z) (s : string) : Prop :=
  match s with
  | "" => True
  | String c s => mem p = c /\ stands mem (p + 1) s
  end.

(** Only spaces and tabs. *)
Fixpoint blanks (s : string) : bool :=
  match s with
  | "" => true
  | String c s => View.blank c && blanks s
  end.

(** A text without the spaces and tabs at its two ends. *)
Fixpoint strip_front (s : string) : string :=
  match s with
  | "" => ""
  | String c s' => if View.blank c then strip_front s' else s
  end.

Fixpoint strip_back (s : string) : string :=
  match s with
  | "" => ""
  | String c s' => if blanks s then "" else String c (strip_back s')
  end.

Definition strip (s : string) : string := strip_back (strip_front s).

(** ** Examples *)

(** A decoder of ASCII, for the examples: a byte below 128 is its own code
    point, any other byte is an error. *)
Definition ascii_iterate (s : string) : Z * Z :=
  match s with
  | "" => (0, -1)
  | String c _ => if decide (code c < 128) then (1, code c) else (-3, -1)
  end.

(** utf8proc for the examples. *)
Definition ascii_utf8proc : Utf8proc := Build_Utf8proc ascii_iterate ascii_category.

(** A statement for the examples: [let K = λx.λy.x (λx.y)]. *)
Definition stmt_K : Expr :=
  Let "K" (Lambda "x" (Lambda "y" (Apply (Var "x") (Lambda "x" (Var "y"))))).

(** A memory for the examples: the bytes of [s] from the address [p] on,
    and NUL everywhere else. *)
Definition memory_of (p : Z) (s : string) (a : Z) : ascii :=
  if decide (p <= a) then
    match String.get (Z.to_nat (a - p)) s with
    | Some c => c
    | None => Ascii.zero
    end
  else Ascii.zero.

(** * Invariants of the proofs: texts *)

(** The view [src] is what is left of [s0] from the position [idx] on. *)
Definition view_at (s0 src : string) (idx : Z) : Prop :=
  exists pre, s0 = pre +:+ src /\ zbuf.size pre = idx.

(** A text without the byte NUL. *)
Fixpoint no_nul (s : string) : bool :=
  match s with
  | "" => true
  | String c s => bool_decide (c <> Ascii.zero) && no_nul s
  end.

(** What may follow a word: the end, or an ASCII character that no
    identifier holds. *)
Definition delim (R : string) : Prop :=
  R = "" \/ exists c r, R = String c r /\ code c < 128 /\ ident_char c = false.

(** The type that [lex_one_token] gives to a word. *)
Definition word_type (w : string) : Parser.TokenType :=
  if zbuf.eq w "let" then Parser.TLet
  else if zbuf.eq w "in" then Parser.In
  else Parser.Identifier.

(** What the printer writes in the style of Haskell, piece by piece. *)
Inductive item : Type :=
| ISpace | ILet | IName (n : string) | IOpen | IClose | ILambda | IArrow | IEqual.

Definition render_item (i : item) : string :=
  match i with
  | ISpace => " "
  | ILet => "let"
  | IName n => n
  | IOpen => "("
  | IClose => ")"
  | ILambda => "\"
  | IArrow => "->"
  | IEqual => "="
  end.

Fixpoint render (its : list item) : string :=
  match its with
  | [] => ""
  | i :: its => render_item i +:+ render its
  end.

(** The token that a piece is read as. *)
Definition item_kind (i : item) : option (Parser.TokenType * string) :=
  match i with
  | ISpace => None
  | ILet => Some (Parser.TLet, "let")
  | IName n => Some (Parser.Identifier, n)
  | IOpen => Some (Parser.LParen, "(")
  | IClose => Some (Parser.RParen, ")")
  | ILambda => Some (Parser.TLambda, "\")
  | IArrow => Some (Parser.RightArrow, "->")
  | IEqual => Some (Parser.Equal, "=")
  end.

Definition kinds (ts : list Parser.Token) : list (Parser.TokenType * string) :=
  (fun t => (Parser.type t, Parser.text t)) <$> ts.

Definition is_word (i : item) : bool :=
  match i with ILet | IName _ => true | _ => false end.

Definition item_ok (i : item) : bool :=
  match i with IName n => identifier n | _ => true end.

(** No two words stand side by side. *)
Fixpoint separated (its : list item) : bool :=
  match its with
  | [] => true
  | i :: its' =>
      match its' with
      | j :: _ => negb (is_word i && is_word j)
      | [] => true
      end && separated its'
  end.

(** Tokens that can be carried on by more atoms. *)
Definition extendable (ts : list Parser.Token) (l : Expr) : Prop :=
  forall ts2 e, spells_chain l ts2 e -> spells_expr (ts ++ ts2) e.

(** What the tokens of the pieces spell, by the way the printer was called:
    the parameters of a lambda that is carried on, a lambda without
    parentheses, an atom, or atoms in a row. *)
Definition spelled_by (combine omit_lambda_parens : bool) (e : Expr) (its : list item)
    : Prop :=
  forall ts, kinds ts = omap item_kind its ->
    match e with
    | Lambda _ _ =>
        if combine then spells_params ts e
        else if omit_lambda_parens then spells_lambda ts e
        else spells_atom ts e
    | Apply _ _ => extendable ts e
    | _ => spells_atom ts e
    end.

(** The lambda around its parameters, as the printer was called. *)
Definition lambda_items (combine omit : bool) (tail : list item) : list item :=
  (if combine then [] else (if omit then [] else [IOpen]) ++ [ILambda])
  ++ tail ++ (if negb combine && negb omit then [IClose] else []).

(** A state of the printer without predicates and underlines. *)
Definition plain_state (flags : Z) (combined_args : gset string) : Printer.State :=
  Printer.mkState flags (fun _ _ => None) (fun _ _ => None) None combined_args [].

(** Where the byte [c] stands first in [s]. *)
Fixpoint position (c : ascii) (s : string) : option nat :=
  match s with
  | "" => None
  | String d s => if decide (d = c) then Some 0%nat else S <$> position c s
  end.

(** The lines, each with its newline. *)
Fixpoint unlines (ls : list string) : string :=
  match ls with
  | [] => ""
  | l :: ls => l +:+ String newline (unlines ls)
  end.

(** * Basic facts *)

Lemma clone_id e : clone e = e.
Proof. induction e; simpl; congruence. Qed.

Lemma bind_Ret {A B} (m : result A) (f : A -> result B) b :
  m ≫= f = Ret b <-> exists a, m = Ret a /\ f a = Ret b.
Proof.
  destruct m as [a|]; simpl; split.
  - eauto.
  - by intros (a' & [= ->] & ?).
  - done.
  - by intros (? & ? & ?).
Qed.

Lemma address_order_singleton addr_order s v :
  address_order addr_order -> addr_order s [v] = [v].
Proof. intros H. apply Permutation_singleton_r, H. Qed.

Lemma address_order_nil addr_order s :
  address_order addr_order -> addr_order s [] = [].
Proof. intros H. apply Permutation_nil_r, H. Qed.

Lemma address_order_id : address_order walk_order.
Proof. by intros s l. Qed.

Lemma address_order_reverse : address_order reverse_order.
Proof. intros s l. apply reverse_Permutation. Qed.

(** * Tactics *)

Ltac ret_inv :=
  repeat match goal with
  | H : _ ≫= _ = Ret _ |- _ => apply bind_Ret in H; destruct H as (? & ? & H)
  | H : Ret _ = Ret _ |- _ => injection H as H
  | H : Abort = Ret _ |- _ => discriminate H
  | H : (_, _) = (_, _) |- _ => injection H as H
  | H : Some _ = None |- _ => discriminate H
  | H : None = Some _ |- _ => discriminate H
  end.

Ltac opt_inv :=
  repeat match goal with
  | H : _ ≫= _ = Some _ |- _ =>
      let x := fresh "x" in
      apply bind_Some in H; destruct H as (x & ? & H); try destruct x
  | H : Some _ = Some _ |- _ => apply (inj Some) in H
  | H : (_, _) = (_, _) |- _ => injection H as H
  | H : None = Some _ |- _ => discriminate H
  end.

#[local] Arguments Heap.deref : simpl never.
#[local] Arguments Heap.assign : simpl never.
#[local] Arguments Heap.set_param : simpl never.
#[local] Arguments Heap.new : simpl never.

(** * C1: capture *)

(** C1 (the code departs from it).  Evaluating [(λx.λy.x) y] in an empty
    context, whatever the address order and with either reducer, takes one
    beta step and no alpha step and returns [λy.y]: the free [y] of the
    argument is captured.  The map of bound variables of [λx.λy.x] has the
    key [x] only - [y] does not occur in the body - so the loop that
    renames on a conflict finds none. *)
Theorem C1_free_variable_captured addr_order :
  address_order addr_order ->
  Eval.evaluate addr_order 2 empty_ctx
    (Apply (Lambda "x" (Lambda "y" (Var "x"))) (Var "y")) FLAG_TRACE
  = Some (Ret (empty_ctx, Lambda "y" (Var "y"),
       [EvStart (Apply (Lambda "x" (Lambda "y" (Var "x"))) (Var "y"));
        EvBeta 1 "x" (Var "y"); EvDone]))
  /\ Eval2.evaluate addr_order 1 2 empty_ctx
       (Apply (Lambda "x" (Lambda "y" (Var "x"))) (Var "y")) FLAG_TRACE
     = Some (Ret (empty_ctx, Lambda "y" (Var "y"),
          [EvStart (Apply (Lambda "x" (Lambda "y" (Var "x"))) (Var "y"));
           EvBeta 1 "x" (Var "y"); EvDone]))
  /\ Eval.find_bound_variables (Lambda "x" (Lambda "y" (Var "x")))
     = Ret {[ "x" := [] ]}
  /\ Eval.find_free_variables (Var "y") = Ret [([], "y")].
Proof.
  intros H. split; [|split; [|split; by vm_compute]].
  - vm_compute. rewrite (address_order_singleton _ _ _ H). by vm_compute.
  - vm_compute. rewrite (address_order_singleton _ _ _ H). by vm_compute.
Qed.

Lemma C1_free_variable_captured_witness :
  address_order walk_order
  /\ Eval.evaluate walk_order 2 empty_ctx
       (Apply (Lambda "x" (Lambda "y" (Var "x"))) (Var "y")) FLAG_TRACE
     = Some (Ret (empty_ctx, Lambda "y" (Var "y"),
          [EvStart (Apply (Lambda "x" (Lambda "y" (Var "x"))) (Var "y"));
           EvBeta 1 "x" (Var "y"); EvDone])).
Proof.
  split; [exact address_order_id|].
  exact (proj1 (C1_free_variable_captured walk_order address_order_id)).
Defined.

(** * C3: the alpha-equivalence check *)

(** C3 (the code departs from it).  A variable that no scope binds is never
    accepted: for every name [x] the check of [x] against [x] under empty
    scopes answers [false], so the relation is not reflexive.  The
    comparison of the two sets of free names passes; the [Var] case then
    finds no depth for either side and returns [false]. *)
Theorem C3_free_variable_not_reflexive (x : string) :
  Util.alpha_equivalent (Var x) (Var x) [] [] 0 Util.empty_state Util.empty_state
  = Ret false.
Proof.
  unfold Util.alpha_equivalent, Util.empty_state. simpl.
  destruct (decide (Util.EXPR_VAR ≠ Util.EXPR_VAR)) as [Hne|_]; [done|].
  rewrite !lookup_empty. simpl.
  by destruct (decide _).
Qed.

(** The relation that the check decides is symmetric and transitive all the
    same, under any scopes. *)

Lemma types_differ_sym a b : Util.type a ≠ Util.type b -> Util.type b ≠ Util.type a.
Proof. intros H E. by apply H. Qed.

Lemma result_bind_comm {A B C} (ma : result A) (mb : result B) (k : A -> B -> result C) :
  (a ← ma; b ← mb; k a b) = (b ← mb; a ← ma; k a b).
Proof. by destruct ma, mb. Qed.

(** The check, one level unfolded. *)
Lemma alpha_equivalent_unfold a b pa pb d sta stb :
  Util.alpha_equivalent a b pa pb d sta stb
  = if decide (Util.type a ≠ Util.type b) then Ret false
    else
      free_a ← Util._find_variables_free 1 (Util.bindings sta) pa a 0;
      free_b ← Util._find_variables_free 1 (Util.bindings stb) pb b 0;
      if decide (Util.names free_a ≠ Util.names free_b) then Ret false
      else
        match a, b with
        | Var n1, Var n2 =>
            match Util.var_depths sta !! n1, Util.var_depths stb !! n2 with
            | Some da, Some db => Ret (bool_decide (da = db))
            | _, _ => Ret false
            end
        | Apply fn1 arg1, Apply fn2 arg2 =>
            r ← Util.alpha_equivalent fn1 fn2 (pa ++ [DFn]) (pb ++ [DFn]) d sta stb;
            if r : bool then
              Util.alpha_equivalent arg1 arg2 (pa ++ [DArg]) (pb ++ [DArg]) d sta stb
            else Ret false
        | Lambda x1 body1, Lambda x2 body2 =>
            Util.alpha_equivalent body1 body2 (pa ++ [DBody]) (pb ++ [DBody]) (d + 1)
              (Util.mkCheckState (<[ x1 := d ]> (Util.var_depths sta))
                                 (<[ x1 := pa ]> (Util.bindings sta)))
              (Util.mkCheckState (<[ x2 := d ]> (Util.var_depths stb))
                                 (<[ x2 := pb ]> (Util.bindings stb)))
        | _, _ => Abort
        end.
Proof. by destruct a. Qed.

Lemma alpha_equivalent_symmetric a b pa pb d sta stb :
  Util.alpha_equivalent a b pa pb d sta stb = Util.alpha_equivalent b a pb pa d stb sta.
Proof.
  revert b pa pb d sta stb. induction a as [n1|fn1 IHfn arg1 IHarg|x1 body1 IH|n1 v1 _];
    intros b pa pb d sta stb; rewrite (alpha_equivalent_unfold _ b), (alpha_equivalent_unfold b);
    (destruct (decide (Util.type _ ≠ Util.type b)) as [Ht|Ht];
     [by rewrite decide_True by (by apply types_differ_sym)|
      rewrite decide_False by (intros Ht'; by apply Ht, types_differ_sym)]);
    rewrite result_bind_comm;
    (destruct (Util._find_variables_free 1 (Util.bindings stb) pb b 0) as [fb|]; [|done]);
    (destruct (Util._find_variables_free 1 (Util.bindings sta) pa _ 0) as [fa|]; [|done]);
    cbn [mbind result_bind];
    (destruct (decide (Util.names fa ≠ Util.names fb)) as [Hn|Hn];
     [by rewrite decide_True by (intros E; by apply Hn)|
      rewrite decide_False by (intros Hn'; apply Hn; intros E; by apply Hn')]);
    destruct b as [n2|fn2 arg2|x2 body2|n2 v2]; try done.
  - destruct (Util.var_depths sta !! n1), (Util.var_depths stb !! n2); try done.
    f_equal. apply bool_decide_ext. split; congruence.
  - rewrite (IHfn fn2).
    destruct (Util.alpha_equivalent fn2 fn1 _ _ _ _ _) as [[|]|]; simpl; try done.
Qed.

Lemma alpha_equivalent_transitive a b c pa pb pc d sta stb stc :
  Util.alpha_equivalent a b pa pb d sta stb = Ret true ->
  Util.alpha_equivalent b c pb pc d stb stc = Ret true ->
  Util.alpha_equivalent a c pa pc d sta stc = Ret true.
Proof.
  revert b c pa pb pc d sta stb stc.
  induction a as [n1|fn1 IHfn arg1 IHarg|x1 body1 IH|n1 v1 _];
    intros b c pa pb pc d sta stb stc;
    rewrite (alpha_equivalent_unfold _ b), (alpha_equivalent_unfold b c),
      (alpha_equivalent_unfold _ c);
    (destruct (decide (Util.type _ ≠ Util.type b)) as [|Hab]; [done|]);
    (destruct (decide (Util.type b ≠ Util.type c)) as [|Hbc]; [by intros _ ?|]);
    (rewrite decide_False by (intros E; apply Hab; intros E1; apply Hbc; congruence));
    (destruct (Util._find_variables_free 1 (Util.bindings sta) pa _ 0) as [fa|]; [|done]);
    (destruct (Util._find_variables_free 1 (Util.bindings stb) pb b 0) as [fb|]; [|done]);
    (destruct (Util._find_variables_free 1 (Util.bindings stc) pc c 0) as [fc|];
       [|by intros _ ?]);
    cbn [mbind result_bind];
    (destruct (decide (Util.names fa ≠ Util.names fb)) as [|Hn1]; [done|]);
    (destruct (decide (Util.names fb ≠ Util.names fc)) as [|Hn2]; [by intros _ ?|]);
    (rewrite decide_False by (intros E; apply Hn1; intros E1; apply Hn2; congruence));
    destruct b as [n2|fn2 arg2|x2 body2|n2 v2]; try done;
    destruct c as [n3|fn3 arg3|x3 body3|n3 v3]; try done.
  - destruct (Util.var_depths sta !! n1), (Util.var_depths stb !! n2),
      (Util.var_depths stc !! n3); try done.
    intros [= H1%bool_decide_eq_true] [= H2%bool_decide_eq_true].
    f_equal. apply bool_decide_eq_true. congruence.
  - intros H1 H2.
    destruct (Util.alpha_equivalent fn1 fn2 _ _ _ _ _) as [[|]|] eqn:E1; try done.
    destruct (Util.alpha_equivalent fn2 fn3 _ _ _ _ _) as [[|]|] eqn:E2; try done.
    rewrite (IHfn _ _ _ _ _ _ _ _ _ E1 E2). simpl in *. by eapply IHarg.
  - apply IH.
Qed.

(** * C4: alpha-conversion *)

(** C4 (the code departs from it).  Renaming [x] to [x'] in
    [λx.λx'.x x'], where [x'] is not free in the body: the inner binder is
    renamed to [x''], but the renaming of [x] is not carried on below it, so
    the [x] under the inner binder stays and is now free.  The check of the
    code itself tells the two terms apart. *)
Theorem C4_rename_stops_at_inner_binder :
  alpha_conversion
    (Lambda "x" (Lambda "x'" (Apply (Var "x") (Var "x'")))) "x" "x'"
  = Ret (Lambda "x'" (Lambda "x''" (Apply (Var "x") (Var "x''"))))
  /\ ("x'" ∉ free_names ∅ (Lambda "x'" (Apply (Var "x") (Var "x'"))))
  /\ free_names ∅ (Lambda "x" (Lambda "x'" (Apply (Var "x") (Var "x'")))) = ∅
  /\ free_names ∅ (Lambda "x'" (Lambda "x''" (Apply (Var "x") (Var "x''")))) = {[ "x" ]}
  /\ Util.alpha_equivalent
       (Lambda "x" (Lambda "x'" (Apply (Var "x") (Var "x'"))))
       (Lambda "x'" (Lambda "x''" (Apply (Var "x") (Var "x''"))))
       [] [] 0 Util.empty_state Util.empty_state
     = Ret false.
Proof.
  split; [by vm_compute|].
  split; [by apply (bool_decide_unpack _); vm_compute|].
  split; [by apply (bool_decide_unpack _); vm_compute|].
  split; [by apply (bool_decide_unpack _); vm_compute|].
  by vm_compute.
Qed.

(** * C10: definitions *)

(** C10.  Evaluating [let n = v] stores [v] itself, unreduced, under [n],
    leaves the other definitions and the flags as they were, prints at most
    the line that announces the definition, so no alpha or beta step, and
    returns [v].  Both reducers do so, for every fuel, also none. *)
Theorem C10_let_stores_unreduced addr_order fuel_inline fuel ctx n v print_flags :
  let ctx' := mkContext (flags ctx) (<[ n := v ]> (vars ctx)) in
  let o := print_trace print_flags
             (EvDefined n (bool_decide (is_Some (vars ctx !! n)))) [] in
  Eval.evaluate addr_order fuel ctx (Let n v) print_flags = Some (Ret (ctx', v, o))
  /\ Eval2.evaluate addr_order fuel_inline fuel ctx (Let n v) print_flags
     = Some (Ret (ctx', v, o))
  /\ vars ctx' !! n = Some v
  /\ delete n (vars ctx') = delete n (vars ctx)
  /\ existsb is_reduction_event o = false.
Proof.
  intros ctx' o. unfold Eval.evaluate, Eval2.evaluate. rewrite clone_id.
  split; [done|]. split; [done|]. subst ctx' o. simpl.
  split; [apply lookup_insert_eq|].
  split; [apply delete_insert_eq|].
  unfold print_trace. by case_decide.
Qed.

(** * C2: what the reduction loop leaves *)

Lemma contract_not_null print_flags func arg t t' :
  contract print_flags func arg t = Ret (None, t') -> False.
Proof. unfold contract. intros H. ret_inv. Qed.

Section Stuck.

Variable addr_order : Z -> list VarPtr -> list VarPtr.
Variable print_flags : Z.

Lemma Eval_beta_reduction_null app t t' :
  Eval.beta_reduction addr_order print_flags t app = Ret (None, t') ->
  match app with
  | Apply fn _ => is_lambda (spine_head fn) = false
  | _ => True
  end /\ t' = t.
Proof.
  revert t t'. induction app as [n|fn IHfn arg _|x body _|n v _]; intros t t' H; simpl in H.
  - by ret_inv; subst.
  - destruct fn as [n|fn' arg'|x body|n v].
    + by ret_inv; subst.
    + apply bind_Ret in H. destruct H as ([red t1] & H1 & H).
      destruct red; ret_inv; subst. simpl. by apply IHfn in H1 as [? ->].
    + exfalso. ret_inv. destruct x2. by eapply contract_not_null.
    + by ret_inv; subst.
  - by ret_inv; subst.
  - by ret_inv; subst.
Qed.

Lemma Eval2_beta_reduction_null app t t' :
  Eval2.beta_reduction addr_order print_flags t app = Ret (None, t') ->
  match app with
  | Apply fn _ => is_lambda (spine_head fn) = false
  | _ => True
  end /\ t' = t.
Proof.
  revert t t'. induction app as [n|fn IHfn arg IHarg|x body _|n v _]; intros t t' H; simpl in H.
  - by ret_inv; subst.
  - destruct fn as [n|fn' arg'|x body|n v].
    + simpl. destruct arg; try (by ret_inv; subst).
      apply bind_Ret in H. destruct H as ([red t1] & H1 & H).
      destruct red; ret_inv; subst. by apply IHarg in H1 as [_ ->].
    + apply bind_Ret in H. destruct H as ([red t1] & H1 & H).
      destruct red; ret_inv; subst. simpl. by apply IHfn in H1 as [? ->].
    + exfalso. ret_inv. destruct x2. by eapply contract_not_null.
    + simpl. destruct arg; try (by ret_inv; subst).
      apply bind_Ret in H. destruct H as ([red t1] & H1 & H).
      destruct red; ret_inv; subst. by apply IHarg in H1 as [_ ->].
  - by ret_inv; subst.
  - by ret_inv; subst.
Qed.

Lemma Eval_eval_null e t t' :
  Eval.eval addr_order print_flags t e = Ret (None, t') ->
  head_normal e = true /\ t' = t.
Proof.
  revert t t'. induction e as [n|fn _ arg _|x body IH|n v _]; intros t t' H.
  - simpl in H. by ret_inv; subst.
  - change (Eval.beta_reduction addr_order print_flags t (Apply fn arg) = Ret (None, t')) in H.
    apply Eval_beta_reduction_null in H as [H ->]. simpl in *. by rewrite H.
  - simpl in H. apply bind_Ret in H. destruct H as ([b t1] & H1 & H).
    destruct b; ret_inv; subst. by apply IH in H1.
  - simpl in H. by ret_inv; subst.
Qed.

Lemma Eval2_eval_null e t t' :
  Eval2.eval addr_order print_flags t e = Ret (None, t') ->
  head_normal e = true /\ t' = t.
Proof.
  revert t t'. induction e as [n|fn _ arg _|x body IH|n v _]; intros t t' H.
  - simpl in H. by ret_inv; subst.
  - change (Eval2.beta_reduction addr_order print_flags t (Apply fn arg) = Ret (None, t')) in H.
    apply Eval2_beta_reduction_null in H as [H ->]. simpl in *. by rewrite H.
  - simpl in H. apply bind_Ret in H. destruct H as ([b t1] & H1 & H).
    destruct b; ret_inv; subst. by apply IH in H1.
  - simpl in H. by ret_inv; subst.
Qed.

Lemma Eval_evaluate_loop_head_normal fuel t copy r t' :
  Eval.evaluate_loop addr_order fuel print_flags t copy = Some (Ret (r, t')) ->
  head_normal r = true.
Proof.
  revert t copy. induction fuel as [|fuel IH]; intros t copy H; simpl in H; [done|].
  destruct (Eval.eval addr_order print_flags t copy) as [[[next|] t1]|] eqn:E.
  - by eapply IH.
  - injection H as -> ->. by apply Eval_eval_null in E as [? _].
  - done.
Qed.

Lemma Eval2_evaluate_loop_head_normal fuel t copy r t' :
  Eval2.evaluate_loop addr_order fuel print_flags t copy = Some (Ret (r, t')) ->
  head_normal r = true.
Proof.
  revert t copy. induction fuel as [|fuel IH]; intros t copy H; simpl in H; [done|].
  destruct (Eval2.eval addr_order print_flags t copy) as [[[next|] t1]|] eqn:E.
  - by eapply IH.
  - injection H as -> ->. by apply Eval2_eval_null in E as [? _].
  - done.
Qed.

(** A term in head normal form is a fixed point of the search: nothing is
    printed, nothing aborts. *)
Lemma Eval_beta_reduction_stuck app t :
  is_lambda (spine_head app) = false ->
  Eval.beta_reduction addr_order print_flags t app = Ret (None, t).
Proof.
  induction app as [n|fn IHfn arg _|x body _|n v _]; intros H; simpl; try done.
  destruct fn as [n|fn' arg'|x body|n v]; try done.
  simpl in H. by rewrite (IHfn H).
Qed.

Lemma Eval_eval_stuck e t :
  head_normal e = true ->
  Eval.eval addr_order print_flags t e = Ret (None, t).
Proof.
  induction e as [n|fn _ arg _|x body IH|n v _]; intros H; try done.
  - change (Eval.beta_reduction addr_order print_flags t (Apply fn arg) = Ret (None, t)).
    apply Eval_beta_reduction_stuck. simpl in *. by destruct (is_lambda (spine_head fn)).
  - simpl in *. by rewrite (IH H).
Qed.

End Stuck.

(** C2 (as amended).  When evaluation of a term that is not a definition
    returns, with either reducer, the term returned is in head normal form:
    below its leading lambdas the head of the chain of applications is not
    a lambda.  Nothing is said of the arguments of that chain. *)
Theorem C2_result_is_head_normal addr_order fuel_inline fuel ctx e print_flags ctx' r o :
  is_let e = false ->
  Eval.evaluate addr_order fuel ctx e print_flags = Some (Ret (ctx', r, o))
  \/ Eval2.evaluate addr_order fuel_inline fuel ctx e print_flags = Some (Ret (ctx', r, o)) ->
  head_normal r = true.
Proof.
  intros Hlet [H|H].
  - unfold Eval.evaluate in H.
    destruct (free ← Eval.find_free_variables e; Eval.replace_vars ctx free [] e)
      as [copy|] eqn:E; [|by destruct e].
    destruct (Eval.evaluate_loop addr_order fuel print_flags _ copy)
      as [[[copy' t]|]|] eqn:L; try (by destruct e).
    apply Eval_evaluate_loop_head_normal in L.
    destruct e; try done; by injection H as _ <- _.
  - unfold Eval2.evaluate in H.
    destruct (Util.replace_vars fuel_inline ctx e) as [[copy|]|] eqn:E;
      try (by destruct e).
    destruct (Eval2.evaluate_loop addr_order fuel print_flags _ copy)
      as [[[copy' t]|]|] eqn:L; try (by destruct e).
    apply Eval2_evaluate_loop_head_normal in L.
    destruct e; try done; by injection H as _ <- _.
Qed.

Lemma C2_result_is_head_normal_witness :
  (is_let (Lambda "x" (Apply (Lambda "y" (Var "y")) (Var "x"))) = false
   /\ Eval.evaluate walk_order 2 empty_ctx
        (Lambda "x" (Apply (Lambda "y" (Var "y")) (Var "x"))) 0
      = Some (Ret (empty_ctx, Lambda "x" (Var "x"), [])))
  /\ head_normal (Lambda "x" (Var "x")) = true.
Proof.
  assert (Eval.evaluate walk_order 2 empty_ctx
            (Lambda "x" (Apply (Lambda "y" (Var "y")) (Var "x"))) 0
          = Some (Ret (empty_ctx, Lambda "x" (Var "x"), []))) as H
    by (vm_compute; reflexivity).
  split; [by split|].
  eapply (C2_result_is_head_normal walk_order 0 2 empty_ctx _ 0); [|left; exact H].
  reflexivity.
Defined.

(** C2 (as stated) fails.  Without tracing and in an empty context, the
    first reducer returns [x ((λy.y) z)] as it is, and the second returns
    [(x x) ((λy.y) z)] and [x (λw.(λy.y) z)] as they are; each still holds
    the redex [(λy.y) z]. *)
Lemma C2_redex_left_in_argument :
  Eval.evaluate walk_order 1 empty_ctx
    (Apply (Var "x") (Apply (Lambda "y" (Var "y")) (Var "z"))) 0
  = Some (Ret (empty_ctx,
       Apply (Var "x") (Apply (Lambda "y" (Var "y")) (Var "z")), []))
  /\ has_redex (Apply (Var "x") (Apply (Lambda "y" (Var "y")) (Var "z"))) = true
  /\ Eval2.evaluate walk_order 1 1 empty_ctx
       (Apply (Apply (Var "x") (Var "x")) (Apply (Lambda "y" (Var "y")) (Var "z"))) 0
     = Some (Ret (empty_ctx,
          Apply (Apply (Var "x") (Var "x")) (Apply (Lambda "y" (Var "y")) (Var "z")), []))
  /\ has_redex
       (Apply (Apply (Var "x") (Var "x")) (Apply (Lambda "y" (Var "y")) (Var "z"))) = true
  /\ Eval2.evaluate walk_order 1 1 empty_ctx
       (Apply (Var "x") (Lambda "w" (Apply (Lambda "y" (Var "y")) (Var "z")))) 0
     = Some (Ret (empty_ctx,
          Apply (Var "x") (Lambda "w" (Apply (Lambda "y" (Var "y")) (Var "z"))), []))
  /\ has_redex
       (Apply (Var "x") (Lambda "w" (Apply (Lambda "y" (Var "y")) (Var "z")))) = true.
Proof. repeat split; by vm_compute. Qed.

(** * C5: the bound variables *)

Lemma dom_map_insert {V} k (v : V) (m : gmap string V) :
  dom (map_insert k v m) = {[ k ]} ∪ dom m.
Proof.
  unfold map_insert. destruct (m !! k) eqn:E.
  - apply elem_of_dom_2 in E. symmetry. apply subseteq_union_1_L.
    by apply singleton_subseteq_l.
  - by rewrite dom_insert_L.
Qed.

Lemma Eval_find_bound_total e seen p :
  no_let e = true -> exists m, Eval._find_variables_bound seen p e = Ret m.
Proof.
  revert seen p. induction e as [n|fn IHfn arg IHarg|x body IH|n v _];
    intros seen p H; simpl in *.
  - destruct (seen !! n); eauto.
  - apply andb_prop in H as [H1 H2].
    destruct (IHfn seen (p ++ [DFn]) H1) as [m1 ->].
    destruct (IHarg seen (p ++ [DArg]) H2) as [m2 ->]. simpl. eauto.
  - by apply IH.
  - done.
Qed.

Lemma Eval_find_free_total e seen p :
  no_let e = true -> exists fv, Eval._find_variables_free seen p e = Ret fv.
Proof.
  revert seen p. induction e as [n|fn IHfn arg IHarg|x body IH|n v _];
    intros seen p H; simpl in *.
  - destruct (seen !! n); eauto.
  - apply andb_prop in H as [H1 H2].
    destruct (IHfn seen (p ++ [DFn]) H1) as [m1 ->].
    destruct (IHarg seen (p ++ [DArg]) H2) as [m2 ->]. simpl. eauto.
  - by apply IH.
  - done.
Qed.

(** Below the depth limit the two searches of [util.cpp] are those of
    [eval.cpp]. *)
Lemma Util_find_bound_Eval e seen p depth :
  depth_ok depth e = true ->
  Util._find_variables_bound Util.INT_MAX seen p e depth
  = Eval._find_variables_bound seen p e.
Proof.
  revert seen p depth. induction e as [n|fn IHfn arg IHarg|x body IH|n v _];
    intros seen p depth H; simpl in *; try done.
  - apply andb_prop in H as [H1 H2]. by rewrite IHfn, IHarg.
  - apply andb_prop in H as [H1 H2]. apply bool_decide_eq_true in H1.
    rewrite decide_True by done. by apply IH.
Qed.

Lemma Util_find_free_Eval e seen p depth :
  depth_ok depth e = true ->
  Util._find_variables_free Util.INT_MAX seen p e depth
  = Eval._find_variables_free seen p e.
Proof.
  revert seen p depth. induction e as [n|fn IHfn arg IHarg|x body IH|n v _];
    intros seen p depth H; simpl in *; try done.
  - apply andb_prop in H as [H1 H2]. by rewrite IHfn, IHarg.
  - apply andb_prop in H as [H1 H2]. apply bool_decide_eq_true in H1.
    rewrite decide_True by done. by apply IH.
Qed.

(** What [_find_variables<true>] returns: its keys are the names with a
    bound occurrence, and a key comes with the pointer that [seen] has for
    it or, for a name that [seen] does not have, with a lambda of the term
    that binds it and has no lambda of that name above it. *)
Lemma Eval_find_bound_spec e seen p m :
  Eval._find_variables_bound seen p e = Ret m ->
  dom m = bound_names (dom seen) e
  /\ forall n l, m !! n = Some l ->
       seen !! n = Some l
       \/ (seen !! n = None
           /\ exists q body, l = p ++ q /\ load e q = Some (Lambda n body)
                             /\ binder_above n e q = false).
Proof.
  revert seen p m. induction e as [n|fn IHfn arg IHarg|x body IH|n v _];
    intros seen p m H; simpl in H.
  - destruct (seen !! n) as [l|] eqn:E; ret_inv; subst; simpl.
    + apply elem_of_dom_2 in E as Hd. rewrite decide_True by done.
      split; [by rewrite dom_singleton_L|].
      intros n' l' [<- <-]%lookup_singleton_Some. by left.
    + apply not_elem_of_dom in E as Hd. rewrite decide_False by done.
      split; [by rewrite dom_empty_L|]. intros n' l'. by rewrite lookup_empty.
  - ret_inv. subst m. rename x into m1, x0 into m2.
    destruct (IHfn _ _ _ H0) as [D1 S1]. destruct (IHarg _ _ _ H1) as [D2 S2].
    rewrite (left_id_L ∅ (∪)). split; [by rewrite dom_union_L, D1, D2|].
    intros n l [Hl|[_ Hl]]%lookup_union_Some_raw.
    + destruct (S1 _ _ Hl) as [?|(? & q & body & -> & ? & ?)]; [by left|].
      right. split; [done|]. exists (DFn :: q), body.
      by rewrite <- app_assoc.
    + destruct (S2 _ _ Hl) as [?|(? & q & body & -> & ? & ?)]; [by left|].
      right. split; [done|]. exists (DArg :: q), body.
      by rewrite <- app_assoc.
  - destruct (IH _ _ _ H) as [D S]. rewrite dom_map_insert in D.
    split; [done|]. intros n l Hl.
    destruct (S _ _ Hl) as [Hs|(Hs & q & b & -> & Hq & Ha)]; unfold map_insert in Hs.
    + destruct (seen !! x) eqn:E; [by left|].
      destruct (decide (x = n)) as [->|Hne].
      * rewrite lookup_insert_eq in Hs. injection Hs as <-.
        right. split; [done|]. exists [], body. by rewrite app_nil_r.
      * rewrite lookup_insert_ne in Hs by done. by left.
    + assert (x ≠ n /\ seen !! n = None) as [Hne Hn].
      { destruct (seen !! x) eqn:E.
        - split; [|done]. intros ->. congruence.
        - destruct (decide (x = n)) as [->|Hne].
          + by rewrite lookup_insert_eq in Hs.
          + by rewrite lookup_insert_ne in Hs. }
      right. split; [done|]. exists (DBody :: q), b.
      rewrite <- app_assoc. simpl. by rewrite bool_decide_eq_false_2.
  - done.
Qed.

Lemma bound_names_binders e scope : bound_names scope e ⊆ scope ∪ binders e.
Proof.
  revert scope. induction e as [n|fn IHfn arg IHarg|x body IH|n v IH];
    intros scope z; simpl.
  - destruct (decide (n ∈ scope)).
    + intros ->%elem_of_singleton. by apply elem_of_union_l.
    + by intros ?%elem_of_empty.
  - rewrite !elem_of_union. intros [Hz|Hz].
    + apply IHfn in Hz. rewrite elem_of_union in Hz. tauto.
    + apply IHarg in Hz. rewrite elem_of_union in Hz. tauto.
  - intros Hz. apply IH in Hz. rewrite !elem_of_union in *. tauto.
  - apply IH.
Qed.

(** C5 (as amended).  For a term without [Let], [find_bound_variables]
    returns a map whose keys are parameters of lambdas of the term and
    include every name with an occurrence bound in the term, and each key
    comes with a lambda of the term that binds this name and lies under no
    other lambda of this name: the outermost one.  Below the depth limit
    the function of [util.cpp] returns the same map. *)
Theorem C5_bound_variables e :
  no_let e = true ->
  exists m, Eval.find_bound_variables e = Ret m
    /\ bound_names ∅ e ⊆ dom m
    /\ dom m ⊆ binders e
    /\ map_Forall (fun n l =>
         exists body, load e l = Some (Lambda n body) /\ binder_above n e l = false) m
    /\ (depth_ok 0 e = true -> Util.find_bound_variables e = Ret m).
Proof.
  intros H. destruct (Eval_find_bound_total e ∅ [] H) as [m Hm].
  exists m. split; [done|].
  destruct (Eval_find_bound_spec _ _ _ _ Hm) as [D S]. rewrite dom_empty_L in D.
  split; [by rewrite D|]. split; [|split].
  - rewrite D. etrans; [apply bound_names_binders|]. by rewrite (left_id_L ∅ (∪)).
  - intros n l Hl. destruct (S _ _ Hl) as [Hs|(_ & q & body & -> & ? & ?)].
    + by rewrite lookup_empty in Hs.
    + by exists body.
  - intros Hd. unfold Util.find_bound_variables. by rewrite Util_find_bound_Eval.
Qed.

Lemma C5_bound_variables_witness :
  no_let (Lambda "x" (Lambda "x" (Var "x"))) = true
  /\ exists m, Eval.find_bound_variables (Lambda "x" (Lambda "x" (Var "x"))) = Ret m
    /\ bound_names ∅ (Lambda "x" (Lambda "x" (Var "x"))) ⊆ dom m
    /\ dom m ⊆ binders (Lambda "x" (Lambda "x" (Var "x")))
    /\ map_Forall (fun n l =>
         exists body, load (Lambda "x" (Lambda "x" (Var "x"))) l = Some (Lambda n body)
                      /\ binder_above n (Lambda "x" (Lambda "x" (Var "x"))) l = false) m
    /\ (depth_ok 0 (Lambda "x" (Lambda "x" (Var "x"))) = true ->
        Util.find_bound_variables (Lambda "x" (Lambda "x" (Var "x"))) = Ret m).
Proof.
  split; [reflexivity|].
  apply (C5_bound_variables (Lambda "x" (Lambda "x" (Var "x")))). reflexivity.
Defined.

(** C5 (as stated) fails.  In [λx.λx.x] the occurrence of [x] is bound by
    the inner lambda, the innermost lambda that binds [x]; with either
    function, the key [x] comes with the outer lambda, the root. *)
Lemma C5_key_comes_with_outer_lambda :
  Eval.find_bound_variables (Lambda "x" (Lambda "x" (Var "x"))) = Ret {[ "x" := [] ]}
  /\ Util.find_bound_variables (Lambda "x" (Lambda "x" (Var "x"))) = Ret {[ "x" := [] ]}
  /\ load (Lambda "x" (Lambda "x" (Var "x"))) [] = Some (Lambda "x" (Lambda "x" (Var "x")))
  /\ load (Lambda "x" (Lambda "x" (Var "x"))) [DBody] = Some (Lambda "x" (Var "x")).
Proof. repeat split; by vm_compute. Qed.

(** * C8: the two context inliners *)

Lemma lam_depth_nonneg e : 0 <= lam_depth e.
Proof. induction e; simpl; lia. Qed.

Lemma depth_ok_lam_depth e depth :
  0 <= depth -> depth + lam_depth e <= Util.INT_MAX -> depth_ok depth e = true.
Proof.
  revert depth. induction e as [n|fn IHfn arg IHarg|x body IH|n v _];
    intros depth H0 H; simpl in *; try done.
  - pose proof (lam_depth_nonneg fn). pose proof (lam_depth_nonneg arg).
    rewrite IHfn, IHarg by lia. done.
  - pose proof (lam_depth_nonneg body).
    rewrite bool_decide_eq_true_2 by lia. rewrite IH by lia. done.
Qed.

Lemma find_free_prefix e seen p fv :
  Eval._find_variables_free seen p e = Ret fv ->
  forall q n, (q, n) ∈ fv -> exists k, q = p ++ k.
Proof.
  revert seen p fv. induction e as [n|fn IHfn arg IHarg|x body IH|n v _];
    intros seen p fv H q m Hin; simpl in H.
  - destruct (seen !! n); ret_inv; subst.
    + by apply elem_of_nil in Hin.
    + apply list_elem_of_singleton in Hin. injection Hin as -> ->.
      exists []. by rewrite app_nil_r.
  - ret_inv. subst fv. apply elem_of_app in Hin as [Hin|Hin].
    + destruct (IHfn _ _ _ H0 _ _ Hin) as [k ->]. exists (DFn :: k).
      by rewrite <- app_assoc.
    + destruct (IHarg _ _ _ H1 _ _ Hin) as [k ->]. exists (DArg :: k).
      by rewrite <- app_assoc.
  - destruct (IH _ _ _ H _ _ Hin) as [k ->]. exists (DBody :: k).
    by rewrite <- app_assoc.
  - done.
Qed.

Lemma agree_below_fn seen p fn arg L x y :
  Eval._find_variables_free seen (p ++ [DFn]) fn = Ret x ->
  Eval._find_variables_free seen (p ++ [DArg]) arg = Ret y ->
  agree_below p L (x ++ y) ->
  agree_below (p ++ [DFn]) L x /\ agree_below (p ++ [DArg]) L y.
Proof.
  intros Hx Hy H. unfold agree_below in *.
  split; intros k n; rewrite <- app_assoc, H, elem_of_app; split;
    try tauto; intros [Hin|Hin]; try done.
  - destruct (find_free_prefix _ _ _ _ Hy _ _ Hin) as [k' E].
    rewrite <- !app_assoc in E. by apply app_inv_head in E.
  - destruct (find_free_prefix _ _ _ _ Hx _ _ Hin) as [k' E].
    rewrite <- !app_assoc in E. by apply app_inv_head in E.
Qed.

Lemma agree_below_body p L fv : agree_below p L fv -> agree_below (p ++ [DBody]) L fv.
Proof. intros H k n. rewrite <- app_assoc. apply H. Qed.

(** With the free variables of the tree as [free_vars], both passes are the
    substitution by scope. *)
Lemma Eval_replace_vars_inline ctx e seen p fv L :
  Eval._find_variables_free seen p e = Ret fv ->
  agree_below p L fv ->
  Eval.replace_vars ctx L p e = Ret (inline (dom seen) ctx e).
Proof.
  revert seen p fv. induction e as [n|fn IHfn arg IHarg|x body IH|n v _];
    intros seen p fv H HL; simpl in *.
  - specialize (HL [] n). rewrite app_nil_r in HL.
    destruct (seen !! n) as [l|] eqn:E; ret_inv; subst fv.
    + apply elem_of_dom_2 in E. destruct (decide (n ∈ dom seen)); [|done].
      rewrite decide_False; [done|]. rewrite HL. apply not_elem_of_nil.
    + apply not_elem_of_dom in E. destruct (decide (n ∈ dom seen)); [done|].
      rewrite decide_True by (rewrite HL; apply list_elem_of_singleton; done).
      destruct (vars ctx !! n); by rewrite ?clone_id.
  - ret_inv. subst fv.
    destruct (agree_below_fn _ _ _ _ _ _ _ H0 H1 HL) as [L1 L2].
    by rewrite (IHfn _ _ _ H0 L1), (IHarg _ _ _ H1 L2).
  - rewrite (IH _ _ _ H (agree_below_body _ _ _ HL)). by rewrite dom_map_insert.
  - done.
Qed.

Lemma Util_replace_vars_once_inline ctx e seen p fv L :
  Eval._find_variables_free seen p e = Ret fv ->
  agree_below p L fv ->
  Util.replace_vars_once ctx L p e
  = Ret (inline (dom seen) ctx e, inlines (dom seen) ctx e).
Proof.
  revert seen p fv. induction e as [n|fn IHfn arg IHarg|x body IH|n v _];
    intros seen p fv H HL; simpl in *.
  - specialize (HL [] n). rewrite app_nil_r in HL.
    destruct (seen !! n) as [l|] eqn:E; ret_inv; subst fv.
    + apply elem_of_dom_2 in E. destruct (decide (n ∈ dom seen)); [|done].
      rewrite decide_False; [done|]. rewrite HL. apply not_elem_of_nil.
    + apply not_elem_of_dom in E. destruct (decide (n ∈ dom seen)); [done|].
      rewrite decide_True by (rewrite HL; apply list_elem_of_singleton; done).
      destruct (vars ctx !! n); by rewrite ?clone_id.
  - ret_inv. subst fv.
    destruct (agree_below_fn _ _ _ _ _ _ _ H0 H1 HL) as [L1 L2].
    by rewrite (IHfn _ _ _ H0 L1), (IHarg _ _ _ H1 L2).
  - rewrite (IH _ _ _ H (agree_below_body _ _ _ HL)). by rewrite dom_map_insert.
  - done.
Qed.

Lemma agree_below_refl fv : agree_below [] fv fv.
Proof. by intros k n. Qed.

Lemma free_names_mono e scope scope' :
  scope ⊆ scope' -> free_names scope' e ⊆ free_names scope e.
Proof.
  revert scope scope'. induction e as [n|fn IHfn arg IHarg|x body IH|n v IH];
    intros scope scope' H; simpl.
  - destruct (decide (n ∈ scope')), (decide (n ∈ scope)); set_solver.
  - apply union_mono; auto.
  - apply IH. by apply union_mono_l.
  - by apply IH.
Qed.

Section Inline.

Variable ctx : Context.

Lemma inline_id e scope :
  free_names scope e ## dom (vars ctx) ->
  inline scope ctx e = e /\ inlines scope ctx e = false.
Proof.
  revert scope. induction e as [n|fn IHfn arg IHarg|x body IH|n v _];
    intros scope H; simpl in *.
  - destruct (decide (n ∈ scope)); [done|].
    apply disjoint_singleton_l, not_elem_of_dom in H. by rewrite H.
  - apply disjoint_union_l in H as [H1 H2].
    destruct (IHfn _ H1) as [-> ->]. by destruct (IHarg _ H2) as [-> ->].
  - by destruct (IH _ H) as [-> ->].
  - done.
Qed.

Hypothesis values_no_let : map_Forall (fun _ v => no_let v = true) (vars ctx).
Hypothesis values_closed :
  map_Forall (fun _ v => free_names ∅ v ## dom (vars ctx)) (vars ctx).

Lemma inline_no_let e scope : no_let e = true -> no_let (inline scope ctx e) = true.
Proof.
  revert scope. induction e as [n|fn IHfn arg IHarg|x body IH|n v _];
    intros scope H; simpl in *; try done.
  - destruct (decide (n ∈ scope)); [done|].
    destruct (vars ctx !! n) eqn:E; [|done]. by apply values_no_let in E.
  - apply andb_prop in H as [H1 H2]. by rewrite IHfn, IHarg.
  - by apply IH.
Qed.

Lemma inline_free_names e scope :
  no_let e = true -> free_names scope (inline scope ctx e) ## dom (vars ctx).
Proof.
  revert scope. induction e as [n|fn IHfn arg IHarg|x body IH|n v _];
    intros scope H; simpl in *; try done.
  - destruct (decide (n ∈ scope)) as [Hin|Hin]; simpl.
    + rewrite decide_True by done. apply disjoint_empty_l.
    + destruct (vars ctx !! n) as [v|] eqn:E.
      * apply values_closed in E. simpl in E.
        rewrite elem_of_disjoint in E. apply elem_of_disjoint. intros z Hz.
        apply E. revert Hz. apply free_names_mono, empty_subseteq.
      * simpl. rewrite decide_False by done.
        by apply disjoint_singleton_l, not_elem_of_dom.
  - apply andb_prop in H as [H1 H2]. apply disjoint_union_l. auto.
  - by apply IH.
Qed.

Lemma inline_depth_ok e scope M depth :
  map_Forall (fun _ v => M + lam_depth v <= Util.INT_MAX) (vars ctx) ->
  M <= Util.INT_MAX -> 0 <= depth -> depth + lam_depth e <= M ->
  depth_ok depth (inline scope ctx e) = true.
Proof.
  intros HM HI. revert scope depth.
  induction e as [n|fn IHfn arg IHarg|x body IH|n v _];
    intros scope depth H0 H; simpl in *; try done.
  - destruct (decide (n ∈ scope)); [done|].
    destruct (vars ctx !! n) as [v|] eqn:E; [|done].
    apply HM in E. simpl in E. apply depth_ok_lam_depth; lia.
  - pose proof (lam_depth_nonneg fn). pose proof (lam_depth_nonneg arg).
    rewrite IHfn, IHarg by lia. done.
  - pose proof (lam_depth_nonneg body).
    rewrite bool_decide_eq_true_2 by lia. rewrite IH by lia. done.
Qed.

End Inline.

Lemma replace_vars_single_inline ctx e :
  no_let e = true -> replace_vars_single ctx e = Ret (inline ∅ ctx e).
Proof.
  intros H. unfold replace_vars_single, Eval.find_free_variables.
  destruct (Eval_find_free_total e ∅ [] H) as [fv Hfv]. rewrite Hfv. simpl.
  rewrite (Eval_replace_vars_inline ctx e ∅ [] fv fv Hfv (agree_below_refl fv)).
  by rewrite dom_empty_L.
Qed.

Lemma Util_pass_inline ctx e :
  no_let e = true -> depth_ok 0 e = true ->
  (free ← Util.find_free_variables e; Util.replace_vars_once ctx free [] e)
  = Ret (inline ∅ ctx e, inlines ∅ ctx e).
Proof.
  intros H Hd. unfold Util.find_free_variables. rewrite Util_find_free_Eval by done.
  destruct (Eval_find_free_total e ∅ [] H) as [fv Hfv]. rewrite Hfv. simpl.
  rewrite (Util_replace_vars_once_inline ctx e ∅ [] fv fv Hfv (agree_below_refl fv)).
  by rewrite dom_empty_L.
Qed.

(** C8.  Take a context whose right-hand sides have no free variable that
    is a key of the context, and a term; both are as the parser builds
    them (no [Let] inside) and lambdas are nested no deeper than the depth
    limit of the search, inlined definitions included.  Then the single
    pass of [eval.cpp] returns, the fixed-point loop of [util.cpp] returns
    within two passes, and the two terms are equal: the term with every
    free variable that the context defines replaced by its definition. *)
Theorem C8_inliners_agree ctx e fuel :
  no_let e = true ->
  map_Forall (fun _ v => no_let v = true) (vars ctx) ->
  map_Forall (fun _ v => free_names ∅ v ## dom (vars ctx)) (vars ctx) ->
  lam_depth e <= Util.INT_MAX ->
  map_Forall (fun _ v => lam_depth e + lam_depth v <= Util.INT_MAX) (vars ctx) ->
  exists r,
    replace_vars_single ctx e = Ret r
    /\ Util.replace_vars (S (S fuel)) ctx e = Some (Ret r)
    /\ r = inline ∅ ctx e.
Proof.
  intros He Hlet Hclosed Hd Hdv. exists (inline ∅ ctx e).
  split; [by apply replace_vars_single_inline|]. split; [|done].
  pose proof (lam_depth_nonneg e) as H0.
  assert (depth_ok 0 e = true) as Hok by (apply depth_ok_lam_depth; lia).
  cbn [Util.replace_vars]. rewrite (Util_pass_inline ctx e He Hok).
  destruct (inlines ∅ ctx e); [|done].
  pose proof (inline_no_let ctx Hlet e ∅ He) as He'.
  assert (depth_ok 0 (inline ∅ ctx e) = true) as Hok'
    by (apply (inline_depth_ok ctx e ∅ (lam_depth e) 0); (done || lia)).
  rewrite (Util_pass_inline ctx _ He' Hok').
  destruct (inline_id ctx (inline ∅ ctx e) ∅) as [-> ->]; [|done].
  by apply inline_free_names.
Qed.

Lemma C8_inliners_agree_witness :
  (no_let term_KI = true
   /\ map_Forall (fun _ v => no_let v = true) (vars ctx_IK)
   /\ map_Forall (fun _ v => free_names ∅ v ## dom (vars ctx_IK)) (vars ctx_IK)
   /\ lam_depth term_KI <= Util.INT_MAX
   /\ map_Forall (fun _ v => lam_depth term_KI + lam_depth v <= Util.INT_MAX)
        (vars ctx_IK))
  /\ exists r,
       replace_vars_single ctx_IK term_KI = Ret r
       /\ Util.replace_vars 2 ctx_IK term_KI = Some (Ret r)
       /\ r = inline ∅ ctx_IK term_KI.
Proof.
  assert (no_let term_KI = true) as H1 by reflexivity.
  assert (map_Forall (fun _ v => no_let v = true) (vars ctx_IK)) as H2
    by (apply (bool_decide_unpack _); vm_compute; exact I).
  assert (map_Forall (fun _ v => free_names ∅ v ## dom (vars ctx_IK)) (vars ctx_IK)) as H3
    by (apply (bool_decide_unpack _); vm_compute; exact I).
  assert (lam_depth term_KI <= Util.INT_MAX) as H4
    by (apply (bool_decide_unpack _); vm_compute; exact I).
  assert (map_Forall (fun _ v => lam_depth term_KI + lam_depth v <= Util.INT_MAX)
            (vars ctx_IK)) as H5
    by (apply (bool_decide_unpack _); vm_compute; exact I).
  split; [done|].
  exact (C8_inliners_agree ctx_IK term_KI 0 H1 H2 H3 H4 H5).
Defined.

Example inline_term_KI :
  replace_vars_single ctx_IK term_KI
  = Ret (Apply (Apply (Lambda "x" (Lambda "y" (Var "x"))) (Lambda "x" (Var "x")))
           (Lambda "I" (Apply (Var "I") (Var "z")))).
Proof. by vm_compute. Qed.

(** * C6: the identity *)

Lemma trace_all_tracing print_flags evs o :
  Z.land print_flags FLAG_TRACE ≠ 0 -> trace_all print_flags evs o = o ++ evs.
Proof.
  intros H. revert o. induction evs as [|ev evs IH]; intros o.
  - simpl. by rewrite app_nil_r.
  - change (trace_all print_flags evs (print_trace print_flags ev o) = o ++ ev :: evs).
    rewrite IH. unfold print_trace.
    rewrite decide_False by done. by rewrite <- app_assoc.
Qed.

Lemma print_trace_tracing print_flags ev o :
  Z.land print_flags FLAG_TRACE ≠ 0 -> print_trace print_flags ev o = o ++ [ev].
Proof. intros H. unfold print_trace. by rewrite decide_False. Qed.

Lemma count_named_cons x v vs :
  count_named x (v :: vs)
  = if decide (v.2 = x) then S (count_named x vs) else count_named x vs.
Proof. unfold count_named. rewrite filter_cons. by destruct (decide _). Qed.

Lemma count_named_app x vs ws :
  count_named x (vs ++ ws) = (count_named x vs + count_named x ws)%nat.
Proof. unfold count_named. by rewrite filter_app, length_app. Qed.

Lemma count_named_order addr_order s x vs :
  address_order addr_order -> count_named x (addr_order s vs) = count_named x vs.
Proof. intros H. unfold count_named. by rewrite (H s vs). Qed.

Lemma find_free_count e seen p fv x :
  Eval._find_variables_free seen p e = Ret fv ->
  count_named x fv = count_free (dom seen) x e.
Proof.
  revert seen p fv. induction e as [n|fn IHfn arg IHarg|y body IH|n v _];
    intros seen p fv H; simpl in H.
  - simpl. destruct (seen !! n) eqn:E; ret_inv; subst fv.
    + apply elem_of_dom_2 in E. rewrite decide_False; [done|]. tauto.
    + apply not_elem_of_dom in E. rewrite count_named_cons. simpl.
      destruct (decide (n = x)) as [->|Hne].
      * by rewrite decide_True.
      * rewrite decide_False; [done|]. tauto.
  - ret_inv. subst fv. rewrite count_named_app. simpl.
    by rewrite (IHfn _ _ _ H0), (IHarg _ _ _ H1).
  - simpl. rewrite (IH _ _ _ H). by rewrite dom_map_insert.
  - done.
Qed.

Lemma alpha_conversion_identity z name fresh :
  exists z', alpha_conversion (Lambda z (Var z)) name fresh = Ret (Lambda z' (Var z')).
Proof.
  simpl. destruct (decide (z = fresh)) as [->|Hf]; simpl; [eauto|].
  destruct (decide (z = name)); simpl; eauto.
Qed.

Lemma rename_conflicts_identity print_flags x vs z t :
  exists z',
    rename_conflicts print_flags {[ x := [] ]} vs (Lambda z (Var z)) t
    = Ret (Lambda z' (Var z'),
           mkTracer (step t + Z.of_nat (count_named x vs))
                    (trace_all print_flags (alpha_events (step t) x (count_named x vs)) (out t))).
Proof.
  revert z t. induction vs as [|v vs IH]; intros z t.
  - exists z. simpl. destruct t. simpl. by rewrite Z.add_0_r.
  - simpl. destruct (decide (v.2 = x)) as [E|E].
    + rewrite E, lookup_singleton_eq. unfold modify. simpl load.
      destruct (alpha_conversion_identity z x (fresh_name x)) as [z1 ->]. simpl.
      destruct (IH z1 (mkTracer (step t + 1)
                  (print_trace print_flags (EvAlpha (step t) x (fresh_name x)) (out t))))
        as [z' ->].
      exists z'. rewrite count_named_cons, decide_True by done.
      cbn [step out alpha_events]. do 3 f_equal. lia.
    + rewrite lookup_singleton_ne by done.
      destruct (IH z t) as [z' ->]. exists z'.
      by rewrite count_named_cons, decide_False.
Qed.

Lemma contract_identity print_flags z A t :
  contract print_flags (Lambda z (Var z)) A t
  = Ret (Some A, mkTracer (step t + 1)
                   (print_trace print_flags (EvBeta (step t) z A) (out t))).
Proof.
  unfold contract. simpl. rewrite decide_True by done. simpl.
  by rewrite clone_id.
Qed.

Lemma Eval_beta_reduction_identity addr_order print_flags x A t :
  address_order addr_order -> no_let A = true ->
  exists z,
    Eval.beta_reduction addr_order print_flags t (Apply (Lambda x (Var x)) A)
    = Ret (Some A,
           mkTracer (step t + Z.of_nat (count_free ∅ x A) + 1)
             (print_trace print_flags
                (EvBeta (step t + Z.of_nat (count_free ∅ x A)) z A)
                (trace_all print_flags (alpha_events (step t) x (count_free ∅ x A)) (out t)))).
Proof.
  intros Hao HA. simpl.
  destruct (Eval_find_free_total A ∅ [] HA) as [fv Hfv].
  unfold Eval.find_free_variables, Eval.find_bound_variables. rewrite Hfv. simpl.
  unfold map_insert. rewrite lookup_empty, lookup_insert_eq. simpl.
  destruct (rename_conflicts_identity print_flags x (addr_order (step t) fv) x t) as [z ->].
  simpl. rewrite contract_identity. simpl.
  rewrite (count_named_order _ _ _ _ Hao), (find_free_count _ _ _ _ x Hfv), dom_empty_L.
  by exists z.
Qed.

(** C6 (as amended).  Let [A] be a term without [Let], in head normal form,
    none of whose free variables the context defines.  Evaluating
    [(λx.x) A] with tracing on returns [A], leaves the context alone, and
    prints, between the start line and the end line, one alpha line for [x]
    per free occurrence of [x] in [A] - none when [x] is not free in [A] -
    and then exactly one beta line, with argument [A]. *)
Theorem C6_identity addr_order ctx x A print_flags :
  address_order addr_order ->
  Z.land print_flags FLAG_TRACE ≠ 0 ->
  no_let A = true ->
  head_normal A = true ->
  free_names ∅ A ## dom (vars ctx) ->
  exists z,
    Eval.evaluate addr_order 2 ctx (Apply (Lambda x (Var x)) A) print_flags
    = Some (Ret (ctx, A,
        [EvStart (Apply (Lambda x (Var x)) A)]
        ++ alpha_events 1 x (count_free ∅ x A)
        ++ [EvBeta (1 + Z.of_nat (count_free ∅ x A)) z A; EvDone])).
Proof.
  intros Hao Htr HA Hhn Hfree. unfold Eval.evaluate.
  change (free ← Eval.find_free_variables (Apply (Lambda x (Var x)) A);
          Eval.replace_vars ctx free [] (Apply (Lambda x (Var x)) A))
    with (replace_vars_single ctx (Apply (Lambda x (Var x)) A)).
  rewrite replace_vars_single_inline by done.
  destruct (inline_id ctx (Apply (Lambda x (Var x)) A) ∅) as [-> _].
  { simpl. rewrite decide_True by (apply elem_of_union_l, elem_of_singleton; done).
    by rewrite (left_id_L ∅ (∪)). }
  cbn [Eval.evaluate_loop Eval.eval].
  destruct (Eval_beta_reduction_identity addr_order print_flags x A
              (mkTracer 1 (print_trace print_flags
                 (EvStart (Apply (Lambda x (Var x)) A)) [])) Hao HA) as [z ->].
  rewrite Eval_eval_stuck by done. exists z. simpl.
  rewrite !print_trace_tracing, trace_all_tracing by done.
  simpl. by rewrite <- !app_assoc.
Qed.

Lemma C6_identity_witness :
  (address_order walk_order
   /\ Z.land FLAG_TRACE FLAG_TRACE ≠ 0
   /\ no_let (Apply (Var "x") (Var "y")) = true
   /\ head_normal (Apply (Var "x") (Var "y")) = true
   /\ free_names ∅ (Apply (Var "x") (Var "y")) ## dom (vars empty_ctx))
  /\ exists z,
       Eval.evaluate walk_order 2 empty_ctx
         (Apply (Lambda "x" (Var "x")) (Apply (Var "x") (Var "y"))) FLAG_TRACE
       = Some (Ret (empty_ctx, Apply (Var "x") (Var "y"),
           [EvStart (Apply (Lambda "x" (Var "x")) (Apply (Var "x") (Var "y")))]
           ++ alpha_events 1 "x" (count_free ∅ "x" (Apply (Var "x") (Var "y")))
           ++ [EvBeta (1 + Z.of_nat (count_free ∅ "x" (Apply (Var "x") (Var "y"))))
                 z (Apply (Var "x") (Var "y")); EvDone])).
Proof.
  assert (Z.land FLAG_TRACE FLAG_TRACE ≠ 0) as H2 by done.
  assert (free_names ∅ (Apply (Var "x") (Var "y")) ## dom (vars empty_ctx)) as H5
    by (apply (bool_decide_unpack _); vm_compute; exact I).
  split; [repeat split; (done || apply address_order_id)|].
  exact (C6_identity walk_order empty_ctx "x" (Apply (Var "x") (Var "y")) FLAG_TRACE
           address_order_id H2 eq_refl eq_refl H5).
Defined.

(** C6 (as stated) fails.  With [x] free in the argument, [(λx.x) x] takes
    an alpha step before its beta step; and with an argument that has a
    redex at its head, evaluation goes on after the first beta step and
    does not return the argument. *)
Lemma C6_alpha_step_on_identity :
  Eval.evaluate walk_order 2 empty_ctx
    (Apply (Lambda "x" (Var "x")) (Var "x")) FLAG_TRACE
  = Some (Ret (empty_ctx, Var "x",
       [EvStart (Apply (Lambda "x" (Var "x")) (Var "x"));
        EvAlpha 1 "x" "x'"; EvBeta 2 "x'" (Var "x"); EvDone]))
  /\ Eval.evaluate walk_order 3 empty_ctx
       (Apply (Lambda "x" (Var "x")) (Apply (Lambda "z" (Var "z")) (Var "w"))) FLAG_TRACE
     = Some (Ret (empty_ctx, Var "w",
          [EvStart (Apply (Lambda "x" (Var "x")) (Apply (Lambda "z" (Var "z")) (Var "w")));
           EvBeta 1 "x" (Apply (Lambda "z" (Var "z")) (Var "w"));
           EvBeta 2 "z" (Var "w"); EvDone])).
Proof. split; by vm_compute. Qed.

(** * C9: determinism *)

Lemma rename_conflicts_names print_flags bound vs ws func t :
  vs.*2 = ws.*2 ->
  rename_conflicts print_flags bound vs func t
  = rename_conflicts print_flags bound ws func t.
Proof.
  revert ws func t. induction vs as [|v vs IH]; intros [|w ws] func t H; try done.
  injection H as Hv H. simpl. rewrite Hv.
  destruct (bound !! w.2); [|by apply IH].
  destruct (modify func _ _); [|done]. simpl. by apply IH.
Qed.

Section Orders.

Variables o1 o2 : Z -> list VarPtr -> list VarPtr.
Hypothesis same_names : forall s l, (o1 s l).*2 = (o2 s l).*2.

Lemma Eval_beta_reduction_names print_flags t app :
  Eval.beta_reduction o1 print_flags t app = Eval.beta_reduction o2 print_flags t app.
Proof.
  revert t. induction app as [n|fn IHfn arg _|x body _|n v _]; intros t; try done.
  destruct fn as [n|fn' arg'|x body|n v]; try done.
  - simpl in *. by rewrite IHfn.
  - simpl. destruct (Eval.find_free_variables arg) as [free|]; [|done]. simpl.
    destruct (Eval.find_bound_variables (Lambda x body)) as [bound|]; [|done]. simpl.
    by rewrite (rename_conflicts_names _ _ _ _ _ _ (same_names (step t) free)).
Qed.

Lemma Eval_eval_names print_flags t e :
  Eval.eval o1 print_flags t e = Eval.eval o2 print_flags t e.
Proof.
  revert t. induction e as [n|fn _ arg _|x body IH|n v _]; intros t; try done.
  - apply Eval_beta_reduction_names.
  - simpl. by rewrite IH.
Qed.

Lemma Eval_evaluate_loop_names fuel print_flags t copy :
  Eval.evaluate_loop o1 fuel print_flags t copy
  = Eval.evaluate_loop o2 fuel print_flags t copy.
Proof.
  revert t copy. induction fuel as [|fuel IH]; intros t copy; [done|].
  simpl. rewrite Eval_eval_names.
  destruct (Eval.eval o2 print_flags t copy) as [[[next|] t']|]; auto.
Qed.

Lemma Eval2_beta_reduction_names print_flags t app :
  Eval2.beta_reduction o1 print_flags t app = Eval2.beta_reduction o2 print_flags t app.
Proof.
  revert t. induction app as [n|fn IHfn arg IHarg|x body _|n v _]; intros t; try done.
  destruct fn as [n|fn' arg'|x body|n v].
  - destruct arg; try done. simpl in *. by rewrite IHarg.
  - simpl in *. by rewrite IHfn.
  - simpl. destruct (Util.find_free_variables arg) as [free|]; [|done]. simpl.
    destruct (Util.find_bound_variables (Lambda x body)) as [bound|]; [|done]. simpl.
    by rewrite (rename_conflicts_names _ _ _ _ _ _ (same_names (step t) free)).
  - destruct arg; try done. simpl in *. by rewrite IHarg.
Qed.

Lemma Eval2_eval_names print_flags t e :
  Eval2.eval o1 print_flags t e = Eval2.eval o2 print_flags t e.
Proof.
  revert t. induction e as [n|fn _ arg _|x body IH|n v _]; intros t; try done.
  - apply Eval2_beta_reduction_names.
  - simpl. by rewrite IH.
Qed.

Lemma Eval2_evaluate_loop_names fuel print_flags t copy :
  Eval2.evaluate_loop o1 fuel print_flags t copy
  = Eval2.evaluate_loop o2 fuel print_flags t copy.
Proof.
  revert t copy. induction fuel as [|fuel IH]; intros t copy; [done|].
  simpl. rewrite Eval2_eval_names.
  destruct (Eval2.eval o2 print_flags t copy) as [[[next|] t']|]; auto.
Qed.

End Orders.

Section Order.

Variable addr_order : Z -> list VarPtr -> list VarPtr.
Variable print_flags : Z.

Lemma Eval_beta_reduction_leftmost_outermost app t e' t' :
  Eval.beta_reduction addr_order print_flags t app = Ret (Some e', t') ->
  contracts_leftmost_outermost (Eval.beta_reduction addr_order print_flags) t app e' t'.
Proof.
  revert t e' t'. induction app as [n|fn IHfn arg _|x body _|n v _];
    intros t e' t' H; try (simpl in H; by ret_inv).
  destruct fn as [n|fn' arg'|x body|n v]; try (simpl in H; by ret_inv).
  - simpl in H. apply bind_Ret in H. destruct H as ([red t1] & H1 & H).
    destruct red as [red|]; ret_inv; subst.
    destruct (IHfn _ _ _ H1) as (p & f & a & r & Hp & Hl & Hf & Hb & ->).
    exists (DFn :: p), f, a, r. simpl in *. by rewrite Hp.
  - by exists [], (Lambda x body), arg, e'.
Qed.

Lemma Eval_eval_leftmost_outermost e t e' t' :
  Eval.eval addr_order print_flags t e = Ret (Some e', t') ->
  contracts_leftmost_outermost (Eval.beta_reduction addr_order print_flags) t e e' t'.
Proof.
  revert t e' t'. induction e as [n|fn _ arg _|x body IH|n v _];
    intros t e' t' H; try (simpl in H; by ret_inv).
  - by apply Eval_beta_reduction_leftmost_outermost.
  - simpl in H. apply bind_Ret in H. destruct H as ([b t1] & H1 & H).
    destruct b as [b|]; ret_inv; subst.
    destruct (IH _ _ _ H1) as (p & f & a & r & Hp & Hl & Hf & Hb & ->).
    exists (DBody :: p), f, a, r. simpl. by rewrite Hp.
Qed.

Lemma Eval2_beta_reduction_leftmost_outermost app t e' t' :
  Eval2.beta_reduction addr_order print_flags t app = Ret (Some e', t') ->
  contracts_leftmost_outermost (Eval2.beta_reduction addr_order print_flags) t app e' t'.
Proof.
  revert t e' t'. induction app as [n|fn IHfn arg IHarg|x body _|n v _];
    intros t e' t' H; try (simpl in H; by ret_inv).
  destruct fn as [n|fn' arg'|x body|n v].
  - destruct arg as [| |x' body'|]; try (simpl in H; by ret_inv).
    simpl in H. apply bind_Ret in H. destruct H as ([red t1] & H1 & H).
    destruct red as [red|]; ret_inv; subst.
    destruct (IHarg _ _ _ H1) as (p & f & a & r & Hp & Hl & Hf & Hb & ->).
    exists (DArg :: p), f, a, r. simpl in *. by rewrite Hp.
  - simpl in H. apply bind_Ret in H. destruct H as ([red t1] & H1 & H).
    destruct red as [red|]; ret_inv; subst.
    destruct (IHfn _ _ _ H1) as (p & f & a & r & Hp & Hl & Hf & Hb & ->).
    exists (DFn :: p), f, a, r. simpl in *. by rewrite Hp.
  - by exists [], (Lambda x body), arg, e'.
  - destruct arg as [| |x' body'|]; try (simpl in H; by ret_inv).
    simpl in H. apply bind_Ret in H. destruct H as ([red t1] & H1 & H).
    destruct red as [red|]; ret_inv; subst.
    destruct (IHarg _ _ _ H1) as (p & f & a & r & Hp & Hl & Hf & Hb & ->).
    exists (DArg :: p), f, a, r. simpl in *. by rewrite Hp.
Qed.

Lemma Eval2_eval_leftmost_outermost e t e' t' :
  Eval2.eval addr_order print_flags t e = Ret (Some e', t') ->
  contracts_leftmost_outermost (Eval2.beta_reduction addr_order print_flags) t e e' t'.
Proof.
  revert t e' t'. induction e as [n|fn _ arg _|x body IH|n v _];
    intros t e' t' H; try (simpl in H; by ret_inv).
  - by apply Eval2_beta_reduction_leftmost_outermost.
  - simpl in H. apply bind_Ret in H. destruct H as ([b t1] & H1 & H).
    destruct b as [b|]; ret_inv; subst.
    destruct (IH _ _ _ H1) as (p & f & a & r & Hp & Hl & Hf & Hb & ->).
    exists (DBody :: p), f, a, r. simpl. by rewrite Hp.
Qed.

End Order.

(** C9 (as amended).  A run is determined by the term, the context, the
    flags and the sequence of names in which each set of free variables is
    walked: two runs whose address orders list the same names in the same
    sequence return the same context, the same term and the same lines,
    with either reducer and for every fuel.  Whatever the address order,
    every step that the search takes contracts the leftmost-outermost
    redex of the term. *)
Theorem C9_deterministic_given_name_order o1 o2 fuel_inline fuel ctx e print_flags :
  (forall s l, (o1 s l).*2 = (o2 s l).*2) ->
  Eval.evaluate o1 fuel ctx e print_flags = Eval.evaluate o2 fuel ctx e print_flags
  /\ Eval2.evaluate o1 fuel_inline fuel ctx e print_flags
     = Eval2.evaluate o2 fuel_inline fuel ctx e print_flags
  /\ (forall t e1 e' t',
        Eval.eval o1 print_flags t e1 = Ret (Some e', t') ->
        contracts_leftmost_outermost (Eval.beta_reduction o1 print_flags) t e1 e' t')
  /\ (forall t e1 e' t',
        Eval2.eval o1 print_flags t e1 = Ret (Some e', t') ->
        contracts_leftmost_outermost (Eval2.beta_reduction o1 print_flags) t e1 e' t').
Proof.
  intros H. unfold Eval.evaluate, Eval2.evaluate.
  split; [|split; [|split]].
  - destruct (free ← Eval.find_free_variables e; Eval.replace_vars ctx free [] e);
      [|done].
    by rewrite (Eval_evaluate_loop_names o1 o2 H).
  - destruct (Util.replace_vars fuel_inline ctx e) as [[copy|]|]; try done.
    by rewrite (Eval2_evaluate_loop_names o1 o2 H).
  - intros t e1 e' t'. apply Eval_eval_leftmost_outermost.
  - intros t e1 e' t'. apply Eval2_eval_leftmost_outermost.
Qed.

Lemma C9_deterministic_given_name_order_witness :
  (forall (s : Z) (l : list VarPtr), (walk_order s l).*2 = (same_names_elsewhere s l).*2)
  /\ Eval.evaluate walk_order 3 empty_ctx
       (Apply (Lambda "x" (Lambda "a" (Apply (Var "a") (Var "x")))) (Var "a")) FLAG_TRACE
     = Eval.evaluate same_names_elsewhere 3 empty_ctx
         (Apply (Lambda "x" (Lambda "a" (Apply (Var "a") (Var "x")))) (Var "a")) FLAG_TRACE.
Proof.
  assert (forall (s : Z) (l : list VarPtr),
            (walk_order s l).*2 = (same_names_elsewhere s l).*2) as H.
  { intros s l. induction l as [|v l IH]; [done|]. simpl in *. by f_equal. }
  split; [exact H|].
  exact (proj1 (C9_deterministic_given_name_order _ _ 0 3 empty_ctx
                  (Apply (Lambda "x" (Lambda "a" (Apply (Var "a") (Var "x")))) (Var "a"))
                  FLAG_TRACE H)).
Defined.

(** C9 (as stated) fails.  The argument [a b] of
    [(λx.λa.λb.a b x) (a b)] has two free variables that the function
    binds.  Walked in one order of their addresses the trace renames [a]
    first, walked in the other it renames [b] first: the lines differ,
    though the term and the context are the same.  With names that an
    earlier renaming has primed, the terms returned differ too. *)
Lemma C9_alpha_order_follows_addresses :
  address_order walk_order /\ address_order reverse_order
  /\ Eval.evaluate walk_order 2 empty_ctx
       (Apply (Lambda "x" (Lambda "a" (Lambda "b"
                 (Apply (Apply (Var "a") (Var "b")) (Var "x")))))
              (Apply (Var "a") (Var "b"))) FLAG_TRACE
     = Some (Ret (empty_ctx,
          Lambda "a'" (Lambda "b'"
            (Apply (Apply (Var "a'") (Var "b'")) (Apply (Var "a") (Var "b")))),
          [EvStart (Apply (Lambda "x" (Lambda "a" (Lambda "b"
                      (Apply (Apply (Var "a") (Var "b")) (Var "x")))))
                   (Apply (Var "a") (Var "b")));
           EvAlpha 1 "a" "a'"; EvAlpha 2 "b" "b'";
           EvBeta 3 "x" (Apply (Var "a") (Var "b")); EvDone]))
  /\ Eval.evaluate reverse_order 2 empty_ctx
       (Apply (Lambda "x" (Lambda "a" (Lambda "b"
                 (Apply (Apply (Var "a") (Var "b")) (Var "x")))))
              (Apply (Var "a") (Var "b"))) FLAG_TRACE
     = Some (Ret (empty_ctx,
          Lambda "a'" (Lambda "b'"
            (Apply (Apply (Var "a'") (Var "b'")) (Apply (Var "a") (Var "b")))),
          [EvStart (Apply (Lambda "x" (Lambda "a" (Lambda "b"
                      (Apply (Apply (Var "a") (Var "b")) (Var "x")))))
                   (Apply (Var "a") (Var "b")));
           EvAlpha 1 "b" "b'"; EvAlpha 2 "a" "a'";
           EvBeta 3 "x" (Apply (Var "a") (Var "b")); EvDone]))
  /\ Eval.evaluate walk_order 2 empty_ctx
       (Apply (Lambda "x" (Lambda "y" (Lambda "y'"
                 (Apply (Apply (Var "x") (Var "y")) (Var "y'")))))
              (Apply (Var "y") (Var "y'"))) 0
     = Some (Ret (empty_ctx,
          Lambda "y'" (Lambda "y'''"
            (Apply (Apply (Apply (Var "y") (Var "y'")) (Var "y")) (Var "y'''"))), []))
  /\ Eval.evaluate reverse_order 2 empty_ctx
       (Apply (Lambda "x" (Lambda "y" (Lambda "y'"
                 (Apply (Apply (Var "x") (Var "y")) (Var "y'")))))
              (Apply (Var "y") (Var "y'"))) 0
     = Some (Ret (empty_ctx,
          Lambda "y'" (Lambda "y''"
            (Apply (Apply (Apply (Var "y") (Var "y'")) (Var "y'")) (Var "y''"))), [])).
Proof.
  split; [apply address_order_id|]. split; [apply address_order_reverse|].
  repeat split; by vm_compute.
Qed.

(** * C7: what a call leaves untouched *)

Section Frame.

Variable alloc : gmap positive Heap.node -> positive.
Hypothesis alloc_fresh : forall h, h !! alloc h = None.

Variable h0 : gmap positive Heap.node.

Lemma all_made_var x : (all_made h0) (Heap.NVar x).
Proof. intros c Hc. by apply elem_of_nil in Hc. Qed.

Lemma all_made_apply fn arg : (made h0) fn -> (made h0) arg -> (all_made h0) (Heap.NApply fn arg).
Proof.
  intros H1 H2 c Hc. simpl in Hc.
  apply elem_of_cons in Hc as [->|Hc]; [done|].
  by apply list_elem_of_singleton in Hc as ->.
Qed.

Lemma all_made_lambda x body : (made h0) body -> (all_made h0) (Heap.NLambda x body).
Proof. intros H c Hc. by apply list_elem_of_singleton in Hc as ->. Qed.

Lemma all_made_let x value : (made h0) value -> (all_made h0) (Heap.NLet x value).
Proof. intros H c Hc. by apply list_elem_of_singleton in Hc as ->. Qed.

Lemma kept_store a n m :
  (kept h0) m -> (made h0) a -> (all_made h0) n ->
  (kept h0) (Heap.set_mem (<[ a := n ]> (Heap.mem m)) m).
Proof.
  intros [Ho Hc] Ha Hn. split; simpl.
  - intros a' n' H. rewrite lookup_insert_ne; [by apply Ho|].
    intros ->. unfold made in Ha. congruence.
  - intros a' n' c Ha' H Hin. destruct (decide (a = a')) as [->|Hne].
    + rewrite lookup_insert_eq in H. injection H as <-. by apply Hn.
    + rewrite lookup_insert_ne in H by done. by eapply Hc.
Qed.

Lemma new_kept n m a m' :
  (kept h0) m -> (all_made h0) n ->
  Heap.new alloc n m = (a, m') ->
  (kept h0) m' /\ (made h0) a /\ Heap.copy m' = Heap.copy m.
Proof.
  intros K Hn H. unfold Heap.new in H. injection H as <- <-.
  assert ((made h0) (alloc (Heap.mem m))) as Ha.
  { unfold made. destruct (h0 !! alloc (Heap.mem m)) eqn:E; [|done].
    apply (kept_old _ _ K) in E. by rewrite alloc_fresh in E. }
  split; [by apply kept_store|]. by split.
Qed.

Lemma clone_kept fuel e m r m' :
  (kept h0) m -> Heap.clone alloc fuel e m = Some (r, m') ->
  (kept h0) m' /\ (made h0) r /\ Heap.copy m' = Heap.copy m.
Proof.
  revert e m r m'. induction fuel as [|fuel IH]; intros e m r m' K H; [done|].
  simpl in H. destruct (Heap.mem m !! e) as [[n|fn arg|x body|n value]|]; [| | | |done].
  - apply (inj Some) in H. eapply (new_kept _ _ _ _ K); [apply all_made_var|exact H].
  - destruct (Heap.clone alloc fuel fn m) as [[fn' m1]|] eqn:E1; [|done]. simpl in H.
    destruct (Heap.clone alloc fuel arg m1) as [[arg' m2]|] eqn:E2; [|done]. simpl in H.
    apply (inj Some) in H.
    destruct (IH _ _ _ _ K E1) as (K1 & F1 & C1).
    destruct (IH _ _ _ _ K1 E2) as (K2 & F2 & C2).
    destruct (new_kept _ _ _ _ K2 (all_made_apply _ _ F1 F2) H) as (K3 & F3 & C3).
    split; [done|]. split; [done|]. congruence.
  - destruct (Heap.clone alloc fuel body m) as [[body' m1]|] eqn:E1; [|done]. simpl in H.
    apply (inj Some) in H.
    destruct (IH _ _ _ _ K E1) as (K1 & F1 & C1).
    destruct (new_kept _ _ _ _ K1 (all_made_lambda x _ F1) H) as (K3 & F3 & C3).
    split; [done|]. split; [done|]. congruence.
  - destruct (Heap.clone alloc fuel value m) as [[value' m1]|] eqn:E1; [|done]. simpl in H.
    apply (inj Some) in H.
    destruct (IH _ _ _ _ K E1) as (K1 & F1 & C1).
    destruct (new_kept _ _ _ _ K1 (all_made_let n _ F1) H) as (K3 & F3 & C3).
    split; [done|]. split; [done|]. congruence.
Qed.

Lemma replace_vars_kept fuel ctx free_vars expr m r m' :
  (kept h0) m -> Heap.replace_vars alloc fuel ctx free_vars expr m = Some (r, m') ->
  (kept h0) m' /\ (made h0) r /\ Heap.copy m' = Heap.copy m.
Proof.
  revert expr m r m'. induction fuel as [|fuel IH]; intros e m r m' K H; [done|].
  simpl in H. destruct (Heap.mem m !! e) as [[n|fn arg|x body|n value]|]; [| | |done|done].
  - destruct (decide (e ∈ free_vars)); [destruct (ctx !! n)|]; by eapply clone_kept.
  - destruct (Heap.replace_vars alloc fuel ctx free_vars fn m) as [[fn' m1]|] eqn:E1;
      [|done]. simpl in H.
    destruct (Heap.replace_vars alloc fuel ctx free_vars arg m1) as [[arg' m2]|] eqn:E2;
      [|done]. simpl in H.
    apply (inj Some) in H.
    destruct (IH _ _ _ _ K E1) as (K1 & F1 & C1).
    destruct (IH _ _ _ _ K1 E2) as (K2 & F2 & C2).
    destruct (new_kept _ _ _ _ K2 (all_made_apply _ _ F1 F2) H) as (K3 & F3 & C3).
    split; [done|]. split; [done|]. congruence.
  - destruct (Heap.replace_vars alloc fuel ctx free_vars body m) as [[body' m1]|] eqn:E1;
      [|done]. simpl in H.
    apply (inj Some) in H.
    destruct (IH _ _ _ _ K E1) as (K1 & F1 & C1).
    destruct (new_kept _ _ _ _ K1 (all_made_lambda x _ F1) H) as (K3 & F3 & C3).
    split; [done|]. split; [done|]. congruence.
Qed.

Lemma kept_mem m m' : Heap.mem m' = Heap.mem m -> (kept h0) m -> (kept h0) m'.
Proof. intros E [Ho Hc]. split; rewrite E; auto. Qed.

Lemma kept_trace_step print_flags ev m :
  (kept h0) m -> (kept h0) (Heap.trace_step print_flags ev m).
Proof. by apply kept_mem. Qed.

Lemma kept_trace_line print_flags ev m :
  (kept h0) m -> (kept h0) (Heap.trace_line print_flags ev m).
Proof. by apply kept_mem. Qed.

Lemma deref_made m s c : (kept h0) m -> (field h0) s -> Heap.deref s m = Some c -> (made h0) c.
Proof.
  intros K F H. unfold Heap.deref in H.
  destruct s as [|a|a|a]; [done| | |];
    destruct (Heap.mem m !! a) as [[n|fn arg|x body|n value]|] eqn:E; try done;
    injection H as <-; eapply (kept_closed _ _ K _ _ _ F E); simpl;
    repeat constructor.
Qed.

Lemma assign_kept m s v m' :
  (kept h0) m -> (writable h0) s -> (made h0) v -> Heap.assign s v m = Some m' ->
  (kept h0) m' /\ ((field h0) s -> Heap.copy m' = Heap.copy m)
  /\ (s = Heap.SCopy -> Heap.copy m' = v).
Proof.
  intros K W Fv H. unfold Heap.assign in H.
  destruct s as [|a|a|a].
  - injection H as <-. split; [by apply (kept_mem m)|]. by split.
  - destruct (Heap.mem m !! a) as [[n|fn arg|x body|n value]|] eqn:E; try done.
    injection H as <-. split; [|by split].
    apply kept_store; [done..|]. apply all_made_apply; [done|].
    eapply (kept_closed _ _ K _ _ _ W E). simpl. repeat constructor.
  - destruct (Heap.mem m !! a) as [[n|fn arg|x body|n value]|] eqn:E; try done.
    injection H as <-. split; [|by split].
    apply kept_store; [done..|]. apply all_made_apply; [|done].
    eapply (kept_closed _ _ K _ _ _ W E). simpl. repeat constructor.
  - destruct (Heap.mem m !! a) as [[n|fn arg|x body|n value]|] eqn:E; try done.
    injection H as <-. split; [|by split].
    apply kept_store; [done..|]. by apply all_made_lambda.
Qed.

Lemma set_param_kept m l x m' :
  (kept h0) m -> (made h0) l -> Heap.set_param l x m = Some m' ->
  (kept h0) m' /\ Heap.copy m' = Heap.copy m.
Proof.
  intros K F H. unfold Heap.set_param in H.
  destruct (Heap.mem m !! l) as [[n|fn arg|y body|n value]|] eqn:E; try done.
  injection H as <-. split; [|done].
  apply kept_store; [done..|]. apply all_made_lambda.
  eapply (kept_closed _ _ K _ _ _ F E). simpl. repeat constructor.
Qed.

Lemma alpha_conversion_kept fuel e name fresh m r m' :
  (kept h0) m -> (made h0) e ->
  Heap.alpha_conversion alloc fuel e name fresh m = Some (r, m') ->
  (kept h0) m' /\ (made h0) r /\ Heap.copy m' = Heap.copy m.
Proof.
  revert e name fresh m r m'.
  induction fuel as [|fuel IH]; intros e name fresh m r m' K Fe H; [done|].
  simpl in H.
  destruct (Heap.mem m !! e) as [[n|fn0 arg0|x body0|n value]|] eqn:Ee; [| | |done|done].
  - destruct (decide (n = name)).
    + apply (inj Some) in H. eapply (new_kept _ _ _ _ K); [apply all_made_var|exact H].
    + by injection H as <- <-.
  - destruct (Heap.deref (Heap.SFn e) m) as [fn|] eqn:D1; [|done]. simpl in H.
    destruct (Heap.alpha_conversion alloc fuel fn name fresh m) as [[fn' m1]|] eqn:A1;
      [|done]. simpl in H.
    destruct (Heap.assign (Heap.SFn e) fn' m1) as [m2|] eqn:S1; [|done]. simpl in H.
    destruct (Heap.deref (Heap.SArg e) m2) as [arg|] eqn:D2; [|done]. simpl in H.
    destruct (Heap.alpha_conversion alloc fuel arg name fresh m2) as [[arg' m3]|] eqn:A2;
      [|done]. simpl in H.
    destruct (Heap.assign (Heap.SArg e) arg' m3) as [m4|] eqn:S2; [|done]. simpl in H.
    injection H as <- <-.
    pose proof (deref_made _ (Heap.SFn e) _ K Fe D1) as Ffn.
    destruct (IH _ _ _ _ _ _ K Ffn A1) as (K1 & Ffn' & C1).
    destruct (assign_kept _ (Heap.SFn e) _ _ K1 Fe Ffn' S1) as (K2 & C2 & _).
    pose proof (deref_made _ (Heap.SArg e) _ K2 Fe D2) as Farg.
    destruct (IH _ _ _ _ _ _ K2 Farg A2) as (K3 & Farg' & C3).
    destruct (assign_kept _ (Heap.SArg e) _ _ K3 Fe Farg' S2) as (K4 & C4 & _).
    split; [done|]. split; [done|]. rewrite (C4 Fe), C3, (C2 Fe). done.
  - destruct (decide (x = fresh)).
    + destruct (Heap.set_param e (fresh_name fresh) m) as [m1|] eqn:P1; [|done]. simpl in H.
      destruct (Heap.deref (Heap.SBody e) m1) as [body|] eqn:D1; [|done]. simpl in H.
      destruct (Heap.alpha_conversion alloc fuel body fresh (fresh_name fresh) m1)
        as [[body' m2]|] eqn:A1; [|done]. simpl in H.
      destruct (Heap.assign (Heap.SBody e) body' m2) as [m3|] eqn:S1; [|done]. simpl in H.
      injection H as <- <-.
      destruct (set_param_kept _ _ _ _ K Fe P1) as (K1 & C1).
      pose proof (deref_made _ (Heap.SBody e) _ K1 Fe D1) as Fb.
      destruct (IH _ _ _ _ _ _ K1 Fb A1) as (K2 & Fb' & C2).
      destruct (assign_kept _ (Heap.SBody e) _ _ K2 Fe Fb' S1) as (K3 & C3 & _).
      split; [done|]. split; [done|]. rewrite (C3 Fe), C2. done.
    + destruct (if decide (x = name) then Heap.set_param e fresh m else Some m)
        as [m1|] eqn:P1; [|done]. simpl in H.
      destruct (Heap.deref (Heap.SBody e) m1) as [body|] eqn:D1; [|done]. simpl in H.
      destruct (Heap.alpha_conversion alloc fuel body name fresh m1)
        as [[body' m2]|] eqn:A1; [|done]. simpl in H.
      destruct (Heap.assign (Heap.SBody e) body' m2) as [m3|] eqn:S1; [|done]. simpl in H.
      injection H as <- <-.
      assert ((kept h0) m1 /\ Heap.copy m1 = Heap.copy m) as (K1 & C1).
      { destruct (decide (x = name)); [by eapply set_param_kept|].
        by injection P1 as <-. }
      pose proof (deref_made _ (Heap.SBody e) _ K1 Fe D1) as Fb.
      destruct (IH _ _ _ _ _ _ K1 Fb A1) as (K2 & Fb' & C2).
      destruct (assign_kept _ (Heap.SBody e) _ _ K2 Fe Fb' S1) as (K3 & C3 & _).
      split; [done|]. split; [done|]. rewrite (C3 Fe), C2. done.
Qed.

Lemma field_writable s : (field h0) s -> (writable h0) s.
Proof. by destruct s. Qed.

Lemma deref_writable_made m s c :
  (kept h0) m -> (made h0) (Heap.copy m) -> (writable h0) s -> Heap.deref s m = Some c -> (made h0) c.
Proof.
  intros K C W H.
  destruct s as [|a|a|a]; [unfold Heap.deref in H; by injection H as <-|..].
  - exact (deref_made _ (Heap.SFn a) _ K W H).
  - exact (deref_made _ (Heap.SArg a) _ K W H).
  - exact (deref_made _ (Heap.SBody a) _ K W H).
Qed.

Lemma map_insert_made x l seen :
  (made h0) l -> (all_values_made h0) seen -> (all_values_made h0) (map_insert x l seen).
Proof.
  intros Hl Hs. unfold map_insert. destruct (seen !! x); [done|].
  by apply map_Forall_insert_2.
Qed.

Lemma find_bound_made fuel seen expr m b :
  (kept h0) m -> (made h0) expr -> (all_values_made h0) seen ->
  Heap._find_variables_bound fuel seen expr m = Some b -> (all_values_made h0) b.
Proof.
  revert seen expr b. induction fuel as [|fuel IH]; intros seen e b K Fe Hs H; [done|].
  simpl in H.
  destruct (Heap.mem m !! e) as [[n|fn arg|x body|n value]|] eqn:Ee; [| | |done|done].
  - destruct (seen !! n) as [l|] eqn:El; injection H as <-.
    + apply map_Forall_singleton. by apply Hs in El.
    + apply map_Forall_empty.
  - destruct (Heap._find_variables_bound fuel seen fn m) as [x|] eqn:E1; [|done].
    simpl in H.
    destruct (Heap._find_variables_bound fuel seen arg m) as [y|] eqn:E2; [|done].
    simpl in H. injection H as <-.
    assert ((made h0) fn) as Ffn by (eapply (kept_closed _ _ K _ _ _ Fe Ee); simpl; repeat constructor).
    assert ((made h0) arg) as Farg by (eapply (kept_closed _ _ K _ _ _ Fe Ee); simpl; repeat constructor).
    pose proof (IH _ _ _ K Ffn Hs E1) as H1. pose proof (IH _ _ _ K Farg Hs E2) as H2.
    rewrite (left_id_L ∅ (∪)).
    intros k l [Hl|[_ Hl]]%lookup_union_Some_raw; [by apply H1 in Hl|by apply H2 in Hl].
  - assert ((made h0) body) as Fb by (eapply (kept_closed _ _ K _ _ _ Fe Ee); simpl; repeat constructor).
    eapply (IH _ _ _ K Fb); [|exact H]. by apply map_insert_made.
Qed.

Lemma find_substitutions_field fuel expr var m l :
  (kept h0) m -> (field h0) expr ->
  Heap.find_substitutions fuel expr var m = Some l -> Forall (field h0) l.
Proof.
  revert expr l. induction fuel as [|fuel IH]; intros s l K Fs H; [done|].
  simpl in H. destruct (Heap.deref s m) as [e|] eqn:D; [|done]. simpl in H.
  pose proof (deref_made _ _ _ K Fs D) as Fe.
  destruct (Heap.mem m !! e) as [[n|fn arg|x body|n value]|] eqn:Ee; [| | |done|done].
  - destruct (decide (n = var)); injection H as <-; by repeat constructor.
  - destruct (Heap.find_substitutions fuel (Heap.SFn e) var m) as [ret|] eqn:E1; [|done].
    simpl in H.
    destruct (Heap.find_substitutions fuel (Heap.SArg e) var m) as [tmp|] eqn:E2; [|done].
    simpl in H. injection H as <-. apply Forall_app. split.
    + by apply (IH (Heap.SFn e)).
    + by apply (IH (Heap.SArg e)).
  - destruct (decide (x ≠ var)); [by apply (IH (Heap.SBody e))|].
    injection H as <-. constructor.
Qed.

Lemma substitute_kept fuel vars value m m' :
  (kept h0) m -> Forall (field h0) vars ->
  Heap.substitute alloc fuel vars value m = Some m' ->
  (kept h0) m' /\ Heap.copy m' = Heap.copy m.
Proof.
  revert m. induction vars as [|v vars IH]; intros m K Fv H; simpl in H.
  - by injection H as <-.
  - apply Forall_cons in Fv as [Fv Fvs].
    destruct (Heap.clone alloc fuel value m) as [[c m1]|] eqn:E1; [|done]. simpl in H.
    destruct (Heap.assign v c m1) as [m2|] eqn:E2; [|done]. simpl in H.
    destruct (clone_kept _ _ _ _ _ K E1) as (K1 & Fc & C1).
    destruct (assign_kept _ _ _ _ K1 (field_writable _ Fv) Fc E2) as (K2 & C2 & _).
    destruct (IH _ K2 Fvs H) as (K3 & C3).
    split; [done|]. by rewrite C3, (C2 Fv).
Qed.

Lemma rename_conflicts_kept fuel print_flags bound free m m' :
  (kept h0) m -> (all_values_made h0) bound ->
  Heap.rename_conflicts alloc fuel print_flags bound free m = Some m' ->
  (kept h0) m' /\ Heap.copy m' = Heap.copy m.
Proof.
  intros K Hb. revert m K. induction free as [|v free IH]; intros m K H; simpl in H.
  - by injection H as <-.
  - destruct (Heap.mem m !! v) as [[f|? ?|? ?|? ?]|]; try done.
    destruct (bound !! f) as [l|] eqn:El; [|by apply IH].
    destruct (Heap.alpha_conversion alloc fuel l f (fresh_name f) _) as [[r m1]|] eqn:E1;
      [|done]. simpl in H.
    apply Hb in El. simpl in El.
    destruct (alpha_conversion_kept _ _ _ _ _ _ _ (kept_trace_step _ _ _ K) El E1)
      as (K1 & _ & C1).
    destruct (IH _ K1 H) as (K2 & C2). split; [done|]. by rewrite C2, C1.
Qed.

Lemma beta_reduction_kept fuel print_flags app parent m r m' :
  (kept h0) m -> (made h0) (Heap.copy m) -> (made h0) app -> (writable h0) parent ->
  Heap.beta_reduction alloc fuel print_flags app parent m = Some (r, m') ->
  (kept h0) m' /\ (made h0) (Heap.copy m') /\ from_option (made h0) True r.
Proof.
  revert app parent m r m'.
  induction fuel as [|fuel IH]; intros app parent m r m' K C Fapp W H; [done|].
  simpl in H.
  destruct (Heap.mem m !! app) as [[?|fn arg|? ?|? ?]|] eqn:Eapp; try done.
  assert ((made h0) fn) as Ffn by (eapply (kept_closed _ _ K _ _ _ Fapp Eapp); simpl; repeat constructor).
  destruct (Heap.mem m !! fn) as [[?|fn1 arg1|x0 body0|? ?]|] eqn:Efn; try done.
  - by injection H as <- <-.
  - destruct (Heap.beta_reduction alloc fuel print_flags fn (Heap.SFn app) m)
      as [[red m1]|] eqn:E1;
      [|done]. simpl in H.
    destruct (IH _ (Heap.SFn app) _ _ _ K C Ffn Fapp E1) as (K1 & C1 & Fr).
    destruct red as [red|]; [|by injection H as <- <-].
    destruct (Heap.assign (Heap.SFn app) red m1) as [m2|] eqn:E2; [|done]. simpl in H.
    injection H as <- <-.
    destruct (assign_kept _ (Heap.SFn app) _ _ K1 Fapp Fr E2) as (K2 & C2 & _).
    split; [done|]. split; [by rewrite (C2 Fapp)|done].
  - destruct (Heap._find_variables_free fuel ∅ arg m) as [free|]; [|done]. simpl in H.
    destruct (Heap._find_variables_bound fuel ∅ fn m) as [bound|] eqn:Eb; [|done].
    simpl in H.
    destruct (Heap.rename_conflicts alloc fuel print_flags bound (merge_sort Pos.le free) m)
      as [m1|] eqn:E1; [|done]. simpl in H.
    destruct (Heap.mem m1 !! fn) as [[?|? ?|x body1|? ?]|]; try done.
    destruct (Heap.find_substitutions fuel (Heap.SBody fn) x m1) as [substs|] eqn:E2;
      [|done]. simpl in H.
    destruct (Heap.reify fuel (Heap.mem m1) arg) as [printed|]; [|done]. simpl in H.
    destruct (Heap.substitute alloc fuel substs arg _) as [m2|] eqn:E3; [|done].
    simpl in H.
    destruct (Heap.deref (Heap.SBody fn) m2) as [body|] eqn:E4; [|done]. simpl in H.
    destruct (Heap.assign parent body m2) as [m3|] eqn:E5; [|done]. simpl in H.
    injection H as <- <-.
    pose proof (find_bound_made _ _ _ _ _ K Ffn (map_Forall_empty _) Eb) as Hb.
    destruct (rename_conflicts_kept _ _ _ _ _ _ K Hb E1) as (K1 & C1).
    pose proof (find_substitutions_field _ (Heap.SBody fn) _ _ _ K1 Ffn E2) as Hs.
    destruct (substitute_kept _ _ _ _ _ (kept_trace_step _ _ _ K1) Hs E3) as (K2 & C2).
    simpl in C2.
    pose proof (deref_made _ (Heap.SBody fn) _ K2 Ffn E4) as Fb.
    destruct (assign_kept _ _ _ _ K2 W Fb E5) as (K3 & C3 & C3').
    split; [done|]. split; [|done].
    destruct parent; [by rewrite C3'|..]; rewrite (C3 W), C2, C1; done.
  - by injection H as <- <-.
Qed.

Lemma eval_kept fuel print_flags expr m r m' :
  (kept h0) m -> (made h0) (Heap.copy m) -> (writable h0) expr ->
  Heap.eval alloc fuel print_flags expr m = Some (r, m') ->
  (kept h0) m' /\ (made h0) (Heap.copy m') /\ from_option (made h0) True r.
Proof.
  revert expr m r m'.
  induction fuel as [|fuel IH]; intros expr m r m' K C W H; [done|].
  simpl in H. destruct (Heap.deref expr m) as [e|] eqn:D; [|done]. simpl in H.
  pose proof (deref_writable_made _ _ _ K C W D) as Fe.
  destruct (Heap.mem m !! e) as [[?|? ?|x body|? ?]|] eqn:Ee; try done.
  - by injection H as <- <-.
  - by eapply beta_reduction_kept.
  - destruct (Heap.eval alloc fuel print_flags (Heap.SBody e) m) as [[b m1]|] eqn:E1;
      [|done].
    simpl in H.
    destruct (IH (Heap.SBody e) _ _ _ K C Fe E1) as (K1 & C1 & Fb).
    destruct b as [b|]; [|by injection H as <- <-].
    destruct (Heap.assign (Heap.SBody e) b m1) as [m2|] eqn:E2; [|done]. simpl in H.
    injection H as <- <-.
    destruct (assign_kept _ (Heap.SBody e) _ _ K1 Fe Fb E2) as (K2 & C2 & _).
    split; [done|]. split; [by rewrite (C2 Fe)|done].
  - by injection H as <- <-.
Qed.

Lemma evaluate_loop_kept fuel print_flags m m' :
  (kept h0) m -> (made h0) (Heap.copy m) ->
  Heap.evaluate_loop alloc fuel print_flags m = Some m' ->
  (kept h0) m' /\ (made h0) (Heap.copy m').
Proof.
  revert m. induction fuel as [|fuel IH]; intros m K C H; [done|].
  simpl in H.
  destruct (Heap.eval alloc fuel print_flags Heap.SCopy m) as [[next m1]|] eqn:E1; [|done].
  simpl in H. destruct (eval_kept _ _ Heap.SCopy _ _ _ K C I E1) as (K1 & C1 & Fn).
  destruct next as [next|]; [|by injection H as <-].
  apply IH in H; [done| |done]. by apply (kept_mem m1).
Qed.

Lemma kept_start expr t : (kept h0) (Heap.mkMachine h0 expr t).
Proof.
  split; simpl; [done|]. intros a n c Ha H. unfold made in Ha. congruence.
Qed.

Lemma evaluate_kept fuel ctx expr print_flags ctx' r h' o :
  Heap.evaluate alloc fuel ctx expr print_flags h0 = Some (ctx', r, h', o) ->
  (forall a n, h0 !! a = Some n -> h' !! a = Some n)
  /\ match h0 !! expr with
     | Some (Heap.NLet name value) =>
         exists c, (made h0) c /\ ctx' = <[ name := c ]> ctx /\ r = value
     | _ => ctx' = ctx /\ (made h0) r
     end.
Proof.
  intros H. unfold Heap.evaluate in H.
  pose proof (kept_start expr (mkTracer 1 [])) as K.
  destruct (h0 !! expr) as [[?|? ?|? ?|name value]|] eqn:Ee; [| | | |done].
  1-3: destruct (Heap._find_variables_free fuel ∅ expr _) as [free|]; [|done];
       simpl in H;
       destruct (Heap.replace_vars alloc fuel ctx free expr _) as [[c m1]|] eqn:E1;
         [|done]; simpl in H;
       destruct (Heap.reify fuel (Heap.mem m1) c) as [printed|]; [|done]; simpl in H;
       destruct (Heap.evaluate_loop alloc fuel print_flags _) as [m2|] eqn:E2; [|done];
       simpl in H; injection H as <- <- <- <-;
       destruct (replace_vars_kept _ _ _ _ _ _ _ K E1) as (K1 & Fc & _);
       apply evaluate_loop_kept in E2 as (K2 & C2);
         [|by apply (kept_mem m1)|done];
       split; [apply (kept_old _ _ K2)|done].
  destruct (Heap.clone alloc fuel value _) as [[c m1]|] eqn:E1; [|done]. simpl in H.
  injection H as <- <- <- <-.
  destruct (clone_kept _ _ _ _ _ K E1) as (K1 & Fc & _).
  split; [apply (kept_old _ _ K1)|]. by exists c.
Qed.

End Frame.

Lemma reify_kept fuel h h' p t :
  (forall a n, h !! a = Some n -> h' !! a = Some n) ->
  Heap.reify fuel h p = Some t -> Heap.reify fuel h' p = Some t.
Proof.
  intros Hk. revert p t. induction fuel as [|fuel IH]; intros p t H; [done|].
  simpl in *. destruct (h !! p) as [n|] eqn:E; [|done]. rewrite (Hk _ _ E).
  destruct n as [x|fn arg|x body|x value].
  - done.
  - destruct (Heap.reify fuel h fn) as [fn'|] eqn:E1; [|done]. simpl in H.
    destruct (Heap.reify fuel h arg) as [arg'|] eqn:E2; [|done]. simpl in H.
    by rewrite (IH _ _ E1), (IH _ _ E2).
  - destruct (Heap.reify fuel h body) as [body'|] eqn:E1; [|done]. simpl in H.
    by rewrite (IH _ _ E1).
  - destruct (Heap.reify fuel h value) as [value'|] eqn:E1; [|done]. simpl in H.
    by rewrite (IH _ _ E1).
Qed.

(** C7.  Take a call of [evaluate] on a pointer [expr] into a store [h],
    with an allocator that hands out unused addresses, and suppose that it
    returns.  If [expr] is not a [Let], the definitions map is the one
    passed in; if it is, the map differs in the entry of its name only.
    In both cases every node of [h] is in the store afterwards with the
    fields it had, so every tree of [h] - the input term, the trees of the
    definitions - reads back as it did before: all writes of the reduction
    go to nodes made during the call. *)
Theorem C7_evaluate_frame alloc fuel ctx expr print_flags h ctx' r h' o :
  (forall h, h !! alloc h = None) ->
  Heap.evaluate alloc fuel ctx expr print_flags h = Some (ctx', r, h', o) ->
  (if is_let_node (h !! expr) then
     exists name value, h !! expr = Some (Heap.NLet name value)
                        /\ delete name ctx' = delete name ctx
   else ctx' = ctx)
  /\ (forall a n, h !! a = Some n -> h' !! a = Some n)
  /\ (forall fuel' p t, Heap.reify fuel' h p = Some t -> Heap.reify fuel' h' p = Some t).
Proof.
  intros Ha H. destruct (evaluate_kept alloc Ha h _ _ _ _ _ _ _ _ H) as [Hk Hc].
  split; [|split; [done|]].
  - destruct (h !! expr) as [[?|? ?|? ?|name value]|]; simpl; try (by destruct Hc).
    destruct Hc as (c & _ & -> & _). exists name, value.
    split; [done|]. apply delete_insert_eq.
  - intros fuel' p t. by apply reify_kept.
Qed.

Lemma bump_fresh h : h !! Heap.bump h = None.
Proof. apply not_elem_of_dom. unfold Heap.bump. apply is_fresh. Qed.

Lemma top_down_fresh n h : h !! Heap.top_down n h = None.
Proof.
  induction n as [|n IH]; simpl; [apply bump_fresh|].
  by destruct (h !! Pos.of_succ_nat n) eqn:E.
Qed.

Lemma C7_evaluate_frame_witness :
  (forall h, h !! Heap.bump h = None)
  /\ exists ctx' r h' o,
       Heap.evaluate Heap.bump 20 ∅ store_w.1 FLAG_TRACE (Heap.mem store_w.2)
       = Some (ctx', r, h', o)
       /\ (if is_let_node (Heap.mem store_w.2 !! store_w.1) then
             exists name value,
               Heap.mem store_w.2 !! store_w.1 = Some (Heap.NLet name value)
               /\ delete name ctx' = delete name ∅
           else ctx' = ∅)
       /\ (forall a n, Heap.mem store_w.2 !! a = Some n -> h' !! a = Some n)
       /\ (forall fuel' p t,
             Heap.reify fuel' (Heap.mem store_w.2) p = Some t ->
             Heap.reify fuel' h' p = Some t).
Proof.
  split; [exact bump_fresh|].
  destruct (Heap.evaluate Heap.bump 20 ∅ store_w.1 FLAG_TRACE (Heap.mem store_w.2))
    as [[[[ctx' r] h'] o]|] eqn:E.
  - exists ctx', r, h', o. split; [reflexivity|].
    exact (C7_evaluate_frame Heap.bump 20 ∅ store_w.1 FLAG_TRACE (Heap.mem store_w.2)
             ctx' r h' o bump_fresh E).
  - exfalso. vm_compute in E. discriminate E.
Defined.

(** On this store the run on the heap returns the term that the run on
    trees returns, and the input term reads back unchanged. *)
Example heap_run_of_store_w :
  ('(_, r, h', _) ← Heap.evaluate Heap.bump 20 ∅ store_w.1 0 (Heap.mem store_w.2);
   r' ← Heap.reify 20 h' r;
   e' ← Heap.reify 20 h' store_w.1;
   Some (r', e'))
  = Some (Lambda "a''" (Apply (Var "a''") (Apply (Var "a") (Var "a"))),
          Apply (Lambda "x" (Lambda "a" (Apply (Var "a") (Var "x"))))
                (Apply (Var "a") (Var "a")))
  /\ Eval.evaluate walk_order 20 empty_ctx
       (Apply (Lambda "x" (Lambda "a" (Apply (Var "a") (Var "x"))))
              (Apply (Var "a") (Var "a"))) 0
     = Some (Ret (empty_ctx,
          Lambda "a''" (Apply (Var "a''") (Apply (Var "a") (Var "a"))), [])).
Proof. split; by vm_compute. Qed.

(** The two allocators lay the copy of [(λx.λa.λb.a b x) (a b)] out in
    opposite orders, and the set of the free variables of the argument is
    walked by address: the lines of the two runs rename [a] and [b] in
    opposite orders.  These are the runs of the reducer on trees under
    [walk_order] and [reverse_order]. *)
Example heap_trace_of_allocator :
  heap_run Heap.bump 30 FLAG_TRACE store_ab
  = Some (Lambda "a'" (Lambda "b'"
            (Apply (Apply (Var "a'") (Var "b'")) (Apply (Var "a") (Var "b")))),
          [EvStart (Apply (Lambda "x" (Lambda "a" (Lambda "b"
                      (Apply (Apply (Var "a") (Var "b")) (Var "x")))))
                   (Apply (Var "a") (Var "b")));
           EvAlpha 1 "a" "a'"; EvAlpha 2 "b" "b'";
           EvBeta 3 "x" (Apply (Var "a") (Var "b")); EvDone])
  /\ heap_run (Heap.top_down 64) 30 FLAG_TRACE store_ab
     = Some (Lambda "a'" (Lambda "b'"
               (Apply (Apply (Var "a'") (Var "b'")) (Apply (Var "a") (Var "b")))),
             [EvStart (Apply (Lambda "x" (Lambda "a" (Lambda "b"
                         (Apply (Apply (Var "a") (Var "b")) (Var "x")))))
                      (Apply (Var "a") (Var "b")));
              EvAlpha 1 "b" "b'"; EvAlpha 2 "a" "a'";
              EvBeta 3 "x" (Apply (Var "a") (Var "b")); EvDone]).
Proof. split; by vm_compute. Qed.

(** With primed names the terms returned differ with the allocator. *)
Example heap_result_of_allocator :
  heap_run Heap.bump 30 0 store_yy
  = Some (Lambda "y'" (Lambda "y'''"
            (Apply (Apply (Apply (Var "y") (Var "y'")) (Var "y")) (Var "y'''"))), [])
  /\ heap_run (Heap.top_down 64) 30 0 store_yy
     = Some (Lambda "y'" (Lambda "y''"
               (Apply (Apply (Apply (Var "y") (Var "y'")) (Var "y'")) (Var "y''"))), []).
Proof. split; by vm_compute. Qed.

(** * Terms without [Let] never abort *)

Lemma find_free_abort e seen p :
  no_let e = false -> Eval._find_variables_free seen p e = Abort.
Proof.
  revert seen p. induction e as [n|fn IHfn arg IHarg|x body IH|n v _]; intros seen p H;
    simpl in *; try done.
  - apply andb_false_iff in H as [H|H].
    + by rewrite IHfn.
    + rewrite (IHarg _ _ H). by destruct (Eval._find_variables_free _ _ fn).
  - by apply IH.
Qed.

Lemma replace_vars_once_abort ctx L e p :
  no_let e = false -> Util.replace_vars_once ctx L p e = Abort.
Proof.
  revert p. induction e as [n|fn IHfn arg IHarg|x body IH|n v _]; intros p H;
    simpl in *; try done.
  - apply andb_false_iff in H as [H|H].
    + by rewrite IHfn.
    + rewrite (IHarg _ H). by destruct (Util.replace_vars_once _ _ _ fn).
  - by rewrite IH.
Qed.

Lemma alpha_conversion_no_let e name fresh :
  no_let e = true ->
  exists e', alpha_conversion e name fresh = Ret e' /\ no_let e' = true.
Proof.
  revert name fresh. induction e as [n|fn IHfn arg IHarg|x body IH|n v _];
    intros name fresh H; simpl in *; try done.
  - destruct (decide (n = name)); eauto.
  - apply andb_true_iff in H as [H1 H2].
    destruct (IHfn name fresh H1) as (fn' & -> & ?).
    destruct (IHarg name fresh H2) as (arg' & -> & ?).
    simpl. eexists; split; [done|]. simpl. by apply andb_true_iff.
  - destruct (decide (x = fresh)).
    + destruct (IH fresh (fresh_name fresh) H) as (b' & -> & ?). simpl. eauto.
    + destruct (IH name fresh H) as (b' & -> & ?). simpl. eauto.
Qed.

Lemma load_no_let R p e : no_let R = true -> load R p = Some e -> no_let e = true.
Proof.
  revert R. induction p as [|d p IH]; intros R H E.
  - destruct R; simpl in E; by injection E as <-.
  - destruct d, R; try done; simpl in H; try apply andb_true_iff in H as [H1 H2]; eauto.
Qed.

Lemma store_no_let R p v : no_let R = true -> no_let v = true -> no_let (store R p v) = true.
Proof.
  revert R. induction p as [|d p IH]; intros R H Hv; [by destruct R|].
  destruct d, R; try done; simpl in *; try apply andb_true_iff in H as [H1 H2];
    rewrite ?andb_true_iff; auto.
Qed.

Lemma modify_alpha_no_let R l name fresh :
  no_let R = true ->
  exists R', modify R l (fun e => alpha_conversion e name fresh) = Ret R' /\ no_let R' = true.
Proof.
  intros H. unfold modify. destruct (load R l) as [e|] eqn:E; [|eauto].
  destruct (alpha_conversion_no_let e name fresh (load_no_let _ _ _ H E)) as (e' & -> & He').
  simpl. eexists; split; [done|]. by apply store_no_let.
Qed.

Lemma rename_conflicts_no_let print_flags bound free func t :
  no_let func = true ->
  exists func' t', rename_conflicts print_flags bound free func t = Ret (func', t')
                   /\ no_let func' = true.
Proof.
  revert func t. induction free as [|v free IH]; intros func t H; simpl; [eauto|].
  destruct (bound !! v.2) as [l|]; [|by apply IH].
  destruct (modify_alpha_no_let func l v.2 (fresh_name v.2) H) as (R' & -> & HR').
  simpl. by apply IH.
Qed.

Lemma find_substitutions_total e p var :
  no_let e = true -> exists l, find_substitutions p e var = Ret l.
Proof.
  revert p. induction e as [n|fn IHfn arg IHarg|x body IH|n v _]; intros p H;
    simpl in *; try done.
  - destruct (decide (n = var)); eauto.
  - apply andb_true_iff in H as [H1 H2].
    destruct (IHfn (p ++ [DFn]) H1) as (? & ->). destruct (IHarg (p ++ [DArg]) H2) as (? & ->).
    simpl. eauto.
  - destruct (decide (x ≠ var)); eauto.
Qed.

Lemma substitute_no_let e vars value :
  no_let e = true -> no_let value = true -> no_let (substitute e vars value) = true.
Proof.
  intros He Hv. unfold substitute. revert e He.
  induction vars as [|v vars IH]; intros e He; simpl; [done|].
  apply IH. apply store_no_let; [done|]. by rewrite clone_id.
Qed.

Lemma lambda_body_no_let e : no_let e = true -> no_let (lambda_body e) = true.
Proof. by destruct e. Qed.

Lemma contract_no_let print_flags func arg t :
  no_let func = true -> no_let arg = true ->
  exists r t', contract print_flags func arg t = Ret (Some r, t') /\ no_let r = true.
Proof.
  intros Hf Ha. unfold contract.
  destruct (find_substitutions_total (lambda_body func) [DBody] (lambda_arg func)
              (lambda_body_no_let _ Hf)) as (l & ->).
  simpl. do 2 eexists. split; [done|]. by apply lambda_body_no_let, substitute_no_let.
Qed.

Section NoAbort.
Variable addr_order : Z -> list VarPtr -> list VarPtr.
Variable print_flags : Z.

Lemma Eval_beta_reduction_no_let app t :
  no_let app = true ->
  exists r t', Eval.beta_reduction addr_order print_flags t app = Ret (r, t')
               /\ no_let_opt r.
Proof.
  revert t. induction app as [n|fn IHfn arg _|x body _|n v _]; intros t H;
    try done; try (by exists None, t).
  simpl in H. apply andb_true_iff in H as [H1 H2].
  destruct fn as [n|fn1 arg1|x body|n v]; try done; try (by exists None, t).
  - destruct (IHfn t H1) as (r & t' & E & Hr).
    change (Eval.beta_reduction addr_order print_flags t (Apply (Apply fn1 arg1) arg))
      with ('(red, t') ← Eval.beta_reduction addr_order print_flags t (Apply fn1 arg1);
            match red with
            | Some red => Ret (Some (Apply red arg), t')
            | None => Ret (None, t')
            end).
    rewrite E. simpl. destruct r as [r|]; do 2 eexists; (split; [done|]); simpl; [|done].
    simpl in Hr. by rewrite Hr.
  - simpl.
    destruct (Eval_find_free_total arg ∅ [] H2) as (free & E1).
    unfold Eval.find_free_variables. rewrite E1. simpl.
    destruct (Eval_find_bound_total (Lambda x body) ∅ [] H1) as (bound & E2).
    unfold Eval.find_bound_variables. rewrite E2. simpl.
    destruct (rename_conflicts_no_let print_flags bound (addr_order (step t) free)
                (Lambda x body) t H1) as (func' & t' & -> & Hf).
    simpl. destruct (contract_no_let print_flags func' arg t' Hf H2) as (r & t'' & -> & Hr).
    by do 2 eexists.
Qed.

Lemma Eval_eval_no_let e t :
  no_let e = true ->
  exists r t', Eval.eval addr_order print_flags t e = Ret (r, t') /\ no_let_opt r.
Proof.
  revert t. induction e as [n|fn _ arg _|x body IH|n v _]; intros t H;
    try done; try (by exists None, t).
  - by apply Eval_beta_reduction_no_let.
  - simpl in *. destruct (IH t H) as (r & t' & -> & Hr). simpl.
    destruct r; by do 2 eexists.
Qed.

Lemma Eval_evaluate_loop_no_let fuel t copy r :
  no_let copy = true ->
  Eval.evaluate_loop addr_order fuel print_flags t copy = Some r ->
  exists v t', r = Ret (v, t') /\ no_let v = true.
Proof.
  revert t copy. induction fuel as [|fuel IH]; intros t copy H E; [done|].
  simpl in E. destruct (Eval_eval_no_let copy t H) as (n & t' & En & Hn).
  rewrite En in E. destruct n as [next|].
  - by apply IH in E.
  - injection E as <-. eauto.
Qed.

Lemma Util_find_free_total e M seen p depth :
  no_let e = true -> exists fv, Util._find_variables_free M seen p e depth = Ret fv.
Proof.
  revert M seen p depth. induction e as [n|fn IHfn arg IHarg|x body IH|n v _];
    intros M seen p depth H; simpl in *; try done.
  - destruct (seen !! n); eauto.
  - apply andb_true_iff in H as [H1 H2].
    destruct (IHfn Util.INT_MAX seen (p ++ [DFn]) 0 H1) as (? & ->).
    destruct (IHarg Util.INT_MAX seen (p ++ [DArg]) 0 H2) as (? & ->). simpl. eauto.
  - destruct (decide (depth < M)); eauto.
Qed.

Lemma Util_find_bound_total e M seen p depth :
  no_let e = true -> exists m, Util._find_variables_bound M seen p e depth = Ret m.
Proof.
  revert M seen p depth. induction e as [n|fn IHfn arg IHarg|x body IH|n v _];
    intros M seen p depth H; simpl in *; try done.
  - destruct (seen !! n); eauto.
  - apply andb_true_iff in H as [H1 H2].
    destruct (IHfn Util.INT_MAX seen (p ++ [DFn]) 0 H1) as (? & ->).
    destruct (IHarg Util.INT_MAX seen (p ++ [DArg]) 0 H2) as (? & ->). simpl. eauto.
  - destruct (decide (depth < M)); eauto.
Qed.

Lemma Eval2_beta_reduction_no_let app t :
  no_let app = true ->
  exists r t', Eval2.beta_reduction addr_order print_flags t app = Ret (r, t')
               /\ no_let_opt r.
Proof.
  revert t. induction app as [n|fn IHfn arg IHarg|x body _|n v _]; intros t H;
    try done; try (by exists None, t).
  simpl in H. apply andb_true_iff in H as [H1 H2].
  destruct fn as [n|fn1 arg1|x body|n v]; try done.
  - destruct arg as [m|fn2 arg2|y body|m v]; try done; try (by exists None, t).
    destruct (IHarg t H2) as (r & t' & E & Hr).
    change (Eval2.beta_reduction addr_order print_flags t (Apply (Var n) (Apply fn2 arg2)))
      with ('(red, t') ← Eval2.beta_reduction addr_order print_flags t (Apply fn2 arg2);
            match red with
            | Some red => Ret (Some (Apply (Var n) red), t')
            | None => Ret (None, t')
            end).
    rewrite E. simpl. destruct r as [r|]; do 2 eexists; (split; [done|]); simpl; done.
  - destruct (IHfn t H1) as (r & t' & E & Hr).
    change (Eval2.beta_reduction addr_order print_flags t (Apply (Apply fn1 arg1) arg))
      with ('(red, t') ← Eval2.beta_reduction addr_order print_flags t (Apply fn1 arg1);
            match red with
            | Some red => Ret (Some (Apply red arg), t')
            | None => Ret (None, t')
            end).
    rewrite E. simpl. destruct r as [r|]; do 2 eexists; (split; [done|]); simpl; [|done].
    simpl in Hr. by rewrite Hr.
  - simpl.
    destruct (Util_find_free_total arg Util.INT_MAX ∅ [] 0 H2) as (free & E1).
    unfold Util.find_free_variables. rewrite E1. simpl.
    destruct (Util_find_bound_total (Lambda x body) Util.INT_MAX ∅ [] 0 H1) as (bound & E2).
    unfold Util.find_bound_variables. rewrite E2. simpl.
    destruct (rename_conflicts_no_let print_flags bound (addr_order (step t) free)
                (Lambda x body) t H1) as (func' & t' & -> & Hf).
    simpl. destruct (contract_no_let print_flags func' arg t' Hf H2) as (r & t'' & -> & Hr).
    by do 2 eexists.
Qed.

Lemma Eval2_eval_no_let e t :
  no_let e = true ->
  exists r t', Eval2.eval addr_order print_flags t e = Ret (r, t') /\ no_let_opt r.
Proof.
  revert t. induction e as [n|fn _ arg _|x body IH|n v _]; intros t H;
    try done; try (by exists None, t).
  - by apply Eval2_beta_reduction_no_let.
  - simpl in *. destruct (IH t H) as (r & t' & -> & Hr). simpl.
    destruct r; by do 2 eexists.
Qed.

Lemma Eval2_evaluate_loop_no_let fuel t copy r :
  no_let copy = true ->
  Eval2.evaluate_loop addr_order fuel print_flags t copy = Some r ->
  exists v t', r = Ret (v, t') /\ no_let v = true.
Proof.
  revert t copy. induction fuel as [|fuel IH]; intros t copy H E; [done|].
  simpl in E. destruct (Eval2_eval_no_let copy t H) as (n & t' & En & Hn).
  rewrite En in E. destruct n as [next|].
  - by apply IH in E.
  - injection E as <-. eauto.
Qed.

End NoAbort.

Lemma replace_vars_once_no_let ctx L p e :
  map_Forall (fun _ v => no_let v = true) (vars ctx) ->
  no_let e = true ->
  exists e' b, Util.replace_vars_once ctx L p e = Ret (e', b) /\ no_let e' = true.
Proof.
  intros Hc. revert p. induction e as [n|fn IHfn arg IHarg|x body IH|n v _]; intros p H;
    simpl in *; try done.
  - destruct (decide _); [|eauto]. destruct (vars ctx !! n) as [v|] eqn:E; [|eauto].
    do 2 eexists. split; [done|]. rewrite clone_id. by apply (Hc _ _ E).
  - apply andb_true_iff in H as [H1 H2].
    destruct (IHfn (p ++ [DFn]) H1) as (? & ? & -> & ?).
    destruct (IHarg (p ++ [DArg]) H2) as (? & ? & -> & ?). simpl.
    do 2 eexists. split; [done|]. simpl. by apply andb_true_iff.
  - destruct (IH (p ++ [DBody]) H) as (? & ? & -> & ?). simpl. eauto.
Qed.

Lemma Util_replace_vars_no_let fuel ctx e r :
  map_Forall (fun _ v => no_let v = true) (vars ctx) ->
  no_let e = true ->
  Util.replace_vars fuel ctx e = Some r ->
  exists copy, r = Ret copy /\ no_let copy = true.
Proof.
  intros Hc. revert e. induction fuel as [|fuel IH]; intros e H E; [done|].
  simpl in E. unfold Util.find_free_variables in E.
  destruct (Util_find_free_total e Util.INT_MAX ∅ [] 0 H) as (free & E1).
  rewrite E1 in E. simpl in E.
  destruct (replace_vars_once_no_let ctx free [] e Hc H) as (e' & b & E2 & He').
  rewrite E2 in E. destruct b.
  - by apply IH in E.
  - injection E as <-. eauto.
Qed.

Lemma evaluate_no_let addr_order fuel_inline fuel ctx e print_flags r :
  no_let e = true ->
  map_Forall (fun _ v => no_let v = true) (vars ctx) ->
  Eval.evaluate addr_order fuel ctx e print_flags = Some r
  \/ Eval2.evaluate addr_order fuel_inline fuel ctx e print_flags = Some r ->
  exists v o, r = Ret (ctx, v, o) /\ no_let v = true.
Proof.
  intros He Hc [E|E].
  - pose proof (replace_vars_single_inline ctx e He) as Hs.
    pose proof (inline_no_let ctx Hc e ∅ He) as Hi.
    unfold replace_vars_single in Hs. unfold Eval.evaluate in E.
    destruct e as [n|fn arg|x body|n v]; try done; rewrite Hs in E.
    all: match type of E with context [Eval.evaluate_loop ?ao ?f ?pf ?t ?c] =>
           destruct (Eval.evaluate_loop ao f pf t c) as [l|] eqn:El; [|done];
           destruct (Eval_evaluate_loop_no_let _ _ _ _ _ _ Hi El) as (v & t' & -> & Hv);
           injection E as <-; eauto end.
  - unfold Eval2.evaluate in E. destruct e as [n|fn arg|x body|n v]; try done.
    all: match type of E with context [Util.replace_vars ?f ?c ?e] =>
           destruct (Util.replace_vars f c e) as [l|] eqn:Ei; [|done];
           destruct (Util_replace_vars_no_let _ _ _ _ Hc He Ei) as (copy & -> & Hi) end.
    all: match type of E with context [Eval2.evaluate_loop ?ao ?f ?pf ?t ?c] =>
           destruct (Eval2.evaluate_loop ao f pf t c) as [l|] eqn:El; [|done];
           destruct (Eval2_evaluate_loop_no_let _ _ _ _ _ _ Hi El) as (v & t' & -> & Hv);
           injection E as <-; eauto end.
Qed.

(** X1: terms as the parser builds them never abort. *)
Theorem X1_no_abort addr_order fuel_inline fuel ctx e print_flags r :
  no_let e = true ->
  map_Forall (fun _ v => no_let v = true) (vars ctx) ->
  Eval.evaluate addr_order fuel ctx e print_flags = Some r
  \/ Eval2.evaluate addr_order fuel_inline fuel ctx e print_flags = Some r ->
  exists v o, r = Ret (ctx, v, o) /\ no_let v = true.
Proof. apply evaluate_no_let. Qed.

Lemma X1_no_abort_witness :
  (no_let (Apply (Lambda "x" (Var "x")) (Var "y")) = true
   /\ map_Forall (fun _ v => no_let v = true) (vars empty_ctx)
   /\ (Eval.evaluate walk_order 2 empty_ctx (Apply (Lambda "x" (Var "x")) (Var "y")) 0
       = Some (Ret (empty_ctx, Var "y", []))
       \/ Eval2.evaluate walk_order 0 2 empty_ctx (Apply (Lambda "x" (Var "x")) (Var "y")) 0
          = Some (Ret (empty_ctx, Var "y", []))))
  /\ exists v o, Ret (empty_ctx, Var "y", @nil event) = Ret (empty_ctx, v, o)
                 /\ no_let v = true.
Proof.
  assert (map_Forall (fun _ v => no_let v = true) (vars empty_ctx)) as H2
    by (apply (bool_decide_unpack _); vm_compute; exact I).
  assert (Eval.evaluate walk_order 2 empty_ctx (Apply (Lambda "x" (Var "x")) (Var "y")) 0
          = Some (Ret (empty_ctx, Var "y", []))
          \/ Eval2.evaluate walk_order 0 2 empty_ctx
               (Apply (Lambda "x" (Var "x")) (Var "y")) 0
             = Some (Ret (empty_ctx, Var "y", []))) as H3
    by (left; vm_compute; reflexivity).
  split; [done|].
  exact (X1_no_abort walk_order 0 2 empty_ctx (Apply (Lambda "x" (Var "x")) (Var "y")) 0
           _ eq_refl H2 H3).
Defined.

(** X2: a [Let] below the root makes [evaluate] abort. *)
Theorem X2_nested_let_aborts addr_order fuel_inline fuel ctx e print_flags :
  is_let e = false -> no_let e = false ->
  Eval.evaluate addr_order fuel ctx e print_flags = Some Abort
  /\ Eval2.evaluate addr_order (S fuel_inline) fuel ctx e print_flags = Some Abort.
Proof.
  intros Hl He. split.
  - unfold Eval.evaluate, Eval.find_free_variables.
    rewrite (find_free_abort e ∅ [] He). by destruct e.
  - unfold Eval2.evaluate.
    assert (Util.replace_vars (S fuel_inline) ctx e = Some Abort) as ->; [|by destruct e].
    simpl. destruct (Util.find_free_variables e) as [free|]; [|done]. simpl.
    by rewrite replace_vars_once_abort.
Qed.

Lemma X2_nested_let_aborts_witness :
  (is_let (Apply (Var "f") (Let "x" (Var "y"))) = false
   /\ no_let (Apply (Var "f") (Let "x" (Var "y"))) = false)
  /\ Eval.evaluate walk_order 1 empty_ctx (Apply (Var "f") (Let "x" (Var "y"))) 0
     = Some Abort
  /\ Eval2.evaluate walk_order 1 1 empty_ctx (Apply (Var "f") (Let "x" (Var "y"))) 0
     = Some Abort.
Proof.
  split; [done|].
  exact (X2_nested_let_aborts walk_order 0 1 empty_ctx
           (Apply (Var "f") (Let "x" (Var "y"))) 0 eq_refl eq_refl).
Defined.

(** * The flags decide what is printed, and nothing else *)

Section Flags.
Variable addr_order : Z -> list VarPtr -> list VarPtr.
Variables f1 f2 : Z.

Lemma rename_conflicts_flags bound free func t1 t2 :
  step t1 = step t2 ->
  same_run (rename_conflicts f1 bound free func t1) (rename_conflicts f2 bound free func t2).
Proof.
  revert func t1 t2. induction free as [|v free IH]; intros func t1 t2 Hs; simpl; [done|].
  destruct (bound !! v.2) as [l|]; [|by apply IH].
  destruct (modify func l _) as [func'|]; simpl; [|done].
  apply IH. simpl. by rewrite Hs.
Qed.

Lemma contract_flags func arg t1 t2 :
  step t1 = step t2 ->
  same_run (contract f1 func arg t1) (contract f2 func arg t2).
Proof.
  intros Hs. unfold contract. destruct (find_substitutions _ _ _); simpl; [|done].
  by rewrite Hs.
Qed.

Lemma Eval_beta_reduction_flags app t1 t2 :
  step t1 = step t2 ->
  same_run (Eval.beta_reduction addr_order f1 t1 app)
           (Eval.beta_reduction addr_order f2 t2 app).
Proof.
  revert t1 t2. induction app as [n|fn IHfn arg _|x body _|n v _]; intros t1 t2 Hs;
    try done.
  destruct fn as [n|fn1 arg1|x body|n v]; try done.
  - specialize (IHfn t1 t2 Hs).
    change (Eval.beta_reduction addr_order ?f ?t (Apply (Apply fn1 arg1) arg))
      with ('(red, t') ← Eval.beta_reduction addr_order f t (Apply fn1 arg1);
            match red with
            | Some red => Ret (Some (Apply red arg), t')
            | None => Ret (None, t')
            end).
    destruct (Eval.beta_reduction addr_order f1 t1 _) as [[r1 t1']|],
             (Eval.beta_reduction addr_order f2 t2 _) as [[r2 t2']|]; try done.
    destruct IHfn as [-> Hs']. simpl. by destruct r2.
  - simpl. destruct (Eval.find_free_variables arg) as [free|]; [|done]. simpl.
    destruct (Eval.find_bound_variables _) as [bound|]; [|done]. simpl.
    rewrite Hs.
    pose proof (rename_conflicts_flags bound (addr_order (step t2) free)
                  (Lambda x body) t1 t2 Hs) as H.
    destruct (rename_conflicts f1 _ _ _ _) as [[func1 t1']|],
             (rename_conflicts f2 _ _ _ _) as [[func2 t2']|]; try done.
    destruct H as [-> Hs']. simpl. by apply contract_flags.
Qed.

Lemma Eval_eval_flags e t1 t2 :
  step t1 = step t2 ->
  same_run (Eval.eval addr_order f1 t1 e) (Eval.eval addr_order f2 t2 e).
Proof.
  revert t1 t2. induction e as [n|fn _ arg _|x body IH|n v _]; intros t1 t2 Hs; try done.
  - by apply Eval_beta_reduction_flags.
  - simpl. specialize (IH t1 t2 Hs).
    destruct (Eval.eval addr_order f1 t1 body) as [[r1 t1']|],
             (Eval.eval addr_order f2 t2 body) as [[r2 t2']|]; try done.
    destruct IH as [-> Hs']. simpl. by destruct r2.
Qed.

Lemma Eval_evaluate_loop_flags fuel copy t1 t2 :
  step t1 = step t2 ->
  same_loop (Eval.evaluate_loop addr_order fuel f1 t1 copy)
            (Eval.evaluate_loop addr_order fuel f2 t2 copy).
Proof.
  revert copy t1 t2. induction fuel as [|fuel IH]; intros copy t1 t2 Hs; [done|].
  simpl. pose proof (Eval_eval_flags copy t1 t2 Hs) as H.
  destruct (Eval.eval addr_order f1 t1 copy) as [[r1 t1']|],
           (Eval.eval addr_order f2 t2 copy) as [[r2 t2']|]; try done.
  destruct H as [-> Hs']. destruct r2; [by apply IH|done].
Qed.

Lemma Eval2_beta_reduction_flags app t1 t2 :
  step t1 = step t2 ->
  same_run (Eval2.beta_reduction addr_order f1 t1 app)
           (Eval2.beta_reduction addr_order f2 t2 app).
Proof.
  revert t1 t2. induction app as [n|fn IHfn arg IHarg|x body _|n v _]; intros t1 t2 Hs;
    try done.
  destruct fn as [n|fn1 arg1|x body|n v].
  - destruct arg as [m|fn2 arg2|y body|m v]; try done.
    specialize (IHarg t1 t2 Hs).
    change (Eval2.beta_reduction addr_order ?f ?t (Apply (Var n) (Apply fn2 arg2)))
      with ('(red, t') ← Eval2.beta_reduction addr_order f t (Apply fn2 arg2);
            match red with
            | Some red => Ret (Some (Apply (Var n) red), t')
            | None => Ret (None, t')
            end).
    destruct (Eval2.beta_reduction addr_order f1 t1 _) as [[r1 t1']|],
             (Eval2.beta_reduction addr_order f2 t2 _) as [[r2 t2']|]; try done.
    destruct IHarg as [-> Hs']. simpl. by destruct r2.
  - specialize (IHfn t1 t2 Hs).
    change (Eval2.beta_reduction addr_order ?f ?t (Apply (Apply fn1 arg1) arg))
      with ('(red, t') ← Eval2.beta_reduction addr_order f t (Apply fn1 arg1);
            match red with
            | Some red => Ret (Some (Apply red arg), t')
            | None => Ret (None, t')
            end).
    destruct (Eval2.beta_reduction addr_order f1 t1 _) as [[r1 t1']|],
             (Eval2.beta_reduction addr_order f2 t2 _) as [[r2 t2']|]; try done.
    destruct IHfn as [-> Hs']. simpl. by destruct r2.
  - simpl. destruct (Util.find_free_variables arg) as [free|]; [|done]. simpl.
    destruct (Util.find_bound_variables _) as [bound|]; [|done]. simpl.
    rewrite Hs.
    pose proof (rename_conflicts_flags bound (addr_order (step t2) free)
                  (Lambda x body) t1 t2 Hs) as H.
    destruct (rename_conflicts f1 _ _ _ _) as [[func1 t1']|],
             (rename_conflicts f2 _ _ _ _) as [[func2 t2']|]; try done.
    destruct H as [-> Hs']. simpl. by apply contract_flags.
  - destruct arg as [m|fn2 arg2|y body|m w]; try done.
    specialize (IHarg t1 t2 Hs).
    change (Eval2.beta_reduction addr_order ?f ?t (Apply (Let n v) (Apply fn2 arg2)))
      with ('(red, t') ← Eval2.beta_reduction addr_order f t (Apply fn2 arg2);
            match red with
            | Some red => Ret (Some (Apply (Let n v) red), t')
            | None => Ret (None, t')
            end).
    destruct (Eval2.beta_reduction addr_order f1 t1 _) as [[r1 t1']|],
             (Eval2.beta_reduction addr_order f2 t2 _) as [[r2 t2']|]; try done.
    destruct IHarg as [-> Hs']. simpl. by destruct r2.
Qed.

Lemma Eval2_eval_flags e t1 t2 :
  step t1 = step t2 ->
  same_run (Eval2.eval addr_order f1 t1 e) (Eval2.eval addr_order f2 t2 e).
Proof.
  revert t1 t2. induction e as [n|fn _ arg _|x body IH|n v _]; intros t1 t2 Hs; try done.
  - by apply Eval2_beta_reduction_flags.
  - simpl. specialize (IH t1 t2 Hs).
    destruct (Eval2.eval addr_order f1 t1 body) as [[r1 t1']|],
             (Eval2.eval addr_order f2 t2 body) as [[r2 t2']|]; try done.
    destruct IH as [-> Hs']. simpl. by destruct r2.
Qed.

Lemma Eval2_evaluate_loop_flags fuel copy t1 t2 :
  step t1 = step t2 ->
  same_loop (Eval2.evaluate_loop addr_order fuel f1 t1 copy)
            (Eval2.evaluate_loop addr_order fuel f2 t2 copy).
Proof.
  revert copy t1 t2. induction fuel as [|fuel IH]; intros copy t1 t2 Hs; [done|].
  simpl. pose proof (Eval2_eval_flags copy t1 t2 Hs) as H.
  destruct (Eval2.eval addr_order f1 t1 copy) as [[r1 t1']|],
           (Eval2.eval addr_order f2 t2 copy) as [[r2 t2']|]; try done.
  destruct H as [-> Hs']. destruct r2; [by apply IH|done].
Qed.

End Flags.

Lemma Eval_run_flags addr_order fuel (ctx : Context) copy f1 f2 :
  outcome (match Eval.evaluate_loop addr_order fuel f1
                   (mkTracer 1 (print_trace f1 (EvStart copy) [])) copy with
           | None => None
           | Some Abort => Some Abort
           | Some (Ret (copy', t)) => Some (Ret (ctx, copy', print_trace f1 EvDone (out t)))
           end)
  = outcome (match Eval.evaluate_loop addr_order fuel f2
                     (mkTracer 1 (print_trace f2 (EvStart copy) [])) copy with
             | None => None
             | Some Abort => Some Abort
             | Some (Ret (copy', t)) => Some (Ret (ctx, copy', print_trace f2 EvDone (out t)))
             end).
Proof.
  pose proof (Eval_evaluate_loop_flags addr_order f1 f2 fuel copy
                (mkTracer 1 (print_trace f1 (EvStart copy) []))
                (mkTracer 1 (print_trace f2 (EvStart copy) [])) eq_refl) as H.
  destruct (Eval.evaluate_loop _ _ f1 _ _) as [[[r1 t1]|]|],
           (Eval.evaluate_loop _ _ f2 _ _) as [[[r2 t2]|]|]; try done.
  by destruct H as [-> _].
Qed.

Lemma Eval2_run_flags addr_order fuel (ctx : Context) copy f1 f2 :
  outcome (match Eval2.evaluate_loop addr_order fuel f1
                   (mkTracer 1 (print_trace f1 (EvStart copy) [])) copy with
           | None => None
           | Some Abort => Some Abort
           | Some (Ret (copy', t)) => Some (Ret (ctx, copy', print_trace f1 EvDone (out t)))
           end)
  = outcome (match Eval2.evaluate_loop addr_order fuel f2
                     (mkTracer 1 (print_trace f2 (EvStart copy) [])) copy with
             | None => None
             | Some Abort => Some Abort
             | Some (Ret (copy', t)) => Some (Ret (ctx, copy', print_trace f2 EvDone (out t)))
             end).
Proof.
  pose proof (Eval2_evaluate_loop_flags addr_order f1 f2 fuel copy
                (mkTracer 1 (print_trace f1 (EvStart copy) []))
                (mkTracer 1 (print_trace f2 (EvStart copy) [])) eq_refl) as H.
  destruct (Eval2.evaluate_loop _ _ f1 _ _) as [[[r1 t1]|]|],
           (Eval2.evaluate_loop _ _ f2 _ _) as [[[r2 t2]|]|]; try done.
  by destruct H as [-> _].
Qed.

(** X3: the flags change what is printed and nothing else. *)
Theorem X3_flags_only_print addr_order fuel_inline fuel ctx e f1 f2 :
  outcome (Eval.evaluate addr_order fuel ctx e f1)
  = outcome (Eval.evaluate addr_order fuel ctx e f2)
  /\ outcome (Eval2.evaluate addr_order fuel_inline fuel ctx e f1)
     = outcome (Eval2.evaluate addr_order fuel_inline fuel ctx e f2).
Proof.
  split.
  - unfold Eval.evaluate. destruct e as [n|fn arg|x body|n v]; try done;
      (destruct (_ ≫= _) as [copy|]; [|done]); apply Eval_run_flags.
  - unfold Eval2.evaluate. destruct e as [n|fn arg|x body|n v]; try done;
      (destruct (Util.replace_vars _ _ _) as [[copy|]|]; try done); apply Eval2_run_flags.
Qed.

(** * The lines of a run *)

Lemma numbered_app s evs1 evs2 :
  numbered s (evs1 ++ evs2)
  = numbered s evs1 && numbered (s + Z.of_nat (length evs1)) evs2.
Proof.
  revert s. induction evs1 as [|ev evs1 IH]; intros s; simpl.
  - by rewrite Z.add_0_r.
  - rewrite IH, andb_assoc. do 2 f_equal. lia.
Qed.

Lemma traced_refl print_flags t : traced print_flags t t.
Proof. exists []. simpl. split; [done|]. split; [lia|done]. Qed.

Lemma traced_trans print_flags t1 t2 t3 :
  traced print_flags t1 t2 -> traced print_flags t2 t3 -> traced print_flags t1 t3.
Proof.
  intros (evs1 & N1 & S1 & O1) (evs2 & N2 & S2 & O2). exists (evs1 ++ evs2).
  rewrite numbered_app, N1, <- S1, N2, length_app. split; [done|]. split; [lia|].
  unfold trace_all in *. by rewrite fold_left_app, <- O1.
Qed.

Lemma traced_step print_flags t ev :
  event_step ev = Some (step t) ->
  traced print_flags t (mkTracer (step t + 1) (print_trace print_flags ev (out t))).
Proof.
  intros H. exists [ev]. simpl. rewrite H, bool_decide_eq_true_2 by done. done.
Qed.

Lemma rename_conflicts_traced print_flags bound free func t func' t' :
  rename_conflicts print_flags bound free func t = Ret (func', t') ->
  traced print_flags t t'.
Proof.
  revert func t. induction free as [|v free IH]; intros func t H; simpl in H.
  - injection H as <- <-. apply traced_refl.
  - destruct (bound !! v.2) as [l|]; [|by eapply IH].
    destruct (modify func l _) as [f1|]; [|done]. simpl in H.
    eapply traced_trans; [|by eapply IH]. by apply traced_step.
Qed.

Lemma contract_traced print_flags func arg t r t' :
  contract print_flags func arg t = Ret (r, t') -> traced print_flags t t'.
Proof.
  unfold contract. intros H. destruct (find_substitutions _ _ _); [|done].
  injection H as <- <-. by apply traced_step.
Qed.

Section Traced.
Variable addr_order : Z -> list VarPtr -> list VarPtr.
Variable print_flags : Z.

Lemma Eval_beta_reduction_traced app t r t' :
  Eval.beta_reduction addr_order print_flags t app = Ret (r, t') ->
  traced print_flags t t'.
Proof.
  revert t r t'. induction app as [n|fn IHfn arg _|x body _|n v _]; intros t r t' H;
    try (injection H as <- <-; apply traced_refl).
  destruct fn as [n|fn1 arg1|x body|n v];
    try (injection H as <- <-; apply traced_refl).
  - change (Eval.beta_reduction addr_order print_flags t (Apply (Apply fn1 arg1) arg))
      with ('(red, t') ← Eval.beta_reduction addr_order print_flags t (Apply fn1 arg1);
            match red with
            | Some red => Ret (Some (Apply red arg), t')
            | None => Ret (None, t')
            end) in H.
    destruct (Eval.beta_reduction _ _ _ (Apply fn1 arg1)) as [[r1 t1]|] eqn:E; [|done].
    apply IHfn in E. simpl in H. by destruct r1; injection H as <- <-.
  - simpl in H. destruct (Eval.find_free_variables arg) as [free|]; [|done]. simpl in H.
    destruct (Eval.find_bound_variables _) as [bound|]; [|done]. simpl in H.
    destruct (rename_conflicts _ _ _ _ _) as [[func1 t1]|] eqn:E; [|done]. simpl in H.
    eapply traced_trans; [by eapply rename_conflicts_traced|by eapply contract_traced].
Qed.

Lemma Eval_eval_traced e t r t' :
  Eval.eval addr_order print_flags t e = Ret (r, t') -> traced print_flags t t'.
Proof.
  revert t r t'. induction e as [n|fn _ arg _|x body IH|n v _]; intros t r t' H;
    try (injection H as <- <-; apply traced_refl).
  - by eapply Eval_beta_reduction_traced.
  - simpl in H. destruct (Eval.eval _ _ _ body) as [[r1 t1]|] eqn:E; [|done].
    apply IH in E. simpl in H. by destruct r1; injection H as <- <-.
Qed.

Lemma Eval_evaluate_loop_traced fuel copy t r t' :
  Eval.evaluate_loop addr_order fuel print_flags t copy = Some (Ret (r, t')) ->
  traced print_flags t t'.
Proof.
  revert copy t. induction fuel as [|fuel IH]; intros copy t H; [done|].
  simpl in H. destruct (Eval.eval _ _ _ copy) as [[r1 t1]|] eqn:E; [|done].
  apply Eval_eval_traced in E. destruct r1 as [next|].
  - eapply traced_trans; [done|by eapply IH].
  - by injection H as <- <-.
Qed.

Lemma Eval2_beta_reduction_traced app t r t' :
  Eval2.beta_reduction addr_order print_flags t app = Ret (r, t') ->
  traced print_flags t t'.
Proof.
  revert t r t'. induction app as [n|fn IHfn arg IHarg|x body _|n v _]; intros t r t' H;
    try (injection H as <- <-; apply traced_refl).
  destruct fn as [n|fn1 arg1|x body|n v].
  - destruct arg as [m|fn2 arg2|y body|m v];
      try (injection H as <- <-; apply traced_refl).
    change (Eval2.beta_reduction addr_order print_flags t (Apply (Var n) (Apply fn2 arg2)))
      with ('(red, t') ← Eval2.beta_reduction addr_order print_flags t (Apply fn2 arg2);
            match red with
            | Some red => Ret (Some (Apply (Var n) red), t')
            | None => Ret (None, t')
            end) in H.
    destruct (Eval2.beta_reduction _ _ _ (Apply fn2 arg2)) as [[r1 t1]|] eqn:E; [|done].
    apply IHarg in E. simpl in H. by destruct r1; injection H as <- <-.
  - change (Eval2.beta_reduction addr_order print_flags t (Apply (Apply fn1 arg1) arg))
      with ('(red, t') ← Eval2.beta_reduction addr_order print_flags t (Apply fn1 arg1);
            match red with
            | Some red => Ret (Some (Apply red arg), t')
            | None => Ret (None, t')
            end) in H.
    destruct (Eval2.beta_reduction _ _ _ (Apply fn1 arg1)) as [[r1 t1]|] eqn:E; [|done].
    apply IHfn in E. simpl in H. by destruct r1; injection H as <- <-.
  - simpl in H. destruct (Util.find_free_variables arg) as [free|]; [|done]. simpl in H.
    destruct (Util.find_bound_variables _) as [bound|]; [|done]. simpl in H.
    destruct (rename_conflicts _ _ _ _ _) as [[func1 t1]|] eqn:E; [|done]. simpl in H.
    eapply traced_trans; [by eapply rename_conflicts_traced|by eapply contract_traced].
  - destruct arg as [m|fn2 arg2|y body|m w];
      try (injection H as <- <-; apply traced_refl).
    change (Eval2.beta_reduction addr_order print_flags t (Apply (Let n v) (Apply fn2 arg2)))
      with ('(red, t') ← Eval2.beta_reduction addr_order print_flags t (Apply fn2 arg2);
            match red with
            | Some red => Ret (Some (Apply (Let n v) red), t')
            | None => Ret (None, t')
            end) in H.
    destruct (Eval2.beta_reduction _ _ _ (Apply fn2 arg2)) as [[r1 t1]|] eqn:E; [|done].
    apply IHarg in E. simpl in H. by destruct r1; injection H as <- <-.
Qed.

Lemma Eval2_eval_traced e t r t' :
  Eval2.eval addr_order print_flags t e = Ret (r, t') -> traced print_flags t t'.
Proof.
  revert t r t'. induction e as [n|fn _ arg _|x body IH|n v _]; intros t r t' H;
    try (injection H as <- <-; apply traced_refl).
  - by eapply Eval2_beta_reduction_traced.
  - simpl in H. destruct (Eval2.eval _ _ _ body) as [[r1 t1]|] eqn:E; [|done].
    apply IH in E. simpl in H. by destruct r1; injection H as <- <-.
Qed.

Lemma Eval2_evaluate_loop_traced fuel copy t r t' :
  Eval2.evaluate_loop addr_order fuel print_flags t copy = Some (Ret (r, t')) ->
  traced print_flags t t'.
Proof.
  revert copy t. induction fuel as [|fuel IH]; intros copy t H; [done|].
  simpl in H. destruct (Eval2.eval _ _ _ copy) as [[r1 t1]|] eqn:E; [|done].
  apply Eval2_eval_traced in E. destruct r1 as [next|].
  - eapply traced_trans; [done|by eapply IH].
  - by injection H as <- <-.
Qed.

End Traced.

Lemma trace_all_silent print_flags evs o :
  Z.land print_flags FLAG_TRACE = 0 -> trace_all print_flags evs o = o.
Proof.
  intros H. unfold trace_all. induction evs as [|ev evs IH]; simpl; [done|].
  unfold print_trace at 2. by rewrite decide_True.
Qed.

Lemma evaluate_lines addr_order fuel_inline fuel ctx e print_flags ctx' r o :
  is_let e = false ->
  Eval.evaluate addr_order fuel ctx e print_flags = Some (Ret (ctx', r, o))
  \/ Eval2.evaluate addr_order fuel_inline fuel ctx e print_flags = Some (Ret (ctx', r, o)) ->
  exists copy evs,
    numbered 1 evs = true
    /\ o = trace_all print_flags (EvStart copy :: evs ++ [EvDone]) [].
Proof.
  intros Hl [H|H].
  - unfold Eval.evaluate in H. destruct e as [n|fn arg|x body|n v]; try done;
      (destruct (_ ≫= _) as [copy|]; [|done]);
      (destruct (Eval.evaluate_loop _ _ _ _ _) as [[[r1 t1]|]|] eqn:E; try done);
      injection H as <- <- <-;
      apply Eval_evaluate_loop_traced in E as (evs & N & S & O);
      exists copy, evs; (split; [done|]);
      rewrite O; unfold trace_all; simpl; by rewrite fold_left_app.
  - unfold Eval2.evaluate in H. destruct e as [n|fn arg|x body|n v]; try done;
      (destruct (Util.replace_vars _ _ _) as [[copy|]|]; try done);
      (destruct (Eval2.evaluate_loop _ _ _ _ _) as [[[r1 t1]|]|] eqn:E; try done);
      injection H as <- <- <-;
      apply Eval2_evaluate_loop_traced in E as (evs & N & S & O);
      exists copy, evs; (split; [done|]);
      rewrite O; unfold trace_all; simpl; by rewrite fold_left_app.
Qed.



(** X5: with tracing off nothing is printed. *)
Theorem X5_silent addr_order fuel_inline fuel ctx e print_flags ctx' r o :
  Z.land print_flags FLAG_TRACE = 0 ->
  Eval.evaluate addr_order fuel ctx e print_flags = Some (Ret (ctx', r, o))
  \/ Eval2.evaluate addr_order fuel_inline fuel ctx e print_flags = Some (Ret (ctx', r, o)) ->
  o = [].
Proof.
  intros Hf H. destruct (is_let e) eqn:Hl.
  - destruct e as [| | |n v]; try done.
    assert (o = print_trace print_flags
                  (EvDefined n (bool_decide (is_Some (vars ctx !! n)))) []) as ->.
    { destruct H as [H|H]; simpl in H; by injection H as <- <- <-. }
    unfold print_trace. by rewrite decide_True.
  - destruct (evaluate_lines _ _ _ _ _ _ _ _ _ Hl H) as (copy & evs & N & ->).
    by apply trace_all_silent.
Qed.

Lemma X5_silent_witness :
  (Z.land 0 FLAG_TRACE = 0
   /\ (Eval.evaluate walk_order 2 empty_ctx (Apply (Lambda "x" (Var "x")) (Var "y")) 0
       = Some (Ret (empty_ctx, Var "y", []))
       \/ Eval2.evaluate walk_order 0 2 empty_ctx (Apply (Lambda "x" (Var "x")) (Var "y")) 0
          = Some (Ret (empty_ctx, Var "y", []))))
  /\ @nil event = [].
Proof.
  assert (Eval.evaluate walk_order 2 empty_ctx (Apply (Lambda "x" (Var "x")) (Var "y")) 0
          = Some (Ret (empty_ctx, Var "y", []))
          \/ Eval2.evaluate walk_order 0 2 empty_ctx
               (Apply (Lambda "x" (Var "x")) (Var "y")) 0
             = Some (Ret (empty_ctx, Var "y", []))) as H2
    by (left; vm_compute; reflexivity).
  split; [done|].
  exact (X5_silent walk_order 0 2 empty_ctx (Apply (Lambda "x" (Var "x")) (Var "y")) 0
           _ _ _ eq_refl H2).
Defined.

(** * Pointers as paths: reading and writing *)

Lemma load_nil R : load R [] = Some R.
Proof. by destruct R. Qed.

Lemma store_nil R v : store R [] v = v.
Proof. by destruct R. Qed.

Lemma load_app R p q : load R (p ++ q) = load R p ≫= fun e => load e q.
Proof.
  revert R. induction p as [|d p IH]; intros R; simpl.
  - by rewrite load_nil.
  - destruct d, R; simpl; try done; apply IH.
Qed.

Lemma store_app R p q e v :
  load R p = Some e -> store R (p ++ q) v = store R p (store e q v).
Proof.
  revert R. induction p as [|d p IH]; intros R H.
  - rewrite load_nil in H. injection H as ->. by rewrite store_nil.
  - destruct d, R; simpl in *; try done; by rewrite (IH _ H).
Qed.

Lemma store_load_id R p e : load R p = Some e -> store R p e = R.
Proof.
  revert R. induction p as [|d p IH]; intros R H.
  - rewrite load_nil in H. injection H as ->. by rewrite store_nil.
  - destruct d, R; simpl in *; try done; by rewrite (IH _ H).
Qed.

Lemma load_store R p e v : load R p = Some e -> load (store R p v) p = Some v.
Proof.
  revert R. induction p as [|d p IH]; intros R H.
  - by rewrite store_nil, load_nil.
  - destruct d, R; simpl in *; try done; by apply IH.
Qed.

Lemma store_store R p v w : store (store R p v) p w = store R p w.
Proof.
  revert R. induction p as [|d p IH]; intros R.
  - by rewrite !store_nil.
  - destruct d, R; simpl; try done; by rewrite IH.
Qed.

(** * Substitution *)

Lemma find_substitutions_subst body x a R p :
  no_let body = true -> load R p = Some body ->
  exists sites, find_substitutions p body x = Ret sites
    /\ fold_left (fun e v => store e v a) sites R = store R p (subst x a body).
Proof.
  revert R p. induction body as [n|fn IHfn arg IHarg|y body IH|n v _]; intros R p H L;
    simpl in *; try done.
  - destruct (decide (n = x)).
    + exists [p]. by split.
    + exists []. split; [done|]. simpl. by rewrite (store_load_id _ _ _ L).
  - apply andb_true_iff in H as [H1 H2].
    assert (load R (p ++ [DFn]) = Some fn) as L1 by (rewrite load_app, L; simpl; apply load_nil).
    destruct (IHfn R _ H1 L1) as (s1 & -> & F1).
    rewrite (store_app _ _ _ _ _ L) in F1. simpl in F1. rewrite store_nil in F1.
    set (R1 := store R p (Apply (subst x a fn) arg)) in *.
    assert (load R1 p = Some (Apply (subst x a fn) arg)) as LR1
      by (by eapply load_store).
    assert (load R1 (p ++ [DArg]) = Some arg) as L2 by (rewrite load_app, LR1; simpl; apply load_nil).
    destruct (IHarg R1 _ H2 L2) as (s2 & -> & F2).
    rewrite (store_app _ _ _ _ _ LR1) in F2. simpl in F2. rewrite store_nil in F2.
    simpl. eexists. split; [done|]. rewrite fold_left_app, F1, F2.
    unfold R1. by rewrite store_store.
  - destruct (decide (y ≠ x)) as [Hy|Hy].
    + rewrite decide_False by done.
      assert (load R (p ++ [DBody]) = Some body) as L1 by (rewrite load_app, L; simpl; apply load_nil).
      destruct (IH R _ H L1) as (s1 & -> & F1).
      rewrite (store_app _ _ _ _ _ L) in F1. simpl in F1. rewrite store_nil in F1. by exists s1.
    + apply dec_stable in Hy. rewrite decide_True by done.
      eexists. split; [done|]. simpl. by rewrite (store_load_id _ _ _ L).
Qed.

Lemma contract_subst print_flags x body a t :
  no_let body = true ->
  contract print_flags (Lambda x body) a t
  = Ret (Some (subst x a body),
         mkTracer (step t + 1) (print_trace print_flags (EvBeta (step t) x a) (out t))).
Proof.
  intros H. unfold contract. simpl.
  destruct (find_substitutions_subst body x a (Lambda x body) [DBody] H (load_nil body))
    as (sites & -> & F).
  simpl. unfold substitute. rewrite clone_id, F. simpl. by rewrite store_nil.
Qed.

Lemma find_free_names e seen p fv v :
  Eval._find_variables_free seen p e = Ret fv -> v ∈ fv -> v.2 ∈ free_names (dom seen) e.
Proof.
  revert seen p fv. induction e as [n|fn IHfn arg IHarg|x body IH|n w _];
    intros seen p fv H Hv; simpl in *; try done.
  - destruct (seen !! n) eqn:E; injection H as <-; [by apply elem_of_nil in Hv|].
    apply list_elem_of_singleton in Hv as ->. simpl.
    rewrite decide_False by (by apply not_elem_of_dom). by apply elem_of_singleton.
  - destruct (Eval._find_variables_free seen _ fn) as [x1|] eqn:E1; [|done]. simpl in H.
    destruct (Eval._find_variables_free seen _ arg) as [y1|] eqn:E2; [|done]. simpl in H.
    injection H as <-. apply elem_of_app in Hv as [Hv|Hv]; apply elem_of_union; eauto.
  - specialize (IH _ _ _ H Hv). by rewrite dom_map_insert in IH.
Qed.

Lemma rename_conflicts_none print_flags bound free func t :
  (forall v, v ∈ free -> bound !! v.2 = None) ->
  rename_conflicts print_flags bound free func t = Ret (func, t).
Proof.
  induction free as [|v free IH]; intros H; simpl; [done|].
  rewrite (H v) by apply list_elem_of_here. apply IH. intros w Hw. apply H.
  by apply list_elem_of_further.
Qed.

(** X6: without a conflict of names the step is the substitution. *)
Theorem X6_beta_is_substitution addr_order print_flags t x body a :
  address_order addr_order ->
  no_let body = true -> no_let a = true ->
  free_names ∅ a ## bound_names ∅ (Lambda x body) ->
  Eval.beta_reduction addr_order print_flags t (Apply (Lambda x body) a)
  = Ret (Some (subst x a body),
         mkTracer (step t + 1) (print_trace print_flags (EvBeta (step t) x a) (out t))).
Proof.
  intros Ho Hb Ha Hd. simpl.
  destruct (Eval_find_free_total a ∅ [] Ha) as (free & E1).
  unfold Eval.find_free_variables. rewrite E1. simpl.
  destruct (Eval_find_bound_total (Lambda x body) ∅ [] Hb) as (bound & E2).
  unfold Eval.find_bound_variables. rewrite E2. simpl.
  rewrite rename_conflicts_none; [simpl; by apply contract_subst|].
  intros v Hv. rewrite (Ho (step t) free) in Hv.
  apply (find_free_names _ _ _ _ _ E1) in Hv. rewrite dom_empty_L in Hv.
  apply not_elem_of_dom. destruct (Eval_find_bound_spec _ _ _ _ E2) as [-> _].
  rewrite dom_empty_L. intros Hn. by apply (Hd v.2).
Qed.

Lemma X6_beta_is_substitution_witness :
  (address_order walk_order
   /\ no_let (Lambda "z" (Apply (Var "x") (Var "z"))) = true
   /\ no_let (Var "y") = true
   /\ free_names ∅ (Var "y")
      ## bound_names ∅ (Lambda "x" (Lambda "z" (Apply (Var "x") (Var "z")))))
  /\ Eval.beta_reduction walk_order 0 (mkTracer 1 [])
       (Apply (Lambda "x" (Lambda "z" (Apply (Var "x") (Var "z")))) (Var "y"))
     = Ret (Some (subst "x" (Var "y") (Lambda "z" (Apply (Var "x") (Var "z")))),
            mkTracer (1 + 1) (print_trace 0 (EvBeta 1 "x" (Var "y")) [])).
Proof.
  assert (free_names ∅ (Var "y")
          ## bound_names ∅ (Lambda "x" (Lambda "z" (Apply (Var "x") (Var "z"))))) as H4
    by (apply (bool_decide_unpack _); vm_compute; exact I).
  split; [repeat split; (done || apply address_order_id)|].
  exact (X6_beta_is_substitution walk_order 0 (mkTracer 1 []) "x"
           (Lambda "z" (Apply (Var "x") (Var "z"))) (Var "y")
           address_order_id eq_refl eq_refl H4).
Defined.




(** * The alpha-equivalence check decides alpha-equivalence of closed terms *)

Lemma index_of_None n Γ : index_of n Γ = None <-> n ∉ Γ.
Proof.
  induction Γ as [|x Γ IH]; simpl.
  - split; [intros _; apply not_elem_of_nil|done].
  - rewrite not_elem_of_cons. destruct (decide (x = n)) as [->|Hx].
    + split; [done|]. by intros [? _].
    + destruct (index_of n Γ); simpl; split; try done.
      * intros [_ H]. by apply IH in H.
      * intros _. split; [done|]. by apply IH.
Qed.

Lemma free_names_nameless Γ e :
  free_names (list_to_set Γ) e = ∅ <-> has_free (nameless_of Γ e) = false.
Proof.
  revert Γ. induction e as [n|fn IHfn arg IHarg|x body IH|n v IHv]; intros Γ; simpl.
  - destruct (index_of n Γ) as [k|] eqn:E.
    + rewrite decide_True; [done|]. apply elem_of_list_to_set.
      destruct (decide (n ∈ Γ)) as [|Hn]; [done|]. apply index_of_None in Hn. congruence.
    + apply index_of_None in E. rewrite decide_False by (by rewrite elem_of_list_to_set).
      simpl. split; [|done]. intros H. by apply non_empty_singleton_L in H.
  - rewrite empty_union_L, orb_false_iff, IHfn, IHarg. done.
  - apply (IH (x :: Γ)).
  - apply IHv.
Qed.

Lemma find_free_names_eq e seen p fv :
  Eval._find_variables_free seen p e = Ret fv ->
  Util.names fv = free_names (dom seen) e.
Proof.
  unfold Util.names.
  revert seen p fv. induction e as [n|fn IHfn arg IHarg|x body IH|n w _];
    intros seen p fv H; simpl in *; try done.
  - destruct (seen !! n) eqn:E; injection H as <-; simpl.
    + rewrite decide_True; [done|]. by apply elem_of_dom.
    + rewrite decide_False by (by apply not_elem_of_dom). apply union_empty_r_L.
  - destruct (Eval._find_variables_free seen _ fn) as [x1|] eqn:E1; [|done]. simpl in H.
    destruct (Eval._find_variables_free seen _ arg) as [y1|] eqn:E2; [|done]. simpl in H.
    injection H as <-. rewrite fmap_app, list_to_set_app_L.
    by rewrite (IHfn _ _ _ E1), (IHarg _ _ _ E2).
  - rewrite (IH _ _ _ H). by rewrite dom_map_insert.
Qed.

Lemma Util_find_free_1 e seen p :
  lam_depth e < Util.INT_MAX ->
  Util._find_variables_free 1 seen p e 0 = Eval._find_variables_free seen p e.
Proof.
  intros H. pose proof (lam_depth_nonneg e).
  destruct e as [n|fn arg|x body|n v]; simpl in *; try done.
  - pose proof (lam_depth_nonneg fn). pose proof (lam_depth_nonneg arg).
    rewrite !Util_find_free_Eval; [done|apply depth_ok_lam_depth; lia..].
  - pose proof (lam_depth_nonneg body).
    apply Util_find_free_Eval, depth_ok_lam_depth; lia.
Qed.

Lemma check_state_empty : check_state 0 [] Util.empty_state.
Proof. split; [done|]. simpl. by rewrite dom_empty_L. Qed.

Lemma check_state_lambda d Γ st x p :
  check_state d Γ st ->
  check_state (d + 1) (x :: Γ)
    (Util.mkCheckState (<[ x := d ]> (Util.var_depths st)) (<[ x := p ]> (Util.bindings st))).
Proof.
  intros [Hv Hb]. split; simpl.
  - intros n. destruct (decide (x = n)) as [->|Hx].
    + rewrite lookup_insert_eq. simpl. f_equal. lia.
    + rewrite lookup_insert_ne by done. rewrite Hv.
      destruct (index_of n Γ); simpl; [|done]. f_equal. lia.
  - by rewrite dom_insert_L, Hb.
Qed.

Lemma nameless_type Γa Γb a b :
  nameless_of Γa a = nameless_of Γb b -> Util.type a = Util.type b.
Proof. destruct a, b; simpl; repeat case_match; done. Qed.

Lemma alpha_equivalent_nameless a b pa pb d Γa Γb sta stb :
  check_state d Γa sta -> check_state d Γb stb ->
  no_let a = true -> no_let b = true ->
  lam_depth a < Util.INT_MAX -> lam_depth b < Util.INT_MAX ->
  Util.alpha_equivalent a b pa pb d sta stb
  = Ret (bool_decide (free_names (list_to_set Γa) a = ∅
                      /\ nameless_of Γa a = nameless_of Γb b)).
Proof.
  revert b pa pb d Γa Γb sta stb.
  induction a as [n1|fn1 IHfn arg1 IHarg|x1 body1 IH|n1 v1 _];
    intros b pa pb d Γa Γb sta stb Sa Sb Na Nb Da Db; try done;
    rewrite alpha_equivalent_unfold;
    (destruct (decide (Util.type _ ≠ Util.type b)) as [Ht|Ht];
     [rewrite bool_decide_eq_false_2; [done|];
      intros [_ E]; apply Ht; by eapply nameless_type|]);
    rewrite !Util_find_free_1 by done;
    (destruct (Eval_find_free_total _ (Util.bindings sta) pa Na) as (fa & Ea));
    (destruct (Eval_find_free_total b (Util.bindings stb) pb Nb) as (fb & Eb));
    rewrite Ea, Eb; cbn [mbind result_bind];
    rewrite (find_free_names_eq _ _ _ _ Ea), (find_free_names_eq _ _ _ _ Eb),
      (proj2 Sa), (proj2 Sb);
    (destruct (decide (free_names (list_to_set Γa) _ ≠ free_names (list_to_set Γb) b))
       as [Hn|Hn];
     [rewrite bool_decide_eq_false_2; [done|];
      intros [Hc E]; apply Hn; rewrite Hc; symmetry;
      apply free_names_nameless; rewrite <- E; by apply free_names_nameless|]);
    apply dec_stable in Hn;
    destruct b as [n2|fn2 arg2|x2 body2|n2 v2]; try done; try (by destruct Ht).
  - rewrite (proj1 Sa), (proj1 Sb). simpl in *.
    destruct (index_of n1 Γa) as [ka|] eqn:Ia, (index_of n2 Γb) as [kb|] eqn:Ib; simpl.
    + f_equal. apply bool_decide_ext. rewrite decide_True.
      * split; [intros H; split; [done|f_equal; lia]|intros [_ [= ->]]; done].
      * apply elem_of_list_to_set. destruct (decide (n1 ∈ Γa)) as [|Hx]; [done|].
        apply index_of_None in Hx. congruence.
    + rewrite bool_decide_eq_false_2; [done|]. by intros [_ ?].
    + apply index_of_None in Ia.
      rewrite bool_decide_eq_false_2; [done|]. intros [H _].
      rewrite decide_False in H by (by rewrite elem_of_list_to_set).
      by apply non_empty_singleton_L in H.
    + apply index_of_None in Ia.
      rewrite bool_decide_eq_false_2; [done|]. intros [H _].
      rewrite decide_False in H by (by rewrite elem_of_list_to_set).
      by apply non_empty_singleton_L in H.
  - simpl in Na, Nb, Da, Db.
    apply andb_true_iff in Na as [Na1 Na2]. apply andb_true_iff in Nb as [Nb1 Nb2].
    rewrite (IHfn fn2 _ _ d Γa Γb) by (done || lia).
    rewrite (IHarg arg2 _ _ d Γa Γb) by (done || lia).
    simpl. case_bool_decide as H1.
    + f_equal. apply bool_decide_ext. rewrite empty_union_L.
      split; [intros [? ?]; split; [by destruct H1|f_equal; [by destruct H1|done]]|].
      intros [[? ?] [= ? ?]]. done.
    + rewrite bool_decide_eq_false_2; [done|]. rewrite empty_union_L.
      intros [[? ?] [= ? ?]]. by apply H1.
  - simpl in Na, Nb, Da, Db.
    rewrite (IH body2 _ _ (d + 1) (x1 :: Γa) (x2 :: Γb));
      [|by apply check_state_lambda..|done|done|lia|lia].
    f_equal. apply bool_decide_ext. simpl.
    split; [intros [? ->]; by split|intros [? [= ?]]; by split].
Qed.

(** X8: on terms without [Let], the check answers [true] exactly for two
    closed terms with the same nameless form. *)
Theorem X8_alpha_equivalent_spec a b :
  no_let a = true -> no_let b = true ->
  lam_depth a < Util.INT_MAX -> lam_depth b < Util.INT_MAX ->
  Util.alpha_equivalent a b [] [] 0 Util.empty_state Util.empty_state
  = Ret (bool_decide (free_names ∅ a = ∅ /\ nameless_of [] a = nameless_of [] b)).
Proof.
  intros Na Nb Da Db.
  by rewrite (alpha_equivalent_nameless a b [] [] 0 [] [] _ _
                check_state_empty check_state_empty Na Nb Da Db).
Qed.

Lemma X8_alpha_equivalent_spec_witness :
  (no_let (Lambda "x" (Var "x")) = true /\ no_let (Lambda "y" (Var "y")) = true
   /\ lam_depth (Lambda "x" (Var "x")) < Util.INT_MAX
   /\ lam_depth (Lambda "y" (Var "y")) < Util.INT_MAX)
  /\ Util.alpha_equivalent (Lambda "x" (Var "x")) (Lambda "y" (Var "y")) [] [] 0
       Util.empty_state Util.empty_state
     = Ret (bool_decide (free_names ∅ (Lambda "x" (Var "x")) = ∅
                         /\ nameless_of [] (Lambda "x" (Var "x"))
                            = nameless_of [] (Lambda "y" (Var "y")))).
Proof.
  split; [done|].
  exact (X8_alpha_equivalent_spec (Lambda "x" (Var "x")) (Lambda "y" (Var "y"))
           eq_refl eq_refl eq_refl eq_refl).
Defined.

(** * Renaming to a name that is new *)

Section Rename.
Variables name fresh : string.

Lemma index_of_ren n Γ :
  fresh ∉ Γ -> n ≠ fresh -> index_of (ren name fresh n) (ren name fresh <$> Γ) = index_of n Γ.
Proof.
  intros HΓ Hn. induction Γ as [|x Γ IH]; cbn -[ren]; [done|].
  apply not_elem_of_cons in HΓ as [Hx HΓ]. rewrite (IH HΓ).
  destruct (decide (x = n)) as [->|Hxn]; [by rewrite decide_True|].
  rewrite decide_False; [done|]. unfold ren.
  destruct (decide (x = name)), (decide (n = name)); congruence.
Qed.

Lemma alpha_conversion_nameless e Γ :
  no_let e = true -> fresh ∉ all_names e -> fresh ∉ Γ -> name ∈ Γ ->
  exists e', alpha_conversion e name fresh = Ret e'
             /\ nameless_of (ren name fresh <$> Γ) e' = nameless_of Γ e
             /\ lam_depth e' = lam_depth e /\ no_let e' = true.
Proof.
  revert Γ. induction e as [n|fn IHfn arg IHarg|y body IH|n v _];
    intros Γ Hl Hf HΓ Hn; simpl in *; try done.
  - apply not_elem_of_singleton in Hf.
    exists (Var (ren name fresh n)). split; [unfold ren; by destruct (decide (n = name))|].
    split; [|done]. cbn [nameless_of].
    rewrite index_of_ren by done.
    destruct (index_of n Γ) eqn:E; [done|]. f_equal. unfold ren.
    rewrite decide_False; [done|]. intros ->. by apply index_of_None in E.
  - apply andb_true_iff in Hl as [H1 H2]. apply not_elem_of_union in Hf as [F1 F2].
    destruct (IHfn Γ H1 F1 HΓ Hn) as (fn' & -> & E1 & D1 & N1).
    destruct (IHarg Γ H2 F2 HΓ Hn) as (arg' & -> & E2 & D2 & N2).
    simpl. eexists. split; [done|]. simpl. by rewrite E1, E2, D1, D2, N1, N2.
  - apply not_elem_of_union in Hf as [F1 F2]. apply not_elem_of_singleton in F1.
    rewrite decide_False by done.
    destruct (IH (y :: Γ) Hl F2) as (b' & -> & E1 & D1 & N1).
    { apply not_elem_of_cons. by split. }
    { by apply list_elem_of_further. }
    simpl. eexists. split; [done|]. simpl. split; [|by rewrite D1].
    f_equal. exact E1.
Qed.

End Rename.

Lemma alpha_conversion_fresh x body fresh :
  no_let body = true -> fresh ∉ all_names (Lambda x body) ->
  exists r, alpha_conversion (Lambda x body) x fresh = Ret r
            /\ nameless_of [] r = nameless_of [] (Lambda x body)
            /\ lam_depth r = lam_depth (Lambda x body) /\ no_let r = true.
Proof.
  intros Hl Hf. simpl in *.
  apply not_elem_of_union in Hf as [F1 F2]. apply not_elem_of_singleton in F1.
  rewrite decide_False by done. rewrite decide_True by done.
  destruct (alpha_conversion_nameless x fresh body [x] Hl F2) as (b' & -> & E & D & N).
  { apply not_elem_of_cons. split; [done|apply not_elem_of_nil]. }
  { apply list_elem_of_here. }
  simpl. eexists. split; [done|]. simpl. split; [|by rewrite D].
  f_equal. rewrite <- E. simpl. unfold ren. by rewrite decide_True.
Qed.

(** X9: renaming the parameter of a lambda to a name that the lambda does
    not mention gives an alpha-equivalent lambda. *)
Theorem X9_alpha_conversion_fresh x body fresh :
  no_let body = true -> fresh ∉ all_names (Lambda x body) ->
  exists r, alpha_conversion (Lambda x body) x fresh = Ret r
            /\ nameless_of [] r = nameless_of [] (Lambda x body).
Proof.
  intros Hl Hf. destruct (alpha_conversion_fresh x body fresh Hl Hf) as (r & ? & ? & _).
  by exists r.
Qed.

Lemma X9_alpha_conversion_fresh_witness :
  (no_let (Apply (Var "x") (Var "z")) = true
   /\ ("y" ∉ all_names (Lambda "x" (Apply (Var "x") (Var "z")))))
  /\ exists r, alpha_conversion (Lambda "x" (Apply (Var "x") (Var "z"))) "x" "y" = Ret r
               /\ nameless_of [] r = nameless_of [] (Lambda "x" (Apply (Var "x") (Var "z"))).
Proof.
  assert ("y" ∉ all_names (Lambda "x" (Apply (Var "x") (Var "z")))) as H2
    by (apply (bool_decide_unpack _); vm_compute; exact I).
  split; [done|].
  exact (X9_alpha_conversion_fresh "x" (Apply (Var "x") (Var "z")) "y" eq_refl H2).
Defined.

(** X10: and the check of [util.cpp] accepts it, when the lambda is closed. *)
Theorem X10_alpha_conversion_accepted x body fresh :
  no_let body = true -> fresh ∉ all_names (Lambda x body) ->
  free_names ∅ (Lambda x body) = ∅ -> lam_depth (Lambda x body) < Util.INT_MAX ->
  exists r, alpha_conversion (Lambda x body) x fresh = Ret r
            /\ Util.alpha_equivalent (Lambda x body) r [] [] 0
                 Util.empty_state Util.empty_state = Ret true.
Proof.
  intros Hl Hf Hc Hd.
  destruct (alpha_conversion_fresh x body fresh Hl Hf) as (r & E & En & Ed & Nr).
  exists r. split; [done|].
  rewrite (alpha_equivalent_nameless (Lambda x body) r [] [] 0 [] [] _ _
             check_state_empty check_state_empty Hl Nr Hd) by (by rewrite Ed).
  by rewrite bool_decide_eq_true_2.
Qed.

Lemma X10_alpha_conversion_accepted_witness :
  (no_let (Lambda "z" (Apply (Var "x") (Var "z"))) = true
   /\ ("y" ∉ all_names (Lambda "x" (Lambda "z" (Apply (Var "x") (Var "z")))))
   /\ free_names ∅ (Lambda "x" (Lambda "z" (Apply (Var "x") (Var "z")))) = ∅
   /\ lam_depth (Lambda "x" (Lambda "z" (Apply (Var "x") (Var "z")))) < Util.INT_MAX)
  /\ exists r,
       alpha_conversion (Lambda "x" (Lambda "z" (Apply (Var "x") (Var "z")))) "x" "y" = Ret r
       /\ Util.alpha_equivalent (Lambda "x" (Lambda "z" (Apply (Var "x") (Var "z")))) r
            [] [] 0 Util.empty_state Util.empty_state = Ret true.
Proof.
  assert ("y" ∉ all_names (Lambda "x" (Lambda "z" (Apply (Var "x") (Var "z"))))) as H2
    by (apply (bool_decide_unpack _); vm_compute; exact I).
  assert (free_names ∅ (Lambda "x" (Lambda "z" (Apply (Var "x") (Var "z")))) = ∅) as H3
    by (apply (bool_decide_unpack _); vm_compute; exact I).
  split; [done|].
  exact (X10_alpha_conversion_accepted "x" (Lambda "z" (Apply (Var "x") (Var "z"))) "y"
           eq_refl H2 H3 eq_refl).
Defined.

(** * The check is symmetric and transitive *)

(** X11: the check gives the same answer with the two sides swapped, on all
    terms and in all scopes. *)
Theorem X11_alpha_equivalent_sym a b pa pb d sta stb :
  Util.alpha_equivalent a b pa pb d sta stb = Util.alpha_equivalent b a pb pa d stb sta.
Proof. apply alpha_equivalent_symmetric. Qed.

(** X12: two [true] answers of the check chain to a [true] answer. *)
Theorem X12_alpha_equivalent_trans a b c pa pb pc d sta stb stc :
  Util.alpha_equivalent a b pa pb d sta stb = Ret true ->
  Util.alpha_equivalent b c pb pc d stb stc = Ret true ->
  Util.alpha_equivalent a c pa pc d sta stc = Ret true.
Proof. apply alpha_equivalent_transitive. Qed.

Lemma X12_alpha_equivalent_trans_witness :
  (Util.alpha_equivalent (Lambda "x" (Var "x")) (Lambda "y" (Var "y")) [] [] 0
     Util.empty_state Util.empty_state = Ret true
   /\ Util.alpha_equivalent (Lambda "y" (Var "y")) (Lambda "z" (Var "z")) [] [] 0
        Util.empty_state Util.empty_state = Ret true)
  /\ Util.alpha_equivalent (Lambda "x" (Var "x")) (Lambda "z" (Var "z")) [] [] 0
       Util.empty_state Util.empty_state = Ret true.
Proof.
  assert (Util.alpha_equivalent (Lambda "x" (Var "x")) (Lambda "y" (Var "y")) [] [] 0
            Util.empty_state Util.empty_state = Ret true) as H1
    by (vm_compute; reflexivity).
  assert (Util.alpha_equivalent (Lambda "y" (Var "y")) (Lambda "z" (Var "z")) [] [] 0
            Util.empty_state Util.empty_state = Ret true) as H2
    by (vm_compute; reflexivity).
  split; [done|].
  exact (X12_alpha_equivalent_trans _ _ _ _ _ _ _ _ _ _ H1 H2).
Defined.

(** * A definition that mentions itself *)

Section SelfReference.
Variable ctx : Context.
Variables (n : string) (v : Expr).
Hypothesis values_no_let : map_Forall (fun _ v => no_let v = true) (vars ctx).
Hypothesis defined : vars ctx !! n = Some v.
Hypothesis self : exposed n v = true.

Lemma replace_vars_once_exposed e M p depth fv L :
  no_let e = true -> exposed n e = true ->
  Util._find_variables_free M ∅ p e depth = Ret fv -> fv ⊆ L ->
  exists next, Util.replace_vars_once ctx L p e = Ret (next, true)
               /\ exposed n next = true /\ no_let next = true.
Proof.
  revert M p depth fv. induction e as [m|fn IHfn arg IHarg|x body _|m w _];
    intros M p depth fv Hl He Hf HL; simpl in *; try done.
  - apply bool_decide_eq_true in He as ->. rewrite lookup_empty in Hf.
    injection Hf as <-. rewrite decide_True by (apply HL, list_elem_of_here).
    rewrite defined. exists (clone v). rewrite clone_id. split; [done|]. split; [done|].
    by apply (values_no_let _ _ defined).
  - apply andb_true_iff in Hl as [H1 H2].
    destruct (Util._find_variables_free _ _ _ fn _) as [x1|] eqn:E1; [|done]. simpl in Hf.
    destruct (Util._find_variables_free _ _ _ arg _) as [y1|] eqn:E2; [|done]. simpl in Hf.
    injection Hf as <-.
    assert (x1 ⊆ L) as HL1 by (intros z Hz; apply HL, elem_of_app; by left).
    assert (y1 ⊆ L) as HL2 by (intros z Hz; apply HL, elem_of_app; by right).
    destruct (replace_vars_once_no_let ctx L (p ++ [DFn]) fn values_no_let H1)
      as (f' & bf & Ef & Nf).
    destruct (replace_vars_once_no_let ctx L (p ++ [DArg]) arg values_no_let H2)
      as (a' & ba & Ea & Na).
    destruct (exposed n fn) eqn:Xf.
    + destruct (IHfn _ _ _ _ H1 eq_refl E1 HL1) as (next & En & Xn & Nn).
      rewrite En, Ea. simpl. eexists. split; [done|]. simpl. by rewrite Xn, Nn, Na.
    + simpl in He. destruct (IHarg _ _ _ _ H2 He E2 HL2) as (next & En & Xn & Nn).
      rewrite Ef, En. simpl. eexists. rewrite orb_true_r. split; [done|]. simpl.
      by rewrite Xn, Nf, Nn, orb_true_r.
Qed.

Lemma Util_replace_vars_self fuel e :
  no_let e = true -> exposed n e = true -> Util.replace_vars fuel ctx e = None.
Proof.
  revert e. induction fuel as [|fuel IH]; intros e Hl He; [done|].
  simpl. unfold Util.find_free_variables.
  destruct (Util_find_free_total e Util.INT_MAX ∅ [] 0 Hl) as (fv & E). rewrite E. simpl.
  destruct (replace_vars_once_exposed e _ _ _ _ fv Hl He E) as (next & -> & Xn & Nn);
    [done|]. by apply IH.
Qed.

End SelfReference.

(** X13: a definition that mentions its own name outside every lambda keeps
    the fixed-point inliner going for ever. *)
Theorem X13_self_reference_loops addr_order ctx n v e fuel_inline fuel print_flags :
  map_Forall (fun _ v => no_let v = true) (vars ctx) ->
  vars ctx !! n = Some v -> exposed n v = true ->
  no_let e = true -> exposed n e = true ->
  Util.replace_vars fuel_inline ctx e = None
  /\ Eval2.evaluate addr_order fuel_inline fuel ctx e print_flags = None.
Proof.
  intros Hc Hn Hv Hl He.
  pose proof (Util_replace_vars_self ctx n v Hc Hn Hv fuel_inline e Hl He) as H.
  split; [done|]. unfold Eval2.evaluate. rewrite H. by destruct e.
Qed.

Lemma X13_self_reference_loops_witness :
  (map_Forall (fun _ v => no_let v = true) (vars (mkContext 0 {[ "x" := Var "x" ]}))
   /\ vars (mkContext 0 {[ "x" := Var "x" ]}) !! "x" = Some (Var "x")
   /\ exposed "x" (Var "x") = true
   /\ no_let (Apply (Var "f") (Var "x")) = true
   /\ exposed "x" (Apply (Var "f") (Var "x")) = true)
  /\ Util.replace_vars 1000 (mkContext 0 {[ "x" := Var "x" ]}) (Apply (Var "f") (Var "x"))
     = None
  /\ Eval2.evaluate walk_order 1000 5 (mkContext 0 {[ "x" := Var "x" ]})
       (Apply (Var "f") (Var "x")) 0
     = None.
Proof.
  assert (map_Forall (fun _ v => no_let v = true)
            (vars (mkContext 0 {[ "x" := Var "x" ]}))) as H1
    by (apply (bool_decide_unpack _); vm_compute; exact I).
  assert (vars (mkContext 0 {[ "x" := Var "x" ]}) !! "x" = Some (Var "x")) as H2
    by (vm_compute; reflexivity).
  split; [done|].
  exact (X13_self_reference_loops walk_order (mkContext 0 {[ "x" := Var "x" ]}) "x" (Var "x")
           (Apply (Var "f") (Var "x")) 1000 5 0 H1 H2 eq_refl eq_refl eq_refl).
Defined.

(** * The parser *)

Section ParserFacts.
Import Parser.


(** * The parser: one call unfolded *)

Lemma parseExpr_S fuel st :
  parseExpr (S fuel) st
  = '(left_, st) ← parseUnary fuel st;
    match left_ with
    | Err _ => Some (left_, st)
    | Ok _ => parseApply fuel st left_
    end.
Proof. done. Qed.

Lemma parseUnary_S fuel st :
  parseUnary (S fuel) st
  = if decide (type (peek st) = LParen) then parseParenthesised fuel st
    else if decide (type (peek st) = Identifier) then
      let '(t, st) := pop st in Some (Ok (Var (text t)), st)
    else if decide (type (peek st) = TLambda) then parseLambda fuel st
    else
      Some (make_error (mkLocation 0 0)
              (if empty st then "unexpected end of input"
               else "unexpected token '" +:+ text (peek st) +:+ "'"), st).
Proof. done. Qed.

Lemma parseParenthesised_S fuel st :
  parseParenthesised (S fuel) st
  = let '(x, st) := pop st in
    if decide (type x ≠ LParen) then Some (make_error (loc x) "expected '('", st)
    else
      let open := loc x in
      '(expr, st) ← parseExpr fuel st;
      match expr with
      | Err _ => Some (expr, st)
      | Ok _ =>
          let '(y, st) := pop st in
          if decide (type y ≠ RParen) then
            Some (make_error open "expected ')' to match this '('", st)
          else Some (expr, st)
      end.
Proof. done. Qed.

Lemma parseLambda_S fuel st :
  parseLambda (S fuel) st
  = let st := if decide (type (peek st) = TLambda) then (pop st).2 else st in
    let x := peek st in
    if decide (type x ≠ Identifier) then
      Some (make_error (loc x) ("expected identifier, found '" +:+ text x +:+ "'"), st)
    else
      let '(arg, st) := pop st in
      if decide (type (peek st) = RightArrow \/ type (peek st) = Period) then
        let st := (pop st).2 in
        '(body, st) ← parseExpr fuel st;
        match body with
        | Err _ => Some (body, st)
        | Ok body => Some (Ok (Lambda (text arg) body), st)
        end
      else if decide (type (peek st) = Identifier) then
        '(sub, st) ← parseLambda fuel st;
        match sub with
        | Err _ => Some (sub, st)
        | Ok sub => Some (Ok (Lambda (text arg) sub), st)
        end
      else
        let x := peek st in
        Some (make_error (loc x)
                ("expected '.' or '->' or identifier; found '" +:+ text x +:+ "'"), st).
Proof. done. Qed.

Lemma parseApply_S fuel st lhs :
  parseApply (S fuel) st lhs
  = match lhs with
    | Err _ => Some (lhs, st)
    | Ok l => if empty st then Some (lhs, st) else parseApply_loop fuel st l
    end.
Proof. done. Qed.

Lemma parseApply_loop_S fuel st lhs :
  parseApply_loop (S fuel) st lhs
  = if decide (type (peek st) = RParen \/ type (peek st) = EndOfFile) then
      Some (Ok lhs, st)
    else
      '(rhs, st) ← parseUnary fuel st;
      match rhs with
      | Err _ => Some (rhs, st)
      | Ok r => parseApply_loop fuel st (Apply lhs r)
      end.
Proof. done. Qed.

#[local] Opaque Parser.parseExpr Parser.parseUnary Parser.parseParenthesised
  Parser.parseLambda Parser.parseApply Parser.parseApply_loop.

(** * More fuel changes nothing *)

Lemma parser_mono_step fuel : mono_at fuel.
Proof.
  induction fuel as [|fuel (IE & IU & IP & IL & IA & IO)].
  - repeat split; intros; done.
  - repeat split.
    + intros st r. rewrite !parseExpr_S. intros H.
      destruct (parseUnary fuel st) as [[l st1]|] eqn:E; [|done].
      rewrite (IU _ _ E). simpl in *. destruct l; [by apply IA|done].
    + intros st r. rewrite !parseUnary_S. intros H.
      repeat case_decide; auto.
    + intros st r. rewrite !parseParenthesised_S. intros H.
      destruct (pop st) as [x st1]. case_decide; [done|].
      destruct (parseExpr fuel st1) as [[e st2]|] eqn:E; [|done].
      by rewrite (IE _ _ E).
    + intros st r. rewrite !parseLambda_S. cbv zeta.
      generalize (if decide (type (peek st) = TLambda) then (pop st).2 else st).
      intros st0 H. case_decide; [done|]. destruct (pop st0) as [arg st1].
      case_decide.
      * destruct (parseExpr fuel _) as [[e st2]|] eqn:E; [|done]. by rewrite (IE _ _ E).
      * case_decide; [|done].
        destruct (parseLambda fuel _) as [[e st2]|] eqn:E; [|done]. by rewrite (IL _ _ E).
    + intros st l r. rewrite !parseApply_S. intros H.
      destruct l; [|done]. destruct (empty st); [done|]. by apply IO.
    + intros st l r. rewrite !parseApply_loop_S. intros H.
      case_decide; [done|].
      destruct (parseUnary fuel st) as [[e st2]|] eqn:E; [|done].
      rewrite (IU _ _ E). simpl in *. destruct e; [by apply IO|done].
Qed.

Lemma parseExpr_mono fuel fuel' st r :
  parseExpr fuel st = Some r -> (fuel <= fuel')%nat -> parseExpr fuel' st = Some r.
Proof.
  intros H Hle. induction Hle as [|m _ IH]; [done|]. by apply parser_mono_step.
Qed.

Lemma parseUnary_mono fuel fuel' st r :
  parseUnary fuel st = Some r -> (fuel <= fuel')%nat -> parseUnary fuel' st = Some r.
Proof.
  intros H Hle. induction Hle as [|m _ IH]; [done|]. by apply parser_mono_step.
Qed.

Lemma parseLambda_mono fuel fuel' st r :
  parseLambda fuel st = Some r -> (fuel <= fuel')%nat -> parseLambda fuel' st = Some r.
Proof.
  intros H Hle. induction Hle as [|m _ IH]; [done|]. by apply parser_mono_step.
Qed.

Lemma parseApply_loop_mono fuel fuel' st l r :
  parseApply_loop fuel st l = Some r -> (fuel <= fuel')%nat ->
  parseApply_loop fuel' st l = Some r.
Proof.
  intros H Hle. induction Hle as [|m _ IH]; [done|]. by apply parser_mono_step.
Qed.

(** * What a parse returns *)

Lemma suffix_pop st : (pop st).2 `suffix_of` st.
Proof. destruct st; simpl; [done|]. by apply suffix_cons_r. Qed.

Lemma suffix_length (st st' : list Token) :
  st' `suffix_of` st -> (List.length st' <= List.length st)%nat.
Proof. apply suffix_length. Qed.

Lemma pop_length st :
  type (peek st) ≠ EndOfFile -> List.length st = S (List.length (pop st).2).
Proof. by destruct st. Qed.

Lemma consumed_error st st' err : st' `suffix_of` st -> consumed st st' (Err err).
Proof. by split. Qed.

Lemma parser_sound fuel : sound_at fuel.
Proof.
  induction fuel as [|fuel (IE & IU & IP & IL & IA & IO)].
  - repeat split; intros; done.
  - unfold sound_at. split; [|split; [|split; [|split; [|split]]]].
    + intros st r st'. rewrite parseExpr_S. intros H.
      destruct (parseUnary fuel st) as [[l st1]|] eqn:E; [|done]. simpl in H.
      destruct (IU _ _ _ E) as [S1 O1].
      destruct l as [l|err].
      * destruct (O1 l eq_refl) as [N1 L1].
        destruct (IA _ _ _ _ H N1) as [S2 O2].
        split; [split|].
        -- by etrans.
        -- intros e ->. destruct (O2 e eq_refl) as [? ?]. split; [done|].
           apply suffix_length in S2. lia.
        -- intros e ->. by destruct (O2 e eq_refl).
      * injection H as <- <-. split; [by apply consumed_error|done].
    + intros st r st'. rewrite parseUnary_S. intros H.
      case_decide as H1; [by apply IP|].
      case_decide as H2.
      { destruct st as [|t st]; [done|]. simpl in H. injection H as <- <-.
        split; [by apply suffix_cons_r|]. intros e [= <-]. simpl. split; [done|lia]. }
      case_decide as H3; [by apply IL|]. injection H as <- <-. by apply consumed_error.
    + intros st r st'. rewrite parseParenthesised_S. intros H.
      destruct st as [|x st]; [simpl in H; injection H as <- <-; by apply consumed_error|].
      simpl in H. case_decide as H1.
      { injection H as <- <-. apply consumed_error. by apply suffix_cons_r. }
      destruct (parseExpr fuel st) as [[e st1]|] eqn:E; [|done]. simpl in H.
      destruct (IE _ _ _ E) as [[S1 O1] _].
      destruct e as [e|err].
      * destruct (O1 e eq_refl) as [N1 L1].
        destruct (pop st1) as [y st2] eqn:Ep.
        assert (st2 `suffix_of` st1) as S2.
        { replace st2 with (pop st1).2 by (by rewrite Ep). apply suffix_pop. }
        case_decide; injection H as <- <-.
        -- apply consumed_error. apply suffix_cons_r. by etrans.
        -- split; [apply suffix_cons_r; by etrans|]. intros ? [= <-].
           split; [done|]. apply suffix_length in S2. simpl. lia.
      * injection H as <- <-. apply consumed_error. by apply suffix_cons_r.
    + intros st r st'. rewrite parseLambda_S. cbv zeta.
      assert ((if decide (type (peek st) = TLambda) then (pop st).2 else st)
                `suffix_of` st) as S0.
      { case_decide; [apply suffix_pop|done]. }
      revert S0. generalize (if decide (type (peek st) = TLambda) then (pop st).2 else st).
      intros st0 S0 H. case_decide as H1.
      { injection H as <- <-. by apply consumed_error. }
      destruct st0 as [|arg st1]; [done|]. simpl in H.
      assert (st1 `suffix_of` st) as S1.
      { etrans; [|exact S0]. by apply suffix_cons_r. }
      assert (List.length st1 < List.length st)%nat as L1.
      { apply suffix_length in S0. simpl in S0. lia. }
      case_decide as H2.
      * destruct (parseExpr fuel _) as [[e st2]|] eqn:E; [|done]. simpl in H.
        destruct (IE _ _ _ E) as [[S2 O2] _].
        pose proof (suffix_pop st1) as S3.
        assert (st2 `suffix_of` st) as S4 by (etrans; [|exact S1]; by etrans).
        destruct e as [e|err]; injection H as <- <-; [|by apply consumed_error].
        split; [done|]. intros ? [= <-]. destruct (O2 e eq_refl) as [N2 L2].
        split; [done|]. apply suffix_length in S2, S3. lia.
      * case_decide as H3.
        -- destruct (parseLambda fuel _) as [[e st2]|] eqn:E; [|done]. simpl in H.
           destruct (IL _ _ _ E) as [S2 O2].
           assert (st2 `suffix_of` st) as S4 by (by etrans).
           destruct e as [e|err]; injection H as <- <-; [|by apply consumed_error].
           split; [done|]. intros ? [= <-]. destruct (O2 e eq_refl) as [N2 L2].
           split; [done|]. lia.
        -- injection H as <- <-. by apply consumed_error.
    + intros st l r st'. rewrite parseApply_S. intros H Nl.
      destruct (empty st) eqn:Ee.
      * injection H as <- <-. split; [done|]. intros e [= <-]. split; [done|].
        destruct st; [by right|done].
      * by eapply IO.
    + intros st l r st'. rewrite parseApply_loop_S. intros H Nl.
      case_decide as H1.
      { injection H as <- <-. split; [done|]. by intros e [= <-]. }
      destruct (parseUnary fuel st) as [[e st1]|] eqn:E; [|done]. simpl in H.
      destruct (IU _ _ _ E) as [S1 O1].
      destruct e as [e|err].
      * destruct (O1 e eq_refl) as [N1 L1].
        destruct (IO _ _ _ _ H) as [S2 O2]; [simpl; by rewrite Nl, N1|].
        split; [by etrans|done].
      * injection H as <- <-. by split.
Qed.

(** * The parser returns *)

Lemma parser_returns fuel : returns_at fuel.
Proof.
  induction fuel as [|fuel (IE & IU & IP & IL & IA & IO)].
  - repeat split; intros; lia.
  - unfold returns_at. split; [|split; [|split; [|split; [|split]]]].
    + intros st Hf. rewrite parseExpr_S.
      destruct (IU st) as [[l st1] E]; [lia|]. rewrite E. simpl.
      destruct l as [l|err]; [|done].
      destruct (parser_sound fuel) as (_ & SU & _).
      destruct (SU _ _ _ E) as [_ O1]. destruct (O1 l eq_refl) as [_ L1].
      apply IA. lia.
    + intros st Hf. rewrite parseUnary_S.
      case_decide; [apply IP; lia|]. case_decide; [by destruct (pop st)|].
      case_decide; [apply IL; lia|done].
    + intros st Hf. rewrite parseParenthesised_S.
      destruct st as [|x st]; [done|]. simpl. case_decide; [done|].
      destruct (IE st) as [[e st1] E]; [simpl in Hf; lia|]. rewrite E. simpl.
      destruct e; [|done]. destruct (pop st1). by case_decide.
    + intros st Hf. rewrite parseLambda_S. cbv zeta.
      assert (List.length (if decide (type (peek st) = TLambda) then (pop st).2 else st)
              <= List.length st)%nat as S0.
      { case_decide; [apply suffix_length, suffix_pop|done]. }
      revert S0. generalize (if decide (type (peek st) = TLambda) then (pop st).2 else st).
      intros st0 S0. case_decide as H1; [done|].
      destruct st0 as [|arg st1]; [done|]. simpl in *.
      case_decide as H2.
      * pose proof (suffix_length _ _ (suffix_pop st1)) as S3.
        destruct (IE (pop st1).2) as [[e st2] E]; [lia|]. rewrite E. simpl. by destruct e.
      * case_decide as H3; [|done].
        destruct (IL st1) as [[e st2] E]; [lia|]. rewrite E. simpl. by destruct e.
    + intros st l Hf. rewrite parseApply_S. destruct l; [|done].
      destruct (empty st); [done|]. apply IO. lia.
    + intros st l Hf. rewrite parseApply_loop_S. case_decide; [done|].
      destruct (IU st) as [[e st1] E]; [lia|]. rewrite E. simpl.
      destruct e as [e|err]; [|done].
      destruct (parser_sound fuel) as (_ & SU & _).
      destruct (SU _ _ _ E) as [_ O1]. destruct (O1 e eq_refl) as [_ L1].
      apply IO. lia.
Qed.

Lemma parseStmt_returns fuel st :
  (3 * List.length st + 3 <= fuel)%nat -> is_Some (parseStmt fuel st).
Proof.
  intros Hf. unfold parseStmt. destruct (parser_returns fuel) as (IE & _).
  case_decide; [|by apply IE]. unfold parseLet.
  pose proof (suffix_length _ _ (suffix_pop st)) as S1.
  destruct (pop (pop st).2) as [name st1] eqn:E1.
  assert (List.length st1 <= List.length (pop st).2)%nat as S2.
  { replace st1 with (pop (pop st).2).2 by (by rewrite E1).
    apply suffix_length, suffix_pop. }
  case_decide; [done|]. destruct (pop st1) as [x st2] eqn:E2.
  assert (List.length st2 <= List.length st1)%nat as S3.
  { replace st2 with (pop st1).2 by (by rewrite E2). apply suffix_length, suffix_pop. }
  case_decide; [done|].
  destruct (IE st2) as [[e st3] E]; [lia|]. rewrite E. simpl. by destruct e.
Qed.

Lemma parseStmt_mono fuel fuel' st r :
  parseStmt fuel st = Some r -> (fuel <= fuel')%nat -> parseStmt fuel' st = Some r.
Proof.
  unfold parseStmt, parseLet. intros H Hle. case_decide; [|by eapply parseExpr_mono].
  destruct (pop (pop st).2) as [name st1]. case_decide; [done|].
  destruct (pop st1) as [x st2]. case_decide; [done|].
  destruct (parseExpr fuel st2) as [[e st3]|] eqn:E; [|done].
  by rewrite (parseExpr_mono _ _ _ _ E Hle).
Qed.

(** X14: the parser returns on every list of tokens, and more fuel does not
    change what it returns. *)
Theorem X14_parser_returns tokens fuel :
  (3 * List.length tokens + 3 <= fuel)%nat ->
  exists r, parse_tokens fuel tokens = Some r
            /\ parse_tokens (3 * List.length tokens + 3) tokens = Some r.
Proof.
  intros Hf. unfold parse_tokens.
  destruct (parseStmt_returns (3 * List.length tokens + 3) tokens) as [[r st] E]; [lia|].
  rewrite E, (parseStmt_mono _ _ _ _ E Hf). simpl.
  destruct r; [destruct (negb (empty st))|]; eauto.
Qed.

Lemma X14_parser_returns_witness :
  (3 * List.length [token Identifier "x"; token Equal "="] + 3 <= 9)%nat
  /\ exists r, parse_tokens 9 [token Identifier "x"; token Equal "="] = Some r
               /\ parse_tokens (3 * List.length [token Identifier "x"; token Equal "="] + 3)
                    [token Identifier "x"; token Equal "="] = Some r.
Proof.
  assert (3 * List.length [token Identifier "x"; token Equal "="] + 3 <= 9)%nat as H
    by (vm_compute; lia).
  split; [done|].
  exact (X14_parser_returns [token Identifier "x"; token Equal "="] 9 H).
Defined.


(** * The parser reads what the grammar spells *)

Lemma runs_S {R} (p : nat -> option R) (q : nat -> option R) r :
  (forall fuel, q fuel = Some r -> p (S fuel) = Some r) -> runs q r -> runs p r.
Proof.
  intros H [f0 Hq]. exists (S f0). intros [|fuel] Hf; [lia|]. apply H, Hq. lia.
Qed.

Lemma stops_peek rest st :
  stops rest -> stops (rest ++ st) \/ rest = [].
Proof. destruct rest; [by right|by left]. Qed.

Lemma spells_nonempty :
  (forall ts e, spells_expr ts e -> ts ≠ [])
  /\ (forall ts e, spells_atom ts e -> ts ≠ [])
  /\ (forall ts e, spells_lambda ts e -> ts ≠ [])
  /\ (forall ts e, spells_params ts e -> ts ≠ [])
  /\ (forall l ts e, spells_chain l ts e -> True).
Proof.
  apply spells_ind; try done.
  intros ts1 ts2 a e _ H1 _ _ E. apply app_eq_nil in E as [? _]. by apply H1.
Qed.

Lemma spells_head :
  (forall ts e, spells_expr ts e ->
     exists t ts', ts = t :: ts' /\ (type t = Identifier \/ type t = LParen \/ type t = TLambda))
  /\ (forall ts e, spells_atom ts e ->
     exists t ts', ts = t :: ts' /\ (type t = Identifier \/ type t = LParen))
  /\ (forall ts e, spells_lambda ts e -> exists t ts', ts = t :: ts' /\ type t = TLambda)
  /\ (forall ts e, spells_params ts e -> exists t ts', ts = t :: ts' /\ type t = Identifier)
  /\ (forall l ts e, spells_chain l ts e -> True).
Proof.
  apply spells_ind; try done.
  - intros ts1 ts2 a e _ (t & ts' & -> & H) _ _. exists t, (ts' ++ ts2). split; [done|].
    destruct H; auto.
  - intros ts e _ (t & ts' & -> & H). exists t, ts'. auto.
  - intros t H. exists t, []. auto.
  - intros lp ts rp e H _ _ _. exists lp, (ts ++ [rp]). auto.
  - intros t ts e H _ _. by exists t, ts.
  - intros x sep ts body H _ _ _. by exists x, (sep :: ts).
  - intros x ts sub H _ _. by exists x, ts.
Qed.

Lemma runs_max {R1 R2} (p : nat -> option R1) (q : nat -> option R2) r1 r2 :
  runs p r1 -> runs q r2 ->
  exists fuel0, forall fuel, (fuel0 <= fuel)%nat -> p fuel = Some r1 /\ q fuel = Some r2.
Proof.
  intros [f1 H1] [f2 H2]. exists (f1 `max` f2)%nat. intros fuel Hf.
  split; [apply H1|apply H2]; lia.
Qed.

Lemma parseApply_loop_stops fuel st l :
  stops st -> parseApply_loop (S fuel) st l = Some (Ok l, st).
Proof. intros H. rewrite parseApply_loop_S. by rewrite decide_True. Qed.

Lemma parseApply_stops fuel st l :
  stops st -> parseApply (S (S fuel)) st (Ok l) = Some (Ok l, st).
Proof.
  intros H. rewrite parseApply_S. destruct (empty st); [done|].
  by apply parseApply_loop_stops.
Qed.

Lemma parseLambda_skip fuel t st :
  type t = TLambda -> type (peek st) ≠ TLambda ->
  parseLambda fuel (t :: st) = parseLambda fuel st.
Proof.
  intros Ht Hs. destruct fuel as [|fuel]; [done|]. rewrite !parseLambda_S. simpl.
  destruct (decide (type t = TLambda)); [|done].
  by destruct (decide (type (peek st) = TLambda)).
Qed.

Lemma not_stops_head t st :
  type t = Identifier \/ type t = LParen \/ type t = TLambda -> ~ stops (t :: st).
Proof. unfold stops. simpl. intros [H|[H|H]] [H'|H']; congruence. Qed.

Lemma parser_reads :
  (forall ts e, spells_expr ts e -> reads_expr ts e)
  /\ (forall ts e, spells_atom ts e -> reads_atom ts e)
  /\ (forall ts e, spells_lambda ts e -> reads_lambda ts e)
  /\ (forall ts e, spells_params ts e -> reads_params ts e)
  /\ (forall l ts e, spells_chain l ts e -> reads_chain l ts e).
Proof.
  apply spells_ind.
  - (* atoms, then the chain *)
    intros ts1 ts2 a e Sa Ha _ Hc rest Hr. rewrite <- app_assoc.
    destruct (runs_max _ _ _ _ (Ha (ts2 ++ rest)) (Hc rest Hr)) as (f0 & H).
    exists (S (S (S f0))). intros [|[|fuel]] Hf; [lia..|].
    destruct (H (S fuel)) as [H1 _]; [lia|]. destruct (H fuel) as [_ H2]; [lia|].
    rewrite parseExpr_S, H1. simpl. rewrite parseApply_S.
    destruct (empty (ts2 ++ rest)) eqn:Ee; [|done].
    destruct ts2, rest; try done. simpl in H2.
    destruct fuel; [lia|]. rewrite parseApply_loop_stops in H2 by (by right). done.
  - (* a lambda alone *)
    intros ts e _ Hl rest Hr. destruct (Hl rest Hr) as [f0 H].
    exists (S (S (S f0))). intros [|[|[|fuel]]] Hf; try lia.
    rewrite parseExpr_S, (H (S (S fuel))) by lia. simpl. by apply parseApply_stops.
  - (* an identifier *)
    intros t Ht rest. exists 1%nat. intros [|fuel] Hf; [lia|].
    rewrite parseUnary_S. simpl. rewrite decide_False by congruence.
    by rewrite decide_True.
  - (* parentheses *)
    intros lp ts rp e Hlp Hrp _ He rest.
    destruct (He (rp :: rest)) as [f0 H]; [by left|].
    exists (S (S f0)). intros [|[|fuel]] Hf; try lia.
    rewrite parseUnary_S. simpl. rewrite decide_True by done.
    rewrite parseParenthesised_S. simpl. rewrite decide_False by (by intros ?).
    rewrite <- app_assoc. simpl. rewrite H by lia. simpl.
    by rewrite decide_False by (by intros ?).
  - (* a lambda *)
    intros t ts e Ht Sp Hp rest Hr. destruct (Hp rest Hr) as [f0 H].
    destruct (proj1 (proj2 (proj2 (proj2 spells_head))) _ _ Sp) as (x & ts' & -> & Hx).
    exists (S f0). intros [|fuel] Hf; [lia|].
    rewrite parseUnary_S. simpl. rewrite !decide_False by congruence.
    rewrite decide_True by done. rewrite parseLambda_skip; [apply H; lia|done|].
    simpl. congruence.
  - (* the last parameter and the body *)
    intros x sep ts body Hx Hsep _ He rest Hr. destruct (He rest Hr) as [f0 H].
    exists (S f0). intros [|fuel] Hf; [lia|].
    rewrite parseLambda_S. simpl.
    destruct (decide (type x = TLambda)); [congruence|]. simpl.
    destruct (decide (type x ≠ Identifier)); [done|].
    rewrite decide_True by done. simpl. by rewrite H by lia.
  - (* one more parameter *)
    intros x ts sub Hx Sp Hp rest Hr. destruct (Hp rest Hr) as [f0 H].
    destruct (proj1 (proj2 (proj2 (proj2 spells_head))) _ _ Sp) as (y & ts' & -> & Hy).
    exists (S f0). intros [|fuel] Hf; [lia|].
    rewrite parseLambda_S. simpl.
    destruct (decide (type x = TLambda)); [congruence|]. simpl.
    destruct (decide (type x ≠ Identifier)); [done|].
    rewrite decide_False by (intros [?|?]; congruence).
    rewrite decide_True by done. by rewrite H by lia.
  - (* the end of the chain *)
    intros l rest Hr. exists 1%nat. intros [|fuel] Hf; [lia|].
    by apply parseApply_loop_stops.
  - (* one more atom *)
    intros l ts1 a ts2 e Sa Ha _ Hc rest Hr. rewrite <- app_assoc.
    destruct (runs_max _ _ _ _ (Ha (ts2 ++ rest)) (Hc rest Hr)) as (f0 & H).
    destruct (proj1 (proj2 spells_head) _ _ Sa) as (t & ts' & -> & Ht).
    exists (S f0). intros [|fuel] Hf; [lia|]. destruct (H fuel) as [H1 H2]; [lia|].
    rewrite parseApply_loop_S. rewrite decide_False.
    + by rewrite H1.
    + apply not_stops_head. destruct Ht; auto.
  - (* a lambda ends the chain *)
    intros l ts a Sl Hl rest Hr. destruct (Hl rest Hr) as [f0 H].
    destruct (proj1 (proj2 (proj2 spells_head)) _ _ Sl) as (t & ts' & -> & Ht).
    exists (S (S f0)). intros [|[|fuel]] Hf; try lia.
    rewrite parseApply_loop_S. rewrite decide_False by (apply not_stops_head; auto).
    rewrite H by lia. simpl. by apply parseApply_loop_stops.
Qed.

(** * What the parser reads, the grammar spells *)

Lemma parser_spelled fuel : spelled_at fuel.
Proof.
  induction fuel as [|fuel (IE & IU & IP & IL & IA & IO)].
  - repeat split; intros; done.
  - unfold spelled_at. split; [|split; [|split; [|split; [|split]]]].
    + intros st e st'. rewrite parseExpr_S. intros H.
      destruct (parseUnary fuel st) as [[[a|err] st1]|] eqn:E; try done. simpl in H.
      destruct (IU _ _ _ E) as (ts1 & -> & [Sa|[Sl Hs]]).
      * destruct (IA _ _ _ _ H) as (ts2 & -> & Sc).
        exists (ts1 ++ ts2). rewrite <- app_assoc. split; [done|].
        by eapply spells_atoms.
      * destruct fuel as [|fuel]; [done|]. rewrite parseApply_S in H.
        assert (Some (Ok a, st1) = Some (Ok e, st')) as [= <- <-].
        { destruct (empty st1); [done|]. destruct fuel; [done|].
          by rewrite parseApply_loop_stops in H. }
        exists ts1. split; [done|]. by apply spells_lambda_only.
    + intros st e st'. rewrite parseUnary_S. intros H.
      case_decide as H1.
      { destruct (IP _ _ _ H) as (ts & -> & Sa). exists ts. auto. }
      case_decide as H2.
      { destruct st as [|t st]; [done|]. simpl in H. injection H as <- <-.
        exists [t]. split; [done|]. left. by apply spells_var. }
      case_decide as H3; [|done].
      destruct (IL _ _ _ H) as (Hs & ts & -> & Sl). rewrite decide_True in Sl by done.
      exists ts. auto.
    + intros st e st'. rewrite parseParenthesised_S. intros H.
      destruct st as [|x st]; [done|]. simpl in H. case_decide as H1; [done|].
      destruct (parseExpr fuel st) as [[[a|err] st1]|] eqn:E; try done. simpl in H.
      destruct (IE _ _ _ E) as (ts & -> & Se).
      destruct st1 as [|y st2]; [done|]. simpl in H. case_decide as H2; [done|].
      injection H as <- <-.
      exists (x :: ts ++ [y]). split; [simpl; by rewrite <- app_assoc|].
      by apply spells_paren.
    + intros st e st'. rewrite parseLambda_S. cbv zeta. intros H.
      destruct (decide (type (peek st) = TLambda)) as [H0|H0].
      * destruct st as [|t st]; [done|]. simpl in H, H0.
        case_decide as H1; [done|].
        destruct st as [|x st]; [done|]. simpl in H, H1.
        case_decide as H2.
        -- destruct st as [|sep st]; [by destruct H2|]. simpl in H, H2.
           destruct (parseExpr fuel st) as [[[b|err] st1]|] eqn:E; try done. simpl in H.
           injection H as <- <-. destruct (IE _ _ _ E) as (ts & -> & Se).
           destruct (parser_sound fuel) as (SE & _).
           split; [by apply (proj2 (SE _ _ _ E) b)|].
           exists (t :: x :: sep :: ts). split; [done|].
           apply spells_lam; [done|]. by apply spells_param_body.
        -- case_decide as H3; [|done].
           destruct (parseLambda fuel st) as [[[b|err] st1]|] eqn:E; try done. simpl in H.
           injection H as <- <-. destruct (IL _ _ _ E) as (Hs & ts & -> & Sp).
           rewrite decide_False in Sp by congruence.
           split; [done|]. exists (t :: x :: ts). split; [done|].
           apply spells_lam; [done|]. by apply spells_param_more.
      * case_decide as H1; [done|].
        destruct st as [|x st]; [done|]. simpl in H, H1.
        case_decide as H2.
        -- destruct st as [|sep st]; [by destruct H2|]. simpl in H, H2.
           destruct (parseExpr fuel st) as [[[b|err] st1]|] eqn:E; try done. simpl in H.
           injection H as <- <-. destruct (IE _ _ _ E) as (ts & -> & Se).
           destruct (parser_sound fuel) as (SE & _).
           split; [by apply (proj2 (SE _ _ _ E) b)|].
           exists (x :: sep :: ts). split; [done|]. by apply spells_param_body.
        -- case_decide as H3; [|done].
           destruct (parseLambda fuel st) as [[[b|err] st1]|] eqn:E; try done. simpl in H.
           injection H as <- <-. destruct (IL _ _ _ E) as (Hs & ts & -> & Sp).
           rewrite decide_False in Sp by congruence.
           split; [done|]. exists (x :: ts). split; [done|]. by apply spells_param_more.
    + intros st l e st'. rewrite parseApply_S. intros H.
      destruct (empty st) eqn:Ee.
      * injection H as <- <-. exists []. split; [done|]. apply spells_chain_end.
      * by apply IO.
    + intros st l e st'. rewrite parseApply_loop_S. intros H.
      case_decide as H1.
      { injection H as <- <-. exists []. split; [done|]. apply spells_chain_end. }
      destruct (parseUnary fuel st) as [[[a|err] st1]|] eqn:E; try done. simpl in H.
      destruct (IU _ _ _ E) as (ts1 & -> & [Sa|[Sl Hs]]).
      * destruct (IO _ _ _ _ H) as (ts2 & -> & Sc).
        exists (ts1 ++ ts2). rewrite <- app_assoc. split; [done|].
        by eapply spells_chain_atom.
      * destruct fuel as [|fuel]; [done|].
        rewrite parseApply_loop_stops in H by done. injection H as <- <-.
        exists ts1. split; [done|]. by apply spells_chain_lambda.
Qed.


Lemma stops_nil : stops [].
Proof. by right. Qed.

Lemma parseExpr_reads fuel ts e rest :
  spells_expr ts e -> stops rest ->
  (3 * List.length (ts ++ rest) + 3 <= fuel)%nat ->
  parseExpr fuel (ts ++ rest) = Some (Ok e, rest).
Proof.
  intros Hs Hr Hf. destruct (proj1 parser_reads _ _ Hs rest Hr) as [f0 H0].
  destruct (proj1 (parser_returns fuel) (ts ++ rest) Hf) as [r E].
  pose proof (parseExpr_mono _ (fuel `max` f0)%nat _ _ E ltac:(lia)) as E'.
  rewrite H0 in E' by lia. by rewrite E, <- E'.
Qed.

Lemma parseStmt_reads fuel ts e rest :
  spells_stmt ts e -> stops rest ->
  (3 * List.length (ts ++ rest) + 3 <= fuel)%nat ->
  parseStmt fuel (ts ++ rest) = Some (Ok e, rest).
Proof.
  intros Hs Hr Hf. unfold parseStmt. destruct Hs as [ts e Hs|l name eq ts value Hl Hn He Hs].
  - destruct (proj1 spells_head _ _ Hs) as (t & ts' & -> & Ht). simpl.
    rewrite decide_False by (destruct Ht as [?|[?|?]]; congruence).
    by apply (parseExpr_reads fuel (t :: ts')).
  - simpl. rewrite decide_True by done. unfold parseLet. simpl.
    rewrite decide_False by (by intros ?). rewrite decide_False by (by intros ?).
    rewrite (parseExpr_reads fuel ts value rest Hs Hr); [done|].
    simpl in Hf. lia.
Qed.

Lemma parseStmt_spelled fuel st e st' :
  parseStmt fuel st = Some (Ok e, st') -> exists ts, st = ts ++ st' /\ spells_stmt ts e.
Proof.
  unfold parseStmt. intros H. destruct (parser_spelled fuel) as (SE & _).
  case_decide as H1.
  - unfold parseLet in H. destruct st as [|l st]; [done|]. simpl in H, H1.
    destruct st as [|name st]; [done|]. simpl in H. case_decide as H2; [done|].
    destruct st as [|eq st]; [done|]. simpl in H. case_decide as H3; [done|].
    destruct (parseExpr fuel st) as [[[v|err] st1]|] eqn:E; try done. simpl in H.
    injection H as <- <-. destruct (SE _ _ _ E) as (ts & -> & Hs).
    exists (l :: name :: eq :: ts). split; [done|]. by apply spells_stmt_let.
  - destruct (SE _ _ _ H) as (ts & -> & Hs). exists ts. split; [done|].
    by apply spells_stmt_expr.
Qed.

Lemma parse_tokens_grammar tokens e fuel :
  (3 * List.length tokens + 3 <= fuel)%nat ->
  parse_tokens fuel tokens = Some (Ok e) <-> spells_stmt tokens e.
Proof.
  intros Hf. unfold parse_tokens. split.
  - intros H. destruct (parseStmt fuel tokens) as [[[e1|err] st]|] eqn:E; try done.
    simpl in H. destruct st as [|t st]; [|done]. injection H as ->.
    destruct (parseStmt_spelled _ _ _ _ E) as (ts & -> & Hs). by rewrite app_nil_r.
  - intros Hs. rewrite <- (app_nil_r tokens) in Hf |- *.
    by rewrite (parseStmt_reads fuel tokens e [] Hs stops_nil Hf).
Qed.

(** X15: the parser accepts exactly the statements of the grammar, and
    returns the term that the tokens spell. *)
Theorem X15_parser_grammar tokens e fuel :
  (3 * List.length tokens + 3 <= fuel)%nat ->
  parse_tokens fuel tokens = Some (Ok e) <-> spells_stmt tokens e.
Proof. apply parse_tokens_grammar. Qed.

Lemma X15_parser_grammar_witness :
  (3 * List.length [token Identifier "f"; token Identifier "x"] + 3 <= 9)%nat
  /\ (parse_tokens 9 [token Identifier "f"; token Identifier "x"]
      = Some (Ok (Apply (Var "f") (Var "x")))
      <-> spells_stmt [token Identifier "f"; token Identifier "x"]
            (Apply (Var "f") (Var "x"))).
Proof.
  assert (3 * List.length [token Identifier "f"; token Identifier "x"] + 3 <= 9)%nat as H
    by (vm_compute; lia).
  split; [done|].
  exact (X15_parser_grammar [token Identifier "f"; token Identifier "x"]
           (Apply (Var "f") (Var "x")) 9 H).
Defined.

(** * Terms written with every parenthesis *)

Lemma tokens_of_chain e :
  no_let e = true ->
  forall ts2 e2, spells_chain e ts2 e2 -> spells_expr (tokens_of e ++ ts2) e2.
Proof.
  induction e as [n|fn IHfn arg IHarg|x body IH|n v _]; intros Hl ts2 e2 Hc;
    simpl in *; try done.
  - apply (spells_atoms [token Identifier n] ts2 (Var n)); [|done].
    by apply (spells_var (token Identifier n)).
  - apply andb_true_iff in Hl as [H1 H2]. rewrite <- app_assoc.
    apply (IHfn H1).
    change (token LParen "(" :: (tokens_of arg ++ [token RParen ")"]) ++ ts2)
      with ((token LParen "(" :: tokens_of arg ++ [token RParen ")"]) ++ ts2).
    eapply spells_chain_atom; [|done].
    apply spells_paren; [done..|].
    rewrite <- (app_nil_r (tokens_of arg)). apply (IHarg H2). apply spells_chain_end.
  - change (token LParen "(" :: token TLambda "λ" :: token Identifier x :: token Period "."
              :: (tokens_of body ++ [token RParen ")"]) ++ ts2)
      with ((token LParen "(" :: (token TLambda "λ" :: token Identifier x
               :: token Period "." :: tokens_of body) ++ [token RParen ")"]) ++ ts2).
    eapply spells_atoms; [|done]. apply spells_paren; [done..|].
    apply spells_lambda_only, spells_lam; [done|].
    apply (spells_param_body (token Identifier x) (token Period ".")); [done|by right|].
    rewrite <- (app_nil_r (tokens_of body)). apply (IH Hl). apply spells_chain_end.
Qed.

Lemma tokens_of_spells e : statement e = true -> spells_stmt (tokens_of e) e.
Proof.
  intros H. destruct e as [n|fn arg|x body|n v].
  1-3: apply spells_stmt_expr; rewrite <- (app_nil_r (tokens_of _));
       apply tokens_of_chain; [done|apply spells_chain_end].
  simpl in *. apply (spells_stmt_let (token TLet "let") (token Identifier n)
                       (token Equal "=")); try done.
  rewrite <- (app_nil_r (tokens_of _)). apply tokens_of_chain; [done|apply spells_chain_end].
Qed.

(** X16: a term written with every parenthesis is read back as it is. *)
Theorem X16_parser_round_trip e fuel :
  statement e = true ->
  (3 * List.length (tokens_of e) + 3 <= fuel)%nat ->
  parse_tokens fuel (tokens_of e) = Some (Ok e).
Proof.
  intros He Hf. apply parse_tokens_grammar; [done|]. by apply tokens_of_spells.
Qed.

Lemma X16_parser_round_trip_witness :
  (statement (Let "i" (Apply (Lambda "x" (Var "x")) (Var "y"))) = true
   /\ (3 * List.length (tokens_of (Let "i" (Apply (Lambda "x" (Var "x")) (Var "y")))) + 3
       <= 42)%nat)
  /\ parse_tokens 42 (tokens_of (Let "i" (Apply (Lambda "x" (Var "x")) (Var "y"))))
     = Some (Ok (Let "i" (Apply (Lambda "x" (Var "x")) (Var "y")))).
Proof.
  assert (3 * List.length (tokens_of (Let "i" (Apply (Lambda "x" (Var "x")) (Var "y")))) + 3
          <= 42)%nat as H by (vm_compute; lia).
  split; [done|].
  exact (X16_parser_round_trip (Let "i" (Apply (Lambda "x" (Var "x")) (Var "y"))) 42
           eq_refl H).
Defined.

(** X17: the parser builds a [Let] at the root of a statement only. *)
Theorem X17_parser_statement tokens e fuel :
  parse_tokens fuel tokens = Some (Ok e) -> statement e = true.
Proof.
  unfold parse_tokens. intros H.
  destruct (parseStmt fuel tokens) as [[[e1|err] st]|] eqn:E; try done.
  simpl in H. destruct (negb (empty st)); [done|]. injection H as ->.
  unfold parseStmt in E. destruct (parser_sound fuel) as (SE & _).
  case_decide.
  - unfold parseLet in E. destruct (pop (pop tokens).2) as [name st1].
    case_decide; [done|]. destruct (pop st1) as [x st2]. case_decide; [done|].
    destruct (parseExpr fuel st2) as [[[v|err] st3]|] eqn:Ev; try done.
    injection E as <- <-. simpl. by apply (proj2 (proj1 (SE _ _ _ Ev)) v).
  - pose proof (proj1 (proj2 (proj1 (SE _ _ _ E)) e eq_refl)) as Hn.
    by destruct e.
Qed.

Lemma X17_parser_statement_witness :
  parse_tokens 12 [token TLet "let"; token Identifier "i"; token Equal "=";
                   token Identifier "x"]
  = Some (Ok (Let "i" (Var "x")))
  /\ statement (Let "i" (Var "x")) = true.
Proof.
  assert (parse_tokens 12 [token TLet "let"; token Identifier "i"; token Equal "=";
                           token Identifier "x"]
          = Some (Ok (Let "i" (Var "x")))) as H by (vm_compute; reflexivity).
  split; [done|].
  exact (X17_parser_statement _ _ 12 H).
Defined.

(** * Parameters in a row, and applications in a row *)

Lemma spells_params_row xs sep ts body :
  xs ≠ [] -> Forall (fun x => type x = Identifier) xs ->
  type sep = RightArrow \/ type sep = Period ->
  spells_expr ts body ->
  spells_params (xs ++ sep :: ts) (lambdas xs body).
Proof.
  intros Hne Hx Hsep Hb. induction xs as [|x xs IH]; [done|].
  apply Forall_cons in Hx as [Hx Hxs]. destruct xs as [|y xs].
  - by apply spells_param_body.
  - apply spells_param_more; [done|]. by apply IH.
Qed.

Lemma spells_nested lam sep xs ts body :
  type lam = TLambda -> Forall (fun x => type x = Identifier) xs ->
  type sep = RightArrow \/ type sep = Period ->
  spells_expr ts body ->
  spells_expr (nested lam sep xs ++ ts) (lambdas xs body).
Proof.
  intros Hl Hx Hsep Hb. induction xs as [|x xs IH]; [done|].
  apply Forall_cons in Hx as [Hx Hxs]. unfold nested. simpl.
  apply spells_lambda_only, spells_lam; [done|]. apply spells_param_body; [done..|].
  by apply IH.
Qed.

Lemma nested_length lam sep xs :
  List.length (nested lam sep xs) = (3 * List.length xs)%nat.
Proof.
  induction xs as [|x xs IH]; [done|].
  change (nested lam sep (x :: xs)) with ([lam; x; sep] ++ nested lam sep xs).
  rewrite length_app, IH. simpl. lia.
Qed.

(** X18: [λ x1 ... xn . body] is read as [λ x1 . ... λ xn . body]. *)
Theorem X18_parser_parameters lam sep xs ts body fuel :
  type lam = TLambda -> type sep = RightArrow \/ type sep = Period ->
  xs ≠ [] -> Forall (fun x => type x = Identifier) xs ->
  spells_expr ts body ->
  (3 * List.length (nested lam sep xs ++ ts) + 3 <= fuel)%nat ->
  parse_tokens fuel (lam :: xs ++ sep :: ts) = Some (Ok (lambdas xs body))
  /\ parse_tokens fuel (nested lam sep xs ++ ts) = Some (Ok (lambdas xs body)).
Proof.
  intros Hl Hsep Hne Hx Hb Hf. split.
  - apply parse_tokens_grammar.
    + rewrite length_app, nested_length in Hf. simpl. rewrite length_app. simpl.
      destruct xs; [done|]. simpl in *. lia.
    + apply spells_stmt_expr, spells_lambda_only, spells_lam; [done|].
      by apply spells_params_row.
  - apply parse_tokens_grammar; [done|]. by apply spells_stmt_expr, spells_nested.
Qed.

Lemma X18_parser_parameters_witness :
  (type (token TLambda "\") = TLambda
   /\ (type (token Period ".") = RightArrow \/ type (token Period ".") = Period)
   /\ [token Identifier "x"; token Identifier "y"] ≠ []
   /\ Forall (fun x => type x = Identifier) [token Identifier "x"; token Identifier "y"]
   /\ spells_expr [token Identifier "x"] (Var "x")
   /\ (3 * List.length (nested (token TLambda "\") (token Period ".")
                          [token Identifier "x"; token Identifier "y"]
                        ++ [token Identifier "x"]) + 3 <= 24)%nat)
  /\ parse_tokens 24
       (token TLambda "\" :: [token Identifier "x"; token Identifier "y"]
        ++ token Period "." :: [token Identifier "x"])
     = Some (Ok (lambdas [token Identifier "x"; token Identifier "y"] (Var "x")))
  /\ parse_tokens 24
       (nested (token TLambda "\") (token Period ".")
          [token Identifier "x"; token Identifier "y"] ++ [token Identifier "x"])
     = Some (Ok (lambdas [token Identifier "x"; token Identifier "y"] (Var "x"))).
Proof.
  assert (type (token Period ".") = RightArrow \/ type (token Period ".") = Period) as H2
    by (by right).
  assert (Forall (fun x => type x = Identifier)
            [token Identifier "x"; token Identifier "y"]) as H4
    by (by repeat constructor).
  assert (spells_expr [token Identifier "x"] (Var "x")) as H5.
  { apply (spells_atoms [token Identifier "x"] [] (Var "x") (Var "x")).
    - by apply (spells_var (token Identifier "x")).
    - apply spells_chain_end. }
  assert (3 * List.length (nested (token TLambda "\") (token Period ".")
                             [token Identifier "x"; token Identifier "y"]
                           ++ [token Identifier "x"]) + 3 <= 24)%nat as H6
    by (vm_compute; lia).
  split; [done|].
  exact (X18_parser_parameters (token TLambda "\") (token Period ".")
           [token Identifier "x"; token Identifier "y"] [token Identifier "x"] (Var "x") 24
           eq_refl H2 ltac:(done) H4 H5 H6).
Defined.

Lemma spells_chain_row l args :
  Forall (fun a => type a = Identifier) args ->
  spells_chain l args (fold_left (fun l a => Apply l (Var (text a))) args l).
Proof.
  revert l. induction args as [|a args IH]; intros l Ha; [apply spells_chain_end|].
  apply Forall_cons in Ha as [Ha Hargs]. simpl.
  apply (spells_chain_atom l [a] (Var (text a)) args); [by apply spells_var|by apply IH].
Qed.

(** X19: application associates to the left. *)
Theorem X19_parser_application f args fuel :
  type f = Identifier -> Forall (fun a => type a = Identifier) args ->
  (3 * List.length (f :: args) + 3 <= fuel)%nat ->
  parse_tokens fuel (f :: args) = Some (Ok (applications f args)).
Proof.
  intros Hf Ha Hfuel. apply parse_tokens_grammar; [done|].
  apply spells_stmt_expr. apply (spells_atoms [f] args (Var (text f))).
  - by apply spells_var.
  - by apply spells_chain_row.
Qed.

Lemma X19_parser_application_witness :
  (type (token Identifier "f") = Identifier
   /\ Forall (fun a => type a = Identifier) [token Identifier "a"; token Identifier "b"]
   /\ (3 * List.length (token Identifier "f"
                        :: [token Identifier "a"; token Identifier "b"]) + 3 <= 12)%nat)
  /\ parse_tokens 12 (token Identifier "f" :: [token Identifier "a"; token Identifier "b"])
     = Some (Ok (applications (token Identifier "f")
                   [token Identifier "a"; token Identifier "b"])).
Proof.
  assert (Forall (fun a => type a = Identifier)
            [token Identifier "a"; token Identifier "b"]) as H2
    by (by repeat constructor).
  assert (3 * List.length (token Identifier "f"
                           :: [token Identifier "a"; token Identifier "b"]) + 3 <= 12)%nat
    as H3 by (vm_compute; lia).
  split; [done|].
  exact (X19_parser_application (token Identifier "f")
           [token Identifier "a"; token Identifier "b"] 12 eq_refl H2 H3).
Defined.

(** * Errors *)

(** X20: a parenthesis that is not closed is reported where it was opened. *)
Theorem X20_parser_unclosed lp ts e fuel :
  type lp = LParen -> spells_expr ts e ->
  (3 * List.length (lp :: ts) + 3 <= fuel)%nat ->
  parse_tokens fuel (lp :: ts)
  = Some (Err (mkError "expected ')' to match this '('" (loc lp))).
Proof.
  intros Hlp Hs Hf. unfold parse_tokens, parseStmt. simpl.
  rewrite decide_False by congruence.
  destruct fuel as [|[|[|fuel]]]; try (simpl in Hf; lia).
  rewrite parseExpr_S, parseUnary_S. simpl. rewrite decide_True by done.
  rewrite parseParenthesised_S. simpl. rewrite decide_False by (by intros ?).
  rewrite <- (app_nil_r ts).
  rewrite (parseExpr_reads fuel ts e [] Hs stops_nil); [done|].
  rewrite app_nil_r. simpl in Hf. lia.
Qed.

Lemma X20_parser_unclosed_witness :
  (type (mkToken (mkLocation 4 1) "(" LParen) = LParen
   /\ spells_expr [token Identifier "x"] (Var "x")
   /\ (3 * List.length (mkToken (mkLocation 4 1) "(" LParen :: [token Identifier "x"]) + 3
       <= 9)%nat)
  /\ parse_tokens 9 (mkToken (mkLocation 4 1) "(" LParen :: [token Identifier "x"])
     = Some (Err (mkError "expected ')' to match this '('" (mkLocation 4 1))).
Proof.
  assert (spells_expr [token Identifier "x"] (Var "x")) as H2.
  { apply (spells_atoms [token Identifier "x"] [] (Var "x") (Var "x")).
    - by apply (spells_var (token Identifier "x")).
    - apply spells_chain_end. }
  assert (3 * List.length (mkToken (mkLocation 4 1) "(" LParen :: [token Identifier "x"]) + 3
          <= 9)%nat as H3 by (vm_compute; lia).
  split; [done|].
  exact (X20_parser_unclosed (mkToken (mkLocation 4 1) "(" LParen) [token Identifier "x"]
           (Var "x") 9 eq_refl H2 H3).
Defined.

(** X21: a closing parenthesis too many is reported as junk, where it stands. *)
Theorem X21_parser_junk ts e rp rest fuel :
  spells_stmt ts e -> type rp = RParen ->
  (3 * List.length (ts ++ rp :: rest) + 3 <= fuel)%nat ->
  parse_tokens fuel (ts ++ rp :: rest)
  = Some (Err (mkError ("junk at end of expression: '" +:+ text rp +:+ "'") (loc rp))).
Proof.
  intros Hs Hrp Hf. unfold parse_tokens.
  rewrite (parseStmt_reads fuel ts e (rp :: rest) Hs); [done|by left|done].
Qed.

Lemma X21_parser_junk_witness :
  (spells_stmt [token Identifier "x"] (Var "x")
   /\ type (mkToken (mkLocation 2 1) ")" RParen) = RParen
   /\ (3 * List.length ([token Identifier "x"]
                        ++ mkToken (mkLocation 2 1) ")" RParen :: []) + 3 <= 9)%nat)
  /\ parse_tokens 9 ([token Identifier "x"] ++ mkToken (mkLocation 2 1) ")" RParen :: [])
     = Some (Err (mkError ("junk at end of expression: '" +:+ ")" +:+ "'")
                    (mkLocation 2 1))).
Proof.
  assert (spells_stmt [token Identifier "x"] (Var "x")) as H1.
  { apply spells_stmt_expr.
    apply (spells_atoms [token Identifier "x"] [] (Var "x") (Var "x")).
    - by apply (spells_var (token Identifier "x")).
    - apply spells_chain_end. }
  assert (3 * List.length ([token Identifier "x"]
                           ++ mkToken (mkLocation 2 1) ")" RParen :: []) + 3 <= 9)%nat
    as H3 by (vm_compute; lia).
  split; [done|].
  exact (X21_parser_junk [token Identifier "x"] (Var "x")
           (mkToken (mkLocation 2 1) ")" RParen) [] 9 H1 eq_refl H3).
Defined.

End ParserFacts.

(** * Strings and views *)

Lemma string_app_cons (x : ascii) (a b : string) : String x a +:+ b = String x (a +:+ b).
Proof. reflexivity. Qed.

Lemma string_app_nil_l (b : string) : "" +:+ b = b.
Proof. reflexivity. Qed.

Lemma string_app_assoc (a b c : string) : (a +:+ b) +:+ c = a +:+ (b +:+ c).
Proof. induction a as [|x a IH]; [done|]. by rewrite !string_app_cons, IH. Qed.

Lemma string_app_nil_r (a : string) : a +:+ "" = a.
Proof. induction a as [|x a IH]; [done|]. by rewrite string_app_cons, IH. Qed.

Lemma string_length_app (a b : string) :
  String.length (a +:+ b) = (String.length a + String.length b)%nat.
Proof. induction a as [|x a IH]; [done|]. rewrite string_app_cons. simpl. by rewrite IH. Qed.

Lemma size_app (a b : string) : zbuf.size (a +:+ b) = zbuf.size a + zbuf.size b.
Proof. unfold zbuf.size. rewrite string_length_app. lia. Qed.

Lemma size_nonneg (s : string) : 0 <= zbuf.size s.
Proof. unfold zbuf.size. lia. Qed.

Lemma size_nil (s : string) : zbuf.size s = 0 -> s = "".
Proof. unfold zbuf.size. by destruct s. Qed.

Lemma substring_all (s : string) : substring 0 (String.length s) s = s.
Proof. induction s as [|x s IH]; simpl; [done|]. by rewrite IH. Qed.

Lemma substring_over (s : string) (m : nat) :
  (String.length s <= m)%nat -> substring 0 m s = s.
Proof.
  revert m. induction s as [|x s IH]; intros [|m] H; simpl in *; try done; try lia.
  rewrite IH; [done|lia].
Qed.

Lemma substring_zero (n : nat) (s : string) : substring n 0 s = "".
Proof. revert s. induction n as [|n IH]; intros [|x s]; simpl; try done. Qed.

(** A view cut in two. *)
Lemma substring_split (n : nat) (s : string) :
  (n <= String.length s)%nat ->
  substring 0 n s +:+ substring n (String.length s - n) s = s.
Proof.
  revert s. induction n as [|n IH]; intros s H.
  - rewrite Nat.sub_0_r, substring_all. by destruct s.
  - destruct s as [|x s]; simpl in *; [lia|]. rewrite string_app_cons, IH; [done|lia].
Qed.

Lemma substring_length_le (n m : nat) (s : string) :
  (n + m <= String.length s)%nat -> String.length (substring n m s) = m.
Proof.
  revert m s. induction n as [|n IH]; intros m s H.
  - revert s H. induction m as [|m IHm]; intros [|x s] H; simpl in *; try done; try lia.
    rewrite IHm; [done|lia].
  - destruct s as [|x s]; simpl in *; [lia|]. apply IH. lia.
Qed.

Lemma substring_app_mid (pre t r : string) :
  substring (String.length pre) (String.length t) (pre +:+ t +:+ r) = t.
Proof.
  induction pre as [|x pre IH]; [|by rewrite string_app_cons].
  rewrite string_app_nil_l. simpl String.length.
  induction t as [|y t IHt]; [by destruct r|].
  rewrite string_app_cons. simpl. by rewrite IHt.
Qed.

Lemma take_spec (n : Z) (s : string) :
  0 <= n -> zbuf.size s < 2 ^ 64 ->
  zbuf.take n s = substring 0 (Z.to_nat n) s.
Proof.
  intros Hn Hs. unfold zbuf.take, zbuf.substr. destruct (decide (zbuf.size s >= n)) as [H|H].
  - destruct (decide (n = zbuf.npos)) as [->|_]; [|done].
    assert (zbuf.size s = zbuf.npos) as E
      by (unfold zbuf.npos, zbuf.size_t in *; change ((-1) mod 2 ^ 64) with (2 ^ 64 - 1) in *; lia).
    unfold zbuf.npos, zbuf.size_t in *. change ((-1) mod 2 ^ 64) with (2 ^ 64 - 1) in *.
    destruct (decide _) as [_|?]; [|lia].
    rewrite Z.sub_0_r. f_equal. unfold zbuf.size in *. lia.
  - symmetry. apply substring_over. unfold zbuf.size in *. lia.
Qed.

Lemma drop_spec (n : Z) (s : string) :
  0 <= n <= zbuf.size s ->
  zbuf.drop n s = substring (Z.to_nat n) (String.length s - Z.to_nat n) s.
Proof.
  intros Hn. unfold zbuf.drop, zbuf.substr. destruct (decide (zbuf.size s >= n)) as [H|H]; [|lia].
  f_equal. destruct (decide (_ = zbuf.npos)) as [E|_].
  - destruct (decide _); unfold zbuf.size in *; [lia|].
    unfold zbuf.npos, zbuf.size_t in *. change ((-1) mod 2 ^ 64) with (2 ^ 64 - 1) in *. lia.
  - unfold zbuf.size. lia.
Qed.

Lemma drop_over (n : Z) (s : string) : zbuf.size s < n -> zbuf.drop n s = "".
Proof. intros H. unfold zbuf.drop. by destruct (decide _) as [?|_]; [lia|]. Qed.

Lemma take_drop (n : Z) (s : string) :
  0 <= n <= zbuf.size s -> zbuf.size s < 2 ^ 64 ->
  zbuf.take n s +:+ zbuf.drop n s = s.
Proof.
  intros Hn Hs. rewrite take_spec, drop_spec by lia.
  apply substring_split. unfold zbuf.size in *. lia.
Qed.

Lemma size_take (n : Z) (s : string) :
  0 <= n <= zbuf.size s -> zbuf.size s < 2 ^ 64 -> zbuf.size (zbuf.take n s) = n.
Proof.
  intros Hn Hs. rewrite take_spec by lia. unfold zbuf.size in *.
  rewrite substring_length_le; lia.
Qed.

Lemma take_over (n : Z) (s : string) : zbuf.size s < n -> zbuf.take n s = s.
Proof. intros H. unfold zbuf.take. by destruct (decide _) as [?|_]; [lia|]. Qed.

Lemma size_t_small (z : Z) : 0 <= z < 2 ^ 64 -> zbuf.size_t z = z.
Proof. intros H. unfold zbuf.size_t. by apply Z.mod_small. Qed.

Lemma size_t_range (z : Z) : 0 <= zbuf.size_t z < 2 ^ 64.
Proof. unfold zbuf.size_t. apply Z.mod_pos_bound. lia. Qed.

(** [find] answers 0 only for a view that is long enough. *)
Lemma find_loop_from (count : nat) (i : Z) (sv s : string) :
  0 <= i < zbuf.npos -> zbuf.find_loop count i sv s = zbuf.npos \/ i <= zbuf.find_loop count i sv s.
Proof.
  revert i. induction count as [|count IH]; intros i Hi; simpl; [by left|].
  destruct (zbuf.eq _ _); [right; lia|].
  destruct (decide (i + 1 < zbuf.npos)) as [H|H].
  - destruct (IH (i + 1)) as [E|E]; [lia|by left|right; lia].
  - clear IH. destruct count as [|count]; simpl; [by left|].
    destruct (zbuf.eq _ _); [right; lia|]. 
    (* i + 1 = npos: positions beyond are never reached by a view *)
    revert H. generalize (i + 1). intros j Hj.
    assert (forall c j, zbuf.npos <= j -> 
      zbuf.find_loop c j sv s = zbuf.npos \/ zbuf.npos <= zbuf.find_loop c j sv s) as G.
    { clear. induction c as [|c IH]; intros j Hj; simpl; [by left|].
      destruct (zbuf.eq _ _); [by right|]. apply IH. lia. }
    destruct (G count (j + 1)) as [E|E]; [lia|by left|right; lia].
Qed.

Lemma npos_eq : zbuf.npos = 2 ^ 64 - 1.
Proof. reflexivity. Qed.

Lemma find_zero (sv s : string) :
  zbuf.find sv s = 0 ->
  zbuf.size sv <= zbuf.size s
  /\ (sv = "" \/ zbuf.eq (zbuf.take (zbuf.size sv) (zbuf.drop 0 s)) sv = true).
Proof.
  unfold zbuf.find. destruct (decide _) as [H|H]; [by rewrite npos_eq|].
  intros F. split; [lia|]. revert F.
  unfold zbuf.empty. case_bool_decide as E; [left; by apply size_nil|].
  intros F. right. pose proof (size_nonneg sv).
  destruct (Z.to_nat (1 + zbuf.size s - zbuf.size sv)) as [|count] eqn:Ec;
    [by vm_compute in F|].
  simpl in F. destruct (zbuf.eq _ _) eqn:Eq; [done|].
  destruct (find_loop_from count (0 + 1) sv s) as [G|G]; rewrite ?npos_eq in *; lia.
Qed.

(** * The lexer: where the tokens are *)

Section LexerFacts.

Import Parser.

Context `{Utf8proc}.

Lemma is_category_range str cats : 0 <= is_category str cats < 2 ^ 64.
Proof.
  unfold is_category. destruct (utf8proc_iterate str) as [sz cp].
  destruct (decide _); [lia|]. destruct (decide _); [apply size_t_range|lia].
Qed.

Lemma is_valid_identifier_range str : 0 <= is_valid_identifier str < 2 ^ 64.
Proof.
  unfold is_valid_identifier, is_letter, is_digit.
  repeat (destruct (decide _); [apply is_category_range|]). lia.
Qed.

(** Cutting [n] bytes off the front of a view. *)
Lemma cut_at s0 src idx n :
  zbuf.size s0 < 2 ^ 64 -> view_at s0 src idx -> 0 <= n ->
  substring (Z.to_nat idx) (Z.to_nat (zbuf.size (zbuf.take n src))) s0 = zbuf.take n src
  /\ (zbuf.drop n src = "" \/ view_at s0 (zbuf.drop n src) (idx + zbuf.size (zbuf.take n src)))
  /\ idx + zbuf.size (zbuf.take n src) <= zbuf.size s0
  /\ (n <= zbuf.size src -> zbuf.size (zbuf.take n src) = n).
Proof.
  intros Hs (pre & -> & <-) Hn. rewrite size_app in Hs. pose proof (size_nonneg pre).
  pose proof (size_nonneg src).
  destruct (decide (n <= zbuf.size src)) as [Hle|Hgt].
  - pose proof (take_drop n src ltac:(lia) ltac:(lia)) as E.
    pose proof (size_take n src ltac:(lia) ltac:(lia)) as Et.
    repeat split.
    + rewrite <- E at 2. unfold zbuf.size at 1 2. rewrite !Nat2Z.id. apply substring_app_mid.
    + right. exists (pre +:+ zbuf.take n src).
      by rewrite string_app_assoc, E, size_app.
    + rewrite size_app. lia.
    + done.
  - rewrite take_over, drop_over by lia. repeat split.
    + unfold zbuf.size. rewrite !Nat2Z.id. rewrite <- (string_app_nil_r src) at 2.
      apply substring_app_mid.
    + by left.
    + rewrite size_app. lia.
    + lia.
Qed.

Lemma skip_whitespace_at s0 fuel src idx src' idx' :
  zbuf.size s0 < 2 ^ 64 -> view_at s0 src idx ->
  skip_whitespace fuel src idx = Some (src', idx') ->
  src' = "" \/ (view_at s0 src' idx' /\ idx <= idx').
Proof.
  intros Hs. revert src idx. induction fuel as [|fuel IH]; intros src idx Hv; simpl; [done|].
  destruct (decide _) as [Hpos|_]; [|intros [= <- <-]; right; split; [done|lia]].
  set (k := is_category _ _). pose proof (is_category_range src
    [UTF8PROC_CATEGORY_ZS; UTF8PROC_CATEGORY_ZL; UTF8PROC_CATEGORY_ZP]) as Hk. fold k in Hk.
  destruct (decide (k > 0)) as [Hk0|_]; [|intros [= <- <-]; right; split; [done|lia]].
  unfold zbuf.remove_prefix. intros E.
  destruct (cut_at s0 src idx k Hs Hv ltac:(lia)) as (_ & [Ed|Hv'] & Hle & Hsz).
  - rewrite Ed in E. destruct fuel; simpl in E; [done|]. injection E as <- _. by left.
  - destruct (decide (k <= zbuf.size src)) as [Hks|Hks].
    + rewrite Hsz in * by done. pose proof (size_nonneg src).
      destruct Hv as (pre & -> & <-). rewrite size_app in Hs. pose proof (size_nonneg pre).
      rewrite size_t_small in E by lia.
      destruct (IH _ _ Hv' E) as [?|[? ?]]; [by left|right; split; [done|lia]].
    + rewrite drop_over in E by lia. destruct fuel; simpl in E; [done|].
      injection E as <- _. by left.
Qed.

Lemma lex_one_token_at s0 fuel src idx prevType tok src' idx' :
  zbuf.size s0 < 2 ^ 64 -> view_at s0 src idx ->
  lex_one_token fuel src idx prevType = Some (Ok tok, src', idx') ->
  type tok <> EndOfFile ->
  idx <= idx' /\ begin (loc tok) = idx' /\ length (loc tok) = zbuf.size (text tok)
  /\ substring (Z.to_nat idx') (Z.to_nat (zbuf.size (text tok))) s0 = text tok
  /\ (src' = "" \/ view_at s0 src' (idx' + zbuf.size (text tok)))
  /\ idx' + zbuf.size (text tok) <= zbuf.size s0.
Proof.
  intros Hs Hv. unfold lex_one_token.
  destruct (skip_whitespace fuel src idx) as [[src1 idx1]|] eqn:Ew; [|done]. simpl.
  destruct (skip_whitespace_at _ _ _ _ _ _ Hs Hv Ew) as [->|[Hv1 Hle]].
  { intros [= <- <- <-]. done. }
  destruct (zbuf.empty src1) eqn:Ee; [by intros [= <- <- <-]|].
  assert (1 <= zbuf.size src1) as Hne.
  { unfold zbuf.empty in Ee. case_bool_decide; [done|]. pose proof (size_nonneg src1). lia. }
  unfold take_and_return_taken, zbuf.remove_prefix.
  destruct (decide (zbuf.find "->" src1 = 0)) as [F|_].
  { intros [= <- <- <-] _. simpl. apply find_zero in F as [F _].
    destruct (cut_at s0 src1 idx1 (strlen "->") Hs Hv1 ltac:(done)) as (E1 & E2 & E3 & E4).
    specialize (E4 F). by repeat split; auto. }
  destruct (decide (zbuf.find "Î»" src1 = 0)) as [F|_].
  { intros [= <- <- <-] _. simpl. apply find_zero in F as [F _].
    destruct (cut_at s0 src1 idx1 (strlen "Î»") Hs Hv1 ltac:(done)) as (E1 & E2 & E3 & E4).
    specialize (E4 F). by repeat split; auto. }
  destruct (decide (is_valid_identifier src1 > 0)) as [Hi|_].
  { destruct (identifier_length _ _ _) as [L|] eqn:EL; [|done]. simpl.
    intros [= <- <- <-] _. simpl.
    assert (0 <= L) as HL.
    { clear -EL. revert EL. generalize (zbuf.drop (is_valid_identifier src1) src1).
      pose proof (is_valid_identifier_range src1) as R. revert R.
      generalize (is_valid_identifier src1). induction fuel as [|fuel IH]; intros L0 R tmp; simpl;
        [done|].
      destruct (decide _); [|intros [= <-]; lia]. apply IH, size_t_range. }
    destruct (cut_at s0 src1 idx1 L Hs Hv1 HL) as (E1 & E2 & E3 & E4). done. }
  assert (forall ty,
    Some (Ok (mkToken (mkLocation idx1 1) (zbuf.take 1 src1) ty), zbuf.drop 1 src1, idx1)
    = Some (Ok tok, src', idx') ->
    idx <= idx' /\ begin (loc tok) = idx' /\ length (loc tok) = zbuf.size (text tok)
    /\ substring (Z.to_nat idx') (Z.to_nat (zbuf.size (text tok))) s0 = text tok
    /\ (src' = "" \/ view_at s0 src' (idx' + zbuf.size (text tok)))
    /\ idx' + zbuf.size (text tok) <= zbuf.size s0) as G.
  { intros ty [= <- <- <-]. simpl.
    destruct (cut_at s0 src1 idx1 1 Hs Hv1 ltac:(done)) as (E1 & E2 & E3 & E4).
    specialize (E4 Hne). by repeat split; auto. }
  destruct (get 0 src1) as [c|]; [|done].
  destruct c as [[] [] [] [] [] [] [] []]; try done; intros E _; by eapply G.
Qed.

Lemma lex_loop_located s0 fuel src idx prevType ret toks :
  zbuf.size s0 < 2 ^ 64 -> src = "" \/ view_at s0 src idx ->
  lex_loop fuel src idx prevType ret = Some (Ok toks) ->
  exists new, toks = ret ++ new /\ located s0 idx new = true.
Proof.
  intros Hs. revert src idx prevType ret.
  induction fuel as [|fuel IH]; intros src idx prevType ret Hv; simpl; [done|].
  destruct (lex_one_token fuel src idx prevType) as [[[[tok|e] src1] idx1]|] eqn:E; try done.
  simpl. destruct (decide (type tok = EndOfFile)) as [Ht|Ht].
  { intros [= <-]. exists []. by rewrite app_nil_r. }
  destruct Hv as [->|Hv].
  { unfold lex_one_token in E. destruct fuel; simpl in E; [done|].
    by injection E as <- _ _. }
  destruct (lex_one_token_at _ _ _ _ _ _ _ _ Hs Hv E Ht) as (Hle & Eb & El & Es & Hv1 & Hb).
  pose proof (size_nonneg (text tok)).
  assert (0 <= idx) by (destruct Hv as (pre & _ & <-); apply size_nonneg).
  rewrite size_t_small by lia. intros E'.
  destruct (IH _ _ _ _ Hv1 E') as (new & -> & Hn).
  exists (tok :: new). split; [by rewrite <- app_assoc|].
  simpl. rewrite Eb, El, Es, Hn. rewrite !bool_decide_eq_true_2; done.
Qed.

End LexerFacts.

(** X22: every token that the lexer returns carries the text that stands at
    its location, and the tokens follow one another in the input. *)
Theorem X22_lexer_located `{Utf8proc} (s : string) (fuel : nat) (toks : list Parser.Token) :
  zbuf.size s < 2 ^ 64 ->
  lex fuel s = Some (Parser.Ok toks) ->
  located s 0 toks = true.
Proof.
  intros Hs E. unfold lex in E.
  destruct (lex_loop_located s fuel s 0 Parser.Invalid [] toks Hs) as (new & -> & Hn);
    [right; by exists ""|done|done].
Qed.

(** * The lexer returns *)

Section LexerReturns.

Import Parser.

Context `{Utf8proc}.

Lemma skip_whitespace_mono fuel fuel' src idx r :
  skip_whitespace fuel src idx = Some r -> (fuel <= fuel')%nat ->
  skip_whitespace fuel' src idx = Some r.
Proof.
  revert fuel' src idx. induction fuel as [|fuel IH]; intros [|fuel'] src idx; simpl;
    try done; try lia.
  intros E Hle. repeat (destruct (decide _); [|done]). apply IH; [done|lia].
Qed.

Lemma identifier_length_mono fuel fuel' tmp n r :
  identifier_length fuel tmp n = Some r -> (fuel <= fuel')%nat ->
  identifier_length fuel' tmp n = Some r.
Proof.
  revert fuel' tmp n. induction fuel as [|fuel IH]; intros [|fuel'] tmp n; simpl;
    try done; try lia.
  intros E Hle. destruct (decide _); [|done]. apply IH; [done|lia].
Qed.

Lemma lex_one_token_mono fuel fuel' src idx prevType r :
  lex_one_token fuel src idx prevType = Some r -> (fuel <= fuel')%nat ->
  lex_one_token fuel' src idx prevType = Some r.
Proof.
  unfold lex_one_token. intros E Hle.
  destruct (skip_whitespace fuel src idx) as [[src1 idx1]|] eqn:Ew; [|done].
  rewrite (skip_whitespace_mono _ _ _ _ _ Ew Hle). simpl in *.
  destruct (zbuf.empty src1); [done|].
  repeat (destruct (decide (zbuf.find _ _ = 0)); [done|]).
  destruct (decide _); [|done].
  destruct (identifier_length fuel _ _) as [L|] eqn:EL; [|done].
  by rewrite (identifier_length_mono _ _ _ _ _ EL Hle).
Qed.

Lemma lex_loop_mono fuel fuel' src idx prevType ret r :
  lex_loop fuel src idx prevType ret = Some r -> (fuel <= fuel')%nat ->
  lex_loop fuel' src idx prevType ret = Some r.
Proof.
  revert fuel' src idx prevType ret.
  induction fuel as [|fuel IH]; intros [|fuel'] src idx prevType ret; simpl; try done; try lia.
  intros E Hle.
  destruct (lex_one_token fuel src idx prevType) as [[[[tok|e] src1] idx1]|] eqn:E1; try done.
  - rewrite (lex_one_token_mono _ fuel' _ _ _ _ E1) by lia. simpl in *.
    destruct (decide _); [done|]. apply IH; [done|lia].
  - by rewrite (lex_one_token_mono _ fuel' _ _ _ _ E1) by lia.
Qed.

(** What is cut off the front of a view that is not empty makes it
    shorter. *)
Lemma size_drop_lt k src :
  0 < k -> 0 < zbuf.size src -> zbuf.size (zbuf.drop k src) < zbuf.size src.
Proof.
  intros Hk Hs. destruct (decide (k <= zbuf.size src)) as [Hle|Hgt].
  - rewrite drop_spec by lia. unfold zbuf.size in *.
    rewrite substring_length_le; lia.
  - rewrite drop_over by lia. done.
Qed.

Lemma size_drop k src :
  0 <= k <= zbuf.size src -> zbuf.size (zbuf.drop k src) = zbuf.size src - k.
Proof.
  intros Hk. rewrite drop_spec by lia. unfold zbuf.size in *.
  rewrite substring_length_le; lia.
Qed.

Lemma skip_whitespace_returns fuel src idx :
  (Z.to_nat (zbuf.size src) < fuel)%nat ->
  exists src' idx', skip_whitespace fuel src idx = Some (src', idx')
                    /\ zbuf.size src' <= zbuf.size src.
Proof.
  revert src idx. induction fuel as [|fuel IH]; intros src idx Hf; [lia|]. simpl.
  destruct (decide _) as [Hpos|_]; [|exists src, idx; split; [done|lia]].
  set (k := is_category _ _).
  destruct (decide (k > 0)) as [Hk0|_]; [|exists src, idx; split; [done|lia]].
  unfold zbuf.remove_prefix.
  pose proof (size_drop_lt k src ltac:(lia) ltac:(lia)) as Hlt.
  pose proof (size_nonneg (zbuf.drop k src)).
  destruct (IH (zbuf.drop k src) (zbuf.size_t (idx + k))) as (src' & idx' & E & Hle); [lia|].
  exists src', idx'. split; [done|lia].
Qed.

Hypothesis Hview : within_view.

Lemma is_category_within str cats : is_category str cats <= zbuf.size str.
Proof.
  unfold is_category. destruct (utf8proc_iterate str) as [sz cp] eqn:E.
  pose proof (size_nonneg str).
  destruct (decide _); [lia|]. destruct (decide _); [|lia].
  pose proof (Hview str sz cp E ltac:(done)). unfold zbuf.size_t.
  destruct (decide (sz < 2 ^ 64)); [rewrite Z.mod_small; lia|].
  pose proof (Z.mod_pos_bound sz (2 ^ 64) ltac:(lia)). lia.
Qed.

Lemma is_valid_identifier_within str : is_valid_identifier str <= zbuf.size str.
Proof.
  unfold is_valid_identifier, is_letter, is_digit.
  repeat (destruct (decide _); [apply is_category_within|]). apply size_nonneg.
Qed.

Lemma identifier_length_returns fuel tmp n :
  (Z.to_nat (zbuf.size tmp) < fuel)%nat -> 0 <= n -> n + zbuf.size tmp < 2 ^ 64 ->
  exists L, identifier_length fuel tmp n = Some L /\ n <= L <= n + zbuf.size tmp.
Proof.
  revert tmp n. induction fuel as [|fuel IH]; intros tmp n Hf Hn Hb; [lia|]. simpl.
  pose proof (is_valid_identifier_within tmp) as Hw.
  pose proof (is_valid_identifier_range tmp) as Hr.
  pose proof (size_nonneg tmp).
  destruct (decide _) as [Hk|_]; [|exists n; split; [done|lia]].
  unfold zbuf.remove_prefix.
  assert (zbuf.size (zbuf.drop (is_valid_identifier tmp) tmp)
          = zbuf.size tmp - is_valid_identifier tmp) as Ed by (apply size_drop; lia).
  rewrite size_t_small by lia.
  destruct (IH (zbuf.drop (is_valid_identifier tmp) tmp) (n + is_valid_identifier tmp))
    as (L & E & HL); [lia..|].
  exists L. split; [done|lia].
Qed.

(** A call of [lex_one_token] returns; a token that is not the end makes
    the view shorter. *)
Lemma lex_one_token_returns fuel src idx prevType :
  (Z.to_nat (zbuf.size src) < fuel)%nat -> zbuf.size src < 2 ^ 64 ->
  exists r src' idx', lex_one_token fuel src idx prevType = Some (r, src', idx')
    /\ zbuf.size src' <= zbuf.size src
    /\ forall tok, r = Ok tok -> type tok <> EndOfFile -> zbuf.size src' < zbuf.size src.
Proof.
  intros Hf Hs. unfold lex_one_token.
  destruct (skip_whitespace_returns fuel src idx Hf) as (src1 & idx1 & -> & Hle). simpl.
  pose proof (size_nonneg src1).
  destruct (zbuf.empty src1) eqn:Ee.
  { do 3 eexists. split; [done|]. split; [done|]. by intros tok [= <-]. }
  assert (1 <= zbuf.size src1) as Hne.
  { unfold zbuf.empty in Ee. case_bool_decide; [done|]. lia. }
  unfold take_and_return_taken, zbuf.remove_prefix.
  destruct (decide (zbuf.find "->" src1 = 0)) as [F|_].
  { apply find_zero in F as [F _]. change (zbuf.size "->") with 2 in F.
    do 3 eexists. split; [done|].
    rewrite (size_drop (strlen "->") src1) by (change (strlen "->") with 2; lia).
    change (strlen "->") with 2. split; [lia|]. intros; lia. }
  destruct (decide (zbuf.find "Î»" src1 = 0)) as [F|_].
  { apply find_zero in F as [F _]. change (zbuf.size "Î»") with 4 in F.
    do 3 eexists. split; [done|].
    rewrite (size_drop (strlen "Î»") src1) by (change (strlen "Î»") with 4; lia).
    change (strlen "Î»") with 4. split; [lia|]. intros; lia. }
  destruct (decide (is_valid_identifier src1 > 0)) as [Hi|_].
  { pose proof (is_valid_identifier_within src1) as Hw.
    pose proof (is_valid_identifier_range src1) as Hr.
    assert (zbuf.size (zbuf.drop (is_valid_identifier src1) src1)
            = zbuf.size src1 - is_valid_identifier src1) as Ed by (apply size_drop; lia).
    destruct (identifier_length_returns fuel (zbuf.drop (is_valid_identifier src1) src1)
                (is_valid_identifier src1)) as (L & -> & HL); [lia..|].
    simpl. do 3 eexists. split; [done|].
    rewrite (size_drop L src1) by lia. split; [lia|]. intros; lia. }
  assert (zbuf.size (zbuf.drop 1 src1) < zbuf.size src1) as Hd
    by (rewrite size_drop; lia).
  destruct (get 0 src1) as [c|].
  2:{ do 3 eexists. split; [done|]. split; [lia|]. by intros tok. }
  destruct c as [[] [] [] [] [] [] [] []];
    (do 3 eexists; split; [done|]; split; [lia|]; try (by intros tok); intros; lia).
Qed.

Lemma lex_loop_returns fuel src idx prevType ret :
  (Z.to_nat (zbuf.size src) + 2 <= fuel)%nat -> zbuf.size src < 2 ^ 64 ->
  exists r, lex_loop fuel src idx prevType ret = Some r
    /\ forall toks, r = Ok toks ->
         (List.length toks <= List.length ret + Z.to_nat (zbuf.size src))%nat.
Proof.
  revert src idx prevType ret.
  induction fuel as [|fuel IH]; intros src idx prevType ret Hf Hs; [lia|]. simpl.
  destruct (lex_one_token_returns fuel src idx prevType) as (r & src1 & idx1 & -> & Hle & Hlt);
    [lia|done|].
  simpl. destruct r as [tok|e].
  2:{ eexists. split; [done|]. by intros toks. }
  destruct (decide _) as [Ht|Ht].
  { eexists. split; [done|]. intros toks [= <-]. lia. }
  specialize (Hlt tok eq_refl Ht). pose proof (size_nonneg src1).
  destruct (IH src1 (zbuf.size_t (idx1 + zbuf.size (text tok))) (type tok) (ret ++ [tok]))
    as (r & -> & Hr); [lia..|].
  eexists. split; [done|]. intros toks ->. specialize (Hr toks eq_refl).
  rewrite length_app in Hr. simpl in Hr. lia.
Qed.

Lemma parse_returns_bound fuel str :
  (3 * String.length str + 3 <= fuel)%nat -> zbuf.size str < 2 ^ 64 ->
  exists r, parse fuel str = Some r
            /\ parse (3 * String.length str + 3) str = Some r.
Proof.
  intros Hf Hs. unfold parse. destruct (zbuf.empty str); [eauto|]. unfold lex.
  assert (Z.to_nat (zbuf.size str) = String.length str) as Es
    by (unfold zbuf.size; lia).
  remember (3 * String.length str + 3)%nat as N eqn:EN.
  destruct (lex_loop_returns N str 0 Invalid []) as (r & E & Hr); [lia|done|].
  rewrite E, (lex_loop_mono _ _ _ _ _ _ _ E Hf). simpl. destruct r as [toks|e]; [|eauto].
  specialize (Hr toks eq_refl). simpl in Hr. unfold parse_tokens.
  destruct (parseStmt_returns N toks) as [[r st] Er]; [lia|].
  rewrite Er, (parseStmt_mono _ _ _ _ Er Hf). simpl.
  destruct r; [destruct (negb (empty st))|]; eauto.
Qed.

End LexerReturns.

(** X23: [parse] returns on every text, whatever it holds, and more fuel does
    not change what it returns. *)
Theorem X23_parse_returns `{Utf8proc} (str : string) (fuel : nat) :
  within_view -> zbuf.size str < 2 ^ 64 ->
  (3 * String.length str + 3 <= fuel)%nat ->
  exists r, parse fuel str = Some r
            /\ parse (3 * String.length str + 3) str = Some r.
Proof. intros Hv Hs Hf. by apply parse_returns_bound. Qed.

(** * Reading ASCII *)

Lemma code_range (c : ascii) : 0 <= code c < 256.
Proof. by destruct c as [[] [] [] [] [] [] [] []]. Qed.

Lemma size_cons (c : ascii) (s : string) : zbuf.size (String c s) = 1 + zbuf.size s.
Proof. unfold zbuf.size. simpl. lia. Qed.

Lemma take_prefix (w R : string) :
  zbuf.size (w +:+ R) < 2 ^ 64 -> zbuf.take (zbuf.size w) (w +:+ R) = w.
Proof.
  intros Hs. rewrite take_spec by (done || apply size_nonneg).
  unfold zbuf.size. rewrite Nat2Z.id. apply (substring_app_mid "" w R).
Qed.

Lemma drop_prefix (w R : string) : zbuf.drop (zbuf.size w) (w +:+ R) = R.
Proof.
  pose proof (size_nonneg w). pose proof (size_nonneg R).
  rewrite drop_spec by (rewrite size_app; lia).
  unfold zbuf.size. rewrite Nat2Z.id, string_length_app.
  replace (String.length w + String.length R - String.length w)%nat
    with (String.length R) by lia.
  rewrite <- (string_app_nil_r R) at 2. apply substring_app_mid.
Qed.

Lemma drop_zero (s : string) : zbuf.drop 0 s = s.
Proof. apply (drop_prefix "" s). Qed.

Lemma drop_one (c : ascii) (s : string) : zbuf.drop 1 (String c s) = s.
Proof. apply (drop_prefix (String c "") s). Qed.

Lemma take_one (c : ascii) (s : string) :
  zbuf.size (String c s) < 2 ^ 64 -> zbuf.take 1 (String c s) = String c "".
Proof. apply (take_prefix (String c "") s). Qed.

(** [operator==] against a literal without NUL. *)
Lemma strncmp_literal (w l : string) :
  String.length w = String.length l -> no_nul l = true ->
  zbuf.strncmp w l (String.length l) = bool_decide (w = l).
Proof.
  revert w. induction l as [|c l IH]; intros [|d w] Hlen Hnul; simpl in *; try done.
  apply andb_true_iff in Hnul as [Hc%bool_decide_eq_true Hnul].
  destruct (decide (d = c)) as [->|Hne].
  - destruct (decide (c = Ascii.zero)) as [->|Hz]; [done|].
    rewrite IH by (done || lia). apply bool_decide_ext. split; congruence.
  - symmetry. apply bool_decide_eq_false. congruence.
Qed.

Lemma eq_literal (w l : string) :
  no_nul l = true -> zbuf.eq w l = bool_decide (w = l).
Proof.
  intros Hnul. unfold zbuf.eq. case_bool_decide as Hs; simpl.
  - rewrite Hs, Z.min_id. unfold zbuf.size in *. rewrite Nat2Z.id.
    apply strncmp_literal; [lia|done].
  - symmetry. apply bool_decide_eq_false. by intros ->.
Qed.

(** [find] does not answer 0 for a view that starts with another byte. *)
Lemma find_head_ne (c d : ascii) (s sv : string) :
  c <> d -> zbuf.size (String c s) < 2 ^ 64 ->
  zbuf.find (String d sv) (String c s) <> 0.
Proof.
  intros Hne Hs F. apply find_zero in F as [Hle [?|E]]; [done|].
  rewrite drop_zero in E. unfold zbuf.eq in E. apply andb_true_iff in E as [E1 E2].
  apply bool_decide_eq_true in E1. rewrite E1, Z.min_id in E2.
  rewrite take_spec in E2 by (done || apply size_nonneg).
  rewrite size_cons in E2.
  replace (Z.to_nat (1 + zbuf.size sv)) with (S (Z.to_nat (zbuf.size sv))) in E2
    by (pose proof (size_nonneg sv); lia).
  simpl in E2. by destruct (decide (c = d)).
Qed.

Lemma find_prefix (sv R : string) :
  sv <> "" -> no_nul sv = true ->
  zbuf.size (sv +:+ R) < 2 ^ 64 -> zbuf.find sv (sv +:+ R) = 0.
Proof.
  intros Hne Hnul Hs. unfold zbuf.find. pose proof (size_nonneg R).
  destruct (decide _) as [Hgt|_]; [rewrite size_app in Hgt; lia|].
  unfold zbuf.empty. case_bool_decide as E; [by apply size_nil in E|].
  replace (Z.to_nat (1 + zbuf.size (sv +:+ R) - zbuf.size sv))
    with (S (Z.to_nat (zbuf.size R))) by (rewrite size_app; lia).
  simpl. rewrite drop_zero, take_prefix, eq_literal by done.
  by rewrite bool_decide_eq_true_2.
Qed.

Section ReadingAscii.

Import Parser.

Context `{Utf8proc}.
Hypothesis Hview : within_view.
Hypothesis Hascii : reads_ascii.

Lemma is_category_ascii c r cats :
  code c < 128 ->
  is_category (String c r) cats
  = if decide (ascii_category (code c) ∈ cats) then 1 else 0.
Proof.
  intros Hc. unfold is_category. destruct Hascii as [Hi Hcat].
  pose proof (code_range c). rewrite (Hi c r Hc), (Hcat (code c)) by lia.
  destruct (decide (code c = -1)); [lia|]. done.
Qed.

Lemma is_category_nil cats : is_category "" cats = 0.
Proof.
  pose proof (is_category_within Hview "" cats). pose proof (is_category_range "" cats).
  change (zbuf.size "") with 0 in *. lia.
Qed.

Lemma is_valid_identifier_nil : is_valid_identifier "" = 0.
Proof.
  pose proof (is_valid_identifier_within Hview ""). pose proof (is_valid_identifier_range "").
  change (zbuf.size "") with 0 in *. lia.
Qed.

Lemma is_valid_identifier_ascii c r :
  code c < 128 -> is_valid_identifier (String c r) = if ident_char c then 1 else 0.
Proof.
  intros Hc. unfold is_valid_identifier, is_letter, is_digit.
  rewrite !is_category_ascii by done. clear -Hc.
  destruct c as [[] [] [] [] [] [] [] []]; try done; by vm_compute in Hc.
Qed.

Lemma is_space_ascii c r :
  code c < 128 ->
  is_category (String c r) [UTF8PROC_CATEGORY_ZS; UTF8PROC_CATEGORY_ZL; UTF8PROC_CATEGORY_ZP]
  = if decide (c = " "%char) then 1 else 0.
Proof.
  intros Hc. rewrite is_category_ascii by done. clear -Hc.
  destruct c as [[] [] [] [] [] [] [] []]; try done; by vm_compute in Hc.
Qed.

End ReadingAscii.

(** * Reading what the printer writes *)

Lemma ident_char_ascii c : ident_char c = true -> code c < 128.
Proof. unfold ident_char. intros Hc%bool_decide_eq_true. lia. Qed.

Lemma size_pos_cons (c : ascii) (s : string) : zbuf.size (String c s) > 0.
Proof. rewrite size_cons. pose proof (size_nonneg s). lia. Qed.

Lemma empty_cons (c : ascii) (s : string) : zbuf.empty (String c s) = false.
Proof.
  unfold zbuf.empty. apply bool_decide_eq_false. pose proof (size_pos_cons c s). lia.
Qed.

Section ReadingItems.

Import Parser.

Context `{Utf8proc}.
Hypothesis Hview : within_view.
Hypothesis Hascii : reads_ascii.

Lemma is_valid_identifier_delim R : delim R -> is_valid_identifier R = 0.
Proof.
  intros [->|(c & r & -> & Hc & Hi)]; [by apply (is_valid_identifier_nil Hview)|].
  by rewrite (is_valid_identifier_ascii Hascii), Hi.
Qed.

Lemma identifier_length_run w R fuel n :
  ident_chars w = true -> delim R -> (String.length w < fuel)%nat ->
  0 <= n -> n + zbuf.size w < 2 ^ 64 ->
  identifier_length fuel (w +:+ R) n = Some (n + zbuf.size w).
Proof.
  revert fuel n. induction w as [|c w IH]; intros [|fuel] n Hw HR Hf Hn Hb; simpl in *;
    try lia.
  - rewrite string_app_nil_l, is_valid_identifier_delim by done.
    destruct (decide _); [lia|]. f_equal. change (zbuf.size "") with 0. lia.
  - apply andb_true_iff in Hw as [Hc Hw]. rewrite string_app_cons.
    rewrite (is_valid_identifier_ascii Hascii), Hc by (by apply ident_char_ascii).
    destruct (decide _) as [_|?]; [|lia]. unfold zbuf.remove_prefix.
    rewrite drop_one. rewrite size_cons in *. pose proof (size_nonneg w).
    rewrite size_t_small by lia. rewrite IH by (done || lia). f_equal. lia.
Qed.

(** A view that starts with an ASCII character other than the space is
    where the white space ends. *)
Lemma skip_whitespace_stay c R fuel idx :
  code c < 128 -> c <> " "%char ->
  skip_whitespace (S fuel) (String c R) idx = Some (String c R, idx).
Proof.
  intros Hc Hs. cbn [skip_whitespace].
  destruct (decide (zbuf.size _ > 0)) as [_|Hn]; [|by destruct Hn; apply size_pos_cons].
  rewrite (is_space_ascii Hascii) by done. destruct (decide (c = " "%char)); [done|].
  by destruct (decide _).
Qed.

Lemma lex_one_token_word w R fuel idx prevType :
  w <> "" -> ident_chars w = true -> delim R -> (String.length w < fuel)%nat ->
  zbuf.size (w +:+ R) < 2 ^ 64 ->
  lex_one_token fuel (w +:+ R) idx prevType
  = Some (Ok (mkToken (mkLocation idx (zbuf.size w)) w (word_type w)), R, idx).
Proof.
  intros Hne Hw HR Hf Hs. destruct w as [|c w]; [done|]. clear Hne.
  simpl in Hw. apply andb_true_iff in Hw as [Hc Hw].
  pose proof (ident_char_ascii c Hc) as Hc128.
  destruct fuel as [|fuel]; [simpl in Hf; lia|].
  unfold lex_one_token. rewrite string_app_cons in *.
  rewrite skip_whitespace_stay; [|done|by intros ->]. cbn [mbind option_bind].
  rewrite empty_cons.
  destruct (decide (zbuf.find "->" _ = 0)) as [F|_].
  { exfalso. revert F. apply find_head_ne; [by intros ->|done]. }
  destruct (decide (zbuf.find "Î»" _ = 0)) as [F|_].
  { exfalso. revert F. apply find_head_ne; [|done]. intros ->. by vm_compute in Hc128. }
  rewrite (is_valid_identifier_ascii Hascii), Hc by done.
  destruct (decide _) as [_|?]; [|lia].
  rewrite drop_one. rewrite size_cons, size_app in Hs. pose proof (size_nonneg R).
  pose proof (size_nonneg w).
  rewrite identifier_length_run; [|done|done|simpl in Hf; lia|lia|lia]. simpl.
  unfold zbuf.remove_prefix. rewrite <- string_app_cons.
  replace (1 + zbuf.size w) with (zbuf.size (String c w)) by (by rewrite size_cons).
  rewrite take_prefix, drop_prefix; [done|]. rewrite string_app_cons, size_cons, size_app. lia.
Qed.

(** The characters that stand for themselves. *)
Lemma lex_one_token_single c ty R fuel idx prevType :
  (c, ty) ∈ [("("%char, LParen); (")"%char, RParen); ("\"%char, TLambda); ("="%char, Equal)] ->
  zbuf.size (String c R) < 2 ^ 64 ->
  lex_one_token (S fuel) (String c R) idx prevType
  = Some (Ok (mkToken (mkLocation idx 1) (String c "") ty), R, idx).
Proof.
  intros Hin Hs.
  assert (code c < 128 /\ c <> " "%char /\ c <> "-"%char /\ ident_char c = false
          /\ c <> "195"%char) as (Hc & Hsp & Hd & Hi & Hl).
  { repeat (apply elem_of_cons in Hin as [[= -> ->]|Hin]; [by repeat split|]).
    by apply elem_of_nil in Hin. }
  unfold lex_one_token. rewrite skip_whitespace_stay by done. cbn [mbind option_bind].
  rewrite empty_cons.
  destruct (decide (zbuf.find "->" _ = 0)) as [F|_].
  { exfalso. revert F. by apply find_head_ne. }
  destruct (decide (zbuf.find "Î»" _ = 0)) as [F|_].
  { exfalso. revert F. by apply find_head_ne. }
  rewrite (is_valid_identifier_ascii Hascii), Hi by done.
  destruct (decide _) as [?|_]; [lia|].
  unfold zbuf.remove_prefix. rewrite take_one, drop_one by done.
  repeat (apply elem_of_cons in Hin as [[= -> ->]|Hin]; [done|]).
  by apply elem_of_nil in Hin.
Qed.

Lemma lex_one_token_arrow R fuel idx prevType :
  zbuf.size ("->" +:+ R) < 2 ^ 64 ->
  lex_one_token (S fuel) ("->" +:+ R) idx prevType
  = Some (Ok (mkToken (mkLocation idx 2) "->" RightArrow), R, idx).
Proof.
  intros Hs. unfold lex_one_token.
  rewrite (skip_whitespace_stay "-" (String ">" R)) by done. cbn [mbind option_bind].
  change (String "-" (String ">" R)) with ("->" +:+ R).
  replace (zbuf.empty ("->" +:+ R)) with false by (symmetry; apply empty_cons).
  rewrite find_prefix by done. destruct (decide _) as [_|?]; [|done].
  unfold take_and_return_taken, zbuf.remove_prefix.
  change (strlen "->") with (zbuf.size "->"). by rewrite take_prefix, drop_prefix.
Qed.

(** A space in front is skipped. *)
Lemma lex_one_token_space R fuel idx prevType :
  (String.length R < fuel)%nat -> 0 <= idx -> idx + 1 < 2 ^ 64 ->
  lex_one_token (S fuel) (String " " R) idx prevType
  = lex_one_token (S fuel) R (idx + 1) prevType.
Proof.
  intros Hf Hi Hb. unfold lex_one_token.
  assert (skip_whitespace (S fuel) (String " " R) idx = skip_whitespace fuel R (idx + 1)) as ->.
  { cbn [skip_whitespace].
    destruct (decide (zbuf.size _ > 0)) as [_|Hn]; [|by destruct Hn; apply size_pos_cons].
    rewrite (is_space_ascii Hascii) by done. simpl. unfold zbuf.remove_prefix.
    by rewrite drop_one, size_t_small by lia. }
  destruct (skip_whitespace_returns fuel R (idx + 1)) as (src' & idx' & E & _).
  { unfold zbuf.size. lia. }
  by rewrite E, (skip_whitespace_mono _ (S fuel) _ _ _ E) by lia.
Qed.

Lemma render_delim i its :
  is_word i = false -> delim (render (i :: its)).
Proof.
  intros Hi. right. destruct i; try done; simpl;
    rewrite string_app_cons; do 2 eexists; (split; [done|]); by vm_compute.
Qed.

Lemma separated_delim i its :
  is_word i = true -> separated (i :: its) = true -> delim (render its).
Proof.
  intros Hi Hs. destruct its as [|j its]; [by left|]. apply render_delim.
  simpl in Hs. rewrite Hi in Hs. simpl in Hs. apply andb_true_iff in Hs as [Hs _].
  by destruct (is_word j).
Qed.

Lemma separated_tail i its : separated (i :: its) = true -> separated its = true.
Proof. simpl. intros Hs. by apply andb_true_iff in Hs as [_ Hs]. Qed.

Lemma identifier_word n :
  identifier n = true ->
  n <> "" /\ ident_chars n = true /\ word_type n = Identifier.
Proof.
  unfold identifier. intros Hn.
  apply andb_true_iff in Hn as [Hn H4]. apply andb_true_iff in Hn as [Hn H3].
  apply andb_true_iff in Hn as [H1 H2].
  apply bool_decide_eq_true in H1, H3, H4.
  repeat split; [done..|]. unfold word_type. rewrite !eq_literal by done.
  by rewrite !bool_decide_eq_false_2.
Qed.

Lemma lex_loop_items its :
  Forall (fun i => item_ok i = true) its -> separated its = true ->
  forall fuel idx prevType acc,
    (String.length (render its) + 2 <= fuel)%nat -> 0 <= idx ->
    idx + zbuf.size (render its) < 2 ^ 64 ->
    exists ts, lex_loop fuel (render its) idx prevType acc = Some (Ok (acc ++ ts))
               /\ kinds ts = omap item_kind its.
Proof.
  induction its as [|i its IH]; intros Hok Hsep fuel idx prevType acc Hf Hi Hb.
  { exists []. split; [|done]. destruct fuel as [|[|fuel]]; simpl in Hf; try lia.
    by rewrite app_nil_r. }
  apply Forall_cons in Hok as [Hoki Hok]. pose proof (separated_tail _ _ Hsep) as Hsep'.
  simpl render in *. rewrite size_app in Hb. rewrite string_length_app in Hf.
  pose proof (size_nonneg (render its)) as Hr.
  assert (forall w ty fuel',
    lex_one_token fuel' (w +:+ render its) idx prevType
    = Some (Ok (mkToken (mkLocation idx (zbuf.size w)) w ty), render its, idx) ->
    ty <> EndOfFile -> fuel = S fuel' -> render_item i = w -> item_kind i = Some (ty, w) ->
    exists ts, lex_loop fuel (w +:+ render its) idx prevType acc = Some (Ok (acc ++ ts))
               /\ kinds ts = omap item_kind (i :: its)) as Step.
  { intros w ty fuel' E Hty -> Ew Ek. simpl. rewrite E. simpl.
    destruct (decide _) as [?|_]; [done|].
    rewrite <- Ew in *. pose proof (size_nonneg (render_item i)).
    assert (1 <= String.length (render_item i))%nat as Hlen.
    { destruct i; simpl; try lia. apply identifier_word in Hoki as (Hne & _).
      destruct n; [done|simpl; lia]. }
    rewrite size_t_small by lia.
    destruct (IH Hok Hsep' fuel' (idx + zbuf.size (render_item i)) ty
                (acc ++ [mkToken (mkLocation idx (zbuf.size (render_item i))) (render_item i) ty]))
      as (ts & -> & Hk); [lia..|].
    eexists (_ :: ts). split; [by rewrite <- app_assoc|].
    simpl. by rewrite Ek, Hk. }
  assert (exists fuel', fuel = S fuel' /\ (String.length (render its) < fuel')%nat)
    as (fuel' & -> & Hf').
  { destruct fuel as [|fuel']; [lia|]. exists fuel'. split; [done|].
    lia. }
  assert (zbuf.size (render_item i +:+ render its) < 2 ^ 64) as Hsz by (rewrite size_app; lia).
  destruct i; simpl render_item in *.
  - (* a space *)
    rewrite string_app_cons, string_app_nil_l.
    change (zbuf.size " ") with 1 in *. change (String.length " ") with 1%nat in *.
    cbn [lex_loop]. destruct fuel' as [|fuel'']; [lia|].
    rewrite lex_one_token_space by (done || lia).
    destruct (IH Hok Hsep' (S fuel'') (idx + 1) prevType acc) as (ts & E & Hk); [lia..|].
    cbn [lex_loop] in E.
    destruct (lex_one_token fuel'' (render its) (idx + 1) prevType) as [r|] eqn:E1; [|done].
    rewrite (lex_one_token_mono _ (S fuel'') _ _ _ _ E1) by lia.
    cbn [mbind option_bind] in *. destruct r as [[[tok|e] src1] idx1]; [|done].
    destruct (decide _) as [?|_]; [by eauto|].
    exists ts. split; [|done]. eapply lex_loop_mono; [done|lia].
  - eapply (Step "let" TLet); try done.
    apply (lex_one_token_word "let"); try done; [|simpl in *; lia].
    by apply (separated_delim ILet).
  - destruct (identifier_word n Hoki) as (Hne & Hch & Hty).
    eapply (Step n Identifier); try done. rewrite <- Hty.
    apply lex_one_token_word; try done; [|simpl in Hf; lia].
    by apply (separated_delim (IName n)).
  - destruct fuel' as [|f2]; [lia|]. eapply (Step "(" LParen (S f2)); try done.
    apply (lex_one_token_single "("%char LParen); [set_solver|done].
  - destruct fuel' as [|f2]; [lia|]. eapply (Step ")" RParen (S f2)); try done.
    apply (lex_one_token_single ")"%char RParen); [set_solver|done].
  - destruct fuel' as [|f2]; [lia|]. eapply (Step "\" TLambda (S f2)); try done.
    apply (lex_one_token_single "\"%char TLambda); [set_solver|done].
  - destruct fuel' as [|f2]; [lia|]. eapply (Step "->" RightArrow (S f2)); try done.
    by apply lex_one_token_arrow.
  - destruct fuel' as [|f2]; [lia|]. eapply (Step "=" Equal (S f2)); try done.
    apply (lex_one_token_single "="%char Equal); [set_solver|done].
Qed.

End ReadingItems.

(** * What the printer writes *)

Lemma render_app a b : render (a ++ b) = render a +:+ render b.
Proof.
  induction a as [|i a IH]; [done|]. simpl. by rewrite IH, string_app_assoc.
Qed.

Lemma separated_app_nonword a x b :
  is_word x = false -> separated a = true -> separated b = true ->
  separated (a ++ x :: b) = true.
Proof.
  intros Hx Ha Hb. induction a as [|i a IH].
  - simpl. rewrite Hx, Hb. by destruct b.
  - simpl in Ha. apply andb_true_iff in Ha as [Hi Ha]. specialize (IH Ha).
    change ((i :: a) ++ x :: b) with (i :: (a ++ x :: b)).
    cbn [separated]. rewrite IH, andb_true_r.
    destruct a as [|j a]; simpl; [by rewrite Hx, andb_false_r|done].
Qed.

Lemma separated_cons_nonword x b :
  is_word x = false -> separated b = true -> separated (x :: b) = true.
Proof. intros Hx Hb. by apply (separated_app_nonword [] x b). Qed.

Lemma separated_snoc_nonword a x :
  is_word x = false -> separated a = true -> separated (a ++ [x]) = true.
Proof. intros Hx Ha. by apply (separated_app_nonword a x []). Qed.

Lemma kinds_app_inv ts l1 l2 :
  kinds ts = l1 ++ l2 -> exists ts1 ts2, ts = ts1 ++ ts2 /\ kinds ts1 = l1 /\ kinds ts2 = l2.
Proof. intros E. apply fmap_app_inv in E as (ts1 & ts2 & ? & ? & ?). eauto. Qed.

Lemma kinds_cons_inv ts ty w l :
  kinds ts = (ty, w) :: l ->
  exists t ts', ts = t :: ts' /\ Parser.type t = ty /\ Parser.text t = w /\ kinds ts' = l.
Proof.
  intros E. apply fmap_cons_inv in E as (t & ts' & E1 & E2 & ->).
  injection E1 as E1 E3. eauto 10.
Qed.

Lemma kinds_nil_inv ts : kinds ts = [] -> ts = [].
Proof. apply fmap_nil_inv. Qed.

(** Atoms can be carried on. *)
Lemma extendable_atom ts a : spells_atom ts a -> extendable ts a.
Proof. intros Ha ts2 e Hc. by eapply spells_atoms. Qed.

Lemma extendable_apply ts l ts1 a :
  extendable ts l -> spells_atom ts1 a -> extendable (ts ++ ts1) (Apply l a).
Proof.
  intros Hl Ha ts2 e Hc. rewrite <- app_assoc. apply Hl. by eapply spells_chain_atom.
Qed.

Lemma extendable_expr ts l : extendable ts l -> spells_expr ts l.
Proof. intros Hl. rewrite <- (app_nil_r ts). apply Hl. constructor. Qed.

Lemma spelled_extendable e its ts :
  spelled_by false false e its -> kinds ts = omap item_kind its -> extendable ts e.
Proof.
  intros Hs Hk. specialize (Hs ts Hk). destruct e; try done; by apply extendable_atom.
Qed.

Lemma spelled_expr e its ts :
  spelled_by false false e its -> kinds ts = omap item_kind its -> spells_expr ts e.
Proof. intros Hs Hk. by eapply extendable_expr, spelled_extendable. Qed.

Ltac str_norm :=
  unfold Printer.add; cbn [fst snd];
  repeat (progress (rewrite ?render_app; cbn [render render_item]));
  rewrite ?string_app_assoc, ?string_app_nil_r;
  repeat (rewrite ?string_app_cons, ?string_app_nil_l).

Ltac use_IH IH its2 ca2 bot2 E2 Hi2 Hs2 Hg2 :=
  unfold Printer.add; cbn [fst snd];
  match goal with
  | |- context [Printer.int_highlight _ ?p ?c ?o (Printer.mkState _ _ _ _ ?ca _) (?t, ?b)] =>
      destruct (IH p c o ca t b) as (its2 & ca2 & bot2 & E2 & Hi2 & Hs2 & Hg2); rewrite E2
  end.

Lemma paren_atom lp ts rp e ts' :
  ts' = lp :: ts ++ [rp] ->
  Parser.type lp = Parser.LParen -> Parser.type rp = Parser.RParen -> spells_expr ts e ->
  spells_atom ts' e.
Proof. intros ->. apply spells_paren. Qed.

(** The parameter of a lambda and what follows it. *)
Lemma params_combined x its2 body :
  (forall ts, kinds ts = omap item_kind its2 -> spells_params ts body) ->
  forall ts, kinds ts = omap item_kind (IName x :: ISpace :: its2) ->
    spells_params ts (Lambda x body).
Proof.
  intros Hb ts Hk. simpl in Hk.
  apply kinds_cons_inv in Hk as (t & ts' & -> & Ht & <- & Hk).
  apply spells_param_more; [done|]. by apply Hb.
Qed.

Lemma params_normal x its2 body :
  (forall ts, kinds ts = omap item_kind its2 -> spells_expr ts body) ->
  forall ts, kinds ts = omap item_kind (IName x :: ISpace :: IArrow :: ISpace :: its2) ->
    spells_params ts (Lambda x body).
Proof.
  intros Hb ts Hk. simpl in Hk.
  apply kinds_cons_inv in Hk as (t & ts' & -> & Ht & <- & Hk).
  apply kinds_cons_inv in Hk as (sep & ts'' & -> & Hsep & _ & Hk).
  apply spells_param_body; [done|by left|]. by apply Hb.
Qed.

Lemma lambda_items_spelled combine omit x body tail :
  (forall ts, kinds ts = omap item_kind tail -> spells_params ts (Lambda x body)) ->
  spelled_by combine omit (Lambda x body) (lambda_items combine omit tail).
Proof.
  intros Ht ts Hk. unfold lambda_items in Hk. destruct combine; simpl in Hk.
  { rewrite app_nil_r in Hk. by apply Ht. }
  destruct omit; simpl in Hk.
  { rewrite app_nil_r in Hk. apply kinds_cons_inv in Hk as (l & ts' & -> & Hl & _ & Hk).
    apply spells_lam; [done|]. by apply Ht. }
  apply kinds_cons_inv in Hk as (lp & ts1 & -> & Hlp & _ & Hk).
  apply kinds_cons_inv in Hk as (l & ts2 & -> & Hl & _ & Hk).
  rewrite omap_app in Hk. simpl in Hk.
  apply kinds_app_inv in Hk as (ts3 & ts4 & -> & Hk3 & Hk4).
  apply kinds_cons_inv in Hk4 as (rp & ts5 & -> & Hrp & _ & ->%kinds_nil_inv).
  apply (spells_paren lp (l :: ts3) rp); [done..|].
  apply spells_lambda_only, spells_lam; [done|]. by apply Ht.
Qed.

Lemma lambda_items_ok combine omit x rest :
  identifier x = true -> Forall (fun i => item_ok i = true) rest -> separated rest = true ->
  Forall (fun i => item_ok i = true) (lambda_items combine omit (IName x :: ISpace :: rest))
  /\ separated (lambda_items combine omit (IName x :: ISpace :: rest)) = true.
Proof.
  intros Hx Hr Hs. unfold lambda_items.
  assert (separated (IName x :: ISpace :: rest) = true) as Ht
    by (by apply (separated_app_nonword [IName x] ISpace rest)).
  assert (Forall (fun i => item_ok i = true) (IName x :: ISpace :: rest)) as Hf
    by (by repeat constructor).
  destruct combine; cbn [app negb andb].
  { rewrite app_nil_r. done. }
  destruct omit; cbn [app negb andb].
  { rewrite app_nil_r. split; [by constructor|]. by apply separated_cons_nonword. }
  split.
  - do 4 (constructor; [done|]). apply Forall_app. split; [done|]. by constructor.
  - apply separated_cons_nonword; [done|]. apply separated_cons_nonword; [done|].
    apply (separated_app_nonword [IName x] ISpace (rest ++ [IClose])); [done..|].
    by apply separated_snoc_nonword.
Qed.

Ltac printer_state :=
  unfold Printer.set_combined_args;
  cbn [Printer.flags Printer.pred Printer.arg_pred Printer.replacer Printer.combined_args
         Printer.ulines].

(** One way through the lambda case of the printer: the call on the body,
    and the pieces [tail its2] after the parameter. *)
Ltac lambda_case IH Hh tail :=
  printer_state; rewrite ?(bool_decide_eq_true_2 _ Hh);
  let its2 := fresh "its2" in
  let ca2 := fresh "ca2" in
  let bot2 := fresh "bot2" in
  let E2 := fresh "E2" in
  let Hi2 := fresh "Hi2" in
  let Hs2 := fresh "Hs2" in
  let Hg2 := fresh "Hg2" in
  use_IH IH its2 ca2 bot2 E2 Hi2 Hs2 Hg2;
  printer_state;
  match goal with
  | |- ex (fun _ => ex (fun _ => ex (fun _ => _ /\ _ /\ _ /\ spelled_by ?c ?o _ _))) =>
      exists (lambda_items c o (tail its2)); do 2 eexists;
      split; [unfold lambda_items; cbn [negb andb app]; str_norm; reflexivity|];
      split; [apply lambda_items_ok; [done|by repeat constructor|
                by repeat (apply separated_cons_nonword; [done|])]|];
      split; [apply lambda_items_ok; [done|by repeat constructor|
                by repeat (apply separated_cons_nonword; [done|])]|];
      apply lambda_items_spelled
  end.

Lemma int_highlight_items flags e :
  Z.land flags FLAG_HASKELL_STYLE <> 0 -> no_let e = true -> names_ok e = true ->
  forall p combine omit ca top bot,
    exists its ca' bot',
      Printer.int_highlight e p combine omit (plain_state flags ca) (top, bot)
      = (plain_state flags ca', (top +:+ render its, bot'))
      /\ Forall (fun i => item_ok i = true) its
      /\ separated its = true /\ spelled_by combine omit e its.
Proof.
  intros Hh. induction e as [n|fn IHfn arg IHarg|x body IH|n v _];
    intros Hnl Hok p combine omit ca top bot; [| | |done].
  - exists [IName n], ca. eexists. split; [|split; [|split]].
    + cbn. by rewrite string_app_nil_r.
    + by repeat constructor.
    + done.
    + intros ts Hk. apply kinds_cons_inv in Hk as (t & ts' & -> & Ht & <- & ->%kinds_nil_inv).
      by constructor.
  - simpl in Hnl, Hok. apply andb_true_iff in Hnl as [Hnl1 Hnl2].
    apply andb_true_iff in Hok as [Hok1 Hok2].
    specialize (IHfn Hnl1 Hok1). specialize (IHarg Hnl2 Hok2).
    unfold plain_state in *. cbn [Printer.int_highlight].
    cbn [Printer.pred Printer.arg_pred Printer.replacer Printer.ulines last].
    use_IH IHfn its1 ca1 bot1 E1 Hi1 Hs1 Hg1.
    unfold Printer.has. cbn [Printer.flags].
    assert (forall ts1 ts2, kinds ts1 = omap item_kind its1 -> spells_atom ts2 arg ->
              extendable (ts1 ++ ts2) (Apply fn arg)) as Hext.
    { intros ts1 ts2 Hk Ha. apply extendable_apply; [|done]. by eapply spelled_extendable. }
    destruct (bool_decide (Z.land flags FLAG_ABBREV_PARENS <> 0) && Printer.is_var arg) eqn:HP.
    + (* a variable, without parentheses *)
      apply andb_true_iff in HP as [-> Hv]. destruct arg as [m| | |]; try done.
      cbn [negb orb andb Printer.is_var is_lambda].
      use_IH IHarg its2 ca2 bot2 E2 Hi2 Hs2 Hg2.
      exists (its1 ++ ISpace :: its2), ca2. eexists. split; [|split; [|split]].
      * str_norm. reflexivity.
      * apply Forall_app. split; [done|]. by constructor.
      * by apply separated_app_nonword.
      * intros ts Hk. rewrite omap_app in Hk. simpl in Hk.
        apply kinds_app_inv in Hk as (ts1 & ts2 & -> & Hk1 & Hk2).
        apply Hext; [done|]. by apply Hg2.
    + (* an argument in parentheses *)
      assert (negb (bool_decide (Z.land flags FLAG_ABBREV_PARENS <> 0))
              || negb (Printer.is_var arg) = true) as ->.
      { destruct (bool_decide _), (Printer.is_var arg); done. }
      use_IH IHarg its2 ca2 bot2 E2 Hi2 Hs2 Hg2.
      exists (its1 ++ ISpace :: IOpen :: its2 ++ [IClose]), ca2. eexists.
      split; [|split; [|split]].
      * str_norm. reflexivity.
      * apply Forall_app. split; [done|]. constructor; [done|]. constructor; [done|].
        apply Forall_app. split; [done|]. by constructor.
      * apply separated_app_nonword; [done..|]. apply separated_cons_nonword; [done|].
        by apply separated_snoc_nonword.
      * intros ts Hk. rewrite omap_app in Hk. simpl in Hk. rewrite omap_app in Hk. simpl in Hk.
        apply kinds_app_inv in Hk as (ts1 & ts2 & -> & Hk1 & Hk2).
        apply kinds_cons_inv in Hk2 as (lp & ts3 & -> & Hlp & _ & Hk3).
        apply kinds_app_inv in Hk3 as (ts4 & ts5 & -> & Hk4 & Hk5).
        apply kinds_cons_inv in Hk5 as (rp & ts6 & -> & Hrp & _ & ->%kinds_nil_inv).
        apply Hext; [done|]. apply spells_paren; [done..|].
        specialize (Hg2 ts4 Hk4).
        destruct (bool_decide (Z.land flags FLAG_ABBREV_PARENS <> 0)) eqn:HP1;
          destruct arg as [m|f a|y b|]; try done; cbn [andb is_lambda] in Hg2.
        all: try (by apply extendable_expr, extendable_atom).
        all: try (by apply extendable_expr).
        by apply spells_lambda_only.
  - simpl in Hnl, Hok. apply andb_true_iff in Hok as [Hx Hok].
    specialize (IH Hnl Hok).
    unfold plain_state in *. cbn [Printer.int_highlight].
    cbn [Printer.pred Printer.arg_pred Printer.replacer Printer.ulines last].
    unfold Printer.has. cbn [Printer.flags].
    rewrite (bool_decide_eq_true_2 _ Hh).
    destruct (bool_decide (Z.land flags FLAG_ABBREV_LAMBDA <> 0)) eqn:HL; printer_state.
    + rewrite HL.
      destruct body as [m|f a|y b|m w] eqn:Eb; [| |destruct (decide (y ∈ {[x]} ∪ ca))|done];
        destruct combine, omit; cbn [negb andb].
      all: try (lambda_case IH Hh (fun its2 => IName x :: ISpace :: IArrow :: ISpace :: its2);
                apply params_normal; intros ts Hk;
                match goal with Hg : spelled_by _ _ _ _ |- _ => specialize (Hg ts Hk) end;
                first [by apply extendable_expr, extendable_atom
                      |by apply extendable_expr
                      |by apply spells_lambda_only]).
      all: lambda_case IH Hh (fun its2 => IName x :: ISpace :: its2);
        apply params_combined; intros ts Hk;
        match goal with Hg : spelled_by _ _ _ _ |- _ => by specialize (Hg ts Hk) end.
    + rewrite ?HL.
      destruct body as [m|f a|y b|m w] eqn:Eb; [| | |done];
        destruct combine, omit; cbn [negb andb].
      all: lambda_case IH Hh (fun its2 => IName x :: ISpace :: IArrow :: ISpace :: its2);
        apply params_normal; intros ts Hk;
        match goal with Hg : spelled_by _ _ _ _ |- _ => specialize (Hg ts Hk) end;
        first [by apply extendable_expr, extendable_atom|by apply extendable_expr].
Qed.

(** * What is printed in the style of Haskell is read back *)

Section PrintParse.

Import Parser.

Context `{Utf8proc}.
Hypothesis Hview : within_view.
Hypothesis Hascii : reads_ascii.

(** The pieces of a statement are read as the statement. *)
Lemma parse_items its e fuel :
  Forall (fun i => item_ok i = true) its -> separated its = true ->
  (forall ts, kinds ts = omap item_kind its -> spells_stmt ts e) ->
  zbuf.size (render its) < 2 ^ 64 ->
  (3 * String.length (render its) + 3 <= fuel)%nat ->
  parse fuel (render its) = Some (Ok e).
Proof.
  intros Hok Hsep Hsp Hs Hf.
  destruct (lex_loop_items Hview Hascii its Hok Hsep fuel 0 Invalid [])
    as (ts & E & Hk); [lia|done|lia|].
  destruct (lex_loop_returns Hview fuel (render its) 0 Invalid [])
    as (r & E' & Hr); [unfold zbuf.size; lia|done|].
  rewrite E in E'. injection E' as <-. specialize (Hr ts eq_refl). simpl in Hr.
  unfold zbuf.size in Hr. rewrite Nat2Z.id in Hr.
  specialize (Hsp ts Hk).
  assert (ts <> []) as Hne.
  { intros ->. inversion Hsp as [? ? He|]; subst. by apply spells_nonempty in He. }
  unfold parse, lex. rewrite E. simpl.
  replace (zbuf.empty (render its)) with false.
  2:{ symmetry. apply bool_decide_eq_false. unfold zbuf.size. destruct ts; [done|].
      simpl in Hr. lia. }
  apply parse_tokens_grammar; [lia|done].
Qed.

Lemma print_parse_bound e flags fuel :
  Z.land flags FLAG_HASKELL_STYLE <> 0 ->
  statement e = true -> names_ok e = true ->
  zbuf.size (Printer.print e flags) < 2 ^ 64 ->
  (3 * String.length (Printer.print e flags) + 3 <= fuel)%nat ->
  parse fuel (Printer.print e flags) = Some (Ok e).
Proof.
  intros Hh Hst Hok. unfold Printer.print, Printer.highlight.
  change (Printer.mkState flags (fun _ _ => None) (fun _ _ => None) None ∅ [])
    with (plain_state flags ∅).
  destruct (decide (is_let e = true)) as [Hl|Hl].
  - destruct e as [| | |n v]; try done. simpl in Hst, Hok.
    apply andb_true_iff in Hok as [Hn Hok].
    unfold plain_state. cbn [Printer.int_highlight].
    cbn [Printer.pred Printer.arg_pred Printer.replacer Printer.ulines last].
    destruct (int_highlight_items flags v Hh Hst Hok ([] ++ [DValue]) false false ∅
                (Printer.add " = " (Printer.repeat 3 " ")
                   (Printer.add n (Printer.repeat (String.length n) " ")
                      (Printer.add "let " (Printer.repeat 4 " ") ("", "")))).1
                (Printer.add " = " (Printer.repeat 3 " ")
                   (Printer.add n (Printer.repeat (String.length n) " ")
                      (Printer.add "let " (Printer.repeat 4 " ") ("", "")))).2)
      as (its & ca' & bot' & E & Hi & Hs & Hg).
    unfold plain_state in E. cbn [Printer.add fst snd] in E.
    unfold Printer.add. cbn [fst snd]. rewrite E. cbn [fst snd].
    replace (((("" +:+ "let ") +:+ n) +:+ " = ") +:+ render its)
      with (render (ILet :: ISpace :: IName n :: ISpace :: IEqual :: ISpace :: its))
      by (str_norm; reflexivity).
    apply parse_items.
    + by repeat constructor.
    + apply (separated_app_nonword [ILet] ISpace); [done..|].
      apply (separated_app_nonword [IName n] ISpace); [done..|].
      apply separated_cons_nonword; [done|]. by apply separated_cons_nonword.
    + intros ts Hk. simpl in Hk.
      apply kinds_cons_inv in Hk as (l & ts1 & -> & Hl1 & _ & Hk).
      apply kinds_cons_inv in Hk as (name & ts2 & -> & Hl2 & <- & Hk).
      apply kinds_cons_inv in Hk as (eq & ts3 & -> & Hl3 & _ & Hk).
      apply spells_stmt_let; [done..|]. by eapply spelled_expr.
  - assert (no_let e = true) as Hnl by (by destruct e).
    destruct (int_highlight_items flags e Hh Hnl Hok [] false false ∅ "" "")
      as (its & ca' & bot' & E & Hi & Hs & Hg).
    rewrite E. cbn [fst snd]. rewrite string_app_nil_l.
    apply parse_items; [done..|].
    intros ts Hk. apply spells_stmt_expr. by eapply spelled_expr.
Qed.

End PrintParse.

(** X24: what [print] writes in the style of Haskell, with or without the
    abbreviations, [parse] reads back as the term that was printed. *)
Theorem X24_print_parse `{Utf8proc} (e : Expr) (flags : Z) (fuel : nat) :
  within_view -> reads_ascii ->
  Z.land flags FLAG_HASKELL_STYLE <> 0 ->
  statement e = true -> names_ok e = true ->
  zbuf.size (Printer.print e flags) < 2 ^ 64 ->
  (3 * String.length (Printer.print e flags) + 3 <= fuel)%nat ->
  parse fuel (Printer.print e flags) = Some (Parser.Ok e).
Proof. intros Hview Hascii. by apply print_parse_bound. Qed.

(** * The decoder of ASCII *)

Lemma ascii_within_view : @within_view ascii_utf8proc.
Proof.
  intros [|c s] sz cp; simpl; [by intros [= <- <-]|].
  destruct (decide _); intros [= <- <-]; [|done]. intros _.
  rewrite size_cons. pose proof (size_nonneg s). lia.
Qed.

Lemma ascii_reads_ascii : @reads_ascii ascii_utf8proc.
Proof.
  split; [|done]. intros c s Hc. simpl. by destruct (decide _).
Qed.

Lemma X22_lexer_located_witness :
  zbuf.size "(\x -> x) y" < 2 ^ 64
  /\ @lex ascii_utf8proc 20 "(\x -> x) y"
     = Some (Parser.Ok
         [Parser.mkToken (Parser.mkLocation 0 1) "(" Parser.LParen;
          Parser.mkToken (Parser.mkLocation 1 1) "\" Parser.TLambda;
          Parser.mkToken (Parser.mkLocation 2 1) "x" Parser.Identifier;
          Parser.mkToken (Parser.mkLocation 4 2) "->" Parser.RightArrow;
          Parser.mkToken (Parser.mkLocation 7 1) "x" Parser.Identifier;
          Parser.mkToken (Parser.mkLocation 8 1) ")" Parser.RParen;
          Parser.mkToken (Parser.mkLocation 10 1) "y" Parser.Identifier])
  /\ located "(\x -> x) y" 0
       [Parser.mkToken (Parser.mkLocation 0 1) "(" Parser.LParen;
        Parser.mkToken (Parser.mkLocation 1 1) "\" Parser.TLambda;
        Parser.mkToken (Parser.mkLocation 2 1) "x" Parser.Identifier;
        Parser.mkToken (Parser.mkLocation 4 2) "->" Parser.RightArrow;
        Parser.mkToken (Parser.mkLocation 7 1) "x" Parser.Identifier;
        Parser.mkToken (Parser.mkLocation 8 1) ")" Parser.RParen;
        Parser.mkToken (Parser.mkLocation 10 1) "y" Parser.Identifier] = true.
Proof.
  assert (zbuf.size "(\x -> x) y" < 2 ^ 64) as H1 by done.
  assert (@lex ascii_utf8proc 20 "(\x -> x) y"
          = Some (Parser.Ok
              [Parser.mkToken (Parser.mkLocation 0 1) "(" Parser.LParen;
               Parser.mkToken (Parser.mkLocation 1 1) "\" Parser.TLambda;
               Parser.mkToken (Parser.mkLocation 2 1) "x" Parser.Identifier;
               Parser.mkToken (Parser.mkLocation 4 2) "->" Parser.RightArrow;
               Parser.mkToken (Parser.mkLocation 7 1) "x" Parser.Identifier;
               Parser.mkToken (Parser.mkLocation 8 1) ")" Parser.RParen;
               Parser.mkToken (Parser.mkLocation 10 1) "y" Parser.Identifier])) as H2
    by (vm_compute; reflexivity).
  split; [exact H1|]. split; [exact H2|].
  exact (@X22_lexer_located ascii_utf8proc "(\x -> x) y" 20 _ H1 H2).
Defined.

Lemma X23_parse_returns_witness :
  (@within_view ascii_utf8proc /\ zbuf.size "(\x -> x) $" < 2 ^ 64
   /\ (3 * String.length "(\x -> x) $" + 3 <= 40)%nat)
  /\ exists r, @parse ascii_utf8proc 40 "(\x -> x) $" = Some r
               /\ @parse ascii_utf8proc (3 * String.length "(\x -> x) $" + 3) "(\x -> x) $"
                  = Some r.
Proof.
  assert (zbuf.size "(\x -> x) $" < 2 ^ 64) as H2 by done.
  assert (3 * String.length "(\x -> x) $" + 3 <= 40)%nat as H3 by (vm_compute; lia).
  split; [split; [apply ascii_within_view|done]|].
  exact (@X23_parse_returns ascii_utf8proc "(\x -> x) $" 40 ascii_within_view H2 H3).
Defined.

Lemma X24_print_parse_witness :
  (@within_view ascii_utf8proc /\ @reads_ascii ascii_utf8proc
   /\ Z.land 7 FLAG_HASKELL_STYLE <> 0
   /\ statement stmt_K = true /\ names_ok stmt_K = true
   /\ zbuf.size (Printer.print stmt_K 7) < 2 ^ 64
   /\ (3 * String.length (Printer.print stmt_K 7) + 3 <= 100)%nat)
  /\ @parse ascii_utf8proc 100 (Printer.print stmt_K 7) = Some (Parser.Ok stmt_K).
Proof.
  assert (Z.land 7 FLAG_HASKELL_STYLE <> 0) as H3 by done.
  assert (zbuf.size (Printer.print stmt_K 7) < 2 ^ 64) as H6 by (vm_compute; reflexivity).
  assert (3 * String.length (Printer.print stmt_K 7) + 3 <= 100)%nat as H7
    by (vm_compute; lia).
  split.
  { split; [apply ascii_within_view|]. split; [apply ascii_reads_ascii|].
    do 4 (split; [done|]). done. }
  exact (@X24_print_parse ascii_utf8proc stmt_K 7 100 ascii_within_view ascii_reads_ascii
           H3 eq_refl eq_refl H6 H7).
Defined.

(** * The predicates of the printer change the underline only *)

Section HighlightText.

Variable flags : Z.
Variables pred1 arg_pred1 pred2 arg_pred2 : list dir -> Expr -> option string.

Ltac both_calls IH :=
  unfold Printer.add; cbn [fst snd];
  match goal with
  | |- context [Printer.int_highlight ?e ?p ?c ?o (Printer.mkState _ pred1 _ _ ?ca ?ul1)
                  (?t, ?b1)] =>
      match goal with
      | |- context [Printer.int_highlight e p c o (Printer.mkState _ pred2 _ _ ca ?ul2)
                      (t, ?b2)] =>
          let ca' := fresh "ca" in
          let ul1' := fresh "ul1" in
          let ul2' := fresh "ul2" in
          let t' := fresh "t" in
          let b1' := fresh "b1" in
          let b2' := fresh "b2" in
          let E1 := fresh "E1" in
          let E2 := fresh "E2" in
          destruct (IH p c o ca ul1 ul2 t b1 b2)
            as (ca' & ul1' & ul2' & t' & b1' & b2' & E1 & E2);
          rewrite E1, E2; clear E1 E2
      end
  end.

Ltac printer_state' :=
  unfold Printer.set_combined_args, Printer.set_ulines, Printer.has;
  cbn [Printer.flags Printer.pred Printer.arg_pred Printer.replacer Printer.combined_args
         Printer.ulines].

(** The underline of a node, and the state in which the node is printed. *)
Lemma underline_state (pr ap : list dir -> Expr -> option string) ca ul p (e : Expr) :
  exists (pop : bool) under ul',
    match pr p e with
    | Some u => (true, u, Printer.mkState flags pr ap None ca (ul ++ [u]))
    | None =>
        match last ul with
        | Some u => (false, u, Printer.mkState flags pr ap None ca ul)
        | None => (false, " ", Printer.mkState flags pr ap None ca ul)
        end
    end = (pop, under, Printer.mkState flags pr ap None ca ul').
Proof. destruct (pr p e); [|destruct (last ul)]; eauto. Qed.

Lemma parameter_text (ap : list dir -> Expr -> option string) p (e : Expr) x under t b :
  exists b',
    match ap p e with
    | Some u => (t +:+ x, b +:+ Printer.repeat (String.length x) u)
    | None => (t +:+ x, b +:+ Printer.repeat (String.length x) under)
    end = (t +:+ x, b').
Proof. destruct (ap p e); eauto. Qed.

Ltac underlines e :=
  match goal with
  | |- context [match pred1 ?p e with _ => _ end] =>
      let pop1 := fresh "pop1" in
      let under1 := fresh "under1" in
      let E1 := fresh "E1" in
      match goal with
      | |- context [Printer.mkState flags pred1 arg_pred1 None ?ca ?ul] =>
          destruct (underline_state pred1 arg_pred1 ca ul p e) as (pop1 & under1 & ? & E1);
          rewrite E1; clear E1
      end
  end;
  match goal with
  | |- context [match pred2 ?p e with _ => _ end] =>
      let pop2 := fresh "pop2" in
      let under2 := fresh "under2" in
      let E2 := fresh "E2" in
      match goal with
      | |- context [Printer.mkState flags pred2 arg_pred2 None ?ca ?ul] =>
          destruct (underline_state pred2 arg_pred2 ca ul p e) as (pop2 & under2 & ? & E2);
          rewrite E2; clear E2
      end
  end.

Lemma int_highlight_text e :
  forall p combine omit ca ul1 ul2 t b1 b2,
    exists ca' ul1' ul2' t' b1' b2',
      Printer.int_highlight e p combine omit
        (Printer.mkState flags pred1 arg_pred1 None ca ul1) (t, b1)
      = (Printer.mkState flags pred1 arg_pred1 None ca' ul1', (t', b1'))
      /\ Printer.int_highlight e p combine omit
           (Printer.mkState flags pred2 arg_pred2 None ca ul2) (t, b2)
         = (Printer.mkState flags pred2 arg_pred2 None ca' ul2', (t', b2')).
Proof.
  induction e as [n|fn IHfn arg IHarg|x body IH|n v IHv];
    intros p combine omit ca ul1 ul2 t b1 b2; cbn [Printer.int_highlight]; printer_state'.
  - underlines (Var n). printer_state'. unfold Printer.add. cbn [fst snd].
    destruct pop1, pop2; printer_state'; eauto 10.
  - underlines (Apply fn arg). printer_state'.
    both_calls IHfn; printer_state'.
    destruct (negb (bool_decide (Z.land flags FLAG_ABBREV_PARENS <> 0))
              || negb (Printer.is_var arg)).
    all: both_calls IHarg; printer_state'; unfold Printer.add; cbn [fst snd].
    all: destruct pop1, pop2; printer_state'; eauto 10.
  - underlines (Lambda x body). printer_state'.
    destruct (arg_pred1 p (Lambda x body)), (arg_pred2 p (Lambda x body)).
    all: destruct (bool_decide (Z.land flags FLAG_ABBREV_LAMBDA <> 0)) eqn:HL; printer_state';
      rewrite ?HL;
      (destruct body as [m|f a|y b|m w];
       [| |try destruct (decide (y ∈ {[x]} ∪ ca))|]);
      printer_state'.
    all: destruct combine, omit; cbn [negb andb].
    all: destruct (bool_decide (Z.land flags FLAG_HASKELL_STYLE <> 0)).
    all: both_calls IH; printer_state'; unfold Printer.add; cbn [fst snd].
    all: destruct pop1, pop2; printer_state'; eauto 10.
  - underlines (Let n v). printer_state'.
    both_calls IHv; printer_state'.
    destruct pop1, pop2; printer_state'; eauto 10.
Qed.

End HighlightText.

(** X25: whatever the predicates underline, the text that [highlight] returns
    is the text that [print] returns. *)
Theorem X25_highlight_text (e : Expr) (pred arg_pred : list dir -> Expr -> option string)
    (flags : Z) :
  (Printer.highlight e pred arg_pred flags).1 = Printer.print e flags.
Proof.
  unfold Printer.print, Printer.highlight.
  destruct (int_highlight_text flags pred arg_pred (fun _ _ => None) (fun _ _ => None)
              e [] false false ∅ [] [] "" "" "")
    as (ca & ul1 & ul2 & t & b1 & b2 & E1 & E2).
  by rewrite E1, E2.
Qed.

(** * The lines of a file *)

Lemma eq_char (d c : ascii) : zbuf.eq (String d "") (String c "") = bool_decide (d = c).
Proof.
  unfold zbuf.eq. simpl. destruct (decide (d = c)) as [->|Hne].
  - rewrite bool_decide_eq_true_2 by done. by destruct (decide _).
  - by rewrite bool_decide_eq_false_2.
Qed.

Lemma substring_prefix (pre r : string) :
  substring 0 (String.length pre) (pre +:+ r) = pre.
Proof. apply (substring_app_mid "" pre r). Qed.

Lemma find_loop_char c front rem :
  zbuf.size (front +:+ rem) < 2 ^ 64 ->
  zbuf.find_loop (String.length rem) (zbuf.size front) (String c "") (front +:+ rem)
  = match position c rem with
    | Some k => zbuf.size front + Z.of_nat k
    | None => zbuf.npos
    end.
Proof.
  revert front. induction rem as [|d rem IH]; intros front Hs; [done|].
  cbn [String.length zbuf.find_loop position].
  rewrite drop_prefix. change (zbuf.size (String c "")) with 1.
  rewrite take_one by (rewrite size_app in Hs; pose proof (size_nonneg front); lia).
  rewrite eq_char. destruct (decide (d = c)) as [->|Hne].
  - rewrite bool_decide_eq_true_2 by done. lia.
  - rewrite bool_decide_eq_false_2 by done.
    specialize (IH (front +:+ String d "")).
    rewrite string_app_assoc, string_app_cons, string_app_nil_l in IH.
    rewrite (size_app front (String d "")) in IH.
    change (zbuf.size (String d "")) with 1 in IH.
    rewrite IH by done. destruct (position c rem); simpl; [lia|done].
Qed.

Lemma find_char_spec c s :
  zbuf.size s < 2 ^ 64 ->
  zbuf.find_char c s
  = match position c s with Some k => Z.of_nat k | None => zbuf.npos end.
Proof.
  intros Hs. unfold zbuf.find_char, zbuf.find. change (zbuf.size (String c "")) with 1.
  destruct (decide (1 > zbuf.size s)) as [Hgt|_].
  { pose proof (size_nonneg s). assert (s = "") as -> by (apply size_nil; lia). done. }
  change (zbuf.empty (String c "")) with false. cbn [negb].
  replace (Z.to_nat (1 + zbuf.size s - 1)) with (String.length s)
    by (unfold zbuf.size; lia).
  apply (find_loop_char c "" s Hs).
Qed.

Lemma position_bound c s k : position c s = Some k -> (k < String.length s)%nat.
Proof.
  revert k. induction s as [|d s IH]; intros k; simpl; [done|].
  destruct (decide (d = c)); [intros [= <-]; lia|].
  destruct (position c s) as [j|]; [|done]. intros [= <-]. specialize (IH j eq_refl). lia.
Qed.

Lemma position_split c s k :
  position c s = Some k ->
  exists pre post, s = pre +:+ String c post /\ String.length pre = k
                   /\ position c pre = None.
Proof.
  revert k. induction s as [|d s IH]; intros k; simpl; [done|].
  destruct (decide (d = c)) as [->|Hne].
  - intros [= <-]. by exists "", s.
  - destruct (position c s) as [j|]; [|done]. intros [= <-].
    destruct (IH j eq_refl) as (pre & post & -> & <- & Hp).
    exists (String d pre), post. repeat split. simpl.
    destruct (decide (d = c)); [done|]. by rewrite Hp.
Qed.

Lemma position_is_line s : position newline s = None -> is_line s = true.
Proof.
  induction s as [|d s IH]; simpl; [done|].
  destruct (decide (d = newline)); [done|].
  destruct (position newline s); [done|]. intros _.
  rewrite bool_decide_eq_true_2 by done. by apply IH.
Qed.

Lemma unlines_app ls1 ls2 : unlines (ls1 ++ ls2) = unlines ls1 +:+ unlines ls2.
Proof.
  induction ls1 as [|l ls1 IH]; [done|]. simpl.
  by rewrite IH, string_app_assoc, string_app_cons.
Qed.

Lemma concat_snoc ls r :
  String.concat (String newline "") (ls ++ [r]) = unlines ls +:+ r.
Proof.
  induction ls as [|l ls IH]; [done|].
  change ((l :: ls) ++ [r]) with (l :: (ls ++ [r])).
  destruct (ls ++ [r]) as [|x xs] eqn:E; [by destruct ls|].
  change (String.concat (String newline "") (l :: x :: xs))
    with (l +:+ String newline "" +:+ String.concat (String newline "") (x :: xs)).
  rewrite IH. cbn [unlines].
  by rewrite string_app_assoc, !string_app_cons, string_app_nil_l.
Qed.

Lemma split_string_loop_spec fuel view ret :
  zbuf.size view < 2 ^ 64 -> (String.length view < fuel)%nat ->
  exists rest ls,
    split_string_loop fuel view ret = Some (rest, ret ++ ls)
    /\ Forall (fun l => is_line l = true) ls /\ is_line rest = true
    /\ view = unlines ls +:+ rest.
Proof.
  revert view ret. induction fuel as [|fuel IH]; intros view ret Hs Hf; [lia|].
  cbn [split_string_loop]. destruct (zbuf.empty view) eqn:Ee; cbn [negb].
  { exists view, []. rewrite app_nil_r. repeat split; [done|].
    unfold zbuf.empty in Ee. apply bool_decide_eq_true in Ee. by rewrite (size_nil _ Ee). }
  rewrite find_char_spec by done.
  destruct (position newline view) as [k|] eqn:Ep.
  - pose proof (position_bound _ _ _ Ep) as Hk.
    destruct (position_split _ _ _ Ep) as (pre & post & -> & <- & Hpre).
    rewrite string_length_app in Hk, Hf. simpl in Hf.
    assert (zbuf.size (pre +:+ String newline post) = zbuf.size pre + 1 + zbuf.size post) as Eq
      by (rewrite size_app, size_cons; lia).
    pose proof (size_nonneg post). pose proof (size_nonneg pre).
    destruct (decide _) as [_|Hn].
    2:{ exfalso. apply Hn. intros E. unfold zbuf.size in *. rewrite npos_eq in E. lia. }
    rewrite size_t_small by (unfold zbuf.size in *; lia).
    unfold zbuf.remove_prefix, zbuf.str_view. rewrite Nat2Z.id.
    rewrite substring_prefix.
    replace (Z.of_nat (String.length pre) + 1) with (zbuf.size (pre +:+ String newline ""))
      by (rewrite size_app; unfold zbuf.size; simpl; lia).
    replace (pre +:+ String newline post) with ((pre +:+ String newline "") +:+ post)
      by (by rewrite string_app_assoc, string_app_cons, string_app_nil_l).
    rewrite drop_prefix.
    destruct (IH post (ret ++ [pre])) as (rest & ls & E & Hl & Hr & ->); [lia|lia|].
    exists rest, (pre :: ls). rewrite E, <- app_assoc. repeat split; [|done|].
    + constructor; [by apply position_is_line|done].
    + simpl. by rewrite !string_app_assoc, string_app_cons, string_app_nil_l.
  - destruct (decide _) as [Hn|_]; [done|]. exists view, []. rewrite app_nil_r.
    repeat split; [done|]. by apply position_is_line.
Qed.

Lemma split_string_spec fuel view :
  zbuf.size view < 2 ^ 64 -> (String.length view < fuel)%nat ->
  exists ls, split_string fuel view = Some ls
    /\ Forall (fun l => is_line l = true) ls
    /\ (String.concat (String newline "") ls = view
        \/ String.concat (String newline "") ls +:+ String newline "" = view).
Proof.
  intros Hs Hf. unfold split_string.
  destruct (split_string_loop_spec fuel view [] Hs Hf) as (rest & ls & -> & Hl & Hr & ->).
  simpl. destruct (zbuf.empty rest) eqn:Ee; cbn [negb].
  - unfold zbuf.empty in Ee. apply bool_decide_eq_true in Ee. rewrite (size_nil _ Ee).
    exists ls. repeat split; [done|]. rewrite string_app_nil_r.
    destruct ls as [|l ls _] using rev_ind; [by left|]. right.
    rewrite concat_snoc, unlines_app. cbn [unlines]. by rewrite string_app_assoc.
  - exists (ls ++ [zbuf.str_view rest (zbuf.size rest)]).
    assert (zbuf.str_view rest (zbuf.size rest) = rest) as ->.
    { unfold zbuf.str_view, zbuf.size. rewrite Nat2Z.id. apply substring_all. }
    repeat split.
    + apply Forall_app. split; [done|]. by constructor.
    + left. apply concat_snoc.
Qed.

(** X26: [split_string] returns the lines of a text: none holds a newline,
    and put together with newlines between them they are the text, but for
    one newline at its end. *)
Theorem X26_split_string (fuel : nat) (view : string) :
  zbuf.size view < 2 ^ 64 -> (String.length view < fuel)%nat ->
  exists ls, split_string fuel view = Some ls
    /\ Forall (fun l => is_line l = true) ls
    /\ (String.concat (String newline "") ls = view
        \/ String.concat (String newline "") ls +:+ String newline "" = view).
Proof. apply split_string_spec. Qed.

Lemma X26_split_string_witness :
  (zbuf.size ("let I = \x -> x" +:+ String newline ("" +:+ String newline "I I")) < 2 ^ 64
   /\ (String.length ("let I = \x -> x" +:+ String newline ("" +:+ String newline "I I"))
       < 30)%nat)
  /\ exists ls,
       split_string 30 ("let I = \x -> x" +:+ String newline ("" +:+ String newline "I I"))
       = Some ls
       /\ Forall (fun l => is_line l = true) ls
       /\ (String.concat (String newline "") ls
           = "let I = \x -> x" +:+ String newline ("" +:+ String newline "I I")
           \/ String.concat (String newline "") ls +:+ String newline ""
              = "let I = \x -> x" +:+ String newline ("" +:+ String newline "I I")).
Proof.
  assert (zbuf.size ("let I = \x -> x" +:+ String newline ("" +:+ String newline "I I"))
          < 2 ^ 64) as H1 by (vm_compute; reflexivity).
  assert (String.length ("let I = \x -> x" +:+ String newline ("" +:+ String newline "I I"))
          < 30)%nat as H2 by (vm_compute; lia).
  split; [done|].
  exact (X26_split_string 30 _ H1 H2).
Defined.

(** * Trimming a line *)

Lemma string_snoc_inv (t : string) :
  t <> "" -> exists t' c, t = t' +:+ String c "".
Proof.
  induction t as [|d t IH]; [done|]. intros _. destruct t as [|e t].
  - by exists "", d.
  - destruct IH as (t' & c & ->); [done|]. by exists (String d t'), c.
Qed.

Lemma blanks_app (a b : string) : blanks (a +:+ b) = blanks a && blanks b.
Proof.
  induction a as [|c a IH]; [done|]. rewrite string_app_cons. simpl.
  by rewrite IH, andb_assoc.
Qed.

Lemma strip_back_snoc (t : string) (c : ascii) :
  strip_back (t +:+ String c "")
  = if View.blank c then strip_back t else t +:+ String c "".
Proof.
  induction t as [|d t IH].
  - rewrite string_app_nil_l. simpl. rewrite andb_true_r. by destruct (View.blank c).
  - rewrite string_app_cons. cbn [strip_back]. rewrite IH.
    change (blanks (String d (t +:+ String c "")))
      with (View.blank d && blanks (t +:+ String c "")).
    rewrite blanks_app. simpl. rewrite andb_true_r.
    by destruct (View.blank c); rewrite ?andb_true_r, ?andb_false_r.
Qed.

Lemma stands_app mem p (a b : string) :
  stands mem p (a +:+ b) <-> stands mem p a /\ stands mem (p + zbuf.size a) b.
Proof.
  revert p. induction a as [|c a IH]; intros p.
  - rewrite string_app_nil_l. change (zbuf.size "") with 0. rewrite Z.add_0_r.
    simpl. tauto.
  - rewrite string_app_cons. cbn [stands]. rewrite IH, size_cons.
    replace (p + (1 + zbuf.size a)) with (p + 1 + zbuf.size a) by lia. tauto.
Qed.

Lemma strip_front_blanks (s : string) : blanks s = false -> blanks (strip_front s) = false.
Proof.
  induction s as [|c s IH]; [done|]. simpl. destruct (View.blank c) eqn:E; simpl; [done|].
  by rewrite E.
Qed.

Section TrimFacts.

Variable mem : Z -> ascii.
Variable empty_literal : Z.

Lemma remove_prefix_one p n :
  0 <= p -> 1 <= n -> p + n < 2 ^ 64 ->
  View.remove_prefix empty_literal 1 (View.mk p n) = View.mk (p + 1) (n - 1).
Proof.
  intros Hp Hn Hb. unfold View.remove_prefix, View.drop, View.substr, View.size. simpl.
  destruct (decide (n >= 1)); [|lia]. rewrite size_t_small by lia.
  destruct (decide (n - 1 = zbuf.npos)) as [E|_]; [rewrite npos_eq in E; lia|done].
Qed.

Lemma remove_suffix_one p n :
  0 <= p -> 1 <= n -> p + n < 2 ^ 64 ->
  View.remove_suffix 1 (View.mk p n) = View.mk p (n - 1).
Proof.
  intros Hp Hn Hb. unfold View.remove_suffix, View.drop_last, View.substr, View.size. simpl.
  destruct (decide (n >= 1)); [|lia]. rewrite Z.add_0_r, size_t_small by lia.
  destruct (decide (n - 1 = zbuf.npos)) as [E|_]; [rewrite npos_eq in E; lia|done].
Qed.

Lemma back_last p (t : string) (c : ascii) :
  0 <= p -> p + zbuf.size (t +:+ String c "") < 2 ^ 64 ->
  stands mem p (t +:+ String c "") ->
  View.back mem (View.mk p (zbuf.size (t +:+ String c ""))) = c.
Proof.
  intros Hp Hb Hst. unfold View.back. simpl. rewrite size_app in *.
  change (zbuf.size (String c "")) with 1 in *. pose proof (size_nonneg t).
  rewrite (size_t_small (zbuf.size t + 1 - 1)) by lia.
  rewrite size_t_small by lia. apply stands_app in Hst as [_ Hc]. simpl in Hc.
  replace (p + (zbuf.size t + 1 - 1)) with (p + zbuf.size t) by lia. tauto.
Qed.

Lemma trim_front_spec fuel p (s : string) :
  0 <= p -> p + zbuf.size s < 2 ^ 64 -> stands mem p s -> blanks s = false ->
  (String.length s < fuel)%nat ->
  exists p',
    View.trim_front mem empty_literal fuel (View.mk p (zbuf.size s))
    = Some (View.mk p' (zbuf.size (strip_front s)))
    /\ 0 <= p' /\ p' + zbuf.size (strip_front s) < 2 ^ 64
    /\ stands mem p' (strip_front s).
Proof.
  revert fuel p. induction s as [|c s IH]; intros fuel p Hp Hb Hst Hbl Hf; [done|].
  destruct fuel as [|fuel]; [lia|]. cbn [View.trim_front]. unfold View.front. simpl View.ptr.
  destruct Hst as [Hc Hst]. rewrite Hc. cbn [strip_front blanks] in *.
  rewrite size_cons in *. pose proof (size_nonneg s).
  destruct (View.blank c) eqn:Ec.
  - rewrite remove_prefix_one by lia. replace (1 + zbuf.size s - 1) with (zbuf.size s) by lia.
    apply IH; simpl in *; (done || lia).
  - exists p. rewrite size_cons. repeat split; (done || lia).
Qed.

Lemma trim_back_spec fuel p (t : string) :
  0 <= p -> p + zbuf.size t < 2 ^ 64 -> stands mem p t -> blanks t = false ->
  (String.length t < fuel)%nat ->
  View.trim_back mem fuel (View.mk p (zbuf.size t))
  = Some (View.mk p (zbuf.size (strip_back t)))
  /\ stands mem p (strip_back t).
Proof.
  revert t. induction fuel as [|fuel IH]; intros t Hp Hb Hst Hbl Hf; [lia|].
  destruct (string_snoc_inv t) as (t' & c & ->); [by intros ->|].
  cbn [View.trim_back]. rewrite back_last by done. rewrite strip_back_snoc.
  rewrite blanks_app in Hbl. simpl in Hbl. rewrite andb_true_r in Hbl.
  rewrite size_app in *. change (zbuf.size (String c "")) with 1 in *.
  rewrite string_length_app in Hf. simpl in Hf. pose proof (size_nonneg t').
  apply stands_app in Hst as Hst'. destruct Hst' as [Hst' _].
  destruct (View.blank c) eqn:Ec.
  - rewrite remove_suffix_one by lia.
    replace (zbuf.size t' + 1 - 1) with (zbuf.size t') by lia.
    apply IH; try done; try lia. by rewrite andb_true_r in Hbl.
  - by rewrite size_app.
Qed.

Lemma trim_spec fuel p (s : string) :
  0 <= p -> p + zbuf.size s < 2 ^ 64 -> stands mem p s -> blanks s = false ->
  (String.length s < fuel)%nat ->
  exists v,
    View.trim mem empty_literal fuel (View.mk p (zbuf.size s)) = Some v
    /\ View.len v = zbuf.size (strip s) /\ stands mem (View.ptr v) (strip s).
Proof.
  intros Hp Hb Hst Hbl Hf. unfold View.trim.
  destruct (trim_front_spec fuel p s Hp Hb Hst Hbl Hf) as (p' & -> & Hp' & Hb' & Hst').
  simpl.
  assert (String.length (strip_front s) <= String.length s)%nat as Hle.
  { clear. induction s as [|c s IH]; simpl; [done|]. destruct (View.blank c); simpl; lia. }
  destruct (trim_back_spec fuel p' (strip_front s)) as [-> Hst'']; try done.
  - by apply strip_front_blanks.
  - lia.
  - by eexists.
Qed.

(** A view of spaces and tabs only. *)
Lemma trim_front_blanks fuel p (s : string) :
  0 <= p -> p + zbuf.size s < 2 ^ 64 -> stands mem p s -> blanks s = true ->
  View.blank (mem (p + zbuf.size s)) = false ->
  View.trim_front mem empty_literal fuel (View.mk p (zbuf.size s))
  = if decide (String.length s < fuel)%nat then Some (View.mk (p + zbuf.size s) 0) else None.
Proof.
  revert fuel p. induction s as [|c s IH]; intros fuel p Hp Hb Hst Hbl Hn.
  - change (zbuf.size "") with 0 in *. rewrite Z.add_0_r in *.
    destruct fuel as [|fuel]; [done|]. simpl. unfold View.front. simpl. by rewrite Hn.
  - destruct fuel as [|fuel]; [done|]. cbn [View.trim_front]. unfold View.front.
    simpl View.ptr. destruct Hst as [Hc Hst]. rewrite Hc.
    simpl in Hbl. apply andb_true_iff in Hbl as [Ec Hbl]. rewrite Ec.
    rewrite size_cons in *. pose proof (size_nonneg s).
    rewrite remove_prefix_one by lia. replace (1 + zbuf.size s - 1) with (zbuf.size s) by lia.
    rewrite IH; try done; try lia.
    + replace (p + 1 + zbuf.size s) with (p + (1 + zbuf.size s)) by lia.
      simpl. destruct (decide _), (decide _); (done || lia).
    + by replace (p + 1 + zbuf.size s) with (p + (1 + zbuf.size s)) by lia.
Qed.

Lemma trim_back_stuck fuel p :
  1 <= p < 2 ^ 64 -> View.blank (mem (p - 1)) = true ->
  View.trim_back mem fuel (View.mk p 0) = None.
Proof.
  intros Hp Hb. induction fuel as [|fuel IH]; [done|]. cbn [View.trim_back].
  assert (View.back mem (View.mk p 0) = mem (p - 1)) as ->.
  { unfold View.back. simpl. f_equal. unfold zbuf.size_t.
    change ((0 - 1) mod 2 ^ 64) with (2 ^ 64 - 1).
    replace (p + (2 ^ 64 - 1)) with (p - 1 + 1 * 2 ^ 64) by lia.
    rewrite Z.mod_add by lia. apply Z.mod_small. lia. }
  rewrite Hb. unfold View.remove_suffix, View.drop_last, View.size. simpl.
  destruct (decide (0 >= 1)); [lia|]. done.
Qed.

Lemma trim_blanks fuel p (s : string) :
  0 <= p -> p + zbuf.size s < 2 ^ 64 -> stands mem p s ->
  s <> "" -> blanks s = true -> View.blank (mem (p + zbuf.size s)) = false ->
  View.trim mem empty_literal fuel (View.mk p (zbuf.size s)) = None.
Proof.
  intros Hp Hb Hst Hne Hbl Hn. unfold View.trim.
  rewrite trim_front_blanks by done. destruct (decide _); [|done]. simpl.
  destruct (string_snoc_inv s Hne) as (t & c & ->).
  rewrite blanks_app in Hbl. apply andb_true_iff in Hbl as [_ Hc]. simpl in Hc.
  rewrite andb_true_r in Hc. apply stands_app in Hst as [_ [Hm _]].
  rewrite size_app in *. change (zbuf.size (String c "")) with 1 in *.
  pose proof (size_nonneg t). apply trim_back_stuck; [lia|].
  replace (p + (zbuf.size t + 1) - 1) with (p + zbuf.size t) by lia. by rewrite Hm.
Qed.

End TrimFacts.

(** X27: [trim] of a line that holds more than spaces and tabs returns the
    view of the line without the spaces and tabs at its two ends. *)
Theorem X27_trim (mem : Z -> ascii) (empty_literal : Z) (fuel : nat) (p : Z) (s : string) :
  0 <= p -> p + zbuf.size s < 2 ^ 64 -> stands mem p s -> blanks s = false ->
  (String.length s < fuel)%nat ->
  exists v,
    View.trim mem empty_literal fuel (View.mk p (zbuf.size s)) = Some v
    /\ View.len v = zbuf.size (strip s) /\ stands mem (View.ptr v) (strip s).
Proof. apply trim_spec. Qed.

(** X28: [trim] of a line of spaces and tabs only does not return: when the
    view is empty, the last byte that [back] reads is the space before it,
    and [remove_suffix] leaves an empty view as it is. *)
Theorem X28_trim_blank_line (mem : Z -> ascii) (empty_literal : Z) (fuel : nat) (p : Z)
    (s : string) :
  0 <= p -> p + zbuf.size s < 2 ^ 64 -> stands mem p s ->
  s <> "" -> blanks s = true -> View.blank (mem (p + zbuf.size s)) = false ->
  View.trim mem empty_literal fuel (View.mk p (zbuf.size s)) = None.
Proof. apply trim_blanks. Qed.

Lemma X27_trim_witness :
  (0 <= 100 /\ 100 + zbuf.size "  I x " < 2 ^ 64
   /\ stands (memory_of 100 "  I x ") 100 "  I x "
   /\ blanks "  I x " = false
   /\ (String.length "  I x " < 10)%nat)
  /\ exists v,
       View.trim (memory_of 100 "  I x ") 0 10 (View.mk 100 (zbuf.size "  I x ")) = Some v
       /\ View.len v = zbuf.size (strip "  I x ")
       /\ stands (memory_of 100 "  I x ") (View.ptr v) (strip "  I x ").
Proof.
  assert (0 <= 100) as H1 by lia.
  assert (100 + zbuf.size "  I x " < 2 ^ 64) as H2 by (vm_compute; reflexivity).
  assert (stands (memory_of 100 "  I x ") 100 "  I x ") as H3
    by (vm_compute; repeat split).
  assert (String.length "  I x " < 10)%nat as H5 by (vm_compute; lia).
  split; [done|].
  exact (X27_trim (memory_of 100 "  I x ") 0 10 100 "  I x " H1 H2 H3 eq_refl H5).
Defined.

Lemma X28_trim_blank_line_witness :
  (0 <= 100 /\ 100 + zbuf.size "  " < 2 ^ 64
   /\ stands (memory_of 100 "  ") 100 "  "
   /\ "  " <> "" /\ blanks "  " = true
   /\ View.blank (memory_of 100 "  " (100 + zbuf.size "  ")) = false)
  /\ View.trim (memory_of 100 "  ") 0 1000 (View.mk 100 (zbuf.size "  ")) = None.
Proof.
  assert (0 <= 100) as H1 by lia.
  assert (100 + zbuf.size "  " < 2 ^ 64) as H2 by (vm_compute; reflexivity).
  assert (stands (memory_of 100 "  ") 100 "  ") as H3 by (vm_compute; repeat split).
  assert ("  " <> "") as H4 by done.
  split; [done|].
  exact (X28_trim_blank_line (memory_of 100 "  ") 0 1000 100 "  " H1 H2 H3 H4 eq_refl eq_refl).
Defined.

(** * Where the lexer gives up *)

Section LexerErrors.

Import Parser.

Context `{Utf8proc}.



End LexerErrors.


